(** * Scoring and annotation engine of the Brainz education platform

    A shallow embedding of the scoring, annotation-parsing, badge-ledger and
    completion logic of [server/routes.ts], [client/src/lib/badge-service]
    and [client/src/components/ThoughtZombiesGame.tsx], with the properties
    the specification states about them; and of the accounts and passwords
    of [server/auth.ts], the queries behind the leaderboard, the dashboard
    and the questionnaire, and the sessions of the clients, with further
    properties of the code.

    Conventions.
    - A JavaScript string is a list of UTF-16 code units ([str]); a code
      unit is a natural number ([cu]).  Literals are written as Rocq
      strings and injected with [codes].
    - A JavaScript number read from a text is a [number]: [NaN], an
      infinity, or a finite double with an integer value, kept as that
      integer; sums are rounded as the doubles of the source are.  The
      integer columns of the store are 32-bit and kept as [Z].
    - The relational store is a record of tables (lists of rows); every
      handler takes the store and returns its reply with the new store.
      Where a handler sends the database a value of the request (the
      badge ledger, the score update, the display name), a statement
      the database refuses (a foreign key without its row, a text that
      does not fit its column, an integer past 32 bits) makes the
      handler take its error path and leaves the store as it was.
    - A regular expression is an abstract syntax tree run by a
      continuation-passing backtracking matcher, the formulation of the
      ECMAScript specification. *)

From Stdlib Require Import String Ascii.
From Stdlib Require Import ZArith NArith Bool Arith Lia List Permutation Sorted.
From Stdlib Require Strings.Byte.
Import ListNotations.

(* ================================================================== *)
(** * Part I: definitions *)
(* ================================================================== *)

(** ** Strings as code-unit lists *)

Definition cu := N.
Definition str := list cu.

Definition codes (s : string) : str :=
  map N_of_ascii (list_ascii_of_string s).

(** [codes], an apostrophe in the literal standing for the double-quote
    character. *)
Definition codesq (s : string) : str :=
  map (fun ch => if (ch =? 39)%N then 34%N else ch) (codes s).

Definition cu_eqb (a b : cu) : bool := N.eqb a b.

Fixpoint str_eqb (a b : str) : bool :=
  match a, b with
  | [], [] => true
  | x :: a', y :: b' => cu_eqb x y && str_eqb a' b'
  | _, _ => false
  end.

(** [WhiteSpace] and [LineTerminator] code units: the class [\s] of a
    regular expression and the characters [String.prototype.trim] strips. *)
Definition is_space (ch : cu) : bool :=
  ((9 <=? ch) && (ch <=? 13) || (ch =? 32) || (ch =? 160) || (ch =? 5760)
   || (8192 <=? ch) && (ch <=? 8202) || (ch =? 8232) || (ch =? 8233)
   || (ch =? 8239) || (ch =? 8287) || (ch =? 12288) || (ch =? 65279))%N.

Definition is_digit (ch : cu) : bool := ((48 <=? ch) && (ch <=? 57))%N.

Definition is_line_terminator (ch : cu) : bool :=
  ((ch =? 10) || (ch =? 13) || (ch =? 8232) || (ch =? 8233))%N.

Definition is_upper (ch : cu) : bool := ((65 <=? ch) && (ch <=? 90))%N.
Definition is_lower (ch : cu) : bool := ((97 <=? ch) && (ch <=? 122))%N.

(** [String.prototype.toLowerCase] and the regular-expression
    [Canonicalize] (upper-casing), on the ASCII letters.  Without the [u]
    flag [Canonicalize] never maps a code unit above 127 to one below 128,
    and the patterns of this program name ASCII characters and [\s] only,
    so no comparison made by a matcher depends on the mapping above 127;
    [toLowerCase] is applied to ASCII captures only. *)
Definition toLowerCase_cu (ch : cu) : cu := if is_upper ch then (ch + 32)%N else ch.
Definition canonicalize (ch : cu) : cu := if is_lower ch then (ch - 32)%N else ch.
Definition toLowerCase (s : str) : str := map toLowerCase_cu s.

Fixpoint trimStart (s : str) : str :=
  match s with
  | ch :: s' => if is_space ch then trimStart s' else s
  | [] => []
  end.

Definition trimEnd (s : str) : str := rev (trimStart (rev s)).

(** [String.prototype.trim] *)
Definition trim (s : str) : str := trimEnd (trimStart s).

(** ** Numbers *)

(** A number of the source language whose value is an integer: [NaN], a
    finite double with an integer value, or an infinity.  (The two zeros
    are not told apart: the program never divides by a number it read,
    and [JSON.stringify] prints both as [0].) *)
Inductive number :=
| NaN
| Num (z : Z)
| Infinity
| NegInfinity.

(** The double nearest to a natural number, ties to the even significand
    (roundTiesToEven): exact below 2^53; from there on the number lies in
    a binade [2^e, 2^(e+1)) whose doubles are the multiples of
    [2^(e-52)]. *)
Definition roundTiesToEven (n : Z) : Z :=
  if (n <? 2 ^ 53)%Z then n
  else
    let u := (2 ^ (Z.log2 n - 52))%Z in
    let q := (n / u)%Z in
    let r := (n mod u)%Z in
    if (2 * r <? u)%Z then (q * u)%Z
    else if (u <? 2 * r)%Z then ((q + 1) * u)%Z
    else if Z.even q then (q * u)%Z else ((q + 1) * u)%Z.

(** The number an integer is read or computed as: the nearest double, an
    infinity from 2^1024 on. *)
Definition to_double (z : Z) : number :=
  let m := roundTiesToEven (Z.abs z) in
  if (2 ^ 1024 <=? m)%Z then (if (z <? 0)%Z then NegInfinity else Infinity)
  else Num (if (z <? 0)%Z then (- m)%Z else m).

(** The integers that are values of doubles: a significand of at most
    53 bits times a power of two, below 2^1024 in magnitude. *)
Definition double_value (d : Z) : Prop :=
  exists m e : Z,
    (0 <= e)%Z /\ (Z.abs m < 2 ^ 53)%Z /\ d = (m * 2 ^ e)%Z /\
    (Z.abs d < 2 ^ 1024)%Z.

(** The values of the type that are numbers of the language. *)
Definition is_double (x : number) : Prop :=
  match x with
  | Num z => to_double z = Num z
  | _ => True
  end.

Definition digit_value (ch : cu) : Z := Z.of_N (ch - 48).

Fixpoint take_digits (s : str) : str :=
  match s with
  | ch :: s' => if is_digit ch then ch :: take_digits s' else []
  | [] => []
  end.

Definition decimal (ds : str) : Z :=
  fold_left (fun acc ch => 10 * acc + digit_value ch)%Z ds 0%Z.

(** [parseInt(s)] and [parseInt(s, 10)]: leading white space is skipped, an
    optional sign is read, then the longest run of decimal digits; [NaN]
    when there is none, else the double nearest to the integer the digits
    write.  (With no radix the source function would read a [0x] prefix
    as hexadecimal; every argument in this program is a capture of [\d+],
    where both calls agree.  Past 20 significant digits ECMAScript leaves
    the precision to the engine; V8, SpiderMonkey and JavaScriptCore
    round the exact value.) *)
Definition parseInt (s : str) : number :=
  let s1 := trimStart s in
  let '(neg, s2) :=
    match s1 with
    | ch :: r =>
        if (ch =? 45)%N then (true, r)          (* - *)
        else if (ch =? 43)%N then (false, r)    (* + *)
        else (false, s1)
    | [] => (false, s1)
    end in
  match take_digits s2 with
  | [] => NaN
  | ds => to_double (if neg then (- decimal ds)%Z else decimal ds)
  end.

(** [a + b] on numbers: the sum of two finite numbers is rounded. *)
Definition num_add (a b : number) : number :=
  match a, b with
  | NaN, _ | _, NaN => NaN
  | Num x, Num y => to_double (x + y)
  | Infinity, NegInfinity | NegInfinity, Infinity => NaN
  | Infinity, _ | _, Infinity => Infinity
  | NegInfinity, _ | _, NegInfinity => NegInfinity
  end.

(** [x >= k] and [x <= y] *)
Definition num_geb (x : number) (k : Z) : bool :=
  match x with
  | NaN | NegInfinity => false
  | Num z => (k <=? z)%Z
  | Infinity => true
  end.

Definition num_leb (x y : number) : bool :=
  match x, y with
  | NaN, _ | _, NaN => false
  | NegInfinity, _ | _, Infinity => true
  | Num a, Num b => (a <=? b)%Z
  | _, _ => false
  end.

(** A number that is not negative: a finite one from 0 on, or
    [Infinity]. *)
Definition not_negative (x : number) : Prop :=
  (exists n, x = Num n /\ (0 <= n)%Z) \/ x = Infinity.

(** [x || 0] on a number: [NaN] and [0] are falsy. *)
Definition num_or_zero (x : number) : number :=
  match x with NaN => Num 0 | _ => x end.

(** A number as [JSON.stringify] writes it and [JSON.parse] reads it
    back: [NaN] and the infinities become [null]. *)
Definition json_number (x : number) : option Z :=
  match x with Num z => Some z | _ => None end.

(** [x || 0] on a value that is an integer, [null] or [undefined]. *)
Definition or_zero (x : option Z) : Z :=
  match x with Some z => z | None => 0%Z end.

Definition sumZ (l : list Z) : Z := fold_right Z.add 0%Z l.

(** ** Insertion-ordered [Map] and [Set] of the source language *)

Definition JsMap (V : Type) := list (Z * V).

Fixpoint map_set {V} (k : Z) (v : V) (mp : JsMap V) : JsMap V :=
  match mp with
  | [] => [(k, v)]
  | (k', v') :: mp' =>
      if (k =? k')%Z then (k, v) :: mp' else (k', v') :: map_set k v mp'
  end.

Fixpoint map_get {V} (k : Z) (mp : JsMap V) : option V :=
  match mp with
  | [] => None
  | (k', v') :: mp' => if (k =? k')%Z then Some v' else map_get k mp'
  end.

(** [new Map(entries)]: entries are set in order, a later one overwrites. *)
Definition new_Map {V} (entries : list (Z * V)) : JsMap V :=
  fold_left (fun mp kv => map_set (fst kv) (snd kv) mp) entries [].

(** [new Set(values)], kept as the list of its distinct members. *)
Definition new_Set (values : list Z) : list Z := nodup Z.eq_dec values.

Definition set_size (s : list Z) : Z := Z.of_nat (length s).

(** ** Questionnaire scorer *)

Record Response := { questionId : Z; response : Z }.

(** A row of [aot_questions], as selected by the handler ([id],
    [isReversed]). *)
Record Question := { q_id : Z; isReversed : bool }.

(** [calculateAOTScore], server/routes.ts; [None] is the source's [null]. *)
Definition calculateAOTScore (responses : list Response)
    (questions : list Question) : option Z :=
  let answeredQuestions := new_Set (map questionId responses) in
  let totalQuestions := Z.of_nat (length questions) in
  if negb (set_size answeredQuestions =? totalQuestions)%Z then None
  else
    let reversedMap := new_Map (map (fun q => (q_id q, isReversed q)) questions) in
    Some (fold_left
            (fun totalScore r =>
               let validResponse := Z.min (Z.max (response r) 1) 6 in
               let isRev :=
                 match map_get (questionId r) reversedMap with
                 | Some b => b
                 | None => false
                 end in
               let questionScore :=
                 if isRev then (7 - validResponse)%Z else validResponse in
               (totalScore + questionScore)%Z)
            responses 0%Z).

(** ** The store *)

Record User := {
  user_id : Z;
  totalScore : Z;
  hasCompletedQuestionnaire : bool;
  aotScore : option Z
}.

Record Badge := {
  badge_id : Z;
  badge_name : str;
  badge_description : str;
  badge_imageUrl : str
}.

Record UserBadge := {
  ub_userId : Z;
  ub_badgeId : Z;
  ub_gameType : str
}.

Record Db := {
  users : list User;
  badges : list Badge;
  userBadges : list UserBadge
}.

(** [select().from(users).where(eq(users.id, id)).limit(1)] *)
Definition select_user (db : Db) (uid : Z) : option User :=
  find (fun u => (user_id u =? uid)%Z) (users db).

(** [select().from(badges).where(eq(badges.name, name)).limit(1)] *)
Definition select_badge (db : Db) (name : str) : option Badge :=
  find (fun b => str_eqb (badge_name b) name) (badges db).

(** [select().from(userBadges).where(and(eq(userId), eq(badgeId)))] *)
Definition select_userBadges (db : Db) (uid bid : Z) : list UserBadge :=
  filter (fun r => (ub_userId r =? uid)%Z && (ub_badgeId r =? bid)%Z)
         (userBadges db).

Definition insert_userBadge (db : Db) (row : UserBadge) : Db :=
  {| users := users db; badges := badges db;
     userBadges := userBadges db ++ [row] |}.

(** *** What the database accepts

    The server refuses a text that holds U+0000.  A [varchar(n)]
    column takes at most [n] characters, a surrogate pair being one; of
    a longer text it drops the excess when that is all spaces (U+0020)
    and refuses the text otherwise.  An [integer] column holds 32 bits.
    A string parameter travels encoded in UTF-8, where the encoder of
    Node writes a surrogate without its partner as U+FFFD; the module
    [@db] chooses the driver.  Where a theorem says what a handler
    stores for a string of the request, it is stated for a string that
    holds no such surrogate, which the database receives as written
    ([text_param s = Some s]). *)
Definition is_high_surrogate (ch : cu) : bool :=
  ((55296 <=? ch) && (ch <=? 56319))%N.
Definition is_low_surrogate (ch : cu) : bool :=
  ((56320 <=? ch) && (ch <=? 57343))%N.

(** The characters of a string, each as the code units it is stored
    with. *)
Fixpoint characters (s : str) : list str :=
  match s with
  | [] => []
  | h :: t =>
      if is_high_surrogate h then
        match t with
        | l :: t' =>
            if is_low_surrogate l then [h; l] :: characters t'
            else [65533%N] :: characters t
        | [] => [[65533%N]]
        end
      else if is_low_surrogate h then [65533%N] :: characters t
      else [h] :: characters t
  end.

Definition toWellFormed (s : str) : str := concat (characters s).

Definition has_nul (s : str) : bool := existsb (N.eqb 0) s.

(** A string bound to a text parameter of a statement: [None] when the
    server refuses it, else the text it receives. *)
Definition text_param (s : str) : option str :=
  if has_nul s then None else Some (toWellFormed s).

(** A string stored in a [varchar(n)] column. *)
Definition varchar (n : nat) (s : str) : option str :=
  if has_nul s then None
  else
    let cs := characters s in
    if (length cs <=? n)%nat then Some (concat cs)
    else if forallb (str_eqb [32%N]) (skipn n cs) then Some (concat (firstn n cs))
    else None.

(** What the database receives is the string unit by unit, except that
    a surrogate without its partner has become U+FFFD. *)
Definition sent_as (a b : cu) : Prop :=
  b = a \/ (b = 65533%N /\ is_high_surrogate a || is_low_surrogate a = true).

Definition int4 (z : Z) : bool :=
  ((-2147483648 <=? z) && (z <=? 2147483647))%Z.

(** [db.insert(userBadges).values({ userId, badgeId, gameType })]: the
    row is stored when [userId] and [badgeId] refer to a row of [users]
    and of [badges] and [gameType] fits its column, [varchar(50)];
    otherwise the statement fails ([None]) and the store is as it was.
    (The id of the new row is drawn from the sequence of the table and
    is not a column of [UserBadge].) *)
Definition insert_into_userBadges (db : Db) (uid bid : Z) (gameType : str)
    : option Db :=
  match select_user db uid,
        find (fun b => (badge_id b =? bid)%Z) (badges db),
        varchar 50 gameType with
  | Some _, Some _, Some stored =>
      Some (insert_userBadge db
              {| ub_userId := uid; ub_badgeId := bid; ub_gameType := stored |})
  | _, _, _ => None
  end.

(** [update(users).set(f).where(eq(users.id, uid)).returning()] *)
Definition update_users (db : Db) (uid : Z) (f : User -> User) : Db :=
  {| users := map (fun u => if (user_id u =? uid)%Z then f u else u) (users db);
     badges := badges db;
     userBadges := userBadges db |}.

(** ** Questionnaire completion handler *)

Inductive QuestionnaireReply :=
| QuestionnaireUnauthorized                 (* 401 *)
| QuestionnaireMissing (missingCount : Z)   (* 400, "Missing N questions." *)
| QuestionnaireFailed                       (* 500 *)
| QuestionnaireCompleted (score : Z).       (* 200 *)

(** [app.post("/api/complete-questionnaire")], from the point where the
    latest response of each question ([latestResponses]) and the question
    list have been read. *)
Definition completeQuestionnaire (authenticated : bool) (db : Db) (uid : Z)
    (latestResponses : list Response) (aotQuestionsList : list Question)
    : QuestionnaireReply * Db :=
  if negb authenticated then (QuestionnaireUnauthorized, db)
  else
    match calculateAOTScore latestResponses aotQuestionsList with
    | None =>
        let missingCount :=
          (Z.of_nat (length aotQuestionsList)
           - Z.of_nat (length latestResponses))%Z in
        (QuestionnaireMissing missingCount, db)
    | Some score =>
        let db' := update_users db uid (fun u =>
          {| user_id := user_id u; totalScore := totalScore u;
             hasCompletedQuestionnaire := true; aotScore := Some score |}) in
        match select_user db' uid with
        | Some _ => (QuestionnaireCompleted score, db')
        | None => (QuestionnaireFailed, db')
        end
    end.

(** ** Score update handler *)

Inductive ScoreReply :=
| ScoreUnauthorized                  (* 401 *)
| ScoreFailed                        (* 500 *)
| ScoreUpdated (newTotalScore : Z).  (* 200 *)

(** The delta the handler applies: [Math.max(-currentUser.totalScore, points)]. *)
Definition safePointsToAdd (currentTotal points : Z) : Z :=
  Z.max (- currentTotal) points.

(** [app.post("/api/update-score")], for a body whose [points] is an
    integer.  Reading [totalScore] of a missing user row throws, and the
    statement [total_score = total_score + safePointsToAdd] fails when
    the delta or the sum does not fit the [integer] column; either way
    the handler replies 500 and nothing is written.  (An integer past
    2^53 reaches the handler rounded to a double; it is then still past
    32 bits on the same side, and the reply and the store are the
    same.) *)
Definition updateScore (authenticated : bool) (db : Db) (uid : Z) (points : Z)
    : ScoreReply * Db :=
  if negb authenticated then (ScoreUnauthorized, db)
  else
    match select_user db uid with
    | None => (ScoreFailed, db)
    | Some currentUser =>
        let safe := safePointsToAdd (totalScore currentUser) points in
        if int4 safe && int4 (totalScore currentUser + safe)
        then
          let db' := update_users db uid (fun u =>
            {| user_id := user_id u; totalScore := (totalScore u + safe)%Z;
               hasCompletedQuestionnaire := hasCompletedQuestionnaire u;
               aotScore := aotScore u |}) in
          match select_user db' uid with
          | Some updatedUser => (ScoreUpdated (totalScore updatedUser), db')
          | None => (ScoreFailed, db')
          end
        else (ScoreFailed, db)
    end.

(** ** Badge ledger *)

Inductive AwardReply :=
| AwardUnauthorized                     (* 401 *)
| AwardBadRequest                       (* 400, "Badge type is required" *)
| AwardNotFound                         (* 404 *)
| AwardFailed                           (* 500, "Failed to award badge" *)
| BadgeAlreadyAwarded (b : Badge)       (* 200, "Badge already awarded" *)
| BadgeAwardedSuccessfully (b : Badge). (* 200, "Badge awarded successfully" *)

(** [app.post("/api/award-badge")], for a body whose [badgeType] and
    [gameType] are strings ([gameType] is [thought_zombies] when the body
    has none).  A statement the database refuses throws, and the handler
    replies 500. *)
Definition awardBadge (authenticated : bool) (db : Db) (uid : Z)
    (badgeType gameType : str) : AwardReply * Db :=
  if negb authenticated then (AwardUnauthorized, db)
  else
    match badgeType with
    | [] => (AwardBadRequest, db)
    | _ =>
        match text_param badgeType with
        | None => (AwardFailed, db)
        | Some name =>
            match select_badge db name with
            | None => (AwardNotFound, db)
            | Some badge =>
                match select_userBadges db uid (badge_id badge) with
                | _ :: _ => (BadgeAlreadyAwarded badge, db)
                | [] =>
                    match insert_into_userBadges db uid (badge_id badge)
                            gameType with
                    | Some db' => (BadgeAwardedSuccessfully badge, db')
                    | None => (AwardFailed, db)
                    end
                end
            end
        end
    end.

(** The four branches of the badge flow inside [/api/dialogue], told
    apart in the source by the line each one logs. *)
Inductive BadgeOutcome :=
| UnknownBadgeType
| UserAlreadyHasBadge
| AwardedBadge
| ErrorAwardingBadge.

(** Badge flow of [app.post("/api/dialogue")], for a detected badge name:
    the [badge] field of the reply, the branch taken and the new store. *)
Definition dialogueBadgeFlow (db : Db) (uid : Z) (badgeType : str)
    : option Badge * BadgeOutcome * Db :=
  match text_param badgeType with
  | None => (None, ErrorAwardingBadge, db)
  | Some name =>
      match select_badge db name with
      | None => (None, UnknownBadgeType, db)
      | Some b =>
          match select_userBadges db uid (badge_id b) with
          | [] =>
              match insert_into_userBadges db uid (badge_id b)
                      (codes "thought_zombies") with
              | Some db' => (Some b, AwardedBadge, db')
              | None => (None, ErrorAwardingBadge, db)
              end
          | _ :: _ => (None, UserAlreadyHasBadge, db)
          end
      end
  end.

(** ** Regular expressions *)

(** Members of a character class. *)
Inductive cset_item :=
| CChar (c : cu)          (* a pattern character *)
| CRange (lo hi : cu)     (* lo-hi *)
| CSpace                  (* \s *)
| CNotSpace               (* \S *)
| CDigit.                 (* \d *)

(** Abstract syntax of the patterns the program uses.  A capturing group
    carries its number (the order of its opening parenthesis). *)
Inductive regex :=
| Lit (w : str)                                  (* a run of pattern characters *)
| CharSet (negated : bool) (items : list cset_item)  (* [...], [^...], \s, \d *)
| Dot                                            (* . *)
| Seq (r1 r2 : regex)
| Alt (r1 r2 : regex)                            (* r1|r2 *)
| Repeat (min : nat) (greedy : bool) (r : regex) (* r*, r+, r*?, r+? *)
| Group (i : nat) (r : regex)                    (* ( r ) *)
| Lookahead (r : regex)                          (* (?= r ) *)
| EndOfInput.                                    (* $, no m flag *)

(** A regular expression object: pattern and flags. *)
Record RegExp := {
  source : regex;
  ignoreCase : bool;   (* flag i *)
  global : bool        (* flag g *)
}.

(** Captures by group number, from 1; [None] is [undefined]. *)
Definition caps := list (option str).

Fixpoint set_cap (i : nat) (v : option str) (c : caps) : caps :=
  match i, c with
  | _, [] => []
  | O, _ => c
  | S O, _ :: c' => v :: c'
  | S i', x :: c' => x :: set_cap i' v c'
  end.

Definition get_cap (i : nat) (c : caps) : option str :=
  match i with
  | O => None
  | S i' => nth i' c None
  end.

Fixpoint groups_of (r : regex) : list nat :=
  match r with
  | Seq r1 r2 | Alt r1 r2 => groups_of r1 ++ groups_of r2
  | Repeat _ _ r1 | Lookahead r1 => groups_of r1
  | Group i r1 => i :: groups_of r1
  | _ => []
  end.

Definition clear_caps (gs : list nat) (c : caps) : caps :=
  fold_left (fun c' i => set_cap i None c') gs c.

Definition group_count (r : regex) : nat := fold_right Nat.max 0%nat (groups_of r).

(** Character comparison: exact, or after [Canonicalize] under flag [i]. *)
Definition char_eq (ic : bool) (a b : cu) : bool :=
  if ic then cu_eqb (canonicalize a) (canonicalize b) else cu_eqb a b.

Definition item_match (ic : bool) (it : cset_item) (ch : cu) : bool :=
  match it with
  | CChar c => char_eq ic c ch
  | CRange lo hi =>
      ((lo <=? ch) && (ch <=? hi))%N
      || (ic && (((lo <=? canonicalize ch) && (canonicalize ch <=? hi))%N
                 || ((lo <=? toLowerCase_cu ch) && (toLowerCase_cu ch <=? hi))%N))
  | CSpace => is_space ch
  | CNotSpace => negb (is_space ch)
  | CDigit => is_digit ch
  end.

(** The character-set matcher: some member matches, inverted for [^...]. *)
Definition set_match (ic : bool) (negated : bool) (items : list cset_item)
    (ch : cu) : bool :=
  xorb negated (existsb (fun it => item_match ic it ch) items).

Fixpoint lit_match (ic : bool) (w x : str) : option str :=
  match w with
  | [] => Some x
  | a :: w' =>
      match x with
      | ch :: x' => if char_eq ic a ch then lit_match ic w' x' else None
      | [] => None
      end
  end.

(** A match state is the input still to be read and the captures; a
    continuation takes a state to failure ([None]) or to the final state. *)
Definition MatchResult := option (str * caps).
Definition Continuation := str -> caps -> MatchResult.
Definition Matcher := str -> caps -> Continuation -> MatchResult.

(** [RepeatMatcher] for an unbounded quantifier.  Once [min] is exhausted
    an iteration that reads nothing fails; the captures of the body are
    cleared before each iteration.  [fuel] bounds the iterations:
    [min + length x] of them can ever succeed. *)
Fixpoint repeatMatcher (body : Matcher) (gs : list nat) (greedy : bool)
    (fuel : nat) (min : nat) (x : str) (c : caps) (k : Continuation)
    : MatchResult :=
  let iterate :=
    match fuel with
    | O => None
    | S fuel' =>
        body x (clear_caps gs c)
          (fun y c' =>
             match min with
             | O =>
                 if (length y <? length x)%nat
                 then repeatMatcher body gs greedy fuel' O y c' k
                 else None
             | S min' => repeatMatcher body gs greedy fuel' min' y c' k
             end)
    end in
  match min with
  | S _ => iterate
  | O =>
      if greedy then
        match iterate with
        | Some z => Some z
        | None => k x c
        end
      else
        match k x c with
        | Some z => Some z
        | None => iterate
        end
  end.

(** The matcher of a pattern: run [r] on the input [x], then the
    continuation [k] on what is left; alternatives are tried in order. *)
Fixpoint matcher (ic : bool) (r : regex) (x : str) (c : caps)
    (k : Continuation) {struct r} : MatchResult :=
  match r with
  | Lit w =>
      match lit_match ic w x with
      | Some y => k y c
      | None => None
      end
  | CharSet negated items =>
      match x with
      | ch :: y => if set_match ic negated items ch then k y c else None
      | [] => None
      end
  | Dot =>
      match x with
      | ch :: y => if is_line_terminator ch then None else k y c
      | [] => None
      end
  | Seq r1 r2 => matcher ic r1 x c (fun y c1 => matcher ic r2 y c1 k)
  | Alt r1 r2 =>
      match matcher ic r1 x c k with
      | Some z => Some z
      | None => matcher ic r2 x c k
      end
  | Repeat min greedy r1 =>
      repeatMatcher (matcher ic r1) (groups_of r1) greedy
        (min + length x) min x c k
  | Group i r1 =>
      matcher ic r1 x c
        (fun y c1 => k y (set_cap i (Some (firstn (length x - length y) x)) c1))
  | Lookahead r1 =>
      match matcher ic r1 x c (fun y c1 => Some (y, c1)) with
      | Some (_, c1) => k x c1
      | None => None
      end
  | EndOfInput =>
      match x with
      | [] => k x c
      | _ :: _ => None
      end
  end.

(** The result of [RegExp.prototype.exec]. *)
Record ExecResult := {
  index : nat;       (* where the match starts *)
  matched : str;     (* element 0 of the result array *)
  groups : caps;     (* elements 1.. *)
  rest : str         (* the input after the match *)
}.

Definition match_at (re : RegExp) (x : str) : MatchResult :=
  matcher (ignoreCase re) (source re) x
    (repeat None (group_count (source re)))
    (fun y c => Some (y, c)).

(** The search loop of [exec]: the first start position, from [idx] on, at
    which the pattern matches; [x] is the input from [idx]. *)
Fixpoint exec_from (re : RegExp) (idx : nat) (x : str) : option ExecResult :=
  match match_at re x with
  | Some (y, c) =>
      Some {| index := idx; matched := firstn (length x - length y) x;
              groups := c; rest := y |}
  | None =>
      match x with
      | [] => None
      | _ :: x' => exec_from re (S idx) x'
      end
  end.

(** [s.match(re)] for a pattern without the [g] flag: the first match. *)
Definition str_match (re : RegExp) (s : str) : option ExecResult :=
  exec_from re 0 s.

(** All matches of a [g] pattern, left to right, each search resuming where
    the previous match ended (one further after an empty match); [x] is
    the input from position [idx]. *)
Fixpoint all_matches (re : RegExp) (fuel : nat) (idx : nat) (x : str)
    : list ExecResult :=
  match fuel with
  | O => []
  | S fuel' =>
      match exec_from re idx x with
      | None => []
      | Some res =>
          res ::
          match matched res, rest res with
          | [], [] => []
          | [], _ :: y => all_matches re fuel' (S (index res)) y
          | w, y => all_matches re fuel' (index res + length w) y
          end
      end
  end.

(** [s.matchAll(re)] *)
Definition matchAll (re : RegExp) (s : str) : list ExecResult :=
  all_matches re (S (length s)) 0 s.

(** [s.replace(re, '')] for a [g] pattern: every match is deleted. *)
Fixpoint delete_matches (re : RegExp) (fuel : nat) (x : str) : str :=
  match fuel with
  | O => x
  | S fuel' =>
      match exec_from re 0 x with
      | None => x
      | Some res =>
          firstn (index res) x ++
          match matched res, rest res with
          | [], [] => []
          | [], ch :: y => ch :: delete_matches re fuel' y
          | _ :: _, y => delete_matches re fuel' y
          end
      end
  end.

Definition replace_all_empty (re : RegExp) (s : str) : str :=
  delete_matches re (S (length s)) s.

(** *** What a pattern matches

    [Matches ic r x c y c']: read from the input [x] with captures [c],
    the pattern [r] can match the part of [x] before [y], leaving the
    captures [c'].  This is the set of all the ways to match, with no
    order among them; the matcher explores them in its priority order. *)
Inductive Matches (ic : bool) : regex -> str -> caps -> str -> caps -> Prop :=
| MLit w x y c :
    lit_match ic w x = Some y ->
    Matches ic (Lit w) x c y c
| MCharSet negated items ch y c :
    set_match ic negated items ch = true ->
    Matches ic (CharSet negated items) (ch :: y) c y c
| MDot ch y c :
    is_line_terminator ch = false ->
    Matches ic Dot (ch :: y) c y c
| MSeq r1 r2 x c y c1 z c2 :
    Matches ic r1 x c y c1 ->
    Matches ic r2 y c1 z c2 ->
    Matches ic (Seq r1 r2) x c z c2
| MAltL r1 r2 x c y c1 :
    Matches ic r1 x c y c1 ->
    Matches ic (Alt r1 r2) x c y c1
| MAltR r1 r2 x c y c1 :
    Matches ic r2 x c y c1 ->
    Matches ic (Alt r1 r2) x c y c1
| MRepeatStop greedy r x c :
    Matches ic (Repeat 0 greedy r) x c x c
| MRepeatMin min greedy r x c y c1 z c2 :
    Matches ic r x (clear_caps (groups_of r) c) y c1 ->
    Matches ic (Repeat min greedy r) y c1 z c2 ->
    Matches ic (Repeat (S min) greedy r) x c z c2
| MRepeatMore greedy r x c y c1 z c2 :
    Matches ic r x (clear_caps (groups_of r) c) y c1 ->
    (length y < length x)%nat ->
    Matches ic (Repeat 0 greedy r) y c1 z c2 ->
    Matches ic (Repeat 0 greedy r) x c z c2
| MGroup i r x c y c1 :
    Matches ic r x c y c1 ->
    Matches ic (Group i r) x c y
      (set_cap i (Some (firstn (length x - length y) x)) c1)
| MLookahead r x c y c1 :
    Matches ic r x c y c1 ->
    Matches ic (Lookahead r) x c x c1
| MEndOfInput c :
    Matches ic EndOfInput [] c [] c.

Fixpoint lookahead_free (r : regex) : bool :=
  match r with
  | Seq r1 r2 | Alt r1 r2 => lookahead_free r1 && lookahead_free r2
  | Repeat _ _ r1 | Group _ r1 => lookahead_free r1
  | Lookahead _ => false
  | _ => true
  end.

(** The pattern of [re] matches at the start of [x], leaving [y]. *)
Definition matches_at (re : RegExp) (x y : str) (c : caps) : Prop :=
  Matches (ignoreCase re) (source re) x
    (repeat None (group_count (source re))) y c.

(** The pattern without its capturing groups: [( r )] becomes [(?: r )]. *)
Fixpoint erase (r : regex) : regex :=
  match r with
  | Seq r1 r2 => Seq (erase r1) (erase r2)
  | Alt r1 r2 => Alt (erase r1) (erase r2)
  | Repeat min greedy r1 => Repeat min greedy (erase r1)
  | Group _ r1 => erase r1
  | Lookahead r1 => Lookahead (erase r1)
  | _ => r
  end.

(** The continuation that always fails. *)
Definition fails : Continuation := fun _ _ => None.

(** A matcher is determined by its continuation on the inputs no longer
    than its own. *)
Definition cont_local (body : Matcher) : Prop :=
  forall x c k k',
    (forall y c', (length y <= length x)%nat -> k y c' = k' y c') ->
    body x c k = body x c k'.

(** *** Pattern notation *)

Declare Scope regex_scope.
Delimit Scope regex_scope with re.
Bind Scope regex_scope with regex.
Notation "r1 ;; r2" := (Seq r1 r2) (at level 61, right associativity) : regex_scope.

Definition lit (s : string) : regex := Lit (codes s).
Definition space : regex := CharSet false [CSpace].                 (* \s *)
Definition digit : regex := CharSet false [CDigit].                 (* \d *)
Definition any_char : regex := CharSet false [CSpace; CNotSpace].   (* [\s\S] *)
Definition none_of (s : string) : regex :=                          (* [^...] *)
  CharSet true (map CChar (codes s)).
Definition star (r : regex) : regex := Repeat 0 true r.        (* r* *)
Definition plus (r : regex) : regex := Repeat 1 true r.        (* r+ *)
Definition lazy_star (r : regex) : regex := Repeat 0 false r.  (* r*? *)

Definition regexp (r : regex) (i g : bool) : RegExp :=
  {| source := r; ignoreCase := i; global := g |}.

(** ** Annotation parser of the training dialogue ([/api/dialogue]) *)

(** [/\{award_points:\s*(\d+),\s*type:\s*Q([^Q]+)Q\}/], writing [Q] for
    the double-quote character (code unit 34) here and below. *)
Definition pointsRegex : RegExp :=
  regexp (lit "{award_points:" ;; star space ;; Group 1 (plus digit) ;;
          lit "," ;; star space ;; lit "type:" ;; star space ;;
          Lit [34%N] ;; Group 2 (plus (CharSet true [CChar 34%N])) ;;
          Lit [34%N] ;; lit "}")%re
         false false.

(** [/\[badge:\s*([a-z_]+)\]/i] *)
Definition badgeRegex : RegExp :=
  regexp (lit "[badge:" ;; star space ;;
          Group 1 (plus (CharSet false [CRange 97%N 122%N; CChar 95%N])) ;;
          lit "]")%re
         true false.

(** [/\{award_points:\s*\d+,\s*type:\s*Q[^Q]+Q\}/g] *)
Definition pointsSyntaxRegex : RegExp :=
  regexp (lit "{award_points:" ;; star space ;; plus digit ;;
          lit "," ;; star space ;; lit "type:" ;; star space ;;
          Lit [34%N] ;; plus (CharSet true [CChar 34%N]) ;;
          Lit [34%N] ;; lit "}")%re
         false true.

(** [/\[badge:\s*[a-z_]+\]/gi] *)
Definition badgeSyntaxRegex : RegExp :=
  regexp (lit "[badge:" ;; star space ;;
          plus (CharSet false [CRange 97%N 122%N; CChar 95%N]) ;;
          lit "]")%re
         true true.

Record PointsAward := { amount : number; type : str }.

Record Message := { role : str; content : str }.

Record DialogueReply := {
  response_text : str;              (* field [response] *)
  points : option PointsAward;
  badge : option Badge;
  isComplete : bool
}.

Inductive DialogueResult :=
| DialogueUnauthorized               (* 401 *)
| DialogueFailed                     (* 500 *)
| DialogueOk (r : DialogueReply).    (* 200 *)

(** A capture used as a condition: [undefined] and the empty string are
    falsy. *)
Definition truthy_capture (i : nat) (res : ExecResult) : option str :=
  match get_cap i (groups res) with
  | Some (ch :: w) => Some (ch :: w)
  | _ => None
  end.

Definition capture (i : nat) (res : ExecResult) : str :=
  match get_cap i (groups res) with
  | Some w => w
  | None => []
  end.

(** Points extraction of [/api/dialogue]. *)
Definition extractPoints (aiResponse : str) : option PointsAward :=
  match str_match pointsRegex aiResponse with
  | Some pointsMatch =>
      Some {| amount := parseInt (capture 1 pointsMatch);
              type := trim (capture 2 pointsMatch) |}
  | None => None
  end.

(** Badge-name extraction of [/api/dialogue] and
    [/api/thought-zombies/dialogue]: [badgeMatch[1].trim()] when the
    pattern matches and the capture is truthy. *)
Definition extractBadgeType (aiResponse : str) : option str :=
  match str_match badgeRegex aiResponse with
  | Some badgeMatch =>
      match truthy_capture 1 badgeMatch with
      | Some name => Some (trim name)
      | None => None
      end
  | None => None
  end.

(** The display text of [/api/dialogue]: both token syntaxes deleted, then
    trimmed. *)
Definition cleanResponse (aiResponse : str) : str :=
  trim (replace_all_empty badgeSyntaxRegex
          (replace_all_empty pointsSyntaxRegex aiResponse)).

(** [points?.amount || 0] *)
Definition totalPoints (points : option PointsAward) : number :=
  match points with
  | Some p => num_or_zero (amount p)
  | None => Num 0
  end.

(** The completion test of [/api/dialogue] and [/api/health-nut/dialogue]:
    [dialogueHistory.length >= 8 && totalPoints >= 30]. *)
Definition completionCheck (dialogueHistory : list Message)
    (points : option PointsAward) : bool :=
  (8 <=? Z.of_nat (length dialogueHistory))%Z && num_geb (totalPoints points) 30.

(** [app.post("/api/dialogue")], from the reply of the text generator on:
    [aiResult] is [None] when the generator call throws. *)
Definition dialogue (authenticated : bool) (db : Db) (uid : Z)
    (dialogueHistory : list Message) (aiResult : option str)
    : DialogueResult * Db :=
  if negb authenticated then (DialogueUnauthorized, db)
  else
    match aiResult with
    | None => (DialogueFailed, db)
    | Some aiResponse =>
        let points := extractPoints aiResponse in
        let '(badge, db') :=
          match extractBadgeType aiResponse with
          | Some badgeType =>
              let '(b, _, db1) := dialogueBadgeFlow db uid badgeType in (b, db1)
          | None => (None, db)
          end in
        (DialogueOk
           {| response_text := cleanResponse aiResponse;
              points := points;
              badge := badge;
              isComplete := completionCheck dialogueHistory points |},
         db')
    end.

(** ** Multi-category dialogue ([/api/thought-zombies/dialogue]) *)

(** [/\[TOTAL: \+(\d+)\]/i] *)
Definition totalScoreRegex : RegExp :=
  regexp (lit "[TOTAL: +" ;; Group 1 (plus digit) ;; lit "]")%re true false.

(** [/\[Score: \+(\d+)\]/i] *)
Definition oldScoreRegex : RegExp :=
  regexp (lit "[Score: +" ;; Group 1 (plus digit) ;; lit "]")%re true false.

(** [/\[REASONING \+(\d+):[^\]]*\]/i] *)
Definition reasoningRegex : RegExp :=
  regexp (lit "[REASONING +" ;; Group 1 (plus digit) ;; lit ":" ;;
          star (none_of "]") ;; lit "]")%re true false.

(** [/\[ENGAGEMENT \+(\d+):[^\]]*\]/i] *)
Definition engagementRegex : RegExp :=
  regexp (lit "[ENGAGEMENT +" ;; Group 1 (plus digit) ;; lit ":" ;;
          star (none_of "]") ;; lit "]")%re true false.

(** [/\[BONUS \+(\d+):[^\]]*\]/i] *)
Definition bonusRegex : RegExp :=
  regexp (lit "[BONUS +" ;; Group 1 (plus digit) ;; lit ":" ;;
          star (none_of "]") ;; lit "]")%re true false.

(** [m && m[1] ? parseInt(m[1], 10) : 0] *)
Definition categoryAmount (m : option ExecResult) : number :=
  match m with
  | Some res =>
      match truthy_capture 1 res with
      | Some ds => parseInt ds
      | None => Num 0
      end
  | None => Num 0
  end.

(** [m && m[1]] as a condition, with the capture it leaves. *)
Definition matched_amount (m : option ExecResult) : option str :=
  match m with
  | Some res => truthy_capture 1 res
  | None => None
  end.

(** Score extraction of [/api/thought-zombies/dialogue]. *)
Definition extractScore (aiResponse : str) : number :=
  let totalMatch := str_match totalScoreRegex aiResponse in
  let oldMatch := str_match oldScoreRegex aiResponse in
  let reasoningMatch := str_match reasoningRegex aiResponse in
  let engagementMatch := str_match engagementRegex aiResponse in
  let bonusMatch := str_match bonusRegex aiResponse in
  match matched_amount totalMatch with
  | Some ds => parseInt ds
  | None =>
      match reasoningMatch, engagementMatch, bonusMatch with
      | None, None, None =>
          match matched_amount oldMatch with
          | Some ds => parseInt ds
          | None => Num 0
          end
      | _, _, _ =>
          let reasoning := categoryAmount reasoningMatch in
          let engagement := categoryAmount engagementMatch in
          let bonus := categoryAmount bonusMatch in
          num_add (num_add reasoning engagement) bonus
      end
  end.

Record ZombiesReply := {
  message : str;
  score : number;
  zombies_badge : option Badge      (* field [badge] *)
}.

Inductive ZombiesResult :=
| ZombiesUnauthorized
| ZombiesFailed
| ZombiesOk (r : ZombiesReply).

(** [app.post("/api/thought-zombies/dialogue")], from the reply of the text
    generator on.  The badge is looked up and returned, not recorded. *)
Definition thoughtZombiesDialogue (authenticated : bool) (db : Db)
    (aiResult : option str) : ZombiesResult :=
  if negb authenticated then ZombiesUnauthorized
  else
    match aiResult with
    | None => ZombiesFailed
    | Some aiResponse =>
        ZombiesOk
          {| message := aiResponse;
             score := extractScore aiResponse;
             zombies_badge :=
               match extractBadgeType aiResponse with
               | Some badgeType =>
                   match text_param badgeType with
                   | Some name => select_badge db name
                   | None => None
                   end
               | None => None
               end |}
    end.

(** ** Tabular dialogue ([/api/health-nut/dialogue]) *)

(** [/\{award_points:\s*(\d+),\s*type:\s*QQ([^Q]+)Q\}/]: the pattern of this
    handler has two double-quote characters before the label. *)
Definition healthNutPointsRegex : RegExp :=
  regexp (lit "{award_points:" ;; star space ;; Group 1 (plus digit) ;;
          lit "," ;; star space ;; lit "type:" ;; star space ;;
          Lit [34%N; 34%N] ;; Group 2 (plus (CharSet true [CChar 34%N])) ;;
          Lit [34%N] ;; lit "}")%re
         false false.

(** [/\{table:\s*({[^}]+})\}/] *)
Definition tableRegex : RegExp :=
  regexp (lit "{table:" ;; star space ;;
          Group 1 (lit "{" ;; plus (none_of "}") ;; lit "}") ;; lit "}")%re
         false false.

(** [/(Qaylee|Plato):\s*([\s\S]*?)(?=(?:Qaylee:|Plato:|$))/g] *)
Definition messageRegex : RegExp :=
  regexp (Group 1 (Alt (lit "Qaylee") (lit "Plato")) ;; lit ":" ;; star space ;;
          Group 2 (lazy_star any_char) ;;
          Lookahead (Alt (lit "Qaylee:") (Alt (lit "Plato:") EndOfInput)))%re
         false true.

(** [/\{award_points:.*?\}/g] *)
Definition pointsStripRegex : RegExp :=
  regexp (lit "{award_points:" ;; lazy_star Dot ;; lit "}")%re false true.

(** [/\{table:.*?\}/g] *)
Definition tableStripRegex : RegExp :=
  regexp (lit "{table:" ;; lazy_star Dot ;; lit "}")%re false true.

Section HealthNut.

(** [JSON.parse], a function of the platform: the parsed value, or [None]
    when it throws a [SyntaxError]. *)
Variable Json : Type.
Variable JSON_parse : str -> option Json.

Record FormattedMessage := {
  speaker : str;
  msg_content : str;               (* field [content] *)
  msg_table : option Json          (* field [table] *)
}.

Record HealthNutReply := {
  messages : list FormattedMessage;
  hn_points : option PointsAward;  (* field [points] *)
  hn_isComplete : bool             (* field [isComplete] *)
}.

Inductive HealthNutResult :=
| HealthNutUnauthorized            (* 401 *)
| HealthNutFailed                  (* 500 *)
| HealthNutOk (r : HealthNutReply).

Definition healthNutPoints (aiResponse : str) : option PointsAward :=
  match str_match healthNutPointsRegex aiResponse with
  | Some pointsMatch =>
      Some {| amount := parseInt (capture 1 pointsMatch);
              type := trim (capture 2 pointsMatch) |}
  | None => None
  end.

(** The [try { table = JSON.parse(tableMatch[1]) } catch] block: a parse
    that throws leaves [table] at [null]. *)
Definition healthNutTable (aiResponse : str) : option Json :=
  match str_match tableRegex aiResponse with
  | Some tableMatch =>
      match JSON_parse (capture 1 tableMatch) with
      | Some t => Some t
      | None => None
      end
  | None => None
  end.

Definition formatMessage (table : option Json) (mt : ExecResult)
    : FormattedMessage :=
  let speaker := capture 1 mt in
  let content := capture 2 mt in
  let cleanContent :=
    replace_all_empty tableStripRegex
      (replace_all_empty pointsStripRegex (trim content)) in
  let speakerType := toLowerCase speaker in
  {| speaker := speakerType;
     msg_content := cleanContent;
     msg_table := if str_eqb speakerType (codes "plato") then table else None |}.

(** [app.post("/api/health-nut/dialogue")], from the reply of the text
    generator on. *)
Definition healthNutDialogue (authenticated : bool)
    (dialogueHistory : list Message) (aiResult : option str)
    : HealthNutResult :=
  if negb authenticated then HealthNutUnauthorized
  else
    match aiResult with
    | None => HealthNutFailed
    | Some aiResponse =>
        let points := healthNutPoints aiResponse in
        let table := healthNutTable aiResponse in
        let formattedMessages :=
          map (formatMessage table) (matchAll messageRegex aiResponse) in
        HealthNutOk
          {| messages := formattedMessages;
             hn_points := points;
             hn_isComplete := completionCheck dialogueHistory points |}
    end.

End HealthNut.

Arguments speaker {Json} _.
Arguments msg_content {Json} _.
Arguments msg_table {Json} _.
Arguments messages {Json} _.
Arguments hn_points {Json} _.
Arguments hn_isComplete {Json} _.
Arguments HealthNutUnauthorized {Json}.
Arguments HealthNutFailed {Json}.
Arguments HealthNutOk {Json} r.
Arguments healthNutTable {Json} JSON_parse aiResponse.
Arguments formatMessage {Json} table mt.
Arguments healthNutDialogue {Json} JSON_parse authenticated dialogueHistory aiResult.

(** ** Client badge service ([client/src/lib/badge-service]) *)

(** [Object.keys(BADGE_INFO)] *)
Definition BADGE_INFO_keys : list str :=
  [codes "reason_giver"; codes "fact_checker"; codes "link_cutter";
   codes "hidden_premise_hunter"; codes "evidence_expert"].

(** [extractBadgeAward] *)
Definition extractBadgeAward (text : str) : option str :=
  match str_match badgeRegex text with
  | Some mt =>
      match truthy_capture 1 mt with
      | Some name =>
          let badgeType := toLowerCase name in
          if existsb (str_eqb badgeType) BADGE_INFO_keys
          then Some badgeType else None
      | None => None
      end
  | None => None
  end.

(** [removeBadgeAwardSyntax] *)
Definition removeBadgeAwardSyntax (text : str) : str :=
  trim (replace_all_empty badgeSyntaxRegex text).

(** ** Client game session ([ThoughtZombiesGame], [handleSubmitResponse]) *)

Module ThoughtZombiesGame.

Inductive GameStage := intro | argue_own | results.

(** An element of the state [earnedBadges].  The component fills the
    state from [/api/user-badges], whose rows carry the id of the award
    row in [id] and the id of the badge in [badgeId]; the [badge] object
    of a reply carries the id of the badge in [id] and no [badgeId]. *)
Record EarnedBadge := {
  id : Z;
  badgeId : option Z;
  name : str;
  description : str;
  imageUrl : str
}.

(** A row of [/api/user-badges]: the award row [awardId] joined with its
    badge. *)
Definition userBadgeRow (awardId : Z) (b : Badge) : EarnedBadge :=
  {| id := awardId; badgeId := Some (badge_id b); name := badge_name b;
     description := badge_description b; imageUrl := badge_imageUrl b |}.

(** The [badge] object of a reply of [/api/thought-zombies/dialogue] or
    of [/api/award-badge]. *)
Definition replyBadge (b : Badge) : EarnedBadge :=
  {| id := badge_id b; badgeId := None; name := badge_name b;
     description := badge_description b; imageUrl := badge_imageUrl b |}.

(** The component state the completion check reads. *)
Record GameState := {
  gameStage : GameStage;
  totalScore : number;            (* points of this session *)
  earnedBadges : list EarnedBadge
}.

(** [earnedBadges.some(b => b.id === badge.id)] *)
Definition has_badge (earned : list EarnedBadge) (b : Badge) : bool :=
  existsb (fun e => (id e =? badge_id b)%Z) earned.

Definition badgeCount (earned : list EarnedBadge)
    (badgeFromResponse : option Badge) : Z :=
  match badgeFromResponse with
  | Some b =>
      (Z.of_nat (length earned) + (if has_badge earned b then 0 else 1))%Z
  | None => Z.of_nat (length earned)
  end.

(** [totalScore + reasoningPoints + engagementPoints + bonusPoints] *)
Definition newTotalScore (st : GameState)
    (reasoningPoints engagementPoints bonusPoints : number) : number :=
  num_add (num_add (num_add (totalScore st) reasoningPoints) engagementPoints)
          bonusPoints.

(** The stage after a reply that carries the three category amounts and
    possibly a badge. *)
Definition nextStage (st : GameState)
    (reasoningPoints engagementPoints bonusPoints : number)
    (badgeFromResponse : option Badge) : GameStage :=
  if num_geb (newTotalScore st reasoningPoints engagementPoints bonusPoints) 100
     || (5 <=? badgeCount (earnedBadges st) badgeFromResponse)%Z
  then results
  else gameStage st.

(** A badge object joins the collection unless an element has its id. *)
Definition add_badge (earned : list EarnedBadge) (b : option Badge)
    : list EarnedBadge :=
  match b with
  | Some b' => if has_badge earned b' then earned else earned ++ [replyBadge b']
  | None => earned
  end.

(** [data.badge] of an answer of [/api/award-badge]; only an answer with
    status 200 is read. *)
Definition data_badge (reply : AwardReply) : option Badge :=
  match reply with
  | BadgeAlreadyAwarded b | BadgeAwardedSuccessfully b => Some b
  | _ => None
  end.

(** [badgeFromResponse ? null : extractBadgeAward(message)] *)
Definition badgeType (geminiResponse : ZombiesReply) : option str :=
  match zombies_badge geminiResponse with
  | Some _ => None
  | None => extractBadgeAward (message geminiResponse)
  end.

(** One turn of the session, from the point where the three category
    amounts have been read from the message.  The score is accumulated
    and the stage is decided; then the badge of the reply joins the
    collection, or, when the reply has no badge and the message names a
    badge type, that type is posted to [/api/award-badge] and the badge
    of the answer joins the collection.  [awardReply] is the answer to
    that post, [None] when none arrives. *)
Definition submitResponse (st : GameState)
    (reasoningPoints engagementPoints bonusPoints : number)
    (geminiResponse : ZombiesReply) (awardReply : option AwardReply)
    : GameState :=
  let badgeFromResponse := zombies_badge geminiResponse in
  {| gameStage :=
       nextStage st reasoningPoints engagementPoints bonusPoints
                 badgeFromResponse;
     totalScore :=
       newTotalScore st reasoningPoints engagementPoints bonusPoints;
     earnedBadges :=
       match badgeFromResponse, badgeType geminiResponse with
       | Some b, _ => add_badge (earnedBadges st) (Some b)
       | None, Some _ =>
           add_badge (earnedBadges st)
             match awardReply with
             | Some reply => data_badge reply
             | None => None
             end
       | None, None => earnedBadges st
       end |}.

(** The badge of the catalogue an element stands for, and the number of
    distinct badges in a collection. *)
Definition badge_of (e : EarnedBadge) : Z :=
  match badgeId e with Some k => k | None => id e end.

Definition distinctBadges (earned : list EarnedBadge) : Z :=
  Z.of_nat (length (nodup Z.eq_dec (map badge_of earned))).

End ThoughtZombiesGame.

(** ** Client training session ([TrainingPhase], [handleSubmit]) *)

Module TrainingPhase.

Record State := {
  dialogue_log : list Message;    (* state [dialogue], roles as sent *)
  auraPoints : number;            (* points earned in this session *)
  sessionComplete : bool          (* state [isComplete] *)
}.

(** The state the component starts in. *)
Definition initial : State :=
  {| dialogue_log := []; auraPoints := Num 0; sessionComplete := false |}.

(** [dialogue.map(entry => ({role, content}))] *)
Definition dialogueHistory (st : State) : list Message := dialogue_log st.

(** [result.points.amount || 0] on the reply as the client has it: the
    amount has gone through JSON. *)
Definition pointsAmount (result : DialogueReply) : Z :=
  match points result with
  | Some p => or_zero (json_number (amount p))
  | None => 0%Z
  end.

(** The client side of one turn, given the reply of [/api/dialogue]: both
    messages join the dialogue, the points of the reply are added to the
    session points, and a reply flagged complete ends the session with a
    bonus of 10. *)
Definition receive (st : State) (userResponse : str) (result : DialogueReply)
    : State :=
  let completionBonus := 10%Z in
  let withPoints :=
    match points result with
    | Some _ => num_add (auraPoints st) (Num (pointsAmount result))
    | None => auraPoints st
    end in
  {| dialogue_log :=
       dialogue_log st ++
       [ {| role := codes "user"; content := userResponse |};
         {| role := codes "assistant"; content := response_text result |} ];
     auraPoints :=
       if isComplete result then num_add withPoints (Num completionBonus)
       else withPoints;
     sessionComplete := sessionComplete st || isComplete result |}.

(** A session: each turn sends the history so far, the generator answers
    [aiResponse], the client takes the reply in.  The requests made and
    the replies received are recorded with the final state. *)
Fixpoint play (db : Db) (uid : Z) (st : State) (turns : list (str * str))
    : list (list Message * DialogueReply) * State :=
  match turns with
  | [] => ([], st)
  | (userResponse, aiResponse) :: turns' =>
      match dialogue true db uid (dialogueHistory st) (Some aiResponse) with
      | (DialogueOk result, db') =>
          let '(calls, st') :=
            play db' uid (receive st userResponse result) turns' in
          ((dialogueHistory st, result) :: calls, st')
      | (_, _) => ([], st)
      end
  end.

End TrainingPhase.

(** ** Token grammar

    The tokens of the annotation protocol, written out as strings. *)

(** Every code unit of [s] satisfies [p]. *)
Definition all (p : cu -> bool) (s : str) : Prop :=
  Forall (fun ch => p ch = true) s.

(** [h] reads as the keyword [kw], up to letter case when [ic] is set. *)
Definition reads (ic : bool) (kw h : str) : Prop :=
  Forall2 (fun a ch => char_eq ic a ch = true) kw h.

Definition is_badge_char (ch : cu) : bool :=
  is_lower ch || is_upper ch || (ch =? 95)%N.

(** Lowercase letters and underscore. *)
Definition is_identifier_char (ch : cu) : bool :=
  is_lower ch || (ch =? 95)%N.

Definition not_bracket (ch : cu) : bool := negb (ch =? 93)%N.

(** [kw] followed by the digits [ds] and a closing bracket, [kw] up to
    letter case: [[TOTAL: +12]] for the keyword [[TOTAL: +]. *)
Definition amount_token (kw : string) (ds tok : str) : Prop :=
  exists head,
    reads true (codes kw) head /\ ds <> [] /\ all is_digit ds /\
    tok = head ++ ds ++ codes "]".

(** [kw] followed by the digits [ds], a colon, a comment without closing
    bracket, and a closing bracket: [[REASONING +3: clear]]. *)
Definition category_token (kw : string) (ds tok : str) : Prop :=
  exists head body,
    reads true (codes kw) head /\ ds <> [] /\ all is_digit ds /\
    all not_bracket body /\
    tok = head ++ ds ++ codes ":" ++ body ++ codes "]".

(** [[badge: name]], the keyword up to letter case, any white space before
    the name, the name a non-empty run of ASCII letters and underscores. *)
Definition badge_token (name tok : str) : Prop :=
  exists head ws,
    reads true (codes "[badge:") head /\ all is_space ws /\
    name <> [] /\ all is_badge_char name /\
    tok = head ++ ws ++ name ++ codes "]".

Definition not_brace (ch : cu) : bool := negb (ch =? 125)%N.

(** [{table: {...}}]: the keyword, any white space, then the payload, an
    object literal in braces with no closing brace inside, then the
    closing brace of the wrapper. *)
Definition table_token (payload tok : str) : Prop :=
  exists ws body,
    all is_space ws /\ body <> [] /\ all not_brace body /\
    payload = codes "{" ++ body ++ codes "}" /\
    tok = codes "{table:" ++ ws ++ payload ++ codes "}".

Definition not_quote (ch : cu) : bool := negb (ch =? 34)%N.

(** [{award_points: N, type: Qlabel Q}]: the digits [ds] and the label, a
    non-empty run without double quote, with any white space after each
    of the two colons and after the comma. *)
Definition points_token (ds label tok : str) : Prop :=
  exists ws1 ws2 ws3,
    all is_space ws1 /\ all is_space ws2 /\ all is_space ws3 /\
    ds <> [] /\ all is_digit ds /\ label <> [] /\ all not_quote label /\
    tok = codes "{award_points:" ++ ws1 ++ ds ++ codes "," ++ ws2 ++
          codes "type:" ++ ws3 ++ [34%N] ++ label ++ [34%N] ++ codes "}".

(** The leftmost point token of [text] carries [ds] and [label]. *)
Definition first_points_token (text ds label : str) : Prop :=
  exists pre tok post,
    text = pre ++ tok ++ post /\ points_token ds label tok /\
    forall pre' ds' label' tok' post',
      text = pre' ++ tok' ++ post' -> points_token ds' label' tok' ->
      (length pre <= length pre')%nat.

Definition has_points_token (text : str) : Prop :=
  exists pre ds label tok post,
    text = pre ++ tok ++ post /\ points_token ds label tok.

(** Deleting tokens.  [stripped T opener text out]: [text] is made of
    tokens of [T] and, between them, of code units that cannot open a
    token; [out] is [text] without the tokens. *)
Inductive stripped (T : str -> Prop) (opener : cu -> bool) : str -> str -> Prop :=
| stripped_plain plain :
    all (fun ch => negb (opener ch)) plain ->
    stripped T opener plain plain
| stripped_token plain tok text out :
    all (fun ch => negb (opener ch)) plain ->
    T tok ->
    stripped T opener text out ->
    stripped T opener (plain ++ tok ++ text) (plain ++ out).

Definition is_open_brace (ch : cu) : bool := (ch =? 123)%N.
Definition is_open_bracket (ch : cu) : bool := (ch =? 91)%N.

Definition is_points_token (tok : str) : Prop :=
  exists ds label, points_token ds label tok.

Definition is_badge_token (tok : str) : Prop :=
  exists name, badge_token name tok.

(** [text] holds a token of the grammar [T] (a token with its payload). *)
Definition has_token (T : str -> str -> Prop) (text : str) : Prop :=
  exists pre payload tok post, text = pre ++ tok ++ post /\ T payload tok.

(** The leftmost token of the grammar [T] in [text] carries [payload]. *)
Definition first_token (T : str -> str -> Prop) (text payload : str) : Prop :=
  exists pre tok post,
    text = pre ++ tok ++ post /\ T payload tok /\
    forall pre' payload' tok' post',
      text = pre' ++ tok' ++ post' -> T payload' tok' ->
      (length pre <= length pre')%nat.

(** The input [s] does not go on with a code unit of the class [p]. *)
Definition stops (p : cu -> bool) (s : str) : Prop :=
  match s with
  | [] => True
  | ch :: _ => p ch = false
  end.

(** The pattern [re], with one capturing group, recognises the grammar
    [T]: it has no lookahead, it matches at the head of an input exactly
    the tokens of [T], capturing the payload, and a position admits one
    token at most. *)
Definition token_pattern (re : RegExp) (T : str -> str -> Prop) : Prop :=
  lookahead_free (source re) = true /\
  (forall x y c,
     matches_at re x y c
     <-> exists tok payload, x = tok ++ y /\ T payload tok /\ c = [Some payload]) /\
  (forall payload tok payload' tok' y y',
     T payload tok -> T payload' tok' -> tok ++ y = tok' ++ y' ->
     tok = tok' /\ payload = payload').

(** The tokens of the multi-category protocol. *)
Definition total_token : str -> str -> Prop := amount_token "[TOTAL: +".
Definition legacy_token : str -> str -> Prop := amount_token "[Score: +".
Definition reasoning_token : str -> str -> Prop := category_token "[REASONING +".
Definition engagement_token : str -> str -> Prop := category_token "[ENGAGEMENT +".
Definition bonus_token : str -> str -> Prop := category_token "[BONUS +".

(** [n] is the amount of the leftmost token of [T] in [text], 0 when the
    text has no such token. *)
Definition token_amount (T : str -> str -> Prop) (text : str) (n : Z) : Prop :=
  (exists ds, first_token T text ds /\ n = decimal ds) \/
  (~ has_token T text /\ n = 0%Z).

(** The two pattern shapes of the multi-category protocol. *)
Definition amount_pattern (kw : string) : regex :=
  (lit kw ;; Group 1 (plus digit) ;; lit "]")%re.

Definition category_pattern (kw : string) : regex :=
  (lit kw ;; Group 1 (plus digit) ;; lit ":" ;; star (none_of "]") ;; lit "]")%re.

(** ** Reference formulas of the scoring rule *)

(** A response value brought into the scale 1..6. *)
Definition clamped (v : Z) : Z :=
  if (v <? 1)%Z then 1%Z else if (6 <? v)%Z then 6%Z else v.

(** Some question with identifier [i] is flagged as reversed. *)
Definition reversed_in (questions : list Question) (i : Z) : bool :=
  existsb (fun q => (q_id q =? i)%Z && isReversed q) questions.

(** Contribution of one response: [7 - c] on a reversed question, [c]
    otherwise, [c] the clamped value. *)
Definition item_score (questions : list Question) (r : Response) : Z :=
  if reversed_in questions (questionId r)
  then (7 - clamped (response r))%Z else clamped (response r).

(** The same with the value as submitted. *)
Definition raw_item_score (questions : list Question) (r : Response) : Z :=
  if reversed_in questions (questionId r)
  then (7 - response r)%Z else response r.

(** Rows of [user_badges] held for a (user, badge) pair. *)
Definition award_rows (db : Db) (uid bid : Z) : nat :=
  length (select_userBadges db uid bid).

(** ** Badge listing ([/api/user-badges]) *)

(** The rows of [app.get("/api/user-badges")]: the award rows of the user
    joined with [badges] on the badge id, each row reduced to its badge
    columns.  The source returns them newest first ([earnedAt]
    descending); the model keeps the order of the table. *)
Definition userBadgeRows (db : Db) (uid : Z) : list Badge :=
  flat_map
    (fun r => filter (fun b => (ub_badgeId r =? badge_id b)%Z) (badges db))
    (filter (fun r => (ub_userId r =? uid)%Z) (userBadges db)).

(** ** Requests that write to the store *)

(** A request to one of the handlers that write to [users] or
    [user_badges], with the session it arrives in and what the handler
    reads from outside the store. *)
Inductive Request :=
| AwardBadgeRequest (authenticated : bool) (uid : Z) (badgeType gameType : str)
| DialogueRequest (authenticated : bool) (uid : Z)
    (dialogueHistory : list Message) (aiResult : option str)
| UpdateScoreRequest (authenticated : bool) (uid : Z) (points : Z)
| CompleteQuestionnaireRequest (authenticated : bool) (uid : Z)
    (latestResponses : list Response) (aotQuestionsList : list Question).

(** The store after a request. *)
Definition handle (db : Db) (rq : Request) : Db :=
  match rq with
  | AwardBadgeRequest a uid badgeType gameType =>
      snd (awardBadge a db uid badgeType gameType)
  | DialogueRequest a uid dialogueHistory aiResult =>
      snd (dialogue a db uid dialogueHistory aiResult)
  | UpdateScoreRequest a uid points =>
      snd (updateScore a db uid points)
  | CompleteQuestionnaireRequest a uid latestResponses aotQuestionsList =>
      snd (completeQuestionnaire a db uid latestResponses aotQuestionsList)
  end.

(** Requests served one after another, each handler running to its end
    before the next one starts. *)
Definition serve (db : Db) (rqs : list Request) : Db :=
  fold_left handle rqs db.

(** No (user, badge) pair holds two award rows. *)
Definition ledger_unique (db : Db) : Prop :=
  forall uid bid, (award_rows db uid bid <= 1)%nat.

(** User ids are distinct and no stored total is negative. *)
Definition totals_sound (db : Db) : Prop :=
  NoDup (map user_id (users db)) /\
  Forall (fun u => (0 <= totalScore u)%Z) (users db).

(** ** Client score reader ([client/src/lib/gemini-ai]) *)

Module GeminiAi.

(** [/\[Score: \+(\d+)\]/]: the legacy token, with no flag. *)
Definition scoreRegex : RegExp :=
  regexp (lit "[Score: +" ;; Group 1 (plus digit) ;; lit "]")%re false false.

(** [extractScore]: the captured number, 0 when the pattern does not
    match. *)
Definition extractScore (response : str) : number :=
  match str_match scoreRegex response with
  | Some mt =>
      match truthy_capture 1 mt with
      | Some ds => parseInt ds
      | None => Num 0
      end
  | None => Num 0
  end.

End GeminiAi.

(** [[Score: +N]] as the client reads it: the keyword in exactly this
    letter case. *)
Definition score_token (ds tok : str) : Prop :=
  ds <> [] /\ all is_digit ds /\ tok = codes "[Score: +" ++ ds ++ codes "]".

(** ** Accounts

    A row of [users] with all its columns: those of [User], which the
    scoring handlers read and write, and those of the account. *)

Record Account := {
  account : User;
  username : str;
  password : str;                 (* the stored hash *)
  email : str;
  displayName : option str;
  isAdmin : bool;
  hasCompletedOnboarding : bool
}.

Definition account_id (a : Account) : Z := user_id (account a).
Definition account_total (a : Account) : Z := totalScore (account a).

(** ** Display name ([/api/update-display-name]) *)

Inductive DisplayNameReply :=
| DisplayNameUnauthorized                    (* 401 *)
| DisplayNameRequired                        (* 400 *)
| DisplayNameUserNotFound                    (* 404 *)
| DisplayNameFailed                          (* 500 *)
| DisplayNameUpdated (name : option str).    (* 200, [user.displayName] *)

Definition set_displayName (name : str) (a : Account) : Account :=
  {| account := account a; username := username a; password := password a;
     email := email a; displayName := Some name; isAdmin := isAdmin a;
     hasCompletedOnboarding := hasCompletedOnboarding a |}.

(** [app.post("/api/update-display-name")].  The field of the body is
    [None] when it is missing or not a string.  The column is a [text];
    a name the database refuses makes the statement throw, and the
    handler replies 500. *)
Definition updateDisplayName (authenticated : bool) (accounts : list Account)
    (uid : Z) (field : option str) : DisplayNameReply * list Account :=
  if negb authenticated then (DisplayNameUnauthorized, accounts)
  else
    match field with
    | None => (DisplayNameRequired, accounts)
    | Some name =>
        match name, trim name with
        | [], _ => (DisplayNameRequired, accounts)
        | _, [] => (DisplayNameRequired, accounts)
        | _, _ =>
            match text_param (trim name) with
            | None => (DisplayNameFailed, accounts)
            | Some stored =>
                let accounts' :=
                  map (fun a => if (account_id a =? uid)%Z
                                then set_displayName stored a else a)
                      accounts in
                match find (fun a => (account_id a =? uid)%Z) accounts' with
                | Some updatedUser =>
                    (DisplayNameUpdated (displayName updatedUser), accounts')
                | None => (DisplayNameUserNotFound, accounts')
                end
            end
        end
    end.

(** The check of the dialog of the client ([DisplayNameDialog],
    [handleSubmit]): the name is sent when [displayName.trim()] is not
    empty. *)
Definition dialogSubmits (name : str) : bool :=
  match trim name with [] => false | _ => true end.

(** ** Passwords ([server/auth], [crypto]) *)

(** The bytes of a [Buffer]. *)
Definition bytes := list Byte.byte.

Definition hex_digit (n : N) : cu :=
  if (n <? 10)%N then (48 + n)%N else (87 + n)%N.

(** [buf.toString("hex")]: two lowercase digits a byte. *)
Definition toHex (buf : bytes) : str :=
  flat_map (fun b => [hex_digit (Byte.to_N b / 16); hex_digit (Byte.to_N b mod 16)])
           buf.

Definition hex_value (ch : cu) : option N :=
  if is_digit ch then Some (ch - 48)%N
  else if ((97 <=? ch) && (ch <=? 102))%N then Some (ch - 87)%N
  else if ((65 <=? ch) && (ch <=? 70))%N then Some (ch - 55)%N
  else None.

(** [Buffer.from(s, "hex")]: pairs of hexadecimal digits are decoded up
    to the first pair that is not one. *)
Fixpoint fromHex (s : str) : bytes :=
  match s with
  | hi :: lo :: s' =>
      match hex_value hi, hex_value lo with
      | Some h, Some l =>
          match Byte.of_N (16 * h + l) with
          | Some b => b :: fromHex s'
          | None => []
          end
      | _, _ => []
      end
  | _ => []
  end.

(** [s.split(sep)] for a separator of one code unit. *)
Fixpoint split_on (sep : cu) (s : str) : list str :=
  match s with
  | [] => [[]]
  | ch :: s' =>
      if (ch =? sep)%N then [] :: split_on sep s'
      else
        match split_on sep s' with
        | piece :: pieces => (ch :: piece) :: pieces
        | [] => [[ch]]
        end
  end.

Fixpoint bytes_eqb (a b : bytes) : bool :=
  match a, b with
  | [], [] => true
  | x :: a', y :: b' => Byte.eqb x y && bytes_eqb a' b'
  | _, _ => false
  end.

(** [timingSafeEqual]: [None] when it throws, on buffers of different
    lengths. *)
Definition timingSafeEqual (a b : bytes) : option bool :=
  if (length a =? length b)%nat then Some (bytes_eqb a b) else None.

Inductive VerifyResult :=
| VerifiedUser (user : Account)        (* [done(null, user)] *)
| VerifyFailed (message : str).        (* [done(null, false, { message })] *)

Inductive RegisterReply :=
| RegisterUsernameExists                 (* 400 *)
| RegisterFailed                         (* the insert throws: [next(error)] *)
| RegisterSuccessful (newUser : Account).

Section Auth.

(** [scrypt(password, salt, keylen)], the key-derivation function of the
    platform. *)
Variable scrypt : str -> str -> nat -> bytes.

(** [crypto.hash], for the bytes [saltBytes] that [randomBytes(16)]
    yields. *)
Definition crypto_hash (saltBytes : bytes) (pw : str) : str :=
  let salt := toHex saltBytes in
  let buf := scrypt pw salt 64 in
  toHex buf ++ codes "." ++ salt.

(** [crypto.compare]; an exception ends in [false]. *)
Definition crypto_compare (supplied stored : str) : bool :=
  match stored with
  | [] => false
  | _ =>
      if negb (existsb (N.eqb 46) stored) then false
      else
        match split_on 46%N stored with
        | hashedPassword :: salt :: _ =>
            let hashedBuf := fromHex hashedPassword in
            let suppliedBuf := scrypt supplied salt 64 in
            match timingSafeEqual hashedBuf suppliedBuf with
            | Some b => b
            | None => false
            end
        | _ => false
        end
  end.

(** The verify function given to [LocalStrategy]. *)
Definition verifyLogin (accounts : list Account) (uname pw : str)
    : VerifyResult :=
  match find (fun a => str_eqb (username a) uname) accounts with
  | None => VerifyFailed (codes "Invalid username or password")
  | Some user =>
      if crypto_compare pw (password user) then VerifiedUser user
      else VerifyFailed (codes "Invalid username or password")
  end.

(** [app.post("/api/register")], for the id [newId] that the sequence of
    the table yields.  The columns [username] and [email] are unique: an
    insert that repeats an email throws. *)
Definition register (saltBytes : bytes) (newId : Z) (accounts : list Account)
    (uname pw mail : str) : RegisterReply * list Account :=
  match find (fun a => str_eqb (username a) uname) accounts with
  | Some _ => (RegisterUsernameExists, accounts)
  | None =>
      if existsb (fun a => str_eqb (email a) mail) accounts
      then (RegisterFailed, accounts)
      else
        let newUser :=
          {| account := {| user_id := newId; totalScore := 0%Z;
                           hasCompletedQuestionnaire := false;
                           aotScore := None |};
             username := uname;
             password := crypto_hash saltBytes pw;
             email := mail;
             displayName := None;
             isAdmin := false;
             hasCompletedOnboarding := false |} in
        (RegisterSuccessful newUser, accounts ++ [newUser])
  end.

(** [initializeAdmin]; a failing insert is logged and changes nothing. *)
Definition initializeAdmin (saltBytes : bytes) (newId : Z)
    (accounts : list Account) : list Account :=
  match find (fun a => str_eqb (username a) (codes "admin")) accounts with
  | Some _ => accounts
  | None =>
      if existsb (fun a => str_eqb (email a) (codes "admin@education.nsw.gov.au"))
                 accounts
      then accounts
      else
        accounts ++
        [ {| account := {| user_id := newId; totalScore := 0%Z;
                           hasCompletedQuestionnaire := false;
                           aotScore := None |};
             username := codes "admin";
             password := crypto_hash saltBytes (codes "admin123");
             email := codes "admin@education.nsw.gov.au";
             displayName := None;
             isAdmin := true;
             hasCompletedOnboarding := true |} ]
  end.

End Auth.

(** ** Ordering of query results *)

(** [ORDER BY], as a stable insertion sort: [leb a b] holds when [a] may
    come before [b]; rows that compare equal keep the order of the table
    (the database leaves their order open). *)
Fixpoint insert_by {A} (leb : A -> A -> bool) (x : A) (l : list A) : list A :=
  match l with
  | [] => [x]
  | y :: l' => if leb x y then x :: l else y :: insert_by leb x l'
  end.

Definition order_by {A} (leb : A -> A -> bool) (l : list A) : list A :=
  fold_right (insert_by leb) [] l.

(** [rows.map((row, index) => f(row, index))] *)
Fixpoint map_index_from {A B} (index : Z) (f : A -> Z -> B) (l : list A)
    : list B :=
  match l with
  | [] => []
  | x :: l' => f x index :: map_index_from (index + 1)%Z f l'
  end.

Definition map_index {A B} (f : A -> Z -> B) (l : list A) : list B :=
  map_index_from 0%Z f l.

(** ** Leaderboard ([/api/scores/top]) *)

Record LeaderboardEntry := {
  lb_id : Z;
  lb_username : str;
  lb_totalScore : Z;
  rank : Z
}.

Definition by_totalScore_desc (a b : Account) : bool :=
  (account_total b <=? account_total a)%Z.

(** [SELECT id, username, total_score FROM users WHERE total_score > 0
    ORDER BY total_score DESC LIMIT 10], then the rank added to each
    row. *)
Definition topScores (accounts : list Account) : list LeaderboardEntry :=
  let rows :=
    firstn 10
      (order_by by_totalScore_desc
         (filter (fun a => (0 <? account_total a)%Z) accounts)) in
  map_index
    (fun user index =>
       {| lb_id := account_id user; lb_username := username user;
          lb_totalScore := account_total user;
          rank := (index + 1)%Z |})
    rows.

(** ** Administrator dashboard ([/api/admin/dashboard]) *)

Module AdminDashboard.

Record DashboardUser := {
  id : Z;
  totalScore : Z;
  badgeCount : Z
}.

(** The reply, without its [timestamp], [pointsOverTime] and the topic
    responses of each user.  ([user.totalScore || 0] is the total: the
    column is a number.) *)
Record Dashboard := {
  users : list DashboardUser;
  totalUsers : Z;
  totalActiveUsers : Z;
  totalPoints : Z
}.

Inductive Reply :=
| NotLoggedIn                (* 401 *)
| AdminRequired              (* 403 *)
| Ok (data : Dashboard).

(** [SELECT user_id, COUNT( * ) FROM user_badges GROUP BY user_id]: a row
    for each user id of the table, with the number of its rows. *)
Definition badgeCountsResult (userBadges : list UserBadge) : list (Z * Z) :=
  map (fun uid =>
         (uid, Z.of_nat (length (filter (fun r => (ub_userId r =? uid)%Z)
                                        userBadges))))
      (nodup Z.eq_dec (map ub_userId userBadges)).

(** The loop that fills [badgeCountMap]: a row whose [user_id] is falsy is
    skipped (its count, a non-empty string of digits, is truthy). *)
Definition badgeCountMap (userBadges : list UserBadge) : JsMap Z :=
  fold_left
    (fun mp row =>
       if (fst row =? 0)%Z then mp else map_set (fst row) (snd row) mp)
    (badgeCountsResult userBadges) [].

Definition dashboard (authenticated : bool) (requester : Account)
    (accounts : list Account) (userBadges : list UserBadge) : Reply :=
  if negb authenticated then NotLoggedIn
  else if negb (isAdmin requester) then AdminRequired
  else
    let userData := order_by by_totalScore_desc accounts in
    let counts := badgeCountMap userBadges in
    let enhancedUserData :=
      map (fun user =>
             {| id := account_id user;
                totalScore := account_total user;
                badgeCount := or_zero (map_get (account_id user) counts) |})
          userData in
    Ok {| users := enhancedUserData;
          totalUsers := Z.of_nat (length userData);
          totalActiveUsers :=
            Z.of_nat (length (filter (fun u => (0 <? account_total u)%Z)
                                     userData));
          totalPoints :=
            fold_left (fun sum user => (sum + account_total user)%Z)
                      userData 0%Z |}.

End AdminDashboard.

(** ** Questionnaire responses ([/api/responses], [user_responses]) *)

Record UserResponse := {
  ur_userId : Z;
  ur_questionId : Z;
  ur_questionType : str;
  ur_response : Z;
  ur_createdAt : Z
}.



(** [SELECT DISTINCT ON (key)] over ordered rows: the first row of each
    run of rows with the same key is kept. *)
Fixpoint distinct_from {A} (key : A -> Z) (prev : Z) (l : list A) : list A :=
  match l with
  | [] => []
  | x :: l' =>
      if (key x =? prev)%Z then distinct_from key prev l'
      else x :: distinct_from key (key x) l'
  end.

Definition distinct_on {A} (key : A -> Z) (l : list A) : list A :=
  match l with
  | [] => []
  | x :: l' => x :: distinct_from key (key x) l'
  end.

(** [ORDER BY question_id, created_at DESC] *)
Definition latest_first (a b : UserResponse) : bool :=
  (ur_questionId a <? ur_questionId b)%Z
  || (ur_questionId a =? ur_questionId b)%Z
     && (ur_createdAt b <=? ur_createdAt a)%Z.

(** The query of [/api/complete-questionnaire]: for each question the user
    has answered in the questionnaire, the answer given last. *)
Definition latestResponses (table : list UserResponse) (uid : Z)
    : list Response :=
  map (fun r => {| questionId := ur_questionId r; response := ur_response r |})
      (distinct_on ur_questionId
         (order_by latest_first
            (filter (fun r => (ur_userId r =? uid)%Z
                              && str_eqb (ur_questionType r) (codes "aot"))
                    table))).

(** ** Badge catalogue ([initializeBadges]) *)

(** [badgesList]: name, description and image of each badge. *)
Definition badgesList : list (str * str * str) :=
  [ (codes "reason_giver",
     codes "You gave a clear reason for your main point",
     codes "/badges/reason-giver-badge.png");
    (codes "fact_checker",
     codes "You questioned if something was actually true or the whole story",
     codes "/badges/fact-checker-badge.png");
    (codes "link_cutter",
     codes "You showed that even if a point is true, it doesn't automatically make the conclusion right",
     codes "/badges/link-cutter-badge.png");
    (codes "hidden_premise_hunter",
     codes "You pointed out something that was being assumed without being stated",
     codes "/badges/hidden-premise-badge.png");
    (codes "evidence_expert",
     codes "You backed up your point with proof or an example",
     codes "/badges/evidence-expert-badge.png") ].

(** [initializeBadges]: an empty catalogue is filled with the five badges,
    a catalogue with rows is left alone.  The inserts run side by side;
    [nextId k] is the id the sequence gives to the badge at position [k]
    of the list. *)
Definition initializeBadges (nextId : Z -> Z) (db : Db) : Db :=
  match badges db with
  | [] =>
      {| users := users db;
         badges :=
           map_index
             (fun badge k =>
                {| badge_id := nextId k;
                   badge_name := fst (fst badge);
                   badge_description := snd (fst badge);
                   badge_imageUrl := snd badge |})
             badgesList;
         userBadges := userBadges db |}
  | _ :: _ => db
  end.

(** ** A run of the questionnaire ([QuestionnaireWizard]) *)



(** ** A session of the game client *)

(** A turn as the client has it: the three category amounts read from
    the message, the reply of [/api/thought-zombies/dialogue] and the
    answer of [/api/award-badge], should the turn post to it. *)
Record GameTurn := {
  reasoningPoints : number;
  engagementPoints : number;
  bonusPoints : number;
  geminiResponse : ZombiesReply;
  awardReply : option AwardReply
}.

Definition turn (st : ThoughtZombiesGame.GameState) (t : GameTurn)
    : ThoughtZombiesGame.GameState :=
  ThoughtZombiesGame.submitResponse st (reasoningPoints t)
    (engagementPoints t) (bonusPoints t) (geminiResponse t) (awardReply t).

(** The state after the turns of a session. *)
Definition gameSession (st : ThoughtZombiesGame.GameState)
    (turns : list GameTurn) : ThoughtZombiesGame.GameState :=
  fold_left turn turns st.

(** ** Request log ([server/index]) *)

(** The cut of a log line: a line of more than 80 code units is reduced
    to its first 79 and an ellipsis. *)
Definition truncateLogLine (logLine : str) : str :=
  if (80 <? length logLine)%nat then firstn 79 logLine ++ [8230%N]
  else logLine.

(** ** The wizard of the questionnaire ([QuestionnaireWizard]) *)

Module QuestionnaireWizard.

(** A question as the wizard uses it. *)
Record Question := { id : Z; type : str }.

(** The state of the component: the index of the question shown and the
    [Map] of the values selected, keyed by question id. *)
Record State := { currentIndex : Z; responses : JsMap Z }.

Inductive Event :=
| Select (value : Z)    (* an option of the current question is chosen *)
| Next                  (* the button Next, or Complete on the last question *)
| Back.                 (* the button Previous *)

(** The requests the wizard sends. *)
Inductive Call :=
| PostResponse (questionId response : Z) (questionType : str)
| PostComplete.

Definition initial : State := {| currentIndex := 0%Z; responses := [] |}.

(** [questions[currentIndex]] *)
Definition currentQuestion (questions : list Question) (st : State)
    : option Question :=
  if (currentIndex st <? 0)%Z then None
  else nth_error questions (Z.to_nat (currentIndex st)).

(** One event: the new state and the requests sent.  The button Next is
    rendered when the [Map] has the id of the current question, the
    button Previous is disabled on the first question. *)
Definition handle (questions : list Question) (st : State) (e : Event)
    : State * list Call :=
  match currentQuestion questions st with
  | None => (st, [])
  | Some q =>
      match e with
      | Select value =>
          ({| currentIndex := currentIndex st;
              responses := map_set (id q) value (responses st) |},
           [PostResponse (id q) value (type q)])
      | Next =>
          match map_get (id q) (responses st) with
          | None => (st, [])
          | Some _ =>
              if (currentIndex st =? Z.of_nat (length questions) - 1)%Z
              then (st, [PostComplete])
              else ({| currentIndex := (currentIndex st + 1)%Z;
                       responses := responses st |}, [])
          end
      | Back =>
          if (currentIndex st =? 0)%Z then (st, [])
          else ({| currentIndex := Z.max 0 (currentIndex st - 1);
                   responses := responses st |}, [])
      end
  end.

(** The state after a run of events and the requests sent, in order. *)
Definition run (questions : list Question) (events : list Event)
    : State * list Call :=
  fold_left
    (fun sc e =>
       let '(st', calls) := handle questions (fst sc) e in
       (st', snd sc ++ calls))
    events (initial, []).

End QuestionnaireWizard.

(** The requests hold a post for the question [q] with its own type. *)
Definition posted (calls : list QuestionnaireWizard.Call)
    (q : QuestionnaireWizard.Question) : Prop :=
  exists value,
    In (QuestionnaireWizard.PostResponse (QuestionnaireWizard.id q) value
          (QuestionnaireWizard.type q)) calls.

(** What a run of the wizard keeps true, [reached] being the largest
    index shown so far: the index is within the questions, every id of
    the [Map] was selected at a question shown, and every questionnaire
    question before [reached] has been posted. *)
Definition wizard_inv (aots topics : list QuestionnaireWizard.Question)
    (reached : nat) (st : QuestionnaireWizard.State)
    (calls : list QuestionnaireWizard.Call) : Prop :=
  (0 <= QuestionnaireWizard.currentIndex st <= Z.of_nat reached)%Z /\
  (reached < length (aots ++ topics))%nat /\
  (forall k v,
     map_get k (QuestionnaireWizard.responses st) = Some v ->
     exists j q, (j <= reached)%nat /\
                 nth_error (aots ++ topics) j = Some q /\
                 QuestionnaireWizard.id q = k /\ posted calls q) /\
  (forall j q, (j < reached)%nat -> nth_error aots j = Some q ->
               posted calls q).

(* ================================================================== *)
(** * Part II: properties *)
(* ================================================================== *)

Local Open Scope Z_scope.

(** ** Numbers *)

Lemma pow2_53 : 2 ^ 53 = 9007199254740992.
Proof. reflexivity. Qed.

Lemma roundTiesToEven_small (n : Z) : n < 2 ^ 53 -> roundTiesToEven n = n.
Proof.
  intros H. unfold roundTiesToEven.
  destruct (Z.ltb_spec n (2 ^ 53)); [reflexivity | lia].
Qed.

(** The binade of a number from 2^53 on. *)
Lemma binade (n : Z) :
  2 ^ 53 <= n ->
  let u := 2 ^ (Z.log2 n - 52) in
  53 <= Z.log2 n /\ 2 <= u /\ 2 ^ 52 * u <= n < 2 ^ 53 * u /\
  2 ^ 52 <= n / u < 2 ^ 53 /\ 0 <= n mod u < u.
Proof.
  intros Hn u.
  assert (Hpos : 0 < n) by (rewrite pow2_53 in Hn; lia).
  assert (He : 53 <= Z.log2 n).
  { apply Z.log2_le_pow2; [exact Hpos | exact Hn]. }
  pose proof (Z.log2_spec n Hpos) as [Hlo Hhi].
  assert (Hu : 2 <= u).
  { unfold u. replace 2 with (2 ^ 1) at 1 by reflexivity.
    apply Z.pow_le_mono_r; lia. }
  assert (E52 : 2 ^ 52 * u = 2 ^ Z.log2 n).
  { unfold u. rewrite <- Z.pow_add_r by lia. f_equal. lia. }
  assert (E53 : 2 ^ 53 * u = 2 ^ Z.succ (Z.log2 n)).
  { unfold u. rewrite <- Z.pow_add_r by lia. f_equal. lia. }
  split; [exact He|]. split; [exact Hu|].
  split; [rewrite E52, E53; lia|].
  split.
  - split.
    + apply Z.div_le_lower_bound; [lia|]. rewrite Z.mul_comm, E52. exact Hlo.
    + apply Z.div_lt_upper_bound; [lia|]. rewrite Z.mul_comm, E53. exact Hhi.
  - apply Z.mod_pos_bound. lia.
Qed.

Lemma roundTiesToEven_cases (n : Z) :
  2 ^ 53 <= n ->
  let u := 2 ^ (Z.log2 n - 52) in
  roundTiesToEven n = (n / u) * u \/ roundTiesToEven n = (n / u + 1) * u.
Proof.
  intros Hn u. unfold roundTiesToEven.
  destruct (Z.ltb_spec n (2 ^ 53)); [lia|].
  fold u. cbv zeta.
  destruct (2 * (n mod u) <? u); [left; reflexivity|].
  destruct (u <? 2 * (n mod u)); [right; reflexivity|].
  destruct (Z.even (n / u)); [left | right]; reflexivity.
Qed.

(** A multiple of the unit of its binade is a double. *)
Lemma roundTiesToEven_multiple (e q : Z) :
  53 <= e -> 2 ^ 52 <= q < 2 ^ 53 ->
  roundTiesToEven (q * 2 ^ (e - 52)) = q * 2 ^ (e - 52).
Proof.
  intros He Hq.
  set (u := 2 ^ (e - 52)).
  assert (Hu : 2 <= u).
  { unfold u. replace 2 with (2 ^ 1) at 1 by reflexivity.
    apply Z.pow_le_mono_r; lia. }
  assert (E52 : 2 ^ 52 * u = 2 ^ e).
  { unfold u. rewrite <- Z.pow_add_r by lia. f_equal. lia. }
  assert (E53 : 2 ^ 53 * u = 2 ^ Z.succ e).
  { unfold u. rewrite <- Z.pow_add_r by lia. f_equal. lia. }
  assert (Hlog : Z.log2 (q * u) = e).
  { apply Z.log2_unique; [lia|]. rewrite <- E52, <- E53. nia. }
  unfold roundTiesToEven.
  destruct (Z.ltb_spec (q * u) (2 ^ 53)) as [Hlt|_].
  - reflexivity.
  - rewrite Hlog. fold u. cbv zeta.
    rewrite Z.mod_mul by lia. rewrite Z.div_mul by lia.
    destruct (Z.ltb_spec (2 * 0) u); [reflexivity | lia].
Qed.

Lemma roundTiesToEven_idempotent (n : Z) :
  0 <= n -> roundTiesToEven (roundTiesToEven n) = roundTiesToEven n.
Proof.
  intros Hn. destruct (Z.lt_ge_cases n (2 ^ 53)) as [Hs|Hb].
  - rewrite !(roundTiesToEven_small n Hs). reflexivity.
  - pose proof (binade n Hb) as [He [Hu [Hn2 [Hq Hr]]]].
    destruct (roundTiesToEven_cases n Hb) as [E|E]; rewrite E.
    + apply roundTiesToEven_multiple; assumption.
    + destruct (Z.eq_dec (n / 2 ^ (Z.log2 n - 52) + 1) (2 ^ 53)) as [Et|Et].
      * rewrite Et.
        replace (2 ^ 53 * 2 ^ (Z.log2 n - 52))
          with (2 ^ 52 * 2 ^ (Z.log2 n + 1 - 52)).
        -- apply roundTiesToEven_multiple; [lia|].
           split; [lia|]. apply Z.pow_lt_mono_r; lia.
        -- rewrite <- !Z.pow_add_r by lia. f_equal. lia.
      * apply roundTiesToEven_multiple; [assumption | lia].
Qed.

Lemma roundTiesToEven_nonneg (n : Z) : 0 <= n -> 0 <= roundTiesToEven n.
Proof.
  intros Hn. destruct (Z.lt_ge_cases n (2 ^ 53)) as [Hs|Hb].
  - rewrite (roundTiesToEven_small n Hs). exact Hn.
  - pose proof (binade n Hb) as [He [Hu [Hn2 [Hq Hr]]]].
    destruct (roundTiesToEven_cases n Hb) as [E|E]; rewrite E; nia.
Qed.

(** Rounding does not pass a double on its way: a double below a number
    is below what the number rounds to. *)
Lemma roundTiesToEven_above (s n : Z) :
  0 <= s <= n -> roundTiesToEven s = s -> s <= roundTiesToEven n.
Proof.
  intros Hsn Hs. destruct (Z.lt_ge_cases n (2 ^ 53)) as [Hsm|Hb].
  - rewrite (roundTiesToEven_small n Hsm). lia.
  - pose proof (binade n Hb) as [He [Hu [Hn2 [Hq Hr]]]].
    set (u := 2 ^ (Z.log2 n - 52)) in *.
    assert (Hfloor : s <= n / u * u).
    { destruct (Z.lt_ge_cases s (2 ^ 52 * u)) as [Hlow|Hhigh].
      - nia.
      - (* s lies in the binade of n: it is a multiple of u *)
        assert (Hsb : 2 ^ 53 <= s) by (rewrite pow2_53 in *; nia).
        assert (Hlog : Z.log2 s = Z.log2 n).
        { apply Z.log2_unique; [lia|].
          assert (E52 : 2 ^ 52 * u = 2 ^ Z.log2 n).
          { unfold u. rewrite <- Z.pow_add_r by lia. f_equal. lia. }
          assert (E53 : 2 ^ 53 * u = 2 ^ Z.succ (Z.log2 n)).
          { unfold u. rewrite <- Z.pow_add_r by lia. f_equal. lia. }
          rewrite <- E52, <- E53. lia. }
        pose proof (binade s Hsb) as [_ [_ [_ [Hqs _]]]].
        rewrite Hlog in Hqs. fold u in Hqs.
        destruct (roundTiesToEven_cases s Hsb) as [E|E];
          rewrite Hlog in E; fold u in E; rewrite Hs in E.
        + rewrite E. apply Z.mul_le_mono_nonneg_r; [lia|].
          apply Z.div_le_mono; lia.
        + rewrite E.
          assert (s / u + 1 <= n / u).
          { apply Z.div_le_lower_bound; [lia|]. rewrite Z.mul_comm, <- E. lia. }
          nia. }
    destruct (roundTiesToEven_cases n Hb) as [E|E]; fold u in E; rewrite E; nia.
Qed.







Lemma roundTiesToEven_up (n : Z) :
  2 ^ 53 <= n ->
  let u := 2 ^ (Z.log2 n - 52) in
  roundTiesToEven n = (n / u) * u \/
  (roundTiesToEven n = (n / u + 1) * u /\ 0 < n mod u).
Proof.
  intros Hn u. pose proof (binade n Hn) as [_ [Hu [_ [_ Hr]]]]. fold u in Hu, Hr.
  unfold roundTiesToEven.
  destruct (Z.ltb_spec n (2 ^ 53)); [lia|].
  fold u. cbv zeta.
  destruct (Z.ltb_spec (2 * (n mod u)) u); [left; reflexivity|].
  destruct (u <? 2 * (n mod u)); [right; split; [reflexivity | lia]|].
  destruct (Z.even (n / u)); [left; reflexivity | right; split; [reflexivity | lia]].
Qed.

(** ... and a double above a number is above what the number rounds to. *)
Lemma roundTiesToEven_below (n s : Z) :
  0 <= n <= s -> roundTiesToEven s = s -> roundTiesToEven n <= s.
Proof.
  intros Hns Hs. destruct (Z.lt_ge_cases n (2 ^ 53)) as [Hsm|Hb].
  - rewrite (roundTiesToEven_small n Hsm). lia.
  - pose proof (binade n Hb) as [He [Hu [Hn2 [Hq Hr]]]].
    set (u := 2 ^ (Z.log2 n - 52)) in *.
    destruct (roundTiesToEven_up n Hb) as [E|[E Hpos]]; fold u in E;
      [|fold u in Hpos]; rewrite E.
    + pose proof (Z.div_mod n u ltac:(lia)). nia.
    + destruct (Z.lt_ge_cases s (2 ^ 53 * u)) as [Hin|Hout]; [|nia].
      assert (Hsb : 2 ^ 53 <= s) by lia.
      assert (Hlog : Z.log2 s = Z.log2 n).
      { apply Z.log2_unique; [lia|].
        assert (E52 : 2 ^ 52 * u = 2 ^ Z.log2 n).
        { unfold u. rewrite <- Z.pow_add_r by lia. f_equal. lia. }
        assert (E53 : 2 ^ 53 * u = 2 ^ Z.succ (Z.log2 n)).
        { unfold u. rewrite <- Z.pow_add_r by lia. f_equal. lia. }
        rewrite <- E52, <- E53. lia. }
      pose proof (Z.div_mod n u ltac:(lia)) as Hdm.
      destruct (roundTiesToEven_up s Hsb) as [Es|[Es _]];
        rewrite Hlog in Es; fold u in Es; rewrite Hs in Es.
      * assert (Hq1 : n / u + 1 <= s / u).
        { assert (Hsm : s mod u = 0) by (rewrite Es; apply Z.mod_mul; lia).
          assert (Hne : n <> s) by (intros ->; lia).
          assert (n / u < s / u); [|lia].
          apply Z.div_lt_upper_bound; [lia|]. lia. }
        transitivity (s / u * u); [|lia].
        apply Z.mul_le_mono_nonneg_r; lia.
      * assert (Hq1 : n / u <= s / u) by (apply Z.div_le_mono; lia).
        transitivity ((s / u + 1) * u); [|lia].
        apply Z.mul_le_mono_nonneg_r; lia.
Qed.

Lemma to_double_exact (z : Z) : - 2 ^ 53 <= z <= 2 ^ 53 -> to_double z = Num z.
Proof.
  intros H. unfold to_double.
  assert (Hr : roundTiesToEven (Z.abs z) = Z.abs z).
  { destruct (Z.eq_dec (Z.abs z) (2 ^ 53)) as [E|E].
    - rewrite E. reflexivity.
    - apply roundTiesToEven_small. lia. }
  rewrite Hr.
  destruct (Z.leb_spec (2 ^ 1024) (Z.abs z)) as [Hbig|_].
  - exfalso. assert (2 ^ 53 < 2 ^ 1024) by (apply Z.pow_lt_mono_r; lia). lia.
  - f_equal. destruct (Z.ltb_spec z 0); lia.
Qed.

Lemma to_double_nonneg (z : Z) :
  0 <= z -> (exists m, to_double z = Num m /\ 0 <= m) \/ to_double z = Infinity.
Proof.
  intros H. unfold to_double.
  destruct (Z.ltb_spec z 0) as [Hneg|_]; [lia|].
  destruct (2 ^ 1024 <=? roundTiesToEven (Z.abs z)); [right; reflexivity|].
  left. eexists. split; [reflexivity|]. apply roundTiesToEven_nonneg. lia.
Qed.

(** What [to_double] gives is a number of the language. *)
Lemma to_double_is_double (z : Z) : is_double (to_double z).
Proof.
  unfold to_double.
  destruct (Z.leb_spec (2 ^ 1024) (roundTiesToEven (Z.abs z))) as [Hbig|Hfin].
  - destruct (z <? 0); exact I.
  - cbn [is_double]. unfold to_double.
    assert (Hm : 0 <= roundTiesToEven (Z.abs z))
      by (apply roundTiesToEven_nonneg; lia).
    assert (Habs : Z.abs (if z <? 0 then - roundTiesToEven (Z.abs z)
                          else roundTiesToEven (Z.abs z))
                   = roundTiesToEven (Z.abs z)).
    { destruct (z <? 0); lia. }
    rewrite Habs, roundTiesToEven_idempotent by lia.
    destruct (Z.leb_spec (2 ^ 1024) (roundTiesToEven (Z.abs z))); [lia|].
    f_equal. destruct (Z.ltb_spec z 0) as [Hz|Hz].
    + destruct (Z.ltb_spec (- roundTiesToEven (Z.abs z)) 0) as [H1|H1];
        [reflexivity|].
      assert (E0 : roundTiesToEven (Z.abs z) = 0) by lia. rewrite E0. reflexivity.
    + destruct (Z.ltb_spec (roundTiesToEven (Z.abs z)) 0); [lia | reflexivity].
Qed.

(** The rounding at the first integers a double cannot hold, at a tie
    that goes up to the even significand, at 10^23, and at the two sides
    of the largest double. *)
Lemma to_double_examples :
  to_double (2 ^ 53) = Num (2 ^ 53) /\
  to_double (2 ^ 53 + 1) = Num (2 ^ 53) /\
  to_double (2 ^ 53 + 2) = Num (2 ^ 53 + 2) /\
  to_double (2 ^ 53 + 3) = Num (2 ^ 53 + 4) /\
  to_double (- (2 ^ 53) - 1) = Num (- (2 ^ 53)) /\
  to_double (10 ^ 23) = Num 99999999999999991611392 /\
  to_double (2 ^ 1024 - 2 ^ 970 - 1) = Num ((2 ^ 53 - 1) * 2 ^ 971) /\
  to_double (2 ^ 1024 - 2 ^ 970) = Infinity /\
  to_double (- (10 ^ 309)) = NegInfinity.
Proof. repeat split; vm_compute; reflexivity. Qed.

Lemma num_add_is_double (x y : number) : is_double (num_add x y).
Proof.
  destruct x, y; cbn [num_add is_double]; try exact I.
  apply to_double_is_double.
Qed.

(** A finite double is what its magnitude rounds to. *)
Lemma is_double_magnitude (s : Z) :
  to_double s = Num s ->
  roundTiesToEven (Z.abs s) = Z.abs s /\ Z.abs s < 2 ^ 1024.
Proof.
  unfold to_double.
  destruct (Z.leb_spec (2 ^ 1024) (roundTiesToEven (Z.abs s))) as [Hbig|Hfin].
  - destruct (s <? 0); discriminate.
  - intros H. injection H as H.
    pose proof (roundTiesToEven_nonneg (Z.abs s) (Z.abs_nonneg s)).
    destruct (Z.ltb_spec s 0); lia.
Qed.

(** Adding a number that is not negative never gives less. *)
Lemma num_add_increases (x : number) (a : Z) :
  is_double x -> x <> NaN -> 0 <= a -> num_leb x (num_add x (Num a)) = true.
Proof.
  intros Hx Hnan Ha. destruct x as [|s| |]; cbn [num_add num_leb];
    try reflexivity; [contradiction|].
  cbn [is_double] in Hx. apply is_double_magnitude in Hx. destruct Hx as [Hs Hfin].
  unfold to_double.
  destruct (Z.ltb_spec (s + a) 0) as [Hneg|Hpos].
  - (* both negative: the magnitude shrinks *)
    assert (Hle : roundTiesToEven (Z.abs (s + a)) <= Z.abs s)
      by (apply roundTiesToEven_below; [lia | exact Hs]).
    destruct (Z.leb_spec (2 ^ 1024) (roundTiesToEven (Z.abs (s + a)))); [lia|].
    apply Z.leb_le. lia.
  - destruct (Z.leb_spec (2 ^ 1024) (roundTiesToEven (Z.abs (s + a))));
      [reflexivity|].
    apply Z.leb_le.
    destruct (Z.lt_ge_cases s 0) as [Hs0|Hs0].
    + pose proof (roundTiesToEven_nonneg (Z.abs (s + a)) (Z.abs_nonneg _)). lia.
    + replace s with (Z.abs s) at 1 by lia.
      apply roundTiesToEven_above; [lia | exact Hs].
Qed.

Lemma num_add_exact (x y : Z) :
  - 2 ^ 53 <= x + y <= 2 ^ 53 -> num_add (Num x) (Num y) = Num (x + y).
Proof. intros H. cbn [num_add]. apply to_double_exact. exact H. Qed.

Lemma to_double_not_negative (z : Z) : 0 <= z -> not_negative (to_double z).
Proof. apply to_double_nonneg. Qed.

Lemma num_add_not_negative (x y : number) :
  not_negative x -> not_negative y -> not_negative (num_add x y).
Proof.
  intros [[a [-> Ha]]| ->] [[b [-> Hb]]| ->]; cbn [num_add].
  - apply to_double_not_negative. lia.
  - right. reflexivity.
  - right. reflexivity.
  - right. reflexivity.
Qed.


Lemma num_leb_refl (x : number) : x <> NaN -> num_leb x x = true.
Proof.
  destruct x; cbn [num_leb]; intros H; try reflexivity; [contradiction|].
  apply Z.leb_refl.
Qed.

Lemma num_leb_trans (x y z : number) :
  num_leb x y = true -> num_leb y z = true -> num_leb x z = true.
Proof.
  destruct x, y, z; cbn [num_leb]; try discriminate; try reflexivity.
  rewrite !Z.leb_le. lia.
Qed.

Lemma num_add_grows (x y : number) :
  is_double x -> not_negative x -> not_negative y ->
  is_double (num_add x y) /\ not_negative (num_add x y) /\
  num_leb x (num_add x y) = true.
Proof.
  intros Hd [[s [-> Hs]]| ->] [[a [-> Ha]]| ->].
  - split; [apply num_add_is_double|].
    split; [cbn [num_add]; apply to_double_not_negative; lia|].
    apply num_add_increases; [exact Hd | discriminate | exact Ha].
  - cbn [num_add num_leb]. split; [exact I|].
    split; [right; reflexivity | reflexivity].
  - cbn [num_add num_leb]. split; [exact I|].
    split; [right; reflexivity | reflexivity].
  - cbn [num_add num_leb]. split; [exact I|].
    split; [right; reflexivity | reflexivity].
Qed.

Lemma num_geb_leb (x y : number) (k : Z) :
  num_leb x y = true -> num_geb x k = true -> num_geb y k = true.
Proof.
  destruct x, y; cbn [num_leb num_geb]; try discriminate; try reflexivity.
  rewrite !Z.leb_le. lia.
Qed.

Lemma not_negative_geb (x : number) (k : Z) :
  num_geb x k = true -> 0 <= k -> not_negative x.
Proof.
  destruct x as [|z| |]; cbn [num_geb]; intros H Hk; try discriminate.
  - left. exists z. apply Z.leb_le in H. split; [reflexivity | lia].
  - right. reflexivity.
Qed.

(** *** The doubles next to a number *)

Lemma pow2_binade (n : Z) :
  2 ^ 53 <= n ->
  2 ^ 52 * 2 ^ (Z.log2 n - 52) = 2 ^ Z.log2 n /\
  2 ^ 53 * 2 ^ (Z.log2 n - 52) = 2 ^ Z.succ (Z.log2 n).
Proof.
  intros Hn. pose proof (binade n Hn) as [He _].
  split; rewrite <- Z.pow_add_r by lia; f_equal; lia.
Qed.

(** A double in the binade of [n] is a multiple of its unit. *)
Lemma double_in_binade (s n : Z) :
  2 ^ 53 <= n -> roundTiesToEven s = s ->
  2 ^ 52 * 2 ^ (Z.log2 n - 52) <= s < 2 ^ 53 * 2 ^ (Z.log2 n - 52) ->
  s = s / 2 ^ (Z.log2 n - 52) * 2 ^ (Z.log2 n - 52).
Proof.
  intros Hn Hs Hin.
  pose proof (binade n Hn) as [He [Hu _]].
  destruct (pow2_binade n Hn) as [E52 E53].
  set (u := 2 ^ (Z.log2 n - 52)) in *.
  assert (Hsb : 2 ^ 53 <= s) by (rewrite pow2_53 in *; nia).
  assert (Hlog : Z.log2 s = Z.log2 n).
  { apply Z.log2_unique; [lia|]. rewrite <- E52, <- E53. lia. }
  destruct (roundTiesToEven_up s Hsb) as [E|[E Hpos]];
    rewrite Hlog in E; fold u in E; rewrite Hs in E.
  - exact E.
  - rewrite Hlog in Hpos. fold u in Hpos.
    pose proof (Z.div_mod s u ltac:(lia)) as Hdm.
    pose proof (Z.mod_pos_bound s u ltac:(lia)). nia.
Qed.

Lemma double_below (s n : Z) :
  2 ^ 53 <= n -> 0 <= s <= n -> roundTiesToEven s = s ->
  s <= n / 2 ^ (Z.log2 n - 52) * 2 ^ (Z.log2 n - 52).
Proof.
  intros Hn Hsn Hs.
  pose proof (binade n Hn) as [He [Hu [Hn2 [Hq Hr]]]].
  set (u := 2 ^ (Z.log2 n - 52)) in *.
  destruct (Z.lt_ge_cases s (2 ^ 52 * u)) as [Hlow|Hhigh]; [nia|].
  rewrite (double_in_binade s n Hn Hs) by (fold u; lia). fold u.
  apply Z.mul_le_mono_nonneg_r; [lia|]. apply Z.div_le_mono; lia.
Qed.

Lemma double_above (s n : Z) :
  2 ^ 53 <= n -> n <= s -> roundTiesToEven s = s ->
  0 < n mod 2 ^ (Z.log2 n - 52) ->
  (n / 2 ^ (Z.log2 n - 52) + 1) * 2 ^ (Z.log2 n - 52) <= s.
Proof.
  intros Hn Hns Hs Hpos.
  pose proof (binade n Hn) as [He [Hu [Hn2 [Hq Hr]]]].
  set (u := 2 ^ (Z.log2 n - 52)) in *.
  destruct (Z.lt_ge_cases s (2 ^ 53 * u)) as [Hin|Hout]; [|nia].
  pose proof (double_in_binade s n Hn Hs ltac:(fold u; lia)) as Es.
  fold u in Es.
  pose proof (Z.div_mod n u ltac:(lia)) as Hdm.
  assert (Hsm : s mod u = 0) by (rewrite Es; apply Z.mod_mul; lia).
  assert (Hne : n <> s) by (intros ->; lia).
  assert (Hq1 : n / u < s / u).
  { apply Z.div_lt_upper_bound; [lia|]. lia. }
  rewrite Es. apply Z.mul_le_mono_nonneg_r; lia.
Qed.

(** The distance of a number to what it rounds to. *)
Lemma roundTiesToEven_error (n : Z) :
  2 ^ 53 <= n ->
  let u := 2 ^ (Z.log2 n - 52) in
  Z.abs (n - roundTiesToEven n) <= n mod u /\
  (0 < n mod u -> Z.abs (n - roundTiesToEven n) <= u - n mod u).
Proof.
  intros Hn u.
  pose proof (binade n Hn) as [He [Hu [Hn2 [Hq Hr]]]]. fold u in Hu, Hn2, Hq, Hr.
  pose proof (Z.div_mod n u ltac:(lia)) as Hdm.
  unfold roundTiesToEven.
  destruct (Z.ltb_spec n (2 ^ 53)); [lia|].
  fold u. cbv zeta.
  clear Hn2 Hq He H.
  set (q := n / u) in *. set (r := n mod u) in *. clearbody q r u.
  destruct (Z.ltb_spec (2 * r) u).
  - split; [|intros _]; lia.
  - destruct (Z.ltb_spec u (2 * r)).
    + split; [|intros _]; lia.
    + destruct (Z.even q); (split; [|intros _]); lia.
Qed.

(** What a number rounds to is a double nearest to it. *)
Lemma roundTiesToEven_nearest (n d : Z) :
  0 <= n -> 0 <= d -> roundTiesToEven d = d ->
  Z.abs (n - roundTiesToEven n) <= Z.abs (n - d).
Proof.
  intros Hn Hd Hfix. destruct (Z.lt_ge_cases n (2 ^ 53)) as [Hs|Hb].
  - rewrite (roundTiesToEven_small n Hs). lia.
  - pose proof (binade n Hb) as [He [Hu [Hn2 [Hq Hr]]]].
    destruct (roundTiesToEven_error n Hb) as [E1 E2].
    set (u := 2 ^ (Z.log2 n - 52)) in *.
    pose proof (Z.div_mod n u ltac:(lia)) as Hdm.
    destruct (Z.le_gt_cases d n) as [Hle|Hgt].
    + pose proof (double_below d n Hb (conj Hd Hle) Hfix) as Hf. fold u in Hf.
      lia.
    + destruct (Z.eq_dec (n mod u) 0) as [Hz|Hnz].
      * lia.
      * pose proof (double_above d n Hb ltac:(lia) Hfix ltac:(fold u; lia)) as Hc.
        fold u in Hc. specialize (E2 ltac:(lia)). nia.
Qed.

Lemma double_value_fixed (d : Z) :
  double_value d -> roundTiesToEven (Z.abs d) = Z.abs d.
Proof.
  intros [m [e [He [Hm [-> _]]]]].
  assert (Hpe : 0 < 2 ^ e) by (apply Z.pow_pos_nonneg; lia).
  rewrite Z.abs_mul, (Z.abs_eq (2 ^ e)) by lia.
  set (a := Z.abs m) in *.
  destruct (Z.lt_ge_cases (a * 2 ^ e) (2 ^ 53)) as [Hs|Hb];
    [apply roundTiesToEven_small; exact Hs|].
  pose proof (binade (a * 2 ^ e) Hb) as [Hk [Hu [Hn2 [Hq Hr]]]].
  set (k := Z.log2 (a * 2 ^ e)) in *.
  assert (Hke : k - 52 <= e).
  { destruct (Z.le_gt_cases (k - 52) e) as [H|H]; [exact H|exfalso].
    assert (2 ^ (e + 1) <= 2 ^ (k - 52)) by (apply Z.pow_le_mono_r; lia).
    rewrite Z.pow_add_r in H0 by lia. change (2 ^ 1) with 2 in H0.
    assert (a * 2 ^ e < 2 ^ 53 * 2 ^ e) by nia.
    assert (2 ^ 52 * (2 ^ e * 2) <= 2 ^ 52 * 2 ^ (k - 52)) by nia.
    change (2 ^ 53) with (2 ^ 52 * 2) in H1. nia. }
  assert (Hmul : a * 2 ^ e = (a * 2 ^ (e - (k - 52))) * 2 ^ (k - 52)).
  { rewrite <- Z.mul_assoc, <- Z.pow_add_r by lia. do 2 f_equal. lia. }
  unfold roundTiesToEven.
  destruct (Z.ltb_spec (a * 2 ^ e) (2 ^ 53)); [lia|].
  fold k. cbv zeta.
  assert (Hmod : (a * 2 ^ e) mod 2 ^ (k - 52) = 0)
    by (rewrite Hmul; apply Z.mod_mul; lia).
  rewrite Hmod.
  destruct (Z.ltb_spec (2 * 0) (2 ^ (k - 52))); [|lia].
  pose proof (Z.div_mod (a * 2 ^ e) (2 ^ (k - 52)) ltac:(lia)). lia.
Qed.

Lemma fixed_double_value (n : Z) :
  0 <= n < 2 ^ 1024 -> roundTiesToEven n = n -> double_value n.
Proof.
  intros Hn Hfix. destruct (Z.lt_ge_cases n (2 ^ 53)) as [Hs|Hb].
  - exists n, 0. rewrite Z.mul_1_r. repeat split; lia.
  - pose proof (binade n Hb) as [He [Hu [Hn2 [Hq Hr]]]].
    set (u := 2 ^ (Z.log2 n - 52)) in *.
    destruct (roundTiesToEven_up n Hb) as [E|[E Hpos]];
      fold u in E; [|fold u in Hpos]; rewrite Hfix in E.
    + exists (n / u), (Z.log2 n - 52). fold u.
      repeat split; try lia.
    + exfalso. pose proof (Z.div_mod n u ltac:(lia)). nia.
Qed.

(** A finite result of [to_double] is a double, and no double is nearer
    to the integer. *)
Lemma to_double_nearest (z m : Z) :
  to_double z = Num m ->
  double_value m /\
  forall d, double_value d -> Z.abs (z - m) <= Z.abs (z - d).
Proof.
  intros H. pose proof (to_double_is_double z) as Hd. rewrite H in Hd.
  cbn [is_double] in Hd. apply is_double_magnitude in Hd.
  destruct Hd as [Hfix Hfin].
  assert (Hval : double_value m).
  { destruct (fixed_double_value (Z.abs m) ltac:(lia) Hfix)
      as [a [e [He [Ha [E Hb]]]]].
    destruct (Z.lt_ge_cases m 0).
    - exists (- a), e. rewrite Z.abs_opp.
      split; [exact He|]. split; [exact Ha|]. split; [lia | exact Hfin].
    - exists a, e.
      split; [exact He|]. split; [exact Ha|]. split; [lia | exact Hfin]. }
  split; [exact Hval|]. intros d Hdv.
  pose proof (double_value_fixed d Hdv) as Hdfix.
  unfold to_double in H.
  destruct (2 ^ 1024 <=? roundTiesToEven (Z.abs z)); [destruct (z <? 0); discriminate|].
  injection H as H.
  pose proof (roundTiesToEven_nonneg (Z.abs z) (Z.abs_nonneg z)) as Hrn.
  pose proof (roundTiesToEven_nearest (Z.abs z) (Z.abs d) (Z.abs_nonneg z)
                (Z.abs_nonneg d) Hdfix) as Hnear.
  (* the rounded magnitude is at most twice the magnitude away from 0 *)
  pose proof (roundTiesToEven_nearest (Z.abs z) 0 (Z.abs_nonneg z)
                (Z.le_refl 0) eq_refl) as Hzero.
  destruct (Z.ltb_spec z 0); lia.
Qed.

(** [to_double] gives a finite number below the rounding limit of the
    largest double and an infinity from it on. *)
Lemma to_double_finite (z : Z) :
  Z.abs z < 2 ^ 1024 - 2 ^ 970 -> exists m, to_double z = Num m.
Proof.
  intros Hz. unfold to_double.
  destruct (Z.leb_spec (2 ^ 1024) (roundTiesToEven (Z.abs z))) as [Hbig|Hfin];
    [|eexists; reflexivity].
  exfalso. set (n := Z.abs z) in *.
  assert (Hmax : roundTiesToEven ((2 ^ 53 - 1) * 2 ^ (1023 - 52))
                 = (2 ^ 53 - 1) * 2 ^ (1023 - 52)).
  { apply roundTiesToEven_multiple; [lia|]. split; [|lia].
    rewrite pow2_53. change (2 ^ 52) with 4503599627370496. lia. }
  set (top := (2 ^ 53 - 1) * 2 ^ (1023 - 52)) in *.
  assert (Etop : 2 ^ 1024 = top + 2 ^ 971).
  { unfold top. change (1023 - 52) with 971.
    replace (2 ^ 1024) with (2 ^ 53 * 2 ^ 971)
      by (rewrite <- Z.pow_add_r by lia; reflexivity). lia. }
  assert (E970 : 2 ^ 971 = 2 * 2 ^ 970)
    by (change 971 with (1 + 970); rewrite Z.pow_add_r by lia; reflexivity).
  assert (Hn0 : 0 <= n) by (unfold n; lia).
  assert (Htop0 : 0 <= top) by (unfold top; apply Z.mul_nonneg_nonneg;
                               [rewrite pow2_53; lia | apply Z.pow_nonneg; lia]).
  pose proof (roundTiesToEven_nearest n top Hn0 Htop0 Hmax) as Hnear.
  assert (H970 : 0 < 2 ^ 970) by (apply Z.pow_pos_nonneg; lia).
  lia.
Qed.

Lemma to_double_overflow (z : Z) :
  2 ^ 1024 - 2 ^ 970 <= z -> to_double z = Infinity.
Proof.
  intros Hz.
  assert (H970 : 0 < 2 ^ 970) by (apply Z.pow_pos_nonneg; lia).
  assert (E971 : 2 ^ 971 = 2 * 2 ^ 970)
    by (change 971 with (1 + 970); rewrite Z.pow_add_r by lia; reflexivity).
  assert (E1024 : 2 ^ 1024 = 2 ^ 53 * 2 ^ 971)
    by (rewrite <- Z.pow_add_r by lia; reflexivity).
  assert (H53 : 2 ^ 53 = 9007199254740992) by reflexivity.
  assert (Hpos : 0 <= z) by nia.
  unfold to_double. rewrite Z.abs_eq by lia.
  destruct (Z.ltb_spec z 0); [lia|].
  destruct (Z.leb_spec (2 ^ 1024) (roundTiesToEven z)) as [_|Hfin];
    [reflexivity|exfalso].
  destruct (Z.lt_ge_cases z (2 ^ 1024)) as [Hin|Hout].
  - (* in the last binade, at or above the middle of its last step *)
    assert (Hb : 2 ^ 53 <= z) by nia.
    assert (Hlog : Z.log2 z = 1023).
    { apply Z.log2_unique; [lia|]. change (Z.succ 1023) with 1024.
      split; [|exact Hin].
      replace (2 ^ 1023) with (2 ^ 52 * 2 ^ 971)
        by (rewrite <- Z.pow_add_r by lia; reflexivity).
      change (2 ^ 52) with 4503599627370496. nia. }
    pose proof (binade z Hb) as [_ [Hu [Hn2 [Hq Hr]]]].
    rewrite Hlog in *. change (1023 - 52) with 971 in *.
    pose proof (Z.div_mod z (2 ^ 971) ltac:(lia)) as Hdm.
    assert (Hq' : z / 2 ^ 971 = 2 ^ 53 - 1) by nia.
    assert (Hr' : 2 ^ 970 <= z mod 2 ^ 971) by nia.
    unfold roundTiesToEven in Hfin.
    destruct (Z.ltb_spec z (2 ^ 53)); [lia|].
    rewrite Hlog in Hfin. change (1023 - 52) with 971 in Hfin. cbv zeta in Hfin.
    destruct (Z.ltb_spec (2 * (z mod 2 ^ 971)) (2 ^ 971)); [lia|].
    rewrite Hq' in Hfin.
    destruct (Z.ltb_spec (2 ^ 971) (2 * (z mod 2 ^ 971))).
    + nia.
    + change (Z.even (2 ^ 53 - 1)) with false in Hfin. nia.
  - assert (Hfix : roundTiesToEven (2 ^ 1024) = 2 ^ 1024).
    { replace (2 ^ 1024) with (2 ^ 52 * 2 ^ (1024 - 52))
        by (rewrite <- Z.pow_add_r by lia; reflexivity).
      apply roundTiesToEven_multiple; [lia|].
      rewrite H53. change (2 ^ 52) with 4503599627370496. lia. }
    pose proof (roundTiesToEven_above (2 ^ 1024) z ltac:(lia) Hfix). lia.
Qed.

(** ** Maps and sums *)

Lemma map_get_map_set {V} (k k' : Z) (v : V) (mp : JsMap V) :
  map_get k (map_set k' v mp) = if k =? k' then Some v else map_get k mp.
Proof.
  induction mp as [|[k0 v0] mp IH]; simpl.
  - reflexivity.
  - destruct (k' =? k0) eqn:E0; simpl.
    + apply Z.eqb_eq in E0. subst k0. destruct (k =? k'); reflexivity.
    + rewrite IH. destruct (k =? k0) eqn:E1; [|reflexivity].
      apply Z.eqb_eq in E1. subst k0.
      rewrite Z.eqb_sym, E0. reflexivity.
Qed.

Lemma new_Map_snoc {V} (entries : list (Z * V)) (k : Z) (v : V) :
  new_Map (entries ++ [(k, v)]) = map_set k v (new_Map entries).
Proof.
  unfold new_Map. rewrite fold_left_app. reflexivity.
Qed.

Lemma reversed_in_absent (questions : list Question) (i : Z) :
  ~ In i (map q_id questions) -> reversed_in questions i = false.
Proof.
  unfold reversed_in. induction questions as [|q qs IH]; simpl; intros H.
  - reflexivity.
  - destruct (q_id q =? i) eqn:E.
    + apply Z.eqb_eq in E. tauto.
    + simpl. apply IH. tauto.
Qed.

(** Under distinct question ids the lookup in [reversedMap], with its
    [|| false] default, is the flag of the question that carries the id. *)
Lemma reversedMap_lookup (questions : list Question) (i : Z) :
  NoDup (map q_id questions) ->
  match map_get i (new_Map (map (fun q => (q_id q, isReversed q)) questions)) with
  | Some b => b
  | None => false
  end = reversed_in questions i.
Proof.
  induction questions as [|q qs IH] using rev_ind; intros ND.
  - reflexivity.
  - rewrite map_app in ND. simpl in ND.
    assert (NDqs : NoDup (map q_id qs)) by (eapply NoDup_app_remove_r; eauto).
    assert (Hq : ~ In (q_id q) (map q_id qs)).
    { intros Hin. apply (NoDup_remove_2 (map q_id qs) [] (q_id q) ND).
      rewrite app_nil_r. exact Hin. }
    rewrite map_app. simpl. rewrite new_Map_snoc, map_get_map_set.
    unfold reversed_in. rewrite existsb_app. simpl.
    fold (reversed_in qs i). rewrite orb_false_r.
    destruct (i =? q_id q) eqn:E.
    + apply Z.eqb_eq in E. subst i.
      rewrite (reversed_in_absent qs _ Hq), Z.eqb_refl. reflexivity.
    + rewrite Z.eqb_sym, E, orb_false_r. apply IH. exact NDqs.
Qed.

Lemma fold_left_sum {A} (g : A -> Z) (l : list A) (a : Z) :
  fold_left (fun acc x => acc + g x) l a = a + sumZ (map g l).
Proof.
  revert a. induction l as [|x l IH]; intros a; simpl.
  - lia.
  - rewrite IH. lia.
Qed.

Lemma sumZ_bounds {A} (g : A -> Z) (lo hi : Z) (l : list A) :
  (forall x, In x l -> lo <= g x <= hi) ->
  lo * Z.of_nat (length l) <= sumZ (map g l) <= hi * Z.of_nat (length l).
Proof.
  induction l as [|x l IH]; intros H.
  - simpl. lia.
  - specialize (IH (fun y Hy => H y (or_intror Hy))).
    specialize (H x (or_introl eq_refl)).
    cbn [length map sumZ fold_right]. fold (sumZ (map g l)). lia.
Qed.

Lemma clamp_is_clamped (v : Z) : Z.min (Z.max v 1) 6 = clamped v.
Proof.
  unfold clamped. destruct (v <? 1) eqn:E1; [|destruct (6 <? v) eqn:E2]; lia.
Qed.

Lemma clamped_range (v : Z) : 1 <= clamped v <= 6.
Proof.
  unfold clamped. destruct (v <? 1) eqn:E1; [|destruct (6 <? v) eqn:E2]; lia.
Qed.

Lemma clamped_id (v : Z) : 1 <= v <= 6 -> clamped v = v.
Proof.
  intros H. unfold clamped.
  destruct (v <? 1) eqn:E1; [|destruct (6 <? v) eqn:E2]; lia.
Qed.

Lemma item_score_range (questions : list Question) (r : Response) :
  1 <= item_score questions r <= 6.
Proof.
  unfold item_score. pose proof (clamped_range (response r)).
  destruct (reversed_in questions (questionId r)); lia.
Qed.

(** The loop of [calculateAOTScore] adds up the item scores. *)
Lemma score_loop (questions : list Question) (l : list Response) (a : Z) :
  NoDup (map q_id questions) ->
  fold_left
    (fun totalScore r =>
       let validResponse := Z.min (Z.max (response r) 1) 6 in
       let isRev :=
         match map_get (questionId r)
                 (new_Map (map (fun q => (q_id q, isReversed q)) questions)) with
         | Some b => b
         | None => false
         end in
       let questionScore :=
         if isRev then 7 - validResponse else validResponse in
       totalScore + questionScore)
    l a
  = a + sumZ (map (item_score questions) l).
Proof.
  intros ND. revert a. induction l as [|r l IH]; intros a.
  - simpl. lia.
  - cbn [fold_left map sumZ fold_right]. rewrite IH.
    fold (sumZ (map (item_score questions) l)).
    rewrite reversedMap_lookup by exact ND.
    rewrite clamp_is_clamped. unfold item_score. lia.
Qed.

Lemma calculateAOTScore_sum (responses : list Response) (questions : list Question) :
  NoDup (map q_id questions) ->
  length (nodup Z.eq_dec (map questionId responses)) = length questions ->
  calculateAOTScore responses questions
  = Some (sumZ (map (item_score questions) responses)).
Proof.
  intros ND Hlen. unfold calculateAOTScore, new_Set, set_size.
  rewrite Hlen, Z.eqb_refl. cbn [negb]. f_equal.
  rewrite score_loop by exact ND. lia.
Qed.

Lemma calculateAOTScore_incomplete (responses : list Response)
    (questions : list Question) :
  length (nodup Z.eq_dec (map questionId responses)) <> length questions ->
  calculateAOTScore responses questions = None.
Proof.
  intros H. unfold calculateAOTScore, new_Set, set_size.
  destruct (Z.eqb_spec (Z.of_nat (length (nodup Z.eq_dec (map questionId responses))))
                       (Z.of_nat (length questions))) as [E|E].
  - apply Nat2Z.inj in E. contradiction.
  - reflexivity.
Qed.

(** One answer per question, and answers to questions of the set only:
    the answered ids are the question ids in some order. *)
Lemma one_answer_each (responses : list Response) (questions : list Question) :
  NoDup (map q_id questions) ->
  (forall q, In q questions ->
     count_occ Z.eq_dec (map questionId responses) (q_id q) = 1%nat) ->
  (forall r, In r responses -> In (questionId r) (map q_id questions)) ->
  NoDup (map questionId responses) /\
  length responses = length questions.
Proof.
  intros ND H1 H2.
  assert (NDr : NoDup (map questionId responses)).
  { apply (NoDup_count_occ Z.eq_dec). intros i.
    destruct (in_dec Z.eq_dec i (map questionId responses)) as [Hi|Hi].
    - apply in_map_iff in Hi. destruct Hi as [r [<- Hr]].
      specialize (H2 r Hr). apply in_map_iff in H2.
      destruct H2 as [q [Hq Hin]]. rewrite <- Hq. rewrite (H1 q Hin). lia.
    - apply (count_occ_not_In Z.eq_dec) in Hi. rewrite Hi. lia. }
  split; [exact NDr|].
  assert (P : Permutation (map questionId responses) (map q_id questions)).
  { apply NoDup_Permutation; [exact NDr | exact ND |]. intros i. split.
    - intros Hi. apply in_map_iff in Hi. destruct Hi as [r [<- Hr]]. auto.
    - intros Hi. apply in_map_iff in Hi. destruct Hi as [q [<- Hq]].
      apply (count_occ_In Z.eq_dec). rewrite (H1 q Hq). lia. }
  apply Permutation_length in P. rewrite !length_map in P. exact P.
Qed.

(** C1.  When every question of the reference set has exactly one answer
    (and every answer is to a question of the set), the scorer returns the
    sum over the responses of [7 - c] for a reversed question and [c]
    otherwise, [c] being the value clamped into 1..6: an out-of-range
    value is clamped, not rejected.  The score lies between [n] and [6n]
    for [n] questions, and for values already in 1..6 it is the sum of
    [7 - v] or [v] over the values as submitted. *)
Theorem calculateAOTScore_complete_set
    (responses : list Response) (questions : list Question) :
  NoDup (map q_id questions) ->
  (forall q, In q questions ->
     count_occ Z.eq_dec (map questionId responses) (q_id q) = 1%nat) ->
  (forall r, In r responses -> In (questionId r) (map q_id questions)) ->
  exists score,
    calculateAOTScore responses questions = Some score /\
    score = sumZ (map (item_score questions) responses) /\
    Z.of_nat (length questions) <= score <= 6 * Z.of_nat (length questions) /\
    (Forall (fun r => 1 <= response r <= 6) responses ->
     score = sumZ (map (raw_item_score questions) responses)).
Proof.
  intros ND H1 H2.
  destruct (one_answer_each responses questions ND H1 H2) as [NDr Hlen].
  exists (sumZ (map (item_score questions) responses)).
  split; [|split; [reflexivity|split]].
  - apply calculateAOTScore_sum; [exact ND|].
    rewrite nodup_fixed_point by exact NDr. rewrite length_map. exact Hlen.
  - rewrite <- Hlen.
    pose proof (sumZ_bounds (item_score questions) 1 6 responses
                  (fun r _ => item_score_range questions r)). lia.
  - intros Hrange. f_equal. apply map_ext_in. intros r Hr.
    rewrite Forall_forall in Hrange. specialize (Hrange r Hr).
    unfold item_score, raw_item_score. rewrite clamped_id by exact Hrange.
    reflexivity.
Qed.

Lemma calculateAOTScore_complete_set_witness :
  exists score,
    calculateAOTScore
      [ {| questionId := 2; response := 9 |}; {| questionId := 1; response := 1 |} ]
      [ {| q_id := 1; isReversed := true |}; {| q_id := 2; isReversed := false |} ]
    = Some score /\ score = 12.
Proof.
  destruct (calculateAOTScore_complete_set
      [ {| questionId := 2; response := 9 |}; {| questionId := 1; response := 1 |} ]
      [ {| q_id := 1; isReversed := true |}; {| q_id := 2; isReversed := false |} ])
    as [score [Hs [Hsum _]]].
  - repeat constructor; simpl; intuition discriminate.
  - intros q [<-|[<-|[]]]; reflexivity.
  - intros r [<-|[<-|[]]]; simpl; auto.
  - exists score. split; [exact Hs|]. rewrite Hsum. reflexivity.
Defined.

(** ** Questionnaire handler *)

(** C6.  When the number of distinct question ids answered differs from the
    number of questions, the scorer returns [null] (no exception), and the
    handler answers "missing N" with N the question count less the
    response count; with n-1 distinct answers out of n questions, N is 1. *)
Theorem incomplete_questionnaire_reported
    (db : Db) (uid : Z) (responses : list Response) (questions : list Question) :
  length (nodup Z.eq_dec (map questionId responses)) <> length questions ->
  calculateAOTScore responses questions = None /\
  completeQuestionnaire true db uid responses questions
  = (QuestionnaireMissing
       (Z.of_nat (length questions) - Z.of_nat (length responses)), db) /\
  (NoDup (map questionId responses) ->
   length questions = S (length responses) ->
   completeQuestionnaire true db uid responses questions
   = (QuestionnaireMissing 1, db)).
Proof.
  intros H. pose proof (calculateAOTScore_incomplete _ _ H) as Hnone.
  split; [exact Hnone|].
  assert (Hreply : completeQuestionnaire true db uid responses questions
                   = (QuestionnaireMissing
                        (Z.of_nat (length questions) - Z.of_nat (length responses)), db)).
  { unfold completeQuestionnaire. rewrite Hnone. reflexivity. }
  split; [exact Hreply|].
  intros _ Hn. rewrite Hreply, Hn. do 2 f_equal. lia.
Qed.

Lemma incomplete_questionnaire_reported_witness :
  calculateAOTScore
    [ {| questionId := 1; response := 4 |} ]
    [ {| q_id := 1; isReversed := true |}; {| q_id := 2; isReversed := false |} ]
  = None /\
  completeQuestionnaire true {| users := []; badges := []; userBadges := [] |} 7
    [ {| questionId := 1; response := 4 |} ]
    [ {| q_id := 1; isReversed := true |}; {| q_id := 2; isReversed := false |} ]
  = (QuestionnaireMissing 1, {| users := []; badges := []; userBadges := [] |}).
Proof.
  destruct (incomplete_questionnaire_reported
              {| users := []; badges := []; userBadges := [] |} 7
              [ {| questionId := 1; response := 4 |} ]
              [ {| q_id := 1; isReversed := true |};
                {| q_id := 2; isReversed := false |} ])
    as [H1 [_ H3]].
  - simpl. discriminate.
  - split; [exact H1|]. apply H3.
    + repeat constructor. simpl. tauto.
    + reflexivity.
Defined.

(** ** Score update *)

Lemma select_user_update (db : Db) (uid : Z) (f : User -> User) (u : User) :
  (forall v, user_id (f v) = user_id v) ->
  select_user db uid = Some u ->
  select_user (update_users db uid f) uid = Some (f u).
Proof.
  intros Hf. unfold select_user, update_users. simpl.
  induction (users db) as [|v l IH]; simpl; intros H.
  - discriminate.
  - destruct (user_id v =? uid) eqn:E.
    + injection H as <-. simpl. rewrite Hf, E. reflexivity.
    + simpl. rewrite E. apply IH. exact H.
Qed.

Lemma select_user_update_other (db : Db) (uid v : Z) (f : User -> User) :
  (forall w, user_id (f w) = user_id w) ->
  v <> uid ->
  select_user (update_users db uid f) v = select_user db v.
Proof.
  intros Hf Hv. unfold select_user, update_users. simpl.
  induction (users db) as [|w l IH]; simpl.
  - reflexivity.
  - destruct (user_id w =? uid) eqn:E.
    + rewrite Hf. apply Z.eqb_eq in E.
      destruct (user_id w =? v) eqn:E2; [apply Z.eqb_eq in E2; congruence|].
      exact IH.
    + destruct (user_id w =? v); [reflexivity | exact IH].
Qed.

(** C10, as the handler has it.  For an authenticated call with any
    integer delta, a stored total that is non-negative before the call is
    non-negative after it, and the totals of other users are untouched.
    The delta applied is [max(-currentTotal, points)], so the new total
    is [max(0, currentTotal + points)] whenever that sum fits the 32-bit
    column; when it does not, the statement fails, the reply is 500 and
    the total stays as it was. *)
Theorem updateScore_never_negative
    (db : Db) (uid points : Z) (currentUser : User) :
  select_user db uid = Some currentUser ->
  0 <= totalScore currentUser <= 2147483647 ->
  exists reply db' updatedUser,
    updateScore true db uid points = (reply, db') /\
    select_user db' uid = Some updatedUser /\
    0 <= totalScore updatedUser /\
    (forall v, v <> uid -> select_user db' v = select_user db v) /\
    (totalScore currentUser + points <= 2147483647 ->
     reply = ScoreUpdated (Z.max 0 (totalScore currentUser + points)) /\
     totalScore updatedUser
     = totalScore currentUser + Z.max (- totalScore currentUser) points /\
     totalScore updatedUser = Z.max 0 (totalScore currentUser + points)) /\
    (2147483647 < totalScore currentUser + points ->
     reply = ScoreFailed /\ db' = db).
Proof.
  intros Hsel Hrange. unfold updateScore. cbn [negb]. rewrite Hsel.
  unfold safePointsToAdd, int4.
  destruct (Z.le_gt_cases (totalScore currentUser + points) 2147483647)
    as [Hfits|Hover].
  - replace ((-2147483648 <=? Z.max (- totalScore currentUser) points)
             && (Z.max (- totalScore currentUser) points <=? 2147483647)
             && ((-2147483648 <=? totalScore currentUser
                                  + Z.max (- totalScore currentUser) points)
                 && (totalScore currentUser
                     + Z.max (- totalScore currentUser) points <=? 2147483647)))
      with true
      by (symmetry; rewrite !andb_true_iff, !Z.leb_le; lia).
    set (f := fun u : User =>
                {| user_id := user_id u;
                   totalScore := totalScore u
                                 + Z.max (- totalScore currentUser) points;
                   hasCompletedQuestionnaire := hasCompletedQuestionnaire u;
                   aotScore := aotScore u |}).
    assert (Hf : forall v, user_id (f v) = user_id v) by reflexivity.
    rewrite (select_user_update db uid f currentUser Hf Hsel).
    assert (Ht : totalScore (f currentUser)
                 = totalScore currentUser
                   + Z.max (- totalScore currentUser) points)
      by reflexivity.
    exists (ScoreUpdated (totalScore (f currentUser))),
           (update_users db uid f), (f currentUser).
    split; [reflexivity|].
    split; [exact (select_user_update db uid f currentUser Hf Hsel)|].
    split; [rewrite Ht; lia|].
    split; [intros v Hv; apply select_user_update_other; assumption|].
    split; [|intros; lia].
    intros _. rewrite Ht.
    split; [f_equal; lia|]. split; [reflexivity | lia].
  - replace ((-2147483648 <=? Z.max (- totalScore currentUser) points)
             && (Z.max (- totalScore currentUser) points <=? 2147483647)
             && ((-2147483648 <=? totalScore currentUser
                                  + Z.max (- totalScore currentUser) points)
                 && (totalScore currentUser
                     + Z.max (- totalScore currentUser) points <=? 2147483647)))
      with false
      by (symmetry; rewrite !andb_false_iff, !Z.leb_gt; lia).
    exists ScoreFailed, db, currentUser.
    split; [reflexivity|]. split; [exact Hsel|]. split; [lia|].
    split; [reflexivity|]. split; [intros; lia|]. intros _. split; reflexivity.
Qed.

Lemma updateScore_never_negative_witness :
  exists reply db' updatedUser,
    updateScore true
      {| users := [ {| user_id := 1; totalScore := 40;
                       hasCompletedQuestionnaire := true; aotScore := Some 50 |} ];
         badges := []; userBadges := [] |} 1 (-1000)
    = (reply, db') /\
    reply = ScoreUpdated 0 /\
    select_user db' 1 = Some updatedUser /\ totalScore updatedUser = 0.
Proof.
  destruct (updateScore_never_negative
      {| users := [ {| user_id := 1; totalScore := 40;
                       hasCompletedQuestionnaire := true; aotScore := Some 50 |} ];
         badges := []; userBadges := [] |} 1 (-1000)
      {| user_id := 1; totalScore := 40;
         hasCompletedQuestionnaire := true; aotScore := Some 50 |})
    as [reply [db' [u' [H1 [H2 [_ [_ [H3 _]]]]]]]].
  - reflexivity.
  - simpl. lia.
  - exists reply, db', u'. split; [exact H1|].
    destruct H3 as [Hr [_ Ht]]; [simpl; lia|].
    split; [exact Hr|]. split; [exact H2 | exact Ht].
Defined.

(** C10, as stated, fails where the sum leaves the 32-bit column.  A user
    holds 2147483647 points and one point is added: the statement is
    refused, the reply is 500, and the stored total is the old one, not
    [max(0, currentTotal + points)]. *)
Lemma updateScore_overflow :
  let db :=
    {| users := [ {| user_id := 1; totalScore := 2147483647;
                     hasCompletedQuestionnaire := true; aotScore := Some 50 |} ];
       badges := []; userBadges := [] |} in
  exists updatedUser,
    updateScore true db 1 1 = (ScoreFailed, db) /\
    select_user (snd (updateScore true db 1 1)) 1 = Some updatedUser /\
    totalScore updatedUser = 2147483647 /\
    totalScore updatedUser <> Z.max 0 (2147483647 + 1).
Proof.
  intros db. eexists.
  split; [reflexivity|]. split; [reflexivity|]. split; [reflexivity|].
  cbn [totalScore]. lia.
Qed.

(** ** Badge ledger *)

Lemma select_badge_insert (db : Db) (row : UserBadge) (name : str) :
  select_badge (insert_userBadge db row) name = select_badge db name.
Proof. reflexivity. Qed.

Lemma select_userBadges_insert (db : Db) (row : UserBadge) (uid bid : Z) :
  select_userBadges (insert_userBadge db row) uid bid
  = select_userBadges db uid bid ++
    (if (ub_userId row =? uid) && (ub_badgeId row =? bid) then [row] else []).
Proof.
  unfold select_userBadges, insert_userBadge. simpl.
  rewrite filter_app. reflexivity.
Qed.

Lemma award_rows_after_insert (db : Db) (uid bid : Z) (gameType : str) :
  select_userBadges db uid bid = [] ->
  select_userBadges
    (insert_userBadge db
       {| ub_userId := uid; ub_badgeId := bid; ub_gameType := gameType |})
    uid bid
  = [ {| ub_userId := uid; ub_badgeId := bid; ub_gameType := gameType |} ].
Proof.
  intros H. rewrite select_userBadges_insert, H. simpl.
  rewrite !Z.eqb_refl. reflexivity.
Qed.

Lemma find_present {A} (p : A -> bool) (l : list A) (x : A) :
  In x l -> p x = true -> exists y, find p l = Some y.
Proof.
  induction l as [|a l IH]; intros Hin Hp; [contradiction|].
  cbn [find]. destruct (p a) eqn:E; [eexists; reflexivity|].
  destruct Hin as [->|Hin]; [congruence | exact (IH Hin Hp)].
Qed.

Lemma insert_into_userBadges_row (db db' : Db) (uid bid : Z) (gameType : str) :
  insert_into_userBadges db uid bid gameType = Some db' ->
  exists u stored,
    select_user db uid = Some u /\ varchar 50 gameType = Some stored /\
    db' = insert_userBadge db
            {| ub_userId := uid; ub_badgeId := bid; ub_gameType := stored |}.
Proof.
  unfold insert_into_userBadges.
  destruct (select_user db uid) as [u|]; [|discriminate].
  destruct (find _ (badges db)); [|discriminate].
  destruct (varchar 50 gameType) as [stored|]; [|discriminate].
  intros H. injection H as <-. exists u, stored. auto.
Qed.

Lemma insert_into_userBadges_accepted
    (db : Db) (uid : Z) (name gameType stored : str) (b : Badge) (u : User) :
  select_user db uid = Some u ->
  select_badge db name = Some b ->
  varchar 50 gameType = Some stored ->
  insert_into_userBadges db uid (badge_id b) gameType
  = Some (insert_userBadge db
            {| ub_userId := uid; ub_badgeId := badge_id b;
               ub_gameType := stored |}).
Proof.
  intros Hu Hb Hg. unfold insert_into_userBadges. rewrite Hu, Hg.
  unfold select_badge in Hb. apply find_some in Hb. destruct Hb as [Hin _].
  destruct (find_present (fun b' => badge_id b' =? badge_id b) (badges db) b
              Hin (Z.eqb_refl _)) as [y ->].
  reflexivity.
Qed.

(** C4.  Awarding a badge name of the catalogue twice to a user of the
    store who does not hold the badge yet: the first call reports the new
    award, the second reports the badge as already owned and leaves the
    store as it is, and exactly one award row for the (user, badge) pair
    exists afterwards.  This holds for the award endpoint, whatever game
    type the first call carries that fits its column, and for the badge
    flow of the training dialogue.  The name and the game type are text
    the database receives as written: they hold no U+0000 and no
    surrogate without its partner. *)
Theorem badge_award_idempotent
    (db : Db) (uid : Z) (badgeType gameType stored gameType2 : str)
    (b : Badge) (u : User) :
  badgeType <> [] ->
  text_param badgeType = Some badgeType ->
  select_badge db badgeType = Some b ->
  select_user db uid = Some u ->
  text_param gameType = Some gameType ->
  varchar 50 gameType = Some stored ->
  select_userBadges db uid (badge_id b) = [] ->
  (exists db1,
     awardBadge true db uid badgeType gameType
     = (BadgeAwardedSuccessfully b, db1) /\
     awardBadge true db1 uid badgeType gameType2
     = (BadgeAlreadyAwarded b, db1) /\
     award_rows db1 uid (badge_id b) = 1%nat) /\
  (exists db1,
     dialogueBadgeFlow db uid badgeType = (Some b, AwardedBadge, db1) /\
     dialogueBadgeFlow db1 uid badgeType = (None, UserAlreadyHasBadge, db1) /\
     award_rows db1 uid (badge_id b) = 1%nat).
Proof.
  intros Hne Hname Hb Hu _ Hg Hnone. split.
  - exists (insert_userBadge db
              {| ub_userId := uid; ub_badgeId := badge_id b;
                 ub_gameType := stored |}).
    pose proof (insert_into_userBadges_accepted db uid badgeType gameType
                  stored b u Hu Hb Hg) as Hins.
    unfold awardBadge, award_rows. cbn [negb].
    destruct badgeType as [|ch w]; [contradiction|].
    rewrite Hname, select_badge_insert, Hb, Hnone, Hins.
    rewrite (award_rows_after_insert db uid (badge_id b) stored Hnone).
    repeat split.
  - exists (insert_userBadge db
              {| ub_userId := uid; ub_badgeId := badge_id b;
                 ub_gameType := codes "thought_zombies" |}).
    unfold dialogueBadgeFlow, award_rows.
    rewrite Hname, select_badge_insert, Hb, Hnone.
    rewrite (insert_into_userBadges_accepted db uid badgeType
               (codes "thought_zombies") (codes "thought_zombies") b u
               Hu Hb eq_refl).
    rewrite (award_rows_after_insert db uid (badge_id b) _ Hnone).
    repeat split.
Qed.

Lemma badge_award_idempotent_witness :
  let evidence_expert :=
    {| badge_id := 5; badge_name := codes "evidence_expert";
       badge_description := codes "You backed up your point with proof or an example";
       badge_imageUrl := codes "/badges/evidence-expert-badge.png" |} in
  let db :=
    {| users := [ {| user_id := 3; totalScore := 12;
                     hasCompletedQuestionnaire := true; aotScore := Some 50 |} ];
       badges := [evidence_expert]; userBadges := [] |} in
  exists db1,
    awardBadge true db 3 (codes "evidence_expert") (codes "thought_zombies")
    = (BadgeAwardedSuccessfully evidence_expert, db1) /\
    awardBadge true db1 3 (codes "evidence_expert") (codes "thought_zombies")
    = (BadgeAlreadyAwarded evidence_expert, db1) /\
    award_rows db1 3 5 = 1%nat.
Proof.
  intros evidence_expert db.
  destruct (badge_award_idempotent db 3 (codes "evidence_expert")
              (codes "thought_zombies") (codes "thought_zombies")
              (codes "thought_zombies") evidence_expert
              {| user_id := 3; totalScore := 12;
                 hasCompletedQuestionnaire := true; aotScore := Some 50 |})
    as [H _].
  - discriminate.
  - reflexivity.
  - reflexivity.
  - reflexivity.
  - reflexivity.
  - reflexivity.
  - reflexivity.
  - exact H.
Defined.

(** The database decides the first call.  For a game type of 51
    characters the row is refused: the reply is 500 and no row is
    stored; the same holds for a user id with no row in [users]. *)
Lemma awardBadge_refused :
  let evidence_expert :=
    {| badge_id := 5; badge_name := codes "evidence_expert";
       badge_description := codes "You backed up your point with proof or an example";
       badge_imageUrl := codes "/badges/evidence-expert-badge.png" |} in
  let db :=
    {| users := [ {| user_id := 3; totalScore := 12;
                     hasCompletedQuestionnaire := true; aotScore := Some 50 |} ];
       badges := [evidence_expert]; userBadges := [] |} in
  awardBadge true db 3 (codes "evidence_expert")
    (codes "thought_zombies_thought_zombies_thought_zombies_123")
  = (AwardFailed, db) /\
  awardBadge true db 4 (codes "evidence_expert") (codes "thought_zombies")
  = (AwardFailed, db).
Proof. split; vm_compute; reflexivity. Qed.

(** ** Session completion in the game client *)

Lemma has_badge_in (earned : list ThoughtZombiesGame.EarnedBadge) (b : Badge) :
  ThoughtZombiesGame.has_badge earned b = true
  <-> In (badge_id b) (map ThoughtZombiesGame.id earned).
Proof.
  unfold ThoughtZombiesGame.has_badge. rewrite existsb_exists, in_map_iff.
  split; intros [e [H1 H2]].
  - exists e. apply Z.eqb_eq in H2. tauto.
  - exists e. split; [exact H2|]. apply Z.eqb_eq. exact H1.
Qed.

Lemma add_badge_NoDup (earned : list ThoughtZombiesGame.EarnedBadge)
    (b : option Badge) :
  NoDup (map ThoughtZombiesGame.id earned) ->
  NoDup (map ThoughtZombiesGame.id (ThoughtZombiesGame.add_badge earned b)).
Proof.
  intros ND. destruct b as [b|]; [|exact ND]. simpl.
  destruct (ThoughtZombiesGame.has_badge earned b) eqn:E; [exact ND|].
  rewrite map_app. simpl. apply NoDup_app.
  - exact ND.
  - repeat constructor. simpl. tauto.
  - intros a Ha [<-|[]].
    apply has_badge_in in Ha. congruence.
Qed.

Lemma add_badge_grows (earned : list ThoughtZombiesGame.EarnedBadge)
    (b : option Badge) :
  exists added,
    ThoughtZombiesGame.add_badge earned b
    = earned ++ map ThoughtZombiesGame.replyBadge added.
Proof.
  destruct b as [b|]; cbn [ThoughtZombiesGame.add_badge].
  - destruct (ThoughtZombiesGame.has_badge earned b).
    + exists []. rewrite app_nil_r. reflexivity.
    + exists [b]. reflexivity.
  - exists []. rewrite app_nil_r. reflexivity.
Qed.

(** C9 at two sessions of the game client, over the catalogue the server
    seeds.  In the first the component has loaded four badges of the
    user from [/api/user-badges] (the award rows numbered 11 to 14, the
    newest first) and the reply carries one of them again:
    the ids of the loaded rows are ids of award rows, the badge is taken
    for a new one, and the session moves to the results stage with
    no points and four distinct badges.  In the second the user has
    earned four badges in the session and the reply names the fifth in
    capitals: the server finds no badge of that name, the client posts
    the type to the award endpoint and stores the badge of the answer,
    but the stage was decided before, and the session stays in the
    arguing stage with five distinct badges. *)
Theorem session_completion_miscounts_badges :
  let reason_giver :=
    {| badge_id := 1; badge_name := codes "reason_giver";
       badge_description := codes "You gave a clear reason for your main point";
       badge_imageUrl := codes "/badges/reason-giver-badge.png" |} in
  let fact_checker :=
    {| badge_id := 2; badge_name := codes "fact_checker";
       badge_description :=
         codes "You questioned if something was actually true or the whole story";
       badge_imageUrl := codes "/badges/fact-checker-badge.png" |} in
  let link_cutter :=
    {| badge_id := 3; badge_name := codes "link_cutter";
       badge_description :=
         codes "You showed that even if a point is true, it doesn't automatically make the conclusion right";
       badge_imageUrl := codes "/badges/link-cutter-badge.png" |} in
  let hidden_premise_hunter :=
    {| badge_id := 4; badge_name := codes "hidden_premise_hunter";
       badge_description :=
         codes "You pointed out something that was being assumed without being stated";
       badge_imageUrl := codes "/badges/hidden-premise-badge.png" |} in
  let evidence_expert :=
    {| badge_id := 5; badge_name := codes "evidence_expert";
       badge_description := codes "You backed up your point with proof or an example";
       badge_imageUrl := codes "/badges/evidence-expert-badge.png" |} in
  let catalogue :=
    [reason_giver; fact_checker; link_cutter; hidden_premise_hunter;
     evidence_expert] in
  let player :=
    {| user_id := 7; totalScore := 0;
       hasCompletedQuestionnaire := true; aotScore := Some 50 |} in
  (* four badges loaded, one of them awarded again *)
  let holder :=
    {| users := [player]; badges := catalogue;
       userBadges :=
         map (fun k => {| ub_userId := 7; ub_badgeId := k;
                          ub_gameType := codes "thought_zombies" |})
             [1; 2; 3; 4] |} in
  let loaded :=
    {| ThoughtZombiesGame.gameStage := ThoughtZombiesGame.argue_own;
       ThoughtZombiesGame.totalScore := Num 0;
       ThoughtZombiesGame.earnedBadges :=
         [ ThoughtZombiesGame.userBadgeRow 14 hidden_premise_hunter;
           ThoughtZombiesGame.userBadgeRow 13 link_cutter;
           ThoughtZombiesGame.userBadgeRow 12 fact_checker;
           ThoughtZombiesGame.userBadgeRow 11 reason_giver ] |} in
  let again :=
    {| message := codes "That is a clear reason. [badge: reason_giver]";
       score := Num 0;
       zombies_badge := Some reason_giver |} in
  let st1 :=
    ThoughtZombiesGame.submitResponse loaded (Num 0) (Num 0) (Num 0) again None in
  (* four badges earned in the session, the fifth named in capitals *)
  let earned :=
    {| ThoughtZombiesGame.gameStage := ThoughtZombiesGame.argue_own;
       ThoughtZombiesGame.totalScore := Num 0;
       ThoughtZombiesGame.earnedBadges :=
         [ ThoughtZombiesGame.replyBadge reason_giver;
           ThoughtZombiesGame.replyBadge fact_checker;
           ThoughtZombiesGame.replyBadge link_cutter;
           ThoughtZombiesGame.replyBadge hidden_premise_hunter ] |} in
  let fifth :=
    {| message := codes "You brought an example. [badge: Evidence_Expert]";
       score := Num 0;
       zombies_badge := None |} in
  let newcomer := {| users := [player]; badges := catalogue; userBadges := [] |} in
  let answer :=
    awardBadge true newcomer 7 (codes "evidence_expert")
      (codes "thought_zombies") in
  let st2 :=
    ThoughtZombiesGame.submitResponse earned (Num 0) (Num 0) (Num 0) fifth
      (Some (fst answer)) in
  (ThoughtZombiesGame.earnedBadges loaded
   = rev (map (fun row => ThoughtZombiesGame.userBadgeRow (fst row) (snd row))
              (combine [11; 12; 13; 14] (userBadgeRows holder 7))) /\
   thoughtZombiesDialogue true holder (Some (message again)) = ZombiesOk again /\
   ThoughtZombiesGame.distinctBadges (ThoughtZombiesGame.earnedBadges loaded) = 4 /\
   ThoughtZombiesGame.gameStage st1 = ThoughtZombiesGame.results /\
   ThoughtZombiesGame.totalScore st1 = Num 0 /\
   ThoughtZombiesGame.distinctBadges (ThoughtZombiesGame.earnedBadges st1) = 4) /\
  (thoughtZombiesDialogue true newcomer (Some (message fifth)) = ZombiesOk fifth /\
   ThoughtZombiesGame.badgeType fifth = Some (codes "evidence_expert") /\
   fst answer = BadgeAwardedSuccessfully evidence_expert /\
   ThoughtZombiesGame.gameStage st2 = ThoughtZombiesGame.argue_own /\
   ThoughtZombiesGame.totalScore st2 = Num 0 /\
   ThoughtZombiesGame.distinctBadges (ThoughtZombiesGame.earnedBadges st2) = 5).
Proof.
  intros. split.
  - repeat split; vm_compute; reflexivity.
  - repeat split; vm_compute; reflexivity.
Qed.

(** ** Completion test of the dialogue handlers *)

Lemma completionCheck_spec (history : list Message) (points : option PointsAward) :
  completionCheck history points = true
  <-> 8 <= Z.of_nat (length history) /\ num_geb (totalPoints points) 30 = true.
Proof.
  unfold completionCheck. rewrite andb_true_iff, !Z.leb_le. tauto.
Qed.

Lemma dialogue_reply (db db' : Db) (uid : Z) (history : list Message)
    (aiResponse : str) (r : DialogueReply) :
  dialogue true db uid history (Some aiResponse) = (DialogueOk r, db') ->
  response_text r = cleanResponse aiResponse /\
  points r = extractPoints aiResponse /\
  isComplete r = completionCheck history (extractPoints aiResponse).
Proof.
  unfold dialogue. cbn [negb].
  destruct (extractBadgeType aiResponse) as [badgeType|].
  - destruct (dialogueBadgeFlow db uid badgeType) as [[b o] db1].
    intros H. injection H as <- _. repeat split.
  - intros H. injection H as <- _. repeat split.
Qed.

Lemma healthNut_reply (Json : Type) (JSON_parse : str -> option Json)
    (history : list Message) (aiResponse : str) (r : HealthNutReply Json) :
  healthNutDialogue JSON_parse true history (Some aiResponse) = HealthNutOk r ->
  hn_points r = healthNutPoints aiResponse /\
  hn_isComplete r = completionCheck history (healthNutPoints aiResponse).
Proof.
  unfold healthNutDialogue. cbn [negb]. intros H. injection H as <-.
  split; reflexivity.
Qed.

(** Both handlers with the 8-turn/30-point rule decide completion from
    the reply they are processing: the reply is flagged complete if and
    only if the history sent with the request has at least 8 entries and
    the points awarded by this reply ([points?.amount || 0]) are at least
    30. *)
Lemma completion_reads_current_reply :
  (forall db db' uid history aiResponse r,
     dialogue true db uid history (Some aiResponse) = (DialogueOk r, db') ->
     (isComplete r = true
      <-> 8 <= Z.of_nat (length history)
          /\ num_geb (totalPoints (points r)) 30 = true)) /\
  (forall (Json : Type) (JSON_parse : str -> option Json) history aiResponse r,
     healthNutDialogue JSON_parse true history (Some aiResponse) = HealthNutOk r ->
     (hn_isComplete r = true
      <-> 8 <= Z.of_nat (length history)
          /\ num_geb (totalPoints (hn_points r)) 30 = true)).
Proof.
  split.
  - intros db db' uid history aiResponse r H.
    destruct (dialogue_reply _ _ _ _ _ _ H) as [_ [Hp Hc]].
    rewrite Hc, Hp. apply completionCheck_spec.
  - intros Json JSON_parse history aiResponse r H.
    destruct (healthNut_reply _ _ _ _ _ H) as [Hp Hc].
    rewrite Hc, Hp. apply completionCheck_spec.
Qed.

(** C5 at a session of the training dialogue.  The client starts from an
    empty dialogue and plays ten turns; every reply of the generator
    awards 7 points, the most its prompt gives for an argument.  The
    tenth request carries 18 messages and the session has earned 63
    points before it and 70 with it, yet no reply of the session is
    flagged complete and the session never ends: the handler compares the
    7 points of the reply it is processing with 30. *)
Theorem completion_ignores_session_points :
  let db :=
    {| users := [ {| user_id := 1; totalScore := 0;
                     hasCompletedQuestionnaire := true; aotScore := Some 50 |} ];
       badges := []; userBadges := [] |} in
  let turn :=
    (codes "School holidays should be longer so that families can travel.",
     codesq "{award_points: 7, type: 'counter_u'} Is travel really the purpose of school holidays?") in
  exists calls st history result,
    TrainingPhase.play db 1 TrainingPhase.initial (repeat turn 10) = (calls, st) /\
    map (fun call => length (fst call)) calls
    = [0; 2; 4; 6; 8; 10; 12; 14; 16; 18]%nat /\
    Forall (fun call => TrainingPhase.pointsAmount (snd call) = 7
                        /\ isComplete (snd call) = false) calls /\
    nth_error calls 9 = Some (history, result) /\
    length history = 18%nat /\
    TrainingPhase.auraPoints
      (snd (TrainingPhase.play db 1 TrainingPhase.initial (repeat turn 9)))
    = Num 63 /\
    TrainingPhase.auraPoints st = Num 70 /\
    isComplete result = false /\
    TrainingPhase.sessionComplete st = false.
Proof.
  intros db turn.
  destruct (TrainingPhase.play db 1 TrainingPhase.initial (repeat turn 10))
    as [calls st] eqn:E.
  vm_compute in E. injection E as <- <-.
  eexists _, _, _, _. split; [reflexivity|].
  split; [reflexivity|].
  split; [repeat constructor|].
  split; [reflexivity|]. split; [reflexivity|].
  split; [vm_compute; reflexivity|].
  split; [reflexivity|]. split; reflexivity.
Qed.

(** ** The matcher against what a pattern matches *)

Lemma repeatMatcher_local (body : Matcher) (gs : list nat) (greedy : bool) :
  cont_local body ->
  forall fuel min x c k k',
    (forall y c', (length y <= length x)%nat -> k y c' = k' y c') ->
    repeatMatcher body gs greedy fuel min x c k
    = repeatMatcher body gs greedy fuel min x c k'.
Proof.
  intros Hbody fuel. induction fuel as [|fuel IH]; intros min x c k k' Hk.
  - simpl. destruct min; [|reflexivity].
    rewrite (Hk x c (le_n _)). reflexivity.
  - cbn [repeatMatcher].
    assert (Hiter :
      body x (clear_caps gs c)
        (fun y c' =>
           match min with
           | O => if (length y <? length x)%nat
                  then repeatMatcher body gs greedy fuel 0 y c' k else None
           | S min' => repeatMatcher body gs greedy fuel min' y c' k
           end)
      = body x (clear_caps gs c)
        (fun y c' =>
           match min with
           | O => if (length y <? length x)%nat
                  then repeatMatcher body gs greedy fuel 0 y c' k' else None
           | S min' => repeatMatcher body gs greedy fuel min' y c' k'
           end)).
    { apply Hbody. intros y c' Hy.
      assert (Hk' : forall y0 c0, (length y0 <= length y)%nat -> k y0 c0 = k' y0 c0)
        by (intros; apply Hk; lia).
      destruct min.
      - destruct (length y <? length x)%nat; [|reflexivity]. apply IH. exact Hk'.
      - apply IH. exact Hk'. }
    rewrite Hiter. destruct min; [|reflexivity].
    rewrite (Hk x c (le_n _)). reflexivity.
Qed.

Lemma lit_match_length (ic : bool) (w x y : str) :
  lit_match ic w x = Some y -> length x = (length w + length y)%nat.
Proof.
  revert x. induction w as [|a w IH]; intros x; simpl.
  - intros H. injection H as <-. reflexivity.
  - destruct x as [|ch x]; [discriminate|].
    destruct (char_eq ic a ch); [|discriminate].
    intros H. simpl. rewrite (IH _ H). reflexivity.
Qed.

Lemma matcher_local (ic : bool) (r : regex) : cont_local (matcher ic r).
Proof.
  induction r; intros x c k k' Hk; cbn [matcher].
  - destruct (lit_match ic w x) as [y|] eqn:E; [|reflexivity].
    apply Hk. apply lit_match_length in E. lia.
  - destruct x as [|ch y]; [reflexivity|].
    destruct (set_match ic negated items ch); [|reflexivity].
    apply Hk. simpl. lia.
  - destruct x as [|ch y]; [reflexivity|].
    destruct (is_line_terminator ch); [reflexivity|].
    apply Hk. simpl. lia.
  - apply IHr1. intros y c' Hy. apply IHr2. intros z c'' Hz. apply Hk. lia.
  - rewrite (IHr1 x c k k' Hk), (IHr2 x c k k' Hk). reflexivity.
  - apply repeatMatcher_local; assumption.
  - apply IHr. intros y c' Hy. apply Hk. exact Hy.
  - destruct (matcher ic r x c (fun y c1 => Some (y, c1))) as [[y c1]|];
      [|reflexivity].
    apply Hk. lia.
  - destruct x; [|reflexivity]. apply Hk. simpl. lia.
Qed.

(** A matcher succeeds only through its continuation. *)
Lemma repeatMatcher_fails (body : Matcher) (gs : list nat) (greedy : bool) :
  (forall x c, body x c fails = None) ->
  cont_local body ->
  forall fuel min x c, repeatMatcher body gs greedy fuel min x c fails = None.
Proof.
  intros Hbody Hloc fuel.
  induction fuel as [|fuel IH]; intros min x c.
  - simpl. destruct min; [destruct greedy|]; reflexivity.
  - cbn [repeatMatcher].
    assert (Hiter :
      body x (clear_caps gs c)
        (fun y c' =>
           match min with
           | O => if (length y <? length x)%nat
                  then repeatMatcher body gs greedy fuel 0 y c' fails else None
           | S min' => repeatMatcher body gs greedy fuel min' y c' fails
           end) = None).
    { transitivity (body x (clear_caps gs c) fails); [|apply Hbody].
      apply Hloc. intros y c' _. unfold fails at 3.
      destruct min; [destruct (length y <? length x)%nat|]; auto. }
    rewrite Hiter. destruct min; [destruct greedy|]; reflexivity.
Qed.

Lemma matcher_fails (ic : bool) (r : regex) (x : str) (c : caps) :
  matcher ic r x c fails = None.
Proof.
  revert x c. induction r; intros x c; cbn [matcher].
  - destruct (lit_match ic w x); reflexivity.
  - destruct x as [|ch y]; [|destruct (set_match ic negated items ch)]; reflexivity.
  - destruct x as [|ch y]; [|destruct (is_line_terminator ch)]; reflexivity.
  - transitivity (matcher ic r1 x c fails); [|apply IHr1].
    apply matcher_local. intros y c' _. apply IHr2.
  - rewrite IHr1. apply IHr2.
  - apply repeatMatcher_fails; [exact IHr | apply matcher_local].
  - transitivity (matcher ic r x c fails); [|apply IHr].
    apply matcher_local. intros; reflexivity.
  - destruct (matcher ic r x c (fun y c1 => Some (y, c1))) as [[y c1]|];
      reflexivity.
  - destruct x; reflexivity.
Qed.

(** An iteration that must read something fails on the empty input. *)
Lemma iteration_stuck (body : Matcher) (K : Continuation) (x : str) (c : caps) :
  (forall x c, body x c fails = None) ->
  cont_local body ->
  length x = 0%nat ->
  body x c (fun y c' => if (length y <? length x)%nat then K y c' else None)
  = None.
Proof.
  intros Hfail Hloc Hx.
  transitivity (body x c fails); [|apply Hfail].
  apply Hloc. intros y c' Hy. unfold fails.
  destruct (Nat.ltb_spec (length y) (length x)); [lia|reflexivity].
Qed.

(** Fuel beyond [min + length x] changes nothing. *)
Lemma repeatMatcher_fuel (body : Matcher) (gs : list nat) (greedy : bool) :
  (forall x c, body x c fails = None) ->
  cont_local body ->
  forall fuel1 fuel2 min x c k,
    (min + length x <= fuel1)%nat -> (min + length x <= fuel2)%nat ->
    repeatMatcher body gs greedy fuel1 min x c k
    = repeatMatcher body gs greedy fuel2 min x c k.
Proof.
  intros Hfail Hloc fuel1.
  induction fuel1 as [|fuel1 IH]; intros fuel2 min x c k H1 H2.
  - assert (min = 0%nat) by lia. assert (length x = 0%nat) by lia. subst min.
    destruct fuel2 as [|fuel2]; [reflexivity|].
    cbn [repeatMatcher]. rewrite iteration_stuck by assumption. reflexivity.
  - destruct fuel2 as [|fuel2].
    + assert (min = 0%nat) by lia. assert (length x = 0%nat) by lia. subst min.
      cbn [repeatMatcher]. rewrite iteration_stuck by assumption. reflexivity.
    + cbn [repeatMatcher].
      assert (Hiter :
        body x (clear_caps gs c)
          (fun y c' =>
             match min with
             | O => if (length y <? length x)%nat
                    then repeatMatcher body gs greedy fuel1 0 y c' k else None
             | S min' => repeatMatcher body gs greedy fuel1 min' y c' k
             end)
        = body x (clear_caps gs c)
          (fun y c' =>
             match min with
             | O => if (length y <? length x)%nat
                    then repeatMatcher body gs greedy fuel2 0 y c' k else None
             | S min' => repeatMatcher body gs greedy fuel2 min' y c' k
             end)).
      { apply Hloc. intros y c' Hy. destruct min.
        - destruct (Nat.ltb_spec (length y) (length x)); [|reflexivity].
          apply IH; lia.
        - apply IH; lia. }
      rewrite Hiter. reflexivity.
Qed.

Lemma lit_match_app {ic : bool} {w x y : str} :
  lit_match ic w x = Some y -> exists h, x = h ++ y /\ length h = length w.
Proof.
  revert x. induction w as [|a w IH]; intros x; simpl.
  - intros H. injection H as <-. exists []. split; reflexivity.
  - destruct x as [|ch x]; [discriminate|].
    destruct (char_eq ic a ch); [|discriminate].
    intros H. destruct (IH _ H) as [h [-> Hl]].
    exists (ch :: h). simpl. split; [reflexivity | congruence].
Qed.

(** What is left after a match is a suffix of the input. *)
Lemma Matches_suffix {ic : bool} {r : regex} {x y : str} {c c' : caps} :
  Matches ic r x c y c' -> exists w, x = w ++ y.
Proof.
  induction 1.
  - destruct (lit_match_app H) as [h [-> _]]. exists h. reflexivity.
  - exists [ch]. reflexivity.
  - exists [ch]. reflexivity.
  - destruct IHMatches1 as [w1 ->]. destruct IHMatches2 as [w2 ->].
    exists (w1 ++ w2). rewrite app_assoc. reflexivity.
  - exact IHMatches.
  - exact IHMatches.
  - exists []. reflexivity.
  - destruct IHMatches1 as [w1 ->]. destruct IHMatches2 as [w2 ->].
    exists (w1 ++ w2). rewrite app_assoc. reflexivity.
  - destruct IHMatches1 as [w1 ->]. destruct IHMatches2 as [w2 ->].
    exists (w1 ++ w2). rewrite app_assoc. reflexivity.
  - exact IHMatches.
  - exists []. reflexivity.
  - exists []. reflexivity.
Qed.

Lemma Matches_length {ic : bool} {r : regex} {x y : str} {c c' : caps} :
  Matches ic r x c y c' -> (length y <= length x)%nat.
Proof.
  intros H. destruct (Matches_suffix H) as [w ->]. rewrite length_app. lia.
Qed.

(** Soundness: a success of the matcher is one of the ways the pattern
    matches, followed by a success of the continuation. *)
Lemma repeatMatcher_sound (ic : bool) (r : regex) (greedy : bool) :
  (forall x c k z, matcher ic r x c k = Some z ->
     exists y c1, Matches ic r x c y c1 /\ k y c1 = Some z) ->
  forall fuel min x c k z,
    repeatMatcher (matcher ic r) (groups_of r) greedy fuel min x c k = Some z ->
    exists y c1, Matches ic (Repeat min greedy r) x c y c1 /\ k y c1 = Some z.
Proof.
  intros Hbody fuel.
  induction fuel as [|fuel IH]; intros min x c k z H.
  - simpl in H. destruct min; [|discriminate].
    assert (Hk : k x c = Some z).
    { destruct greedy; [exact H|]. destruct (k x c); [exact H|discriminate]. }
    exists x, c. split; [constructor | exact Hk].
  - cbn [repeatMatcher] in H.
    assert (Hiter : forall z0,
      matcher ic r x (clear_caps (groups_of r) c)
        (fun y c' =>
           match min with
           | O => if (length y <? length x)%nat
                  then repeatMatcher (matcher ic r) (groups_of r) greedy fuel 0 y c' k
                  else None
           | S min' => repeatMatcher (matcher ic r) (groups_of r) greedy fuel min' y c' k
           end) = Some z0 ->
      exists y c1, Matches ic (Repeat min greedy r) x c y c1 /\ k y c1 = Some z0).
    { intros z0 Hz. apply Hbody in Hz. destruct Hz as [y [c1 [Hm Hk]]].
      destruct min.
      - destruct (Nat.ltb_spec (length y) (length x)); [|discriminate].
        apply IH in Hk. destruct Hk as [y2 [c2 [Hm2 Hk2]]].
        exists y2, c2. split; [|exact Hk2].
        eapply MRepeatMore; eassumption.
      - apply IH in Hk. destruct Hk as [y2 [c2 [Hm2 Hk2]]].
        exists y2, c2. split; [|exact Hk2].
        eapply MRepeatMin; eassumption. }
    destruct min; [|apply Hiter; exact H].
    destruct greedy.
    + match type of H with
      | match ?e with _ => _ end = _ => destruct e as [z0|] eqn:E
      end.
      * injection H as ->. apply Hiter. reflexivity.
      * exists x, c. split; [constructor | exact H].
    + destruct (k x c) as [z0|] eqn:E.
      * injection H as ->. exists x, c. split; [constructor | exact E].
      * apply Hiter. exact H.
Qed.

Theorem matcher_sound (ic : bool) (r : regex) (x : str) (c : caps)
    (k : Continuation) (z : str * caps) :
  matcher ic r x c k = Some z ->
  exists y c1, Matches ic r x c y c1 /\ k y c1 = Some z.
Proof.
  revert x c k z. induction r; intros x c k z H; cbn [matcher] in H.
  - destruct (lit_match ic w x) as [y|] eqn:E; [|discriminate].
    exists y, c. split; [constructor; exact E | exact H].
  - destruct x as [|ch y]; [discriminate|].
    destruct (set_match ic negated items ch) eqn:E; [|discriminate].
    exists y, c. split; [constructor; exact E | exact H].
  - destruct x as [|ch y]; [discriminate|].
    destruct (is_line_terminator ch) eqn:E; [discriminate|].
    exists y, c. split; [constructor; exact E | exact H].
  - apply IHr1 in H. destruct H as [y [c1 [H1 H]]].
    apply IHr2 in H. destruct H as [y2 [c2 [H2 H]]].
    exists y2, c2. split; [econstructor; eassumption | exact H].
  - destruct (matcher ic r1 x c k) as [z0|] eqn:E.
    + injection H as ->. apply IHr1 in E. destruct E as [y [c1 [H1 H]]].
      exists y, c1. split; [apply MAltL; exact H1 | exact H].
    + apply IHr2 in H. destruct H as [y [c1 [H1 H]]].
      exists y, c1. split; [apply MAltR; exact H1 | exact H].
  - eapply repeatMatcher_sound; eassumption.
  - apply IHr in H. destruct H as [y [c1 [H1 H]]].
    eexists y, _. split; [constructor; exact H1 | exact H].
  - destruct (matcher ic r x c (fun y c1 => Some (y, c1))) as [[y c1]|] eqn:E;
      [|discriminate].
    apply IHr in E. destruct E as [y' [c1' [H1 E]]]. injection E as -> ->.
    exists x, c1. split; [econstructor; exact H1 | exact H].
  - destruct x; [|discriminate]. exists [], c. split; [constructor | exact H].
Qed.

(** Completeness: every way a pattern without lookahead matches is open to
    the matcher; if the continuation accepts one of them, the matcher
    succeeds (with that one or with one of higher priority). *)
Lemma repeatMatcher_unfold (body : Matcher) (gs : list nat) (greedy : bool)
    (fuel min : nat) (x : str) (c : caps) (k : Continuation) :
  repeatMatcher body gs greedy (S fuel) min x c k
  = let iterate :=
      body x (clear_caps gs c)
        (fun y c' =>
           match min with
           | O => if (length y <? length x)%nat
                  then repeatMatcher body gs greedy fuel O y c' k else None
           | S min' => repeatMatcher body gs greedy fuel min' y c' k
           end) in
    match min with
    | S _ => iterate
    | O =>
        if greedy then match iterate with Some z => Some z | None => k x c end
        else match k x c with Some z => Some z | None => iterate end
    end.
Proof. reflexivity. Qed.

Lemma repeatMatcher_stop (body : Matcher) (gs : list nat) (greedy : bool)
    (fuel : nat) (x : str) (c : caps) (k : Continuation) :
  k x c <> None ->
  repeatMatcher body gs greedy fuel 0 x c k <> None.
Proof.
  intros Hk. destruct fuel as [|fuel].
  - simpl. destruct greedy; [exact Hk|]. destruct (k x c); [discriminate|exact Hk].
  - rewrite repeatMatcher_unfold. cbv zeta. destruct greedy.
    + match goal with |- match ?e with _ => _ end <> _ => destruct e end;
        [discriminate | exact Hk].
    + destruct (k x c); [discriminate | contradiction].
Qed.

Theorem matcher_complete {ic : bool} {r : regex} {x y : str} {c c1 : caps} :
  Matches ic r x c y c1 ->
  lookahead_free r = true ->
  forall k, k y c1 <> None -> matcher ic r x c k <> None.
Proof.
  induction 1; intros LF k Hk; cbn [matcher]; cbn [lookahead_free] in LF.
  - rewrite H. exact Hk.
  - rewrite H. exact Hk.
  - rewrite H. exact Hk.
  - apply andb_true_iff in LF. destruct LF as [LF1 LF2].
    apply IHMatches1; [exact LF1|]. apply IHMatches2; assumption.
  - apply andb_true_iff in LF. destruct LF as [LF1 LF2].
    specialize (IHMatches LF1 k Hk).
    destruct (matcher ic r1 x c k); [discriminate | contradiction].
  - apply andb_true_iff in LF. destruct LF as [LF1 LF2].
    destruct (matcher ic r1 x c k); [discriminate|].
    apply IHMatches; assumption.
  - apply repeatMatcher_stop. exact Hk.
  - cbn [Nat.add]. rewrite repeatMatcher_unfold. cbv zeta.
    apply IHMatches1; [exact LF|].
    specialize (IHMatches2 LF k Hk). cbn [matcher] in IHMatches2.
    pose proof (Matches_length H) as Hlen.
    rewrite (repeatMatcher_fuel (matcher ic r) (groups_of r) greedy
               (matcher_fails ic r) (matcher_local ic r)
               (min + length x) (min + length y) min y c1 k) by lia.
    exact IHMatches2.
  - cbn [Nat.add]. destruct (length x) as [|n] eqn:En; [lia|].
    rewrite repeatMatcher_unfold. cbv zeta.
    assert (Hiter :
      matcher ic r x (clear_caps (groups_of r) c)
        (fun y0 c' =>
           if (length y0 <? length x)%nat
           then repeatMatcher (matcher ic r) (groups_of r) greedy n 0 y0 c' k
           else None) <> None).
    { apply IHMatches1; [exact LF|].
      destruct (Nat.ltb_spec (length y) (length x)); [|lia].
      specialize (IHMatches2 LF k Hk). cbn [matcher] in IHMatches2.
      rewrite (repeatMatcher_fuel (matcher ic r) (groups_of r) greedy
                 (matcher_fails ic r) (matcher_local ic r)
                 n (0 + length y) 0 y c1 k) by lia.
      exact IHMatches2. }
    destruct greedy.
    + match goal with |- match ?e with _ => _ end <> _ => destruct e end;
        [discriminate | contradiction].
    + destruct (k x c); [discriminate | exact Hiter].
  - apply IHMatches; [exact LF|]. exact Hk.
  - discriminate.
  - exact Hk.
Qed.

(** ** The search loop *)

Lemma app_inv_length {A} (a b c d : list A) :
  a ++ b = c ++ d -> length a = length c -> a = c /\ b = d.
Proof.
  revert c. induction a as [|x a IH]; intros [|y c] H Hl;
    try discriminate; simpl in *.
  - auto.
  - injection H as -> H. destruct (IH c H) as [-> ->]; [congruence | auto].
Qed.

Lemma firstn_prefix {A} (w y : list A) :
  firstn (length (w ++ y) - length y) (w ++ y) = w.
Proof.
  rewrite length_app, Nat.add_sub. rewrite firstn_app, Nat.sub_diag. simpl.
  rewrite firstn_all, app_nil_r. reflexivity.
Qed.

Lemma match_at_sound (re : RegExp) (x y : str) (c : caps) :
  match_at re x = Some (y, c) -> matches_at re x y c.
Proof.
  unfold match_at, matches_at. intros H.
  apply matcher_sound in H. destruct H as [y' [c' [H E]]].
  injection E as -> ->. exact H.
Qed.

Lemma match_at_complete (re : RegExp) (x y : str) (c : caps) :
  lookahead_free (source re) = true ->
  matches_at re x y c -> match_at re x <> None.
Proof.
  unfold match_at, matches_at. intros LF H.
  apply (matcher_complete H LF). discriminate.
Qed.

Lemma exec_from_hit (re : RegExp) (idx : nat) (x y : str) (c : caps) :
  match_at re x = Some (y, c) ->
  exists w,
    x = w ++ y /\
    exec_from re idx x
    = Some {| index := idx; matched := w; groups := c; rest := y |}.
Proof.
  intros E. pose proof (match_at_sound re x y c E) as Hm.
  destruct (Matches_suffix Hm) as [w ->]. exists w. split; [reflexivity|].
  assert (Heq : exec_from re idx (w ++ y)
                = Some {| index := idx;
                          matched := firstn (length (w ++ y) - length y) (w ++ y);
                          groups := c; rest := y |}).
  { destruct (w ++ y); simpl; simpl in E; rewrite E; reflexivity. }
  rewrite Heq, firstn_prefix. reflexivity.
Qed.

Lemma exec_from_miss (re : RegExp) (idx : nat) (x : str) :
  match_at re x = None ->
  exec_from re idx x
  = match x with
    | [] => None
    | _ :: x' => exec_from re (S idx) x'
    end.
Proof.
  intros E. destruct x; simpl; simpl in E; rewrite E; reflexivity.
Qed.

(** A result of the search is a match at its index, and no match starts
    before it. *)
Lemma exec_from_sound (re : RegExp) (x : str) :
  forall idx res,
    exec_from re idx x = Some res ->
    exists pre,
      x = pre ++ matched res ++ rest res /\
      index res = (idx + length pre)%nat /\
      match_at re (matched res ++ rest res) = Some (rest res, groups res) /\
      (forall pre1 suf, x = pre1 ++ suf -> (length pre1 < length pre)%nat ->
                        match_at re suf = None).
Proof.
  induction x as [|ch x IH]; intros idx res H;
    [destruct (match_at re []) as [[y c]|] eqn:E
    |destruct (match_at re (ch :: x)) as [[y c]|] eqn:E].
  - destruct (exec_from_hit re idx _ y c E) as [w [Hw Hr]].
    rewrite Hr in H. injection H as <-. simpl.
    exists []. simpl. repeat split; [exact Hw | lia | rewrite <- Hw; exact E |].
    intros; simpl in *; lia.
  - rewrite (exec_from_miss re idx _ E) in H. discriminate.
  - destruct (exec_from_hit re idx _ y c E) as [w [Hw Hr]].
    rewrite Hr in H. injection H as <-. simpl.
    exists []. simpl. repeat split; [exact Hw | lia | rewrite <- Hw; exact E |].
    intros; simpl in *; lia.
  - rewrite (exec_from_miss re idx _ E) in H.
    apply IH in H. destruct H as [pre [Hx [Hi [Hm Hbefore]]]].
    exists (ch :: pre). simpl. repeat split.
    + rewrite <- Hx. reflexivity.
    + lia.
    + exact Hm.
    + intros pre1 suf Hs Hl. destruct pre1 as [|ch1 pre1].
      * simpl in Hs. subst suf. exact E.
      * simpl in Hs. injection Hs as _ Hs. apply (Hbefore pre1 suf Hs).
        simpl in Hl. lia.
Qed.

Lemma exec_from_none (re : RegExp) (x : str) :
  forall idx,
    exec_from re idx x = None ->
    forall pre suf, x = pre ++ suf -> match_at re suf = None.
Proof.
  induction x as [|ch x IH]; intros idx H pre suf Hs;
    [destruct (match_at re []) as [[y c]|] eqn:E
    |destruct (match_at re (ch :: x)) as [[y c]|] eqn:E];
    try (destruct (exec_from_hit re idx _ y c E) as [w [Hw Hr]];
         rewrite Hr in H; discriminate);
    rewrite (exec_from_miss re idx _ E) in H.
  - symmetry in Hs. apply app_eq_nil in Hs. destruct Hs as [-> ->]. exact E.
  - destruct pre as [|ch1 pre].
    + simpl in Hs. subst suf. exact E.
    + simpl in Hs. injection Hs as _ Hs. exact (IH _ H pre suf Hs).
Qed.

(** ** First occurrence of a token *)

(** Generic statement for a pattern whose matches are the strings of a
    token grammar [P] (a token with its captures), each start position
    admitting at most one token. *)
Section FirstToken.

Variable re : RegExp.
Variable P : str -> caps -> Prop.

Hypothesis re_lookahead_free : lookahead_free (source re) = true.

Hypothesis grammar :
  forall x y c, matches_at re x y c <-> exists tok, x = tok ++ y /\ P tok c.

Hypothesis unambiguous :
  forall tok c tok' c' y y',
    P tok c -> P tok' c' -> tok ++ y = tok' ++ y' -> tok = tok' /\ c = c'.

Lemma str_match_token (text : str) (res : ExecResult) :
  str_match re text = Some res ->
  exists pre,
    text = pre ++ matched res ++ rest res /\
    index res = length pre /\
    P (matched res) (groups res) /\
    (forall pre' tok' c' post',
       text = pre' ++ tok' ++ post' -> P tok' c' ->
       (length pre <= length pre')%nat).
Proof.
  unfold str_match. intros H.
  destruct (exec_from_sound re text 0 res H) as [pre [Hx [Hi [Hm Hbefore]]]].
  exists pre. split; [exact Hx|]. split; [exact Hi|].
  apply match_at_sound, grammar in Hm. destruct Hm as [tok [Ht HP]].
  apply app_inv_tail in Ht. subst tok. split; [exact HP|].
  intros pre' tok' c' post' Ht HP'.
  destruct (Nat.le_gt_cases (length pre) (length pre')) as [Hle|Hgt];
    [exact Hle|].
  specialize (Hbefore pre' (tok' ++ post') Ht Hgt).
  exfalso. apply (match_at_complete re (tok' ++ post') post' c'
                    re_lookahead_free); [|exact Hbefore].
  apply grammar. exists tok'. split; [reflexivity | exact HP'].
Qed.

Lemma str_match_first_token (text pre tok post : str) (c : caps) :
  text = pre ++ tok ++ post ->
  P tok c ->
  (forall pre' tok' c' post',
     text = pre' ++ tok' ++ post' -> P tok' c' ->
     (length pre <= length pre')%nat) ->
  exists res,
    str_match re text = Some res /\
    index res = length pre /\ matched res = tok /\
    groups res = c /\ rest res = post.
Proof.
  intros Ht HP Hfirst.
  destruct (str_match re text) as [res|] eqn:E.
  - exists res. split; [reflexivity|].
    destruct (str_match_token text res E) as [pre0 [Hx [Hi [HP0 Hmin]]]].
    assert (Hlen : length pre0 = length pre).
    { apply Nat.le_antisymm.
      - exact (Hmin pre tok c post Ht HP).
      - exact (Hfirst pre0 _ _ _ Hx HP0). }
    assert (Hpre : pre0 = pre /\ matched res ++ rest res = tok ++ post).
    { rewrite Hx in Ht. apply app_inv_length; assumption. }
    destruct Hpre as [-> Hsuf].
    destruct (unambiguous _ _ _ _ _ _ HP0 HP Hsuf) as [Htok Hc].
    rewrite Htok in Hsuf. apply app_inv_head in Hsuf. auto.
  - exfalso. unfold str_match in E.
    pose proof (exec_from_none re text 0 E pre (tok ++ post) Ht) as Hn.
    apply (match_at_complete re (tok ++ post) post c re_lookahead_free);
      [|exact Hn].
    apply grammar. exists tok. split; [reflexivity | exact HP].
Qed.

End FirstToken.

(** ** Building blocks of the token patterns *)

Lemma lit_match_reads (ic : bool) (w x y : str) :
  lit_match ic w x = Some y <-> exists h, x = h ++ y /\ reads ic w h.
Proof.
  revert x. induction w as [|a w IH]; intros x; simpl.
  - split.
    + intros H. injection H as <-. exists []. split; [reflexivity|constructor].
    + intros [h [-> H]]. inversion H. reflexivity.
  - destruct x as [|ch x].
    + split; [discriminate|]. intros [h [E H]]. inversion H; subst. discriminate.
    + destruct (char_eq ic a ch) eqn:E.
      * rewrite IH. split.
        -- intros [h [-> H]]. exists (ch :: h). split; [reflexivity|].
           constructor; assumption.
        -- intros [h [Hx H]]. inversion H; subst. injection Hx as -> ->.
           eexists; split; [reflexivity | assumption].
      * split; [discriminate|]. intros [h [Hx H]]. inversion H; subst.
        injection Hx as -> ->. congruence.
Qed.

Lemma reads_length (ic : bool) (kw h : str) :
  reads ic kw h -> length h = length kw.
Proof.
  intros H. symmetry. exact (Forall2_length H).
Qed.

Lemma Matches_Lit (ic : bool) (w x y : str) (c c' : caps) :
  Matches ic (Lit w) x c y c'
  <-> exists h, x = h ++ y /\ reads ic w h /\ c' = c.
Proof.
  split.
  - intros H. inversion H; subst.
    match goal with
    | Hl : lit_match _ _ _ = Some _ |- _ =>
        apply lit_match_reads in Hl; destruct Hl as [h [-> Hr]]
    end.
    exists h. auto.
  - intros [h [-> [Hr ->]]]. constructor. apply lit_match_reads.
    exists h. auto.
Qed.

Lemma Matches_Seq (ic : bool) (r1 r2 : regex) (x z : str) (c c2 : caps) :
  Matches ic (Seq r1 r2) x c z c2
  <-> exists y c1, Matches ic r1 x c y c1 /\ Matches ic r2 y c1 z c2.
Proof.
  split.
  - intros H. inversion H; subst. eauto.
  - intros [y [c1 [H1 H2]]]. econstructor; eassumption.
Qed.

Lemma Matches_Group (ic : bool) (i : nat) (r : regex) (x y : str) (c c' : caps) :
  Matches ic (Group i r) x c y c'
  <-> exists w c1, x = w ++ y /\ Matches ic r x c y c1 /\
                   c' = set_cap i (Some w) c1.
Proof.
  split.
  - intros H. inversion H; subst.
    match goal with
    | Hm : Matches _ r _ _ _ _ |- _ =>
        destruct (Matches_suffix Hm) as [w ->]; rewrite firstn_prefix;
        exists w, c1; auto
    end.
  - intros [w [c1 [-> [H ->]]]].
    pose proof (MGroup ic i r (w ++ y) c y c1 H) as HG. rewrite firstn_prefix in HG. exact HG.
Qed.

(** A starred character class matches a run of the class. *)
Lemma Matches_star_class (ic greedy negated : bool) (items : list cset_item)
    (x y : str) (c c' : caps) :
  Matches ic (Repeat 0 greedy (CharSet negated items)) x c y c'
  <-> exists run, x = run ++ y /\ all (set_match ic negated items) run /\ c' = c.
Proof.
  split.
  - intros H.
    remember (Repeat 0 greedy (CharSet negated items)) as r eqn:Er.
    induction H; try discriminate; injection Er as -> ->.
    + exists []. repeat split. constructor.
    + inversion H; subst.
      destruct (IHMatches2 eq_refl) as [run [-> [Hall ->]]].
      exists (ch :: run). repeat split. constructor; assumption.
  - intros [run [-> [Hall ->]]]. induction Hall as [|ch run Hch Hall IH].
    + constructor.
    + eapply MRepeatMore.
      * simpl. constructor. exact Hch.
      * simpl. lia.
      * exact IH.
Qed.

Lemma Matches_plus_class (ic greedy negated : bool) (items : list cset_item)
    (x y : str) (c c' : caps) :
  Matches ic (Repeat 1 greedy (CharSet negated items)) x c y c'
  <-> exists run, x = run ++ y /\ run <> [] /\
                  all (set_match ic negated items) run /\ c' = c.
Proof.
  split.
  - intros H. inversion H; subst.
    match goal with
    | Hb : Matches _ (CharSet _ _) _ _ _ _ |- _ => inversion Hb; subst
    end.
    match goal with
    | Hs : Matches _ (Repeat 0 _ _) _ _ _ _ |- _ =>
        apply Matches_star_class in Hs; destruct Hs as [run [-> [Hall ->]]]
    end.
    exists (ch :: run). repeat split; [discriminate|].
    constructor; assumption.
  - intros [run [-> [Hne [Hall ->]]]].
    destruct run as [|ch run]; [contradiction|]. inversion Hall; subst.
    eapply MRepeatMin.
    + simpl. constructor. assumption.
    + apply Matches_star_class. exists run. auto.
Qed.

(** ** Character classes of the token patterns *)

Ltac cu_cases :=
  repeat (match goal with
          | |- context [(?a <=? ?b)%N] => destruct (N.leb_spec a b)
          | |- context [(?a =? ?b)%N] => destruct (N.eqb_spec a b)
          end; cbn [andb orb negb xorb] in *);
  try reflexivity; try lia.

Lemma digit_class (ic : bool) (ch : cu) :
  set_match ic false [CDigit] ch = is_digit ch.
Proof.
  unfold set_match. cbn [existsb item_match xorb]. apply orb_false_r.
Qed.

Lemma space_class (ic : bool) (ch : cu) :
  set_match ic false [CSpace] ch = is_space ch.
Proof.
  unfold set_match. cbn [existsb item_match xorb]. apply orb_false_r.
Qed.

Lemma not_bracket_class (ch : cu) :
  set_match true true [CChar 93%N] ch = not_bracket ch.
Proof.
  unfold set_match, not_bracket. cbn [existsb item_match].
  unfold char_eq, cu_eqb, canonicalize, is_lower. cu_cases.
Qed.

Lemma badge_class (ch : cu) :
  set_match true false [CRange 97%N 122%N; CChar 95%N] ch = is_badge_char ch.
Proof.
  unfold set_match, is_badge_char. cbn [existsb item_match].
  unfold char_eq, cu_eqb, canonicalize, toLowerCase_cu, is_lower, is_upper.
  cu_cases.
Qed.

(** ** Patterns with one capture against their token grammar *)

Section SingleCapture.

Variable re : RegExp.
Variable T : str -> str -> Prop.

Hypothesis tokens : token_pattern re T.

Let re_lookahead_free : lookahead_free (source re) = true := proj1 tokens.

Let grammar :
  forall x y c,
    matches_at re x y c
    <-> exists tok payload, x = tok ++ y /\ T payload tok /\ c = [Some payload]
  := proj1 (proj2 tokens).

Let unambiguous :
  forall payload tok payload' tok' y y',
    T payload tok -> T payload' tok' -> tok ++ y = tok' ++ y' ->
    tok = tok' /\ payload = payload'
  := proj2 (proj2 tokens).

Let P (tok : str) (c : caps) : Prop :=
  exists payload, T payload tok /\ c = [Some payload].

Lemma single_grammar (x y : str) (c : caps) :
  matches_at re x y c <-> exists tok, x = tok ++ y /\ P tok c.
Proof.
  rewrite grammar. unfold P. split.
  - intros [tok [p [Hx [HT Hc]]]]. exists tok. eauto.
  - intros [tok [Hx [p [HT Hc]]]]. exists tok, p. auto.
Qed.

Lemma single_unambiguous (tok : str) (c : caps) (tok' : str) (c' : caps)
    (y y' : str) :
  P tok c -> P tok' c' -> tok ++ y = tok' ++ y' -> tok = tok' /\ c = c'.
Proof.
  intros [p [HT ->]] [p' [HT' ->]] E.
  destruct (unambiguous _ _ _ _ _ _ HT HT' E) as [-> ->]. auto.
Qed.

Lemma first_token_unique (text p p' : str) :
  first_token T text p -> first_token T text p' -> p = p'.
Proof.
  intros [pre [tok [post [Ht [HT Hmin]]]]]
         [pre' [tok' [post' [Ht' [HT' Hmin']]]]].
  assert (Hl : length pre = length pre').
  { apply Nat.le_antisymm; [eapply Hmin | eapply Hmin']; eassumption. }
  rewrite Ht in Ht'. destruct (app_inv_length _ _ _ _ Ht' Hl) as [_ E].
  destruct (unambiguous _ _ _ _ _ _ HT HT' E) as [_ ->]. reflexivity.
Qed.

(** The search finds the leftmost token and captures its payload; it
    fails exactly on a text without token. *)
Lemma str_match_found (text : str) (res : ExecResult) :
  str_match re text = Some res ->
  exists payload,
    first_token T text payload /\ groups res = [Some payload] /\
    T payload (matched res) /\
    text = firstn (index res) text ++ matched res ++ rest res.
Proof.
  intros H.
  destruct (str_match_token re P re_lookahead_free single_grammar text res H)
    as [pre [Hx [Hi [[p [HT Hc]] Hmin]]]].
  exists p. split; [|split; [exact Hc|split; [exact HT|]]].
  - exists pre, (matched res), (rest res). split; [exact Hx|].
    split; [exact HT|].
    intros pre' p' tok' post' Ht' HT'.
    apply (Hmin pre' tok' [Some p'] post' Ht'). exists p'. auto.
  - rewrite Hi. rewrite Hx at 1.
    rewrite Hx, firstn_app, Nat.sub_diag, firstn_all. simpl.
    rewrite app_nil_r. reflexivity.
Qed.

Lemma str_match_first (text payload : str) :
  first_token T text payload ->
  exists res, str_match re text = Some res /\ groups res = [Some payload].
Proof.
  intros [pre [tok [post [Ht [HT Hmin]]]]].
  destruct (str_match_first_token re P re_lookahead_free single_grammar
              single_unambiguous text pre tok post [Some payload] Ht)
    as [res [Hm [_ [_ [Hg _]]]]].
  - exists payload. auto.
  - intros pre' tok' c' post' Ht' [p' [HT' _]].
    exact (Hmin pre' p' tok' post' Ht' HT').
  - exists res. auto.
Qed.

Lemma str_match_absent (text : str) :
  str_match re text = None <-> ~ has_token T text.
Proof.
  split.
  - intros H [pre [p [tok [post [Ht HT]]]]].
    unfold str_match in H.
    pose proof (exec_from_none re text 0 H pre (tok ++ post) Ht) as Hn.
    apply (match_at_complete re (tok ++ post) post [Some p] re_lookahead_free);
      [|exact Hn].
    apply grammar. exists tok, p. auto.
  - intros Hno. destruct (str_match re text) as [res|] eqn:E; [|reflexivity].
    exfalso. apply Hno.
    destruct (str_match_found text res E) as [p [_ [_ [HT Hx]]]].
    exists (firstn (index res) text), p, (matched res), (rest res). auto.
Qed.

(** The capture tested as a condition and read as the payload. *)
Lemma matched_amount_first (text payload : str) :
  payload <> [] ->
  first_token T text payload ->
  matched_amount (str_match re text) = Some payload.
Proof.
  intros Hne H. destruct (str_match_first text payload H) as [res [-> Hg]].
  unfold matched_amount, truthy_capture. rewrite Hg. simpl.
  destruct payload; [contradiction | reflexivity].
Qed.

End SingleCapture.

(** ** Runs and delimiters *)

Lemma run_delimited (p : cu -> bool) (a b s t : str) :
  all p a -> all p b -> stops p s -> stops p t ->
  a ++ s = b ++ t -> a = b /\ s = t.
Proof.
  intros Ha. revert b. induction Ha as [|x a Hx Ha IH]; intros b Hb Hs Ht E.
  - destruct Hb as [|y b Hy Hb]; [auto|].
    simpl in E. subst s. simpl in Hs. congruence.
  - destruct Hb as [|y b Hy Hb].
    + simpl in E. subst t. simpl in Ht. congruence.
    + simpl in E. injection E as -> E.
      destruct (IH b Hb Hs Ht E) as [-> ->]. auto.
Qed.

Lemma char_eq_nonletter (a ch : cu) :
  is_lower a = false -> is_upper a = false ->
  char_eq true a ch = true -> ch = a.
Proof.
  unfold char_eq, cu_eqb, canonicalize, is_lower, is_upper.
  intros Hl Hu. rewrite Hl.
  destruct ((97 <=? ch)%N && (ch <=? 122)%N) eqn:E.
  - apply andb_true_iff in E. destruct E as [E1 E2].
    apply N.leb_le in E1, E2. intros H. apply N.eqb_eq in H.
    apply andb_false_iff in Hu.
    destruct Hu as [Hu|Hu]; apply N.leb_gt in Hu; lia.
  - intros H. apply N.eqb_eq in H. congruence.
Qed.

Lemma reads_bracket (h : str) : reads true (codes "]") h -> h = codes "]".
Proof.
  intros H. inversion H as [|a ch kw h' Hc Hr]; subst.
  inversion Hr; subst.
  apply char_eq_nonletter in Hc; [subst; reflexivity | reflexivity | reflexivity].
Qed.

Lemma reads_colon (h : str) : reads true (codes ":") h -> h = codes ":".
Proof.
  intros H. inversion H as [|a ch kw h' Hc Hr]; subst.
  inversion Hr; subst.
  apply char_eq_nonletter in Hc; [subst; reflexivity | reflexivity | reflexivity].
Qed.

Lemma all_digit_class (ic : bool) (run : str) :
  all (set_match ic false [CDigit]) run <-> all is_digit run.
Proof.
  unfold all. split; intros H; induction H; constructor; auto;
    rewrite digit_class in *; assumption.
Qed.

Lemma all_not_bracket_class (run : str) :
  all (set_match true true [CChar 93%N]) run <-> all not_bracket run.
Proof.
  unfold all. split; intros H; induction H; constructor; auto;
    rewrite not_bracket_class in *; assumption.
Qed.

(** ** Grammar of the amount and category patterns *)

Lemma amount_grammar (kw : string) (x y : str) (c : caps) :
  Matches true (amount_pattern kw) x [None] y c
  <-> exists tok ds, x = tok ++ y /\ amount_token kw ds tok /\ c = [Some ds].
Proof.
  unfold amount_pattern, amount_token, plus, digit, lit. split.
  - intros H.
    apply Matches_Seq in H. destruct H as [y1 [c1 [H1 H]]].
    apply Matches_Lit in H1. destruct H1 as [head [-> [Hhead ->]]].
    apply Matches_Seq in H. destruct H as [y2 [c2 [H2 H3]]].
    apply Matches_Group in H2. destruct H2 as [w [c3 [-> [H2 ->]]]].
    apply Matches_plus_class in H2. destruct H2 as [ds [E [Hne [Hds ->]]]].
    apply app_inv_tail in E. subst w.
    apply Matches_Lit in H3. destruct H3 as [h3 [-> [Hb ->]]].
    apply reads_bracket in Hb. subst h3.
    exists (head ++ ds ++ codes "]"), ds. split; [|split].
    + rewrite <- !app_assoc. reflexivity.
    + exists head. apply all_digit_class in Hds. auto.
    + reflexivity.
  - intros [tok [ds [-> [[head [Hhead [Hne [Hds ->]]]] ->]]]].
    rewrite <- !app_assoc.
    apply Matches_Seq. exists (ds ++ codes "]" ++ y), [None]. split.
    { apply Matches_Lit. exists head. auto. }
    apply Matches_Seq. exists (codes "]" ++ y), [Some ds]. split.
    { apply Matches_Group. exists ds, [None]. split; [reflexivity|].
      split; [|reflexivity].
      apply Matches_plus_class. exists ds.
      split; [reflexivity|]. split; [exact Hne|].
      split; [apply all_digit_class; exact Hds | reflexivity]. }
    apply Matches_Lit. exists (codes "]"). repeat split.
    repeat constructor.
Qed.

Lemma amount_unambiguous (kw : string) (ds tok ds' tok' y y' : str) :
  amount_token kw ds tok -> amount_token kw ds' tok' ->
  tok ++ y = tok' ++ y' -> tok = tok' /\ ds = ds'.
Proof.
  intros [head [Hh [_ [Hds ->]]]] [head' [Hh' [_ [Hds' ->]]]] E.
  rewrite <- !app_assoc in E.
  destruct (app_inv_length _ _ _ _ E) as [-> E1].
  { rewrite (reads_length _ _ _ Hh), (reads_length _ _ _ Hh'). reflexivity. }
  destruct (run_delimited is_digit ds ds' (codes "]" ++ y) (codes "]" ++ y')
              Hds Hds' eq_refl eq_refl E1) as [-> _].
  auto.
Qed.

Lemma category_grammar (kw : string) (x y : str) (c : caps) :
  Matches true (category_pattern kw) x [None] y c
  <-> exists tok ds, x = tok ++ y /\ category_token kw ds tok /\ c = [Some ds].
Proof.
  unfold category_pattern, category_token, plus, star, digit, none_of, lit.
  split.
  - intros H.
    apply Matches_Seq in H. destruct H as [y1 [c1 [H1 H]]].
    apply Matches_Lit in H1. destruct H1 as [head [-> [Hhead ->]]].
    apply Matches_Seq in H. destruct H as [y2 [c2 [H2 H]]].
    apply Matches_Group in H2. destruct H2 as [w [c3 [-> [H2 ->]]]].
    apply Matches_plus_class in H2. destruct H2 as [ds [E [Hne [Hds ->]]]].
    apply app_inv_tail in E. subst w.
    apply Matches_Seq in H. destruct H as [y3 [c4 [H3 H]]].
    apply Matches_Lit in H3. destruct H3 as [h3 [-> [Hc ->]]].
    apply reads_colon in Hc. subst h3.
    apply Matches_Seq in H. destruct H as [y4 [c5 [H4 H5]]].
    apply Matches_star_class in H4. destruct H4 as [body [-> [Hbody ->]]].
    apply Matches_Lit in H5. destruct H5 as [h5 [-> [Hb ->]]].
    apply reads_bracket in Hb. subst h5.
    exists (head ++ ds ++ codes ":" ++ body ++ codes "]"), ds.
    split; [|split].
    + rewrite <- !app_assoc. reflexivity.
    + exists head, body. apply all_digit_class in Hds.
      apply all_not_bracket_class in Hbody. auto.
    + reflexivity.
  - intros [tok [ds [-> [[head [body [Hhead [Hne [Hds [Hbody ->]]]]]] ->]]]].
    rewrite <- !app_assoc.
    apply Matches_Seq. eexists _, [None]. split.
    { apply Matches_Lit. exists head. split; [reflexivity|]. auto. }
    apply Matches_Seq. eexists _, [Some ds]. split.
    { apply Matches_Group. exists ds, [None]. split; [reflexivity|].
      split; [|reflexivity].
      apply Matches_plus_class. exists ds.
      split; [reflexivity|]. split; [exact Hne|].
      split; [apply all_digit_class; exact Hds | reflexivity]. }
    apply Matches_Seq. eexists _, [Some ds]. split.
    { apply Matches_Lit. exists (codes ":"). split; [reflexivity|].
      split; [repeat constructor | reflexivity]. }
    apply Matches_Seq. eexists _, [Some ds]. split.
    { apply Matches_star_class. exists body. split; [reflexivity|].
      split; [apply all_not_bracket_class; exact Hbody | reflexivity]. }
    apply Matches_Lit. exists (codes "]"). repeat split. repeat constructor.
Qed.

Lemma category_unambiguous (kw : string) (ds tok ds' tok' y y' : str) :
  category_token kw ds tok -> category_token kw ds' tok' ->
  tok ++ y = tok' ++ y' -> tok = tok' /\ ds = ds'.
Proof.
  intros [head [body [Hh [_ [Hds [Hbody ->]]]]]]
         [head' [body' [Hh' [_ [Hds' [Hbody' ->]]]]]] E.
  rewrite <- !app_assoc in E.
  destruct (app_inv_length _ _ _ _ E) as [-> E1].
  { rewrite (reads_length _ _ _ Hh), (reads_length _ _ _ Hh'). reflexivity. }
  destruct (run_delimited is_digit ds ds'
              (codes ":" ++ body ++ codes "]" ++ y)
              (codes ":" ++ body' ++ codes "]" ++ y')
              Hds Hds' eq_refl eq_refl E1) as [-> E2].
  simpl in E2. injection E2 as E2.
  destruct (run_delimited not_bracket body body'
              (codes "]" ++ y) (codes "]" ++ y') Hbody Hbody'
              eq_refl eq_refl E2) as [-> _].
  auto.
Qed.

(** ** The patterns of the multi-category protocol *)

Lemma amount_tokens (re : RegExp) (kw : string) :
  source re = amount_pattern kw -> ignoreCase re = true ->
  token_pattern re (amount_token kw).
Proof.
  intros Hs Hi. split; [|split].
  - rewrite Hs. reflexivity.
  - intros x y c. unfold matches_at. rewrite Hs, Hi. apply amount_grammar.
  - intros ds tok ds' tok' y y'. apply amount_unambiguous.
Qed.

Lemma category_tokens (re : RegExp) (kw : string) :
  source re = category_pattern kw -> ignoreCase re = true ->
  token_pattern re (category_token kw).
Proof.
  intros Hs Hi. split; [|split].
  - rewrite Hs. reflexivity.
  - intros x y c. unfold matches_at. rewrite Hs, Hi. apply category_grammar.
  - intros ds tok ds' tok' y y'. apply category_unambiguous.
Qed.

Lemma totalScoreRegex_tokens : token_pattern totalScoreRegex total_token.
Proof. apply amount_tokens; reflexivity. Qed.

Lemma oldScoreRegex_tokens : token_pattern oldScoreRegex legacy_token.
Proof. apply amount_tokens; reflexivity. Qed.

Lemma reasoningRegex_tokens : token_pattern reasoningRegex reasoning_token.
Proof. apply category_tokens; reflexivity. Qed.

Lemma engagementRegex_tokens : token_pattern engagementRegex engagement_token.
Proof. apply category_tokens; reflexivity. Qed.

Lemma bonusRegex_tokens : token_pattern bonusRegex bonus_token.
Proof. apply category_tokens; reflexivity. Qed.

(** ** Reading an amount *)

Lemma digit_not_space (ch : cu) : is_digit ch = true -> is_space ch = false.
Proof. unfold is_digit, is_space. cu_cases. Qed.

Lemma take_digits_all (ds : str) : all is_digit ds -> take_digits ds = ds.
Proof.
  intros H. induction H as [|ch ds Hch H IH]; simpl.
  - reflexivity.
  - rewrite Hch, IH. reflexivity.
Qed.

(** [parseInt] of a capture of [\d+] is its decimal value, as a number. *)
Lemma parseInt_digits (ds : str) :
  ds <> [] -> all is_digit ds -> parseInt ds = to_double (decimal ds).
Proof.
  intros Hne Hds. destruct ds as [|ch ds]; [contradiction|].
  pose proof (take_digits_all _ Hds) as Htake.
  inversion Hds as [|? ? Hch Hrest]; subst.
  unfold parseInt. cbn [trimStart]. rewrite (digit_not_space ch Hch).
  assert (Hsign : (ch =? 45)%N = false /\ (ch =? 43)%N = false).
  { revert Hch. unfold is_digit. cu_cases; intros; discriminate. }
  destruct Hsign as [H45 H43]. rewrite H45, H43, Htake. reflexivity.
Qed.

Lemma decimal_nonneg (ds : str) : (0 <= decimal ds)%Z.
Proof.
  unfold decimal.
  assert (H : forall a, (0 <= a)%Z ->
            (0 <= fold_left (fun acc ch => 10 * acc + digit_value ch) ds a)%Z).
  { induction ds as [|ch ds IH]; intros a Ha; cbn [fold_left]; [exact Ha|].
    apply IH. unfold digit_value.
    pose proof (N2Z.is_nonneg (ch - 48)). lia. }
  apply H. lia.
Qed.

(** ** Score extraction of the multi-category dialogue *)

Lemma amount_payload (kw : string) (ds tok : str) :
  amount_token kw ds tok -> ds <> [] /\ all is_digit ds.
Proof. intros [head [_ [Hne [Hds _]]]]. auto. Qed.

Lemma category_payload (kw : string) (ds tok : str) :
  category_token kw ds tok -> ds <> [] /\ all is_digit ds.
Proof. intros [head [body [_ [Hne [Hds _]]]]]. auto. Qed.

Lemma first_token_payload (T : str -> str -> Prop) (text ds : str) :
  first_token T text ds -> exists tok, T ds tok.
Proof. intros [pre [tok [post [_ [HT _]]]]]. exists tok. exact HT. Qed.

Lemma first_token_has (T : str -> str -> Prop) (text ds : str) :
  first_token T text ds -> has_token T text.
Proof.
  intros [pre [tok [post [Ht [HT _]]]]]. exists pre, ds, tok, post. auto.
Qed.

Section AmountOfMatch.

Variable re : RegExp.
Variable T : str -> str -> Prop.
Hypothesis tokens : token_pattern re T.
Hypothesis digits : forall ds tok, T ds tok -> ds <> [] /\ all is_digit ds.

Lemma matched_amount_present (text ds : str) :
  first_token T text ds ->
  matched_amount (str_match re text) = Some ds /\
  parseInt ds = to_double (decimal ds).
Proof.
  intros H. destruct (first_token_payload T text ds H) as [tok HT].
  destruct (digits ds tok HT) as [Hne Hds]. split.
  - apply (matched_amount_first re T tokens); assumption.
  - apply parseInt_digits; assumption.
Qed.

Lemma matched_amount_absent (text : str) :
  ~ has_token T text -> str_match re text = None.
Proof. intros H. apply (str_match_absent re T tokens). exact H. Qed.

Lemma str_match_present (text : str) :
  has_token T text -> str_match re text <> None.
Proof.
  intros H E. apply (str_match_absent re T tokens) in E. contradiction.
Qed.

Lemma categoryAmount_token (text : str) (n : Z) :
  token_amount T text n -> categoryAmount (str_match re text) = to_double n.
Proof.
  intros [[ds [H ->]]|[H ->]].
  - destruct (matched_amount_present text ds H) as [Hm Hp].
    unfold categoryAmount. unfold matched_amount in Hm.
    destruct (str_match re text) as [res|]; [|discriminate].
    rewrite Hm. exact Hp.
  - rewrite (matched_amount_absent text H). reflexivity.
Qed.

(** Whether the text has a token is decided by the search, which then
    yields the leftmost one. *)
Lemma token_decided (text : str) :
  (exists ds, first_token T text ds) \/ ~ has_token T text.
Proof.
  destruct (str_match re text) as [res|] eqn:E.
  - left. destruct (str_match_found re T tokens text res E) as [ds [H _]].
    exists ds. exact H.
  - right. apply (str_match_absent re T tokens). exact E.
Qed.

Lemma token_amount_exists (text : str) :
  exists n, token_amount T text n /\ (0 <= n)%Z.
Proof.
  destruct (token_decided text) as [[ds H]|H].
  - exists (decimal ds). split; [left; eauto | apply decimal_nonneg].
  - exists 0%Z. split; [right; auto | lia].
Qed.

Lemma first_token_by_search (text : str) (res : ExecResult) (ds : str) :
  str_match re text = Some res ->
  groups res = [Some ds] ->
  first_token T text ds.
Proof.
  intros E Hg.
  destruct (str_match_found re T tokens text res E) as [p [H [Hg' _]]].
  rewrite Hg in Hg'. injection Hg' as <-. exact H.
Qed.

Lemma no_token_by_search (text : str) :
  str_match re text = None -> ~ has_token T text.
Proof. intros E. apply (str_match_absent re T tokens). exact E. Qed.

End AmountOfMatch.

Lemma token_amount_nonneg (T : str -> str -> Prop) (text : str) (n : Z) :
  token_amount T text n -> 0 <= n.
Proof.
  intros [[ds [_ ->]]|[_ ->]]; [apply decimal_nonneg | lia].
Qed.

(** C2, with the amounts as the handler has them.  The score extracted
    in the multi-category dialogue is: the amount of the (leftmost)
    [TOTAL] token when the text has one; otherwise, when the text has a
    [REASONING], [ENGAGEMENT] or [BONUS] token, the sum of the amounts of
    the three (0 for one that is absent); otherwise the amount of the
    (leftmost) legacy [Score] token when the text has one; otherwise 0.
    An amount is read as a number of the language, the double nearest to
    what its digits write, and a sum is a sum of such numbers: the score
    is the amount, or the sum of the amounts, itself whenever that is at
    most 2^53. *)
Theorem extractScore_precedence (text : str) :
  (forall ds,
     first_token total_token text ds ->
     extractScore text = to_double (decimal ds) /\
     (decimal ds <= 2 ^ 53 -> extractScore text = Num (decimal ds))) /\
  (~ has_token total_token text ->
   has_token reasoning_token text \/ has_token engagement_token text
     \/ has_token bonus_token text ->
   forall r e b,
     token_amount reasoning_token text r ->
     token_amount engagement_token text e ->
     token_amount bonus_token text b ->
     extractScore text
     = num_add (num_add (to_double r) (to_double e)) (to_double b) /\
     (r + e + b <= 2 ^ 53 -> extractScore text = Num (r + e + b))) /\
  (~ has_token total_token text ->
   ~ has_token reasoning_token text ->
   ~ has_token engagement_token text ->
   ~ has_token bonus_token text ->
   forall ds,
     first_token legacy_token text ds ->
     extractScore text = to_double (decimal ds) /\
     (decimal ds <= 2 ^ 53 -> extractScore text = Num (decimal ds))) /\
  (~ has_token total_token text ->
   ~ has_token reasoning_token text ->
   ~ has_token engagement_token text ->
   ~ has_token bonus_token text ->
   ~ has_token legacy_token text ->
   extractScore text = Num 0).
Proof.
  assert (Hexact : forall ds n,
            n = to_double (decimal ds) ->
            n = to_double (decimal ds) /\
            (decimal ds <= 2 ^ 53 -> n = Num (decimal ds))).
  { intros ds n ->. split; [reflexivity|]. intros Hle.
    apply to_double_exact. pose proof (decimal_nonneg ds).
    assert (0 < 2 ^ 53) by reflexivity. lia. }
  split; [|split; [|split]].
  - intros ds H. apply Hexact.
    destruct (matched_amount_present totalScoreRegex total_token
                totalScoreRegex_tokens (amount_payload _) text ds H) as [Hm Hp].
    unfold extractScore. rewrite Hm. exact Hp.
  - intros Hno Hsome r e b Hr He Hb.
    assert (Hscore : extractScore text
                     = num_add (num_add (to_double r) (to_double e))
                               (to_double b)).
    { unfold extractScore.
      rewrite (matched_amount_absent totalScoreRegex total_token
                 totalScoreRegex_tokens text Hno).
      cbn [matched_amount].
      pose proof (categoryAmount_token reasoningRegex reasoning_token
                    reasoningRegex_tokens (category_payload _) text r Hr) as Er.
      pose proof (categoryAmount_token engagementRegex engagement_token
                    engagementRegex_tokens (category_payload _) text e He) as Ee.
      pose proof (categoryAmount_token bonusRegex bonus_token
                    bonusRegex_tokens (category_payload _) text b Hb) as Eb.
      assert (Hsum :
        num_add (num_add (categoryAmount (str_match reasoningRegex text))
                         (categoryAmount (str_match engagementRegex text)))
                (categoryAmount (str_match bonusRegex text))
        = num_add (num_add (to_double r) (to_double e)) (to_double b)).
      { rewrite Er, Ee, Eb. reflexivity. }
      destruct (str_match reasoningRegex text) as [rm|] eqn:Erm;
        [exact Hsum|].
      destruct (str_match engagementRegex text) as [em|] eqn:Eem;
        [exact Hsum|].
      destruct (str_match bonusRegex text) as [bm|] eqn:Ebm;
        [exact Hsum|].
      exfalso. destruct Hsome as [H|[H|H]].
      + exact (str_match_present reasoningRegex reasoning_token
                 reasoningRegex_tokens text H Erm).
      + exact (str_match_present engagementRegex engagement_token
                 engagementRegex_tokens text H Eem).
      + exact (str_match_present bonusRegex bonus_token
                 bonusRegex_tokens text H Ebm). }
    split; [exact Hscore|]. intros Hle. rewrite Hscore.
    pose proof (token_amount_nonneg _ _ _ Hr).
    pose proof (token_amount_nonneg _ _ _ He).
    pose proof (token_amount_nonneg _ _ _ Hb).
    assert (0 < 2 ^ 53) by reflexivity.
    rewrite (to_double_exact r), (to_double_exact e), (to_double_exact b)
      by lia.
    rewrite (num_add_exact r e) by lia. apply num_add_exact. lia.
  - intros Hno Hr He Hb ds H. apply Hexact.
    unfold extractScore.
    rewrite (matched_amount_absent totalScoreRegex total_token
               totalScoreRegex_tokens text Hno).
    rewrite (matched_amount_absent reasoningRegex reasoning_token
               reasoningRegex_tokens text Hr).
    rewrite (matched_amount_absent engagementRegex engagement_token
               engagementRegex_tokens text He).
    rewrite (matched_amount_absent bonusRegex bonus_token
               bonusRegex_tokens text Hb).
    cbn [matched_amount].
    destruct (matched_amount_present oldScoreRegex legacy_token
                oldScoreRegex_tokens (amount_payload _) text ds H) as [Hm Hp].
    rewrite Hm. exact Hp.
  - intros Hno Hr He Hb Hl.
    unfold extractScore.
    rewrite (matched_amount_absent totalScoreRegex total_token
               totalScoreRegex_tokens text Hno).
    rewrite (matched_amount_absent reasoningRegex reasoning_token
               reasoningRegex_tokens text Hr).
    rewrite (matched_amount_absent engagementRegex engagement_token
               engagementRegex_tokens text He).
    rewrite (matched_amount_absent bonusRegex bonus_token
               bonusRegex_tokens text Hb).
    rewrite (matched_amount_absent oldScoreRegex legacy_token
               oldScoreRegex_tokens text Hl).
    reflexivity.
Qed.

Lemma extractScore_precedence_witness :
  extractScore (codes "Fair. [REASONING +3: clear] [bonus +2: apt] [Score: +9]")
  = Num 5 /\
  extractScore (codes "[REASONING +3: clear] [Total: +4] [TOTAL: +7]")
  = Num 4.
Proof.
  split.
  - set (text := codes "Fair. [REASONING +3: clear] [bonus +2: apt] [Score: +9]").
    destruct (extractScore_precedence text) as [_ [H _]].
    assert (Hr : first_token reasoning_token text (codes "3")).
    { apply (first_token_by_search reasoningRegex reasoning_token
               reasoningRegex_tokens text
               (match str_match reasoningRegex text with
                | Some res => res
                | None => {| index := 0; matched := []; groups := []; rest := [] |}
                end)); vm_compute; reflexivity. }
    assert (Hb : first_token bonus_token text (codes "2")).
    { apply (first_token_by_search bonusRegex bonus_token
               bonusRegex_tokens text
               (match str_match bonusRegex text with
                | Some res => res
                | None => {| index := 0; matched := []; groups := []; rest := [] |}
                end)); vm_compute; reflexivity. }
    apply (H (no_token_by_search totalScoreRegex total_token
                totalScoreRegex_tokens text eq_refl)
             (or_introl (first_token_has _ _ _ Hr)) 3%Z 0%Z 2%Z).
    + left. exists (codes "3"). split; [exact Hr | reflexivity].
    + right. split; [|reflexivity].
      apply (no_token_by_search engagementRegex engagement_token
               engagementRegex_tokens). vm_compute. reflexivity.
    + left. exists (codes "2"). split; [exact Hb | reflexivity].
    + vm_compute. discriminate.
  - set (text := codes "[REASONING +3: clear] [Total: +4] [TOTAL: +7]").
    destruct (extractScore_precedence text) as [H _].
    apply (H (codes "4")).
    + apply (first_token_by_search totalScoreRegex total_token
               totalScoreRegex_tokens text
               (match str_match totalScoreRegex text with
                | Some res => res
                | None => {| index := 0; matched := []; groups := []; rest := [] |}
                end)); vm_compute; reflexivity.
    + vm_compute. discriminate.
Defined.

(** C2, as stated, fails from 2^53 on.  The text holds one token, a
    [TOTAL] whose amount is 2^53 + 1; the score extracted is 2^53, the
    double nearest to the amount.  An amount of 310 digits is read as
    [Infinity]. *)
Lemma extractScore_rounds_amount :
  let text := codes "[TOTAL: +9007199254740993]" in
  first_token total_token text (codes "9007199254740993") /\
  decimal (codes "9007199254740993") = 9007199254740993 /\
  extractScore text = Num 9007199254740992 /\
  extractScore text <> Num (decimal (codes "9007199254740993")) /\
  extractScore (codes "[TOTAL: +" ++ repeat 57%N 310 ++ codes "]") = Infinity.
Proof.
  intros text.
  split.
  { apply (first_token_by_search totalScoreRegex total_token
             totalScoreRegex_tokens text
             (match str_match totalScoreRegex text with
              | Some res => res
              | None => {| index := 0; matched := []; groups := []; rest := [] |}
              end)); vm_compute; reflexivity. }
  split; [vm_compute; reflexivity|].
  split; [vm_compute; reflexivity|].
  split; [vm_compute; discriminate|].
  vm_compute. reflexivity.
Qed.

Lemma matched_amount_digits (re : RegExp) (T : str -> str -> Prop)
    (text ds : str) :
  token_pattern re T ->
  (forall ds tok, T ds tok -> ds <> [] /\ all is_digit ds) ->
  matched_amount (str_match re text) = Some ds ->
  parseInt ds = to_double (decimal ds).
Proof.
  intros tokens digits H. unfold matched_amount in H.
  destruct (str_match re text) as [res|] eqn:E; [|discriminate].
  destruct (str_match_found re T tokens text res E) as [p [_ [Hg [HT _]]]].
  unfold truthy_capture in H. rewrite Hg in H. cbn [get_cap nth] in H.
  destruct p as [|ch p]; [discriminate|]. injection H as <-.
  destruct (digits _ _ HT) as [Hne Hds]. apply parseInt_digits; assumption.
Qed.

Lemma categoryAmount_defined (re : RegExp) (T : str -> str -> Prop) (text : str) :
  token_pattern re T ->
  (forall ds tok, T ds tok -> ds <> [] /\ all is_digit ds) ->
  not_negative (categoryAmount (str_match re text)).
Proof.
  intros tokens digits.
  destruct (token_amount_exists re T tokens text) as [n [Hn Hpos]].
  rewrite (categoryAmount_token re T tokens digits text n Hn).
  apply to_double_not_negative. exact Hpos.
Qed.

(** The score is a number in every case, never [NaN], and not negative:
    a finite number from 0 on, or [Infinity] when the digits of a token
    write more than a double holds. *)
Lemma extractScore_defined (text : str) :
  (exists n, extractScore text = Num n /\ (0 <= n)%Z)
  \/ extractScore text = Infinity.
Proof.
  change (not_negative (extractScore text)).
  unfold extractScore.
  destruct (matched_amount (str_match totalScoreRegex text)) as [ds|] eqn:Et.
  - rewrite (matched_amount_digits _ _ _ _ totalScoreRegex_tokens
               (amount_payload _) Et).
    apply to_double_not_negative, decimal_nonneg.
  - pose proof (categoryAmount_defined reasoningRegex reasoning_token text
                  reasoningRegex_tokens (category_payload _)) as Hr.
    pose proof (categoryAmount_defined engagementRegex engagement_token text
                  engagementRegex_tokens (category_payload _)) as He.
    pose proof (categoryAmount_defined bonusRegex bonus_token text
                  bonusRegex_tokens (category_payload _)) as Hb.
    assert (Hsum : not_negative
      (num_add (num_add (categoryAmount (str_match reasoningRegex text))
                        (categoryAmount (str_match engagementRegex text)))
               (categoryAmount (str_match bonusRegex text)))).
    { apply num_add_not_negative; [apply num_add_not_negative|]; assumption. }
    destruct (str_match reasoningRegex text); [exact Hsum|].
    destruct (str_match engagementRegex text); [exact Hsum|].
    destruct (str_match bonusRegex text); [exact Hsum|].
    destruct (matched_amount (str_match oldScoreRegex text)) as [ds|] eqn:Eo.
    + rewrite (matched_amount_digits _ _ _ _ oldScoreRegex_tokens
                 (amount_payload _) Eo).
      apply to_double_not_negative, decimal_nonneg.
    + left. exists 0%Z. split; [reflexivity | lia].
Qed.

(** ** Badge tokens *)

Lemma badge_char_not_space (ch : cu) :
  is_badge_char ch = true -> is_space ch = false.
Proof. unfold is_badge_char, is_lower, is_upper, is_space. cu_cases. Qed.

Lemma all_space_class (ic : bool) (run : str) :
  all (set_match ic false [CSpace]) run <-> all is_space run.
Proof.
  unfold all. split; intros H; induction H; constructor; auto;
    rewrite space_class in *; assumption.
Qed.

Lemma all_badge_class (run : str) :
  all (set_match true false [CRange 97%N 122%N; CChar 95%N]) run
  <-> all is_badge_char run.
Proof.
  unfold all. split; intros H; induction H; constructor; auto;
    rewrite badge_class in *; assumption.
Qed.

Lemma badge_grammar (x y : str) (c : caps) :
  Matches true (source badgeRegex) x [None] y c
  <-> exists tok name, x = tok ++ y /\ badge_token name tok /\ c = [Some name].
Proof.
  unfold badgeRegex, regexp, source, badge_token, plus, star, space, lit.
  split.
  - intros H.
    apply Matches_Seq in H. destruct H as [y1 [c1 [H1 H]]].
    apply Matches_Lit in H1. destruct H1 as [head [-> [Hhead ->]]].
    apply Matches_Seq in H. destruct H as [y2 [c2 [H2 H]]].
    apply Matches_star_class in H2. destruct H2 as [ws [-> [Hws ->]]].
    apply Matches_Seq in H. destruct H as [y3 [c3 [H3 H4]]].
    apply Matches_Group in H3. destruct H3 as [w [c4 [-> [H3 ->]]]].
    apply Matches_plus_class in H3. destruct H3 as [name [E [Hne [Hname ->]]]].
    apply app_inv_tail in E. subst w.
    apply Matches_Lit in H4. destruct H4 as [h4 [-> [Hb ->]]].
    apply reads_bracket in Hb. subst h4.
    exists (head ++ ws ++ name ++ codes "]"), name. split; [|split].
    + rewrite <- !app_assoc. reflexivity.
    + exists head, ws. apply all_space_class in Hws.
      apply all_badge_class in Hname. auto.
    + reflexivity.
  - intros [tok [name [-> [[head [ws [Hhead [Hws [Hne [Hname ->]]]]]] ->]]]].
    rewrite <- !app_assoc.
    apply Matches_Seq. eexists _, [None]. split.
    { apply Matches_Lit. exists head. split; [reflexivity|]. auto. }
    apply Matches_Seq. eexists _, [None]. split.
    { apply Matches_star_class. exists ws. split; [reflexivity|].
      split; [apply all_space_class; exact Hws | reflexivity]. }
    apply Matches_Seq. eexists _, [Some name]. split.
    { apply Matches_Group. exists name, [None]. split; [reflexivity|].
      split; [|reflexivity].
      apply Matches_plus_class. exists name.
      split; [reflexivity|]. split; [exact Hne|].
      split; [apply all_badge_class; exact Hname | reflexivity]. }
    apply Matches_Lit. exists (codes "]"). repeat split. repeat constructor.
Qed.

Lemma badge_unambiguous (name tok name' tok' y y' : str) :
  badge_token name tok -> badge_token name' tok' ->
  tok ++ y = tok' ++ y' -> tok = tok' /\ name = name'.
Proof.
  intros [head [ws [Hh [Hws [Hne [Hname ->]]]]]]
         [head' [ws' [Hh' [Hws' [Hne' [Hname' ->]]]]]] E.
  rewrite <- !app_assoc in E.
  destruct (app_inv_length _ _ _ _ E) as [-> E1].
  { rewrite (reads_length _ _ _ Hh), (reads_length _ _ _ Hh'). reflexivity. }
  assert (Hstop : forall nm rest, nm <> [] -> all is_badge_char nm ->
                                  stops is_space (nm ++ rest)).
  { intros nm rest Hn Hall. destruct nm as [|ch nm]; [contradiction|].
    inversion Hall; subst. simpl. apply badge_char_not_space. assumption. }
  destruct (run_delimited is_space ws ws'
              (name ++ codes "]" ++ y) (name' ++ codes "]" ++ y')
              Hws Hws' (Hstop _ _ Hne Hname) (Hstop _ _ Hne' Hname') E1)
    as [-> E2].
  destruct (run_delimited is_badge_char name name'
              (codes "]" ++ y) (codes "]" ++ y') Hname Hname'
              eq_refl eq_refl E2) as [-> _].
  auto.
Qed.

Lemma badgeRegex_tokens : token_pattern badgeRegex badge_token.
Proof.
  split; [reflexivity|split].
  - intros x y c. apply badge_grammar.
  - intros name tok name' tok' y y'. apply badge_unambiguous.
Qed.

Lemma badge_payload (name tok : str) :
  badge_token name tok -> name <> [] /\ all is_badge_char name.
Proof. intros [head [ws [_ [_ [Hne [Hname _]]]]]]. auto. Qed.

(** [trim] leaves a string without white space as it is. *)
Lemma trimStart_no_space (s : str) :
  stops is_space s -> trimStart s = s.
Proof.
  destruct s as [|ch s]; simpl; [reflexivity|]. intros ->. reflexivity.
Qed.

Lemma trim_badge_name (name : str) :
  all is_badge_char name -> trim name = name.
Proof.
  intros H. unfold trim, trimEnd.
  assert (Hs : forall s, all is_badge_char s -> stops is_space s).
  { intros s Hs. destruct Hs as [|ch s Hch _]; simpl; [exact I|].
    apply badge_char_not_space. exact Hch. }
  rewrite (trimStart_no_space name (Hs _ H)).
  rewrite trimStart_no_space.
  - apply rev_involutive.
  - apply Hs. unfold all in *. apply Forall_rev. exact H.
Qed.

Lemma extractBadgeType_search (text : str) :
  extractBadgeType text
  = match str_match badgeRegex text with
    | Some res =>
        match groups res with
        | [Some name] => Some name
        | _ => None
        end
    | None => None
    end.
Proof.
  unfold extractBadgeType.
  destruct (str_match badgeRegex text) as [res|] eqn:E; [|reflexivity].
  destruct (str_match_found badgeRegex badge_token badgeRegex_tokens text res E)
    as [name [_ [Hg [HT _]]]].
  destruct (badge_payload _ _ HT) as [Hne Hall].
  unfold truthy_capture. rewrite Hg. simpl.
  destruct name as [|ch name]; [contradiction|].
  rewrite (trim_badge_name _ Hall). reflexivity.
Qed.

Lemma str_eqb_eq (a b : str) : str_eqb a b = true <-> a = b.
Proof.
  revert b. induction a as [|x a IH]; intros [|y b]; simpl;
    try (split; [discriminate | discriminate]); [tauto|].
  unfold cu_eqb. rewrite andb_true_iff, N.eqb_eq, IH. split.
  - intros [-> ->]. reflexivity.
  - intros H. injection H as -> ->. auto.
Qed.

(** C7, as the extraction has it.  Only the leftmost badge token of the
    text is honoured, so at most one badge is extracted however many
    tokens the text holds; the token is matched without regard to letter
    case, so the name extracted is a non-empty run of ASCII letters of
    either case and underscores.  The server keeps the name as written;
    the client lower-cases it and returns it only when it is one of the
    five known badge types, a name of lowercase letters and underscores. *)
Theorem badge_extraction_first_token (text : str) :
  (forall name,
     extractBadgeType text = Some name <-> first_token badge_token text name) /\
  (extractBadgeType text = None <-> ~ has_token badge_token text) /\
  (forall name,
     extractBadgeType text = Some name ->
     name <> [] /\ all is_badge_char name) /\
  (forall badgeType,
     extractBadgeAward text = Some badgeType ->
     exists name,
       first_token badge_token text name /\
       badgeType = toLowerCase name /\
       In badgeType BADGE_INFO_keys /\
       all is_identifier_char badgeType).
Proof.
  assert (Hiff : forall name,
            extractBadgeType text = Some name
            <-> first_token badge_token text name).
  { intros name. rewrite extractBadgeType_search. split.
    - destruct (str_match badgeRegex text) as [res|] eqn:E; [|discriminate].
      destruct (str_match_found badgeRegex badge_token badgeRegex_tokens
                  text res E) as [p [Hf [Hg _]]].
      rewrite Hg. intros H. injection H as <-. exact Hf.
    - intros Hf.
      destruct (str_match_first badgeRegex badge_token badgeRegex_tokens
                  text name Hf) as [res [-> Hg]].
      rewrite Hg. reflexivity. }
  split; [exact Hiff|]. split; [|split].
  - rewrite extractBadgeType_search. split.
    + intros H Hhas.
      destruct (str_match badgeRegex text) as [res|] eqn:E.
      * destruct (str_match_found badgeRegex badge_token badgeRegex_tokens
                    text res E) as [p [_ [Hg _]]].
        rewrite Hg in H. discriminate.
      * apply (str_match_absent badgeRegex badge_token badgeRegex_tokens) in E.
        contradiction.
    + intros Hno.
      apply (str_match_absent badgeRegex badge_token badgeRegex_tokens) in Hno.
      rewrite Hno. reflexivity.
  - intros name H. apply Hiff in H.
    destruct (first_token_payload _ _ _ H) as [tok HT].
    exact (badge_payload _ _ HT).
  - intros badgeType. unfold extractBadgeAward.
    destruct (str_match badgeRegex text) as [res|] eqn:E; [|discriminate].
    destruct (str_match_found badgeRegex badge_token badgeRegex_tokens
                text res E) as [p [Hf [Hg [HT _]]]].
    destruct (badge_payload _ _ HT) as [Hne _].
    unfold truthy_capture. rewrite Hg. cbn [get_cap nth].
    destruct p as [|ch p]; [contradiction|].
    remember (toLowerCase (ch :: p)) as t eqn:Et.
    destruct (existsb (str_eqb t) BADGE_INFO_keys) eqn:Ek; [|discriminate].
    intros H. injection H as <-.
    exists (ch :: p). split; [exact Hf|]. split; [exact Et|].
    assert (Hin : In t BADGE_INFO_keys).
    { apply existsb_exists in Ek. destruct Ek as [k [Hk Heq]].
      apply str_eqb_eq in Heq. rewrite Heq. exact Hk. }
    split; [exact Hin|]. clear - Hin.
    unfold BADGE_INFO_keys in Hin. simpl in Hin.
    destruct Hin as [<-|[<-|[<-|[<-|[<-|[]]]]]]; vm_compute; repeat constructor.
Qed.

Lemma badge_extraction_first_token_witness :
  extractBadgeType (codes "[badge: fact_checker] and also [badge: link_cutter]")
  = Some (codes "fact_checker").
Proof.
  set (text := codes "[badge: fact_checker] and also [badge: link_cutter]").
  destruct (badge_extraction_first_token text) as [H _].
  apply H.
  apply (first_token_by_search badgeRegex badge_token badgeRegex_tokens text
           (match str_match badgeRegex text with
            | Some res => res
            | None => {| index := 0; matched := []; groups := []; rest := [] |}
            end)); vm_compute; reflexivity.
Defined.

(** C7, as stated, fails: the pattern carries the [i] flag.  A token whose
    name has capital letters is accepted; the server extracts the name
    with its capitals, the client honours it as the known badge type it
    spells. *)
Lemma badge_name_not_lowercase :
  exists name,
    extractBadgeType (codes "Well done! [badge: Reason_Giver]") = Some name /\
    ~ all is_identifier_char name /\
    extractBadgeAward (codes "Well done! [badge: Reason_Giver]")
    = Some (codes "reason_giver").
Proof.
  exists (codes "Reason_Giver"). split; [reflexivity|]. split.
  - intros H. inversion H as [|ch s Hch _]. discriminate.
  - vm_compute. reflexivity.
Qed.

(** ** The table token *)

Lemma reads_exact (kw h : str) : reads false kw h <-> h = kw.
Proof.
  unfold reads. split.
  - intros H. induction H as [|a ch kw h Hc _ IH]; [reflexivity|].
    unfold char_eq, cu_eqb in Hc. apply N.eqb_eq in Hc. subst. reflexivity.
  - intros ->. induction kw as [|a kw IH]; constructor; [|exact IH].
    unfold char_eq, cu_eqb. apply N.eqb_refl.
Qed.

Lemma not_brace_class (ch : cu) :
  set_match false true [CChar 125%N] ch = not_brace ch.
Proof.
  unfold set_match, not_brace. cbn [existsb item_match].
  unfold char_eq, cu_eqb. cu_cases.
Qed.

Lemma all_not_brace_class (run : str) :
  all (set_match false true [CChar 125%N]) run <-> all not_brace run.
Proof.
  unfold all. split; intros H; induction H; constructor; auto;
    rewrite not_brace_class in *; assumption.
Qed.

Lemma table_grammar (x y : str) (c : caps) :
  Matches false (source tableRegex) x [None] y c
  <-> exists tok payload,
        x = tok ++ y /\ table_token payload tok /\ c = [Some payload].
Proof.
  unfold tableRegex, regexp, source, table_token, plus, star, space, none_of, lit.
  split.
  - intros H.
    apply Matches_Seq in H. destruct H as [y1 [c1 [H1 H]]].
    apply Matches_Lit in H1. destruct H1 as [head [-> [Hhead ->]]].
    apply reads_exact in Hhead. subst head.
    apply Matches_Seq in H. destruct H as [y2 [c2 [H2 H]]].
    apply Matches_star_class in H2. destruct H2 as [ws [-> [Hws ->]]].
    apply Matches_Seq in H. destruct H as [y3 [c3 [H3 H4]]].
    apply Matches_Group in H3. destruct H3 as [w [c4 [-> [H3 ->]]]].
    apply Matches_Seq in H3. destruct H3 as [y5 [c5 [H5 H3]]].
    apply Matches_Lit in H5. destruct H5 as [h5 [E5 [Hh5 ->]]].
    apply reads_exact in Hh5. subst h5.
    apply Matches_Seq in H3. destruct H3 as [y6 [c6 [H6 H7]]].
    apply Matches_plus_class in H6. destruct H6 as [body [-> [Hne [Hbody ->]]]].
    apply Matches_Lit in H7. destruct H7 as [h7 [-> [Hh7 ->]]].
    apply reads_exact in Hh7. subst h7.
    rewrite !app_assoc in E5. apply app_inv_tail in E5. subst w.
    apply Matches_Lit in H4. destruct H4 as [h4 [-> [Hh4 ->]]].
    apply reads_exact in Hh4. subst h4.
    exists (codes "{table:" ++ ws ++ (codes "{" ++ body ++ codes "}") ++ codes "}"),
           (codes "{" ++ body ++ codes "}").
    split; [|split].
    + rewrite <- !app_assoc. reflexivity.
    + exists ws, body. apply all_space_class in Hws.
      apply all_not_brace_class in Hbody. rewrite <- !app_assoc. auto.
    + rewrite <- !app_assoc. reflexivity.
  - intros [tok [payload [-> [[ws [body [Hws [Hne [Hbody [-> ->]]]]]] ->]]]].
    rewrite <- !app_assoc.
    apply Matches_Seq. eexists _, [None]. split.
    { apply Matches_Lit. exists (codes "{table:"). split; [reflexivity|].
      split; [apply reads_exact; reflexivity | reflexivity]. }
    apply Matches_Seq. eexists _, [None]. split.
    { apply Matches_star_class. exists ws. split; [reflexivity|].
      split; [apply all_space_class; exact Hws | reflexivity]. }
    apply Matches_Seq.
    exists (codes "}" ++ y), [Some (codes "{" ++ body ++ codes "}")]. split.
    { apply Matches_Group. exists (codes "{" ++ body ++ codes "}"), [None].
      split; [rewrite <- !app_assoc; reflexivity|]. split; [|reflexivity].
      apply Matches_Seq. eexists _, [None]. split.
      { apply Matches_Lit. exists (codes "{"). split; [reflexivity|].
        split; [apply reads_exact; reflexivity | reflexivity]. }
      apply Matches_Seq. eexists _, [None]. split.
      { apply Matches_plus_class. exists body.
        split; [reflexivity|]. split; [exact Hne|].
        split; [apply all_not_brace_class; exact Hbody | reflexivity]. }
      apply Matches_Lit. exists (codes "}"). split; [reflexivity|].
      split; [apply reads_exact; reflexivity | reflexivity]. }
    apply Matches_Lit. exists (codes "}"). split; [reflexivity|].
    split; [apply reads_exact; reflexivity | reflexivity].
Qed.

Lemma table_unambiguous (payload tok payload' tok' y y' : str) :
  table_token payload tok -> table_token payload' tok' ->
  tok ++ y = tok' ++ y' -> tok = tok' /\ payload = payload'.
Proof.
  intros [ws [body [Hws [Hne [Hbody [-> ->]]]]]]
         [ws' [body' [Hws' [Hne' [Hbody' [-> ->]]]]]] E.
  rewrite <- !app_assoc in E. apply app_inv_head in E.
  destruct (run_delimited is_space ws ws'
              (codes "{" ++ body ++ codes "}" ++ codes "}" ++ y)
              (codes "{" ++ body' ++ codes "}" ++ codes "}" ++ y')
              Hws Hws' eq_refl eq_refl E) as [-> E2].
  apply app_inv_head in E2.
  destruct (run_delimited not_brace body body'
              (codes "}" ++ codes "}" ++ y) (codes "}" ++ codes "}" ++ y')
              Hbody Hbody' eq_refl eq_refl E2) as [-> _].
  auto.
Qed.

Lemma tableRegex_tokens : token_pattern tableRegex table_token.
Proof.
  split; [reflexivity|split].
  - intros x y c. apply table_grammar.
  - intros payload tok payload' tok' y y'. apply table_unambiguous.
Qed.

(** ** Malformed table payloads *)

Lemma capture_of_groups (res : ExecResult) (w : str) :
  groups res = [Some w] -> capture 1 res = w.
Proof. unfold capture. intros ->. reflexivity. Qed.

Lemma healthNutTable_failure (Json : Type) (JSON_parse : str -> option Json)
    (aiResponse payload : str) :
  first_token table_token aiResponse payload ->
  JSON_parse payload = None ->
  healthNutTable JSON_parse aiResponse = None.
Proof.
  intros Hf Hfail. unfold healthNutTable.
  destruct (str_match_first tableRegex table_token tableRegex_tokens
              aiResponse payload Hf) as [res [-> Hg]].
  rewrite (capture_of_groups res payload Hg), Hfail. reflexivity.
Qed.

Lemma formatMessage_no_table (Json : Type) (mt : ExecResult) :
  msg_table (@formatMessage Json None mt) = None.
Proof.
  unfold formatMessage. cbn [msg_table].
  destruct (str_eqb _ _); reflexivity.
Qed.

(** C8.  When the payload of the (leftmost) [{table: {...}}] token of the
    reply does not parse as JSON, the handler still answers 200: no
    message carries a table, and the speakers, the contents, the points
    and the completion flag are those the handler gives with any other
    outcome of the parse.  The failure is not turned into an error. *)
Theorem malformed_table_is_omitted
    (Json : Type) (JSON_parse : str -> option Json)
    (dialogueHistory : list Message) (aiResponse payload : str) :
  first_token table_token aiResponse payload ->
  JSON_parse payload = None ->
  exists r,
    healthNutDialogue JSON_parse true dialogueHistory (Some aiResponse)
    = HealthNutOk r /\
    Forall (fun m => msg_table m = None) (messages r) /\
    hn_points r = healthNutPoints aiResponse /\
    hn_isComplete r
    = completionCheck dialogueHistory (healthNutPoints aiResponse) /\
    forall (JSON_parse' : str -> option Json) r',
      healthNutDialogue JSON_parse' true dialogueHistory (Some aiResponse)
      = HealthNutOk r' ->
      map speaker (messages r') = map speaker (messages r) /\
      map msg_content (messages r') = map msg_content (messages r) /\
      hn_points r' = hn_points r /\
      hn_isComplete r' = hn_isComplete r.
Proof.
  intros Hf Hfail. unfold healthNutDialogue. cbn [negb].
  rewrite (healthNutTable_failure Json JSON_parse aiResponse payload Hf Hfail).
  eexists. split; [reflexivity|]. cbn [messages hn_points hn_isComplete].
  split; [|split; [reflexivity|split; [reflexivity|]]].
  - apply Forall_forall. intros m Hm. apply in_map_iff in Hm.
    destruct Hm as [mt [<- _]]. apply formatMessage_no_table.
  - intros JSON_parse' r' H. injection H as <-.
    cbn [messages hn_points hn_isComplete]. rewrite !map_map.
    repeat split.
Qed.

Lemma malformed_table_is_omitted_witness :
  let aiResponse :=
    codesq "Plato: Look at the data. {table: {'headers': ['a', 'b'], 'rows': [['1', '2']],}} Qaylee: Hm." in
  exists r,
    healthNutDialogue (fun _ : str => @None unit) true [] (Some aiResponse)
    = HealthNutOk r /\
    Forall (fun m => msg_table m = None) (messages r) /\
    map speaker (messages r) = [codes "plato"; codes "qaylee"].
Proof.
  intros aiResponse.
  destruct (malformed_table_is_omitted unit (fun _ : str => @None unit) []
              aiResponse
              (codesq "{'headers': ['a', 'b'], 'rows': [['1', '2']],}"))
    as [r [Hr [Hall _]]].
  - apply (first_token_by_search tableRegex table_token tableRegex_tokens
             aiResponse
             (match str_match tableRegex aiResponse with
              | Some res => res
              | None => {| index := 0; matched := []; groups := []; rest := [] |}
              end)); vm_compute; reflexivity.
  - reflexivity.
  - exists r. split; [exact Hr|]. split; [exact Hall|].
    vm_compute in Hr. injection Hr as <-. reflexivity.
Defined.

(** ** The point token of the training dialogue *)

Lemma not_quote_class (ch : cu) :
  set_match false true [CChar 34%N] ch = not_quote ch.
Proof.
  unfold set_match, not_quote. cbn [existsb item_match].
  unfold char_eq, cu_eqb. cu_cases.
Qed.

Lemma all_not_quote_class (run : str) :
  all (set_match false true [CChar 34%N]) run <-> all not_quote run.
Proof.
  unfold all. split; intros H; induction H; constructor; auto;
    rewrite not_quote_class in *; assumption.
Qed.

Ltac take_lit H :=
  let h := fresh "h" in
  let Hh := fresh "Hh" in
  let Hm := fresh "Hm" in
  let y := fresh "y" in
  let c := fresh "c" in
  apply Matches_Seq in H; destruct H as [y [c [Hm H]]];
  apply Matches_Lit in Hm; destruct Hm as [h [-> [Hh ->]]];
  apply reads_exact in Hh; subst h.

Ltac give_lit w :=
  apply Matches_Lit; exists w; split; [reflexivity|];
  split; [apply reads_exact; reflexivity | reflexivity].

Lemma points_grammar (x y : str) (c : caps) :
  Matches false (source pointsRegex) x [None; None] y c
  <-> exists tok ds label,
        x = tok ++ y /\ points_token ds label tok /\
        c = [Some ds; Some label].
Proof.
  unfold pointsRegex, regexp, source, points_token, plus, star, space, digit, lit.
  split.
  - intros H.
    take_lit H.
    apply Matches_Seq in H. destruct H as [y1 [c1 [H1 H]]].
    apply Matches_star_class in H1. destruct H1 as [ws1 [-> [Hws1 ->]]].
    apply Matches_Seq in H. destruct H as [y2 [c2 [H2 H]]].
    apply Matches_Group in H2. destruct H2 as [w [c3 [-> [H2 ->]]]].
    apply Matches_plus_class in H2. destruct H2 as [ds [E [Hne [Hds ->]]]].
    apply app_inv_tail in E. subst w.
    take_lit H.
    apply Matches_Seq in H. destruct H as [y3 [c4 [H3 H]]].
    apply Matches_star_class in H3. destruct H3 as [ws2 [-> [Hws2 ->]]].
    take_lit H.
    apply Matches_Seq in H. destruct H as [y4 [c5 [H4 H]]].
    apply Matches_star_class in H4. destruct H4 as [ws3 [-> [Hws3 ->]]].
    take_lit H.
    apply Matches_Seq in H. destruct H as [y5 [c6 [H5 H]]].
    apply Matches_Group in H5. destruct H5 as [w [c7 [-> [H5 ->]]]].
    apply Matches_plus_class in H5. destruct H5 as [label [E [Hnl [Hlabel ->]]]].
    apply app_inv_tail in E. subst w.
    take_lit H.
    apply Matches_Lit in H. destruct H as [h [-> [Hh ->]]].
    apply reads_exact in Hh. subst h.
    eexists _, ds, label. split; [|split; [|reflexivity]].
    2:{ exists ws1, ws2, ws3.
        apply all_space_class in Hws1, Hws2, Hws3.
        apply all_digit_class in Hds. apply all_not_quote_class in Hlabel.
        repeat (split; [assumption|]). reflexivity. }
    rewrite <- !app_assoc. reflexivity.
  - intros [tok [ds [label [-> [HP ->]]]]].
    destruct HP as (ws1 & ws2 & ws3 & Hws1 & Hws2 & Hws3
                    & Hne & Hds & Hnl & Hlabel & ->).
    rewrite <- !app_assoc.
    apply Matches_Seq. eexists _, _. split; [give_lit (codes "{award_points:")|].
    apply Matches_Seq. eexists _, _. split.
    { apply Matches_star_class. exists ws1. split; [reflexivity|].
      split; [apply all_space_class; exact Hws1 | reflexivity]. }
    apply Matches_Seq. eexists _, [Some ds; None]. split.
    { apply Matches_Group. exists ds, [None; None]. split; [reflexivity|].
      split; [|reflexivity].
      apply Matches_plus_class. exists ds.
      split; [reflexivity|]. split; [exact Hne|].
      split; [apply all_digit_class; exact Hds | reflexivity]. }
    apply Matches_Seq. eexists _, _. split; [give_lit (codes ",")|].
    apply Matches_Seq. eexists _, _. split.
    { apply Matches_star_class. exists ws2. split; [reflexivity|].
      split; [apply all_space_class; exact Hws2 | reflexivity]. }
    apply Matches_Seq. eexists _, _. split; [give_lit (codes "type:")|].
    apply Matches_Seq. eexists _, _. split.
    { apply Matches_star_class. exists ws3. split; [reflexivity|].
      split; [apply all_space_class; exact Hws3 | reflexivity]. }
    apply Matches_Seq. eexists _, _. split; [give_lit [34%N]|].
    apply Matches_Seq. eexists _, [Some ds; Some label]. split.
    { apply Matches_Group. exists label, [Some ds; None].
      split; [reflexivity|]. split; [|reflexivity].
      apply Matches_plus_class. exists label.
      split; [reflexivity|]. split; [exact Hnl|].
      split; [apply all_not_quote_class; exact Hlabel | reflexivity]. }
    apply Matches_Seq. eexists _, _. split; [give_lit [34%N]|].
    give_lit (codes "}").
Qed.

Lemma points_unambiguous (ds label tok ds' label' tok' y y' : str) :
  points_token ds label tok -> points_token ds' label' tok' ->
  tok ++ y = tok' ++ y' -> tok = tok' /\ ds = ds' /\ label = label'.
Proof.
  intros (ws1 & ws2 & ws3 & Hws1 & Hws2 & Hws3 & Hne & Hds & Hnl & Hlabel & ->)
         (ws1' & ws2' & ws3' & Hws1' & Hws2' & Hws3' & Hne' & Hds' & Hnl'
          & Hlabel' & ->) E.
  rewrite <- !app_assoc in E. apply app_inv_head in E.
  assert (Hstop : forall d rest, d <> [] -> all is_digit d ->
                                 stops is_space (d ++ rest)).
  { intros d rest Hd Hall. destruct d as [|ch d]; [contradiction|].
    inversion Hall; subst. simpl. apply digit_not_space. assumption. }
  destruct (run_delimited is_space ws1 ws1' _ _ Hws1 Hws1'
              (Hstop _ _ Hne Hds) (Hstop _ _ Hne' Hds') E) as [-> E1].
  destruct (run_delimited is_digit ds ds'
              (codes "," ++ ws2 ++ codes "type:" ++ ws3 ++ [34%N] ++ label
               ++ [34%N] ++ codes "}" ++ y)
              (codes "," ++ ws2' ++ codes "type:" ++ ws3' ++ [34%N] ++ label'
               ++ [34%N] ++ codes "}" ++ y')
              Hds Hds' eq_refl eq_refl E1) as [-> E2].
  apply app_inv_head in E2.
  destruct (run_delimited is_space ws2 ws2'
              (codes "type:" ++ ws3 ++ [34%N] ++ label ++ [34%N] ++ codes "}" ++ y)
              (codes "type:" ++ ws3' ++ [34%N] ++ label' ++ [34%N] ++ codes "}" ++ y')
              Hws2 Hws2' eq_refl eq_refl E2) as [-> E3].
  apply app_inv_head in E3.
  destruct (run_delimited is_space ws3 ws3'
              ([34%N] ++ label ++ [34%N] ++ codes "}" ++ y)
              ([34%N] ++ label' ++ [34%N] ++ codes "}" ++ y')
              Hws3 Hws3' eq_refl eq_refl E3) as [-> E4].
  apply app_inv_head in E4.
  destruct (run_delimited not_quote label label'
              ([34%N] ++ codes "}" ++ y) ([34%N] ++ codes "}" ++ y')
              Hlabel Hlabel' eq_refl eq_refl E4) as [-> _].
  auto.
Qed.

Lemma pointsRegex_grammar (x y : str) (c : caps) :
  matches_at pointsRegex x y c
  <-> exists tok, x = tok ++ y /\
        exists ds label, points_token ds label tok /\ c = [Some ds; Some label].
Proof.
  unfold matches_at. change (repeat None (group_count (source pointsRegex)))
    with [@None str; None].
  change (ignoreCase pointsRegex) with false.
  rewrite points_grammar. split.
  - intros [tok [ds [label [Hx [HT Hc]]]]]. exists tok. eauto.
  - intros [tok [Hx [ds [label [HT Hc]]]]]. exists tok, ds, label. auto.
Qed.

Lemma pointsRegex_unambiguous (tok : str) (c : caps) (tok' : str) (c' : caps)
    (y y' : str) :
  (exists ds label, points_token ds label tok /\ c = [Some ds; Some label]) ->
  (exists ds label, points_token ds label tok' /\ c' = [Some ds; Some label]) ->
  tok ++ y = tok' ++ y' -> tok = tok' /\ c = c'.
Proof.
  intros [ds [label [HT ->]]] [ds' [label' [HT' ->]]] E.
  destruct (points_unambiguous _ _ _ _ _ _ _ _ HT HT' E) as [-> [-> ->]].
  auto.
Qed.

(** The training dialogue extracts the amount and the label of the
    leftmost point token, the label trimmed.  The amount is read as a
    number of the language, the double nearest to what its digits write:
    the amount itself whenever that is at most 2^53. *)
Theorem extractPoints_first_token (text ds label : str) :
  first_points_token text ds label ->
  extractPoints text
  = Some {| amount := to_double (decimal ds); type := trim label |} /\
  (decimal ds <= 2 ^ 53 ->
   extractPoints text
   = Some {| amount := Num (decimal ds); type := trim label |}).
Proof.
  intros Hfirst.
  assert (Hmain : extractPoints text
                  = Some {| amount := to_double (decimal ds);
                            type := trim label |});
    [|split; [exact Hmain|]; intros Hle; rewrite Hmain;
      rewrite to_double_exact;
      [reflexivity
      | pose proof (decimal_nonneg ds);
        assert (0 < 2 ^ 53) by reflexivity; lia]].
  destruct Hfirst as [pre [tok [post [Ht [HT Hmin]]]]].
  destruct (str_match_first_token pointsRegex
              (fun tok c => exists ds label,
                 points_token ds label tok /\ c = [Some ds; Some label])
              eq_refl pointsRegex_grammar pointsRegex_unambiguous
              text pre tok post [Some ds; Some label] Ht)
    as [res [Hm [_ [_ [Hg _]]]]].
  - exists ds, label. auto.
  - intros pre' tok' c' post' Ht' [ds' [label' [HT' _]]].
    exact (Hmin pre' ds' label' tok' post' Ht' HT').
  - unfold extractPoints. rewrite Hm. unfold capture. rewrite Hg.
    cbn [get_cap nth].
    destruct HT as (ws1 & ws2 & ws3 & _ & _ & _ & Hne & Hds & _).
    rewrite (parseInt_digits ds Hne Hds). reflexivity.
Qed.

Lemma first_points_token_by_search (text : str) (res : ExecResult)
    (ds label : str) :
  str_match pointsRegex text = Some res ->
  groups res = [Some ds; Some label] ->
  first_points_token text ds label.
Proof.
  intros E Hg.
  destruct (str_match_token pointsRegex _ eq_refl pointsRegex_grammar
              text res E) as [pre [Hx [_ [[ds0 [label0 [HT Hc]]] Hmin]]]].
  rewrite Hg in Hc. injection Hc as -> ->.
  exists pre, (matched res), (rest res).
  split; [exact Hx|]. split; [exact HT|].
  intros pre' ds' label' tok' post' Ht HT'.
  apply (Hmin pre' tok' [Some ds'; Some label'] post' Ht).
  exists ds', label'. auto.
Qed.


Lemma extractPoints_first_token_witness :
  extractPoints
    (codesq "Well argued. {award_points: 10, type: ' counter_a '} {award_points: 2, type: 'civility'}")
  = Some {| amount := Num 10; type := codes "counter_a" |}.
Proof.
  set (text := codesq "Well argued. {award_points: 10, type: ' counter_a '} {award_points: 2, type: 'civility'}").
  apply (extractPoints_first_token text (codes "10") (codes " counter_a ")).
  - apply (first_points_token_by_search text
             (match str_match pointsRegex text with
              | Some res => res
              | None => {| index := 0; matched := []; groups := []; rest := [] |}
              end)); vm_compute; reflexivity.
  - vm_compute. discriminate.
Defined.

(** The training dialogue extracts no points exactly from a text that
    holds no point token. *)
Theorem extractPoints_none (text : str) :
  extractPoints text = None <-> ~ has_points_token text.
Proof.
  unfold extractPoints. split.
  - intros H [pre [ds [label [tok [post [Ht HT]]]]]].
    destruct (str_match pointsRegex text) as [res|] eqn:E; [discriminate|].
    unfold str_match in E.
    pose proof (exec_from_none pointsRegex text 0 E pre (tok ++ post) Ht) as Hn.
    apply (match_at_complete pointsRegex (tok ++ post) post
             [Some ds; Some label] eq_refl); [|exact Hn].
    apply pointsRegex_grammar. exists tok. split; [reflexivity|].
    exists ds, label. auto.
  - intros Hno. destruct (str_match pointsRegex text) as [res|] eqn:E;
      [|reflexivity].
    exfalso. apply Hno.
    destruct (str_match_token pointsRegex _ eq_refl pointsRegex_grammar
                text res E) as [pre [Hx [_ [[ds [label [HT _]]] _]]]].
    exists pre, ds, label, (matched res), (rest res). auto.
Qed.

(** ** Patterns without their capturing groups *)

Lemma groups_of_erase (r : regex) : groups_of (erase r) = [].
Proof.
  induction r; simpl; try reflexivity; try assumption.
  - rewrite IHr1, IHr2. reflexivity.
  - rewrite IHr1, IHr2. reflexivity.
Qed.

Lemma lookahead_free_erase (r : regex) :
  lookahead_free (erase r) = lookahead_free r.
Proof.
  induction r; simpl; try reflexivity; try assumption.
  - rewrite IHr1, IHr2. reflexivity.
  - rewrite IHr1, IHr2. reflexivity.
Qed.

(** A pattern and the pattern without its groups match the same strings. *)
Lemma erase_forward (ic : bool) (r : regex) (x y : str) (c c' : caps) :
  Matches ic r x c y c' -> forall d, Matches ic (erase r) x d y d.
Proof.
  induction 1; intros d; simpl.
  - constructor. assumption.
  - constructor. assumption.
  - constructor. assumption.
  - econstructor; [apply IHMatches1 | apply IHMatches2].
  - apply MAltL. apply IHMatches.
  - apply MAltR. apply IHMatches.
  - constructor.
  - eapply MRepeatMin.
    + rewrite groups_of_erase. simpl. apply IHMatches1.
    + apply IHMatches2.
  - eapply MRepeatMore.
    + rewrite groups_of_erase. simpl. apply IHMatches1.
    + assumption.
    + apply IHMatches2.
  - apply IHMatches.
  - econstructor. apply IHMatches.
  - constructor.
Qed.

Lemma erase_backward (ic : bool) (e : regex) (x y : str) (d d' : caps) :
  Matches ic e x d y d' ->
  forall r, erase r = e -> forall c, exists c', Matches ic r x c y c'.
Proof.
  induction 1; intros r0 Er c0;
    induction r0; simpl in Er; try discriminate;
    try (destruct (IHr0 Er) as [c' Hm]; eexists; constructor; exact Hm).
  - injection Er as ->. eexists. constructor. assumption.
  - injection Er as -> ->. eexists. constructor. assumption.
  - eexists. constructor. assumption.
  - injection Er as E1 E2.
    destruct (IHMatches1 _ E1 c0) as [c1' Hb1].
    destruct (IHMatches2 _ E2 c1') as [c2' Hb2].
    eexists. econstructor; eassumption.
  - injection Er as E1 E2.
    destruct (IHMatches _ E1 c0) as [c1' Hb1].
    eexists. apply MAltL. exact Hb1.
  - injection Er as E1 E2.
    destruct (IHMatches _ E2 c0) as [c1' Hb1].
    eexists. apply MAltR. exact Hb1.
  - injection Er as -> -> E. eexists. constructor.
  - injection Er as -> -> E.
    destruct (IHMatches1 _ E (clear_caps (groups_of r0) c0)) as [c1' Hb1].
    destruct (IHMatches2 (Repeat min greedy r0)
                ltac:(simpl; rewrite E; reflexivity) c1') as [c2' Hb2].
    eexists. eapply MRepeatMin; eassumption.
  - injection Er as -> -> E.
    destruct (IHMatches1 _ E (clear_caps (groups_of r0) c0)) as [c1' Hb1].
    destruct (IHMatches2 (Repeat 0 greedy r0)
                ltac:(simpl; rewrite E; reflexivity) c1') as [c2' Hb2].
    eexists. eapply MRepeatMore; eassumption.
  - injection Er as E.
    destruct (IHMatches _ E c0) as [c1' Hb1].
    eexists. econstructor. exact Hb1.
  - eexists. constructor.
Qed.

(** ** Deleting the tokens of a text *)

Section Deletion.

Variable re : RegExp.
Variable T : str -> Prop.
Variable opener : cu -> bool.

Hypothesis re_lookahead_free : lookahead_free (source re) = true.

Hypothesis match_is_token :
  forall x y c, matches_at re x y c -> exists tok, x = tok ++ y /\ T tok.

Hypothesis token_matches :
  forall tok y, T tok -> exists c, matches_at re (tok ++ y) y c.

Hypothesis one_token :
  forall tok tok' y y', T tok -> T tok' -> tok ++ y = tok' ++ y' -> tok = tok'.

Hypothesis token_opens :
  forall tok, T tok -> exists ch w, tok = ch :: w /\ opener ch = true.

Lemma match_at_plain (ch : cu) (x : str) :
  opener ch = false -> match_at re (ch :: x) = None.
Proof.
  intros Hch. destruct (match_at re (ch :: x)) as [[y c]|] eqn:E; [|reflexivity].
  apply match_at_sound, match_is_token in E. destruct E as [tok [Hx HT]].
  destruct (token_opens tok HT) as [ch' [w [-> Ho]]].
  simpl in Hx. injection Hx as -> _. congruence.
Qed.

Lemma match_at_end : match_at re [] = None.
Proof.
  destruct (match_at re []) as [[y c]|] eqn:E; [|reflexivity].
  apply match_at_sound, match_is_token in E. destruct E as [tok [Hx HT]].
  destruct (token_opens tok HT) as [ch' [w [-> Ho]]]. discriminate.
Qed.

Lemma match_at_token (tok y : str) :
  T tok -> exists c, match_at re (tok ++ y) = Some (y, c).
Proof.
  intros HT. destruct (token_matches tok y HT) as [c0 Hm].
  pose proof (match_at_complete re _ _ _ re_lookahead_free Hm) as Hne.
  destruct (match_at re (tok ++ y)) as [[y' c]|] eqn:E; [|contradiction].
  exists c. pose proof (match_at_sound re _ _ _ E) as Hs.
  apply match_is_token in Hs. destruct Hs as [tok' [Hx HT']].
  pose proof (one_token tok tok' y y' HT HT' Hx) as <-.
  apply app_inv_head in Hx. subst y'. reflexivity.
Qed.

Lemma exec_from_plain (plain x : str) (idx : nat) :
  all (fun ch => negb (opener ch)) plain -> x <> [] ->
  exec_from re idx (plain ++ x) = exec_from re (idx + length plain) x.
Proof.
  intros Hp Hx. revert idx. induction Hp as [|ch plain Hch Hp IH]; intros idx.
  - simpl. rewrite Nat.add_0_r. reflexivity.
  - apply negb_true_iff in Hch.
    change ((ch :: plain) ++ x) with (ch :: (plain ++ x)).
    rewrite (exec_from_miss re idx _ (match_at_plain ch _ Hch)).
    rewrite IH. simpl. f_equal. lia.
Qed.

Lemma exec_from_plain_only (plain : str) (idx : nat) :
  all (fun ch => negb (opener ch)) plain -> exec_from re idx plain = None.
Proof.
  intros Hp. revert idx. induction Hp as [|ch plain Hch Hp IH]; intros idx.
  - rewrite (exec_from_miss re idx [] match_at_end). reflexivity.
  - apply negb_true_iff in Hch.
    rewrite (exec_from_miss re idx _ (match_at_plain ch _ Hch)). apply IH.
Qed.

Lemma delete_matches_stripped (text out : str) :
  stripped T opener text out ->
  forall fuel, (length text < fuel)%nat -> delete_matches re fuel text = out.
Proof.
  induction 1 as [plain Hp | plain tok text out Hp HT Hs IH]; intros fuel Hf;
    (destruct fuel as [|fuel]; [lia|]); cbn [delete_matches].
  - rewrite (exec_from_plain_only plain 0 Hp). reflexivity.
  - destruct (token_opens tok HT) as [ch [w [-> _]]].
    destruct (match_at_token (ch :: w) text HT) as [c Hm].
    destruct (exec_from_hit re (0 + length plain) _ _ _ Hm) as [w' [Hw He]].
    apply app_inv_tail in Hw. subst w'.
    rewrite (exec_from_plain plain ((ch :: w) ++ text) 0 Hp) by discriminate.
    rewrite He. cbn [index matched rest Nat.add].
    rewrite firstn_app, Nat.sub_diag, firstn_all. simpl firstn.
    rewrite app_nil_r. f_equal. apply IH.
    rewrite !length_app in Hf. simpl in Hf. lia.
Qed.

Lemma replace_all_stripped (text out : str) :
  stripped T opener text out -> replace_all_empty re text = out.
Proof.
  intros H. unfold replace_all_empty. apply delete_matches_stripped; [exact H|].
  lia.
Qed.

End Deletion.

Lemma stripped_out_plain (T : str -> Prop) (opener : cu -> bool) (text out : str) :
  stripped T opener text out -> all (fun ch => negb (opener ch)) out.
Proof.
  unfold all. induction 1; [assumption|]. apply Forall_app. auto.
Qed.

Lemma stripped_out_subset (T : str -> Prop) (opener : cu -> bool)
    (P : cu -> Prop) (text out : str) :
  stripped T opener text out -> Forall P text -> Forall P out.
Proof.
  induction 1 as [plain Hp | plain tok text out Hp HT Hs IH]; intros HP;
    [assumption|].
  apply Forall_app in HP. destruct HP as [Hplain Hrest].
  apply Forall_app in Hrest. destruct Hrest as [_ Htext].
  apply Forall_app. auto.
Qed.

(** ** The display text of the training dialogue *)

Lemma pointsSyntax_match_is_token (x y : str) (c : caps) :
  matches_at pointsSyntaxRegex x y c ->
  exists tok, x = tok ++ y /\ is_points_token tok.
Proof.
  unfold matches_at. intros H.
  destruct (erase_backward _ _ _ _ _ _ H (source pointsRegex) eq_refl
              [None; None]) as [c' Hm].
  apply points_grammar in Hm. destruct Hm as [tok [ds [label [Hx [HT _]]]]].
  exists tok. split; [exact Hx|]. exists ds, label. exact HT.
Qed.

Lemma pointsSyntax_token_matches (tok y : str) :
  is_points_token tok -> exists c, matches_at pointsSyntaxRegex (tok ++ y) y c.
Proof.
  intros [ds [label HT]]. exists []. unfold matches_at.
  apply (erase_forward false (source pointsRegex) (tok ++ y) y
           [None; None] [Some ds; Some label]).
  apply points_grammar. exists tok, ds, label. auto.
Qed.

Lemma points_token_opens (tok : str) :
  is_points_token tok -> exists ch w, tok = ch :: w /\ is_open_brace ch = true.
Proof.
  intros [ds [label (ws1 & ws2 & ws3 & _ & _ & _ & _ & _ & _ & _ & ->)]].
  eexists _, _. split; reflexivity.
Qed.

Lemma points_one_token (tok tok' y y' : str) :
  is_points_token tok -> is_points_token tok' ->
  tok ++ y = tok' ++ y' -> tok = tok'.
Proof.
  intros [ds [label HT]] [ds' [label' HT']] E.
  exact (proj1 (points_unambiguous _ _ _ _ _ _ _ _ HT HT' E)).
Qed.

Lemma badgeSyntax_match_is_token (x y : str) (c : caps) :
  matches_at badgeSyntaxRegex x y c ->
  exists tok, x = tok ++ y /\ is_badge_token tok.
Proof.
  unfold matches_at. intros H.
  destruct (erase_backward _ _ _ _ _ _ H (source badgeRegex) eq_refl [None])
    as [c' Hm].
  apply badge_grammar in Hm. destruct Hm as [tok [name [Hx [HT _]]]].
  exists tok. split; [exact Hx|]. exists name. exact HT.
Qed.

Lemma badgeSyntax_token_matches (tok y : str) :
  is_badge_token tok -> exists c, matches_at badgeSyntaxRegex (tok ++ y) y c.
Proof.
  intros [name HT]. exists []. unfold matches_at.
  apply (erase_forward true (source badgeRegex) (tok ++ y) y
           [None] [Some name]).
  apply badge_grammar. exists tok, name. auto.
Qed.

Lemma badge_token_opens (tok : str) :
  is_badge_token tok -> exists ch w, tok = ch :: w /\ is_open_bracket ch = true.
Proof.
  intros [name [head [ws [Hh [_ [_ [_ ->]]]]]]].
  inversion Hh as [|a ch kw h Hc Hr]; subst.
  apply char_eq_nonletter in Hc; [|reflexivity|reflexivity]. subst ch.
  eexists _, _. split; reflexivity.
Qed.

Lemma badge_one_token (tok tok' y y' : str) :
  is_badge_token tok -> is_badge_token tok' ->
  tok ++ y = tok' ++ y' -> tok = tok'.
Proof.
  intros [name HT] [name' HT'] E.
  exact (proj1 (badge_unambiguous _ _ _ _ _ _ HT HT' E)).
Qed.

Lemma Forall_trimStart (P : cu -> Prop) (s : str) :
  Forall P s -> Forall P (trimStart s).
Proof.
  induction 1 as [|ch s Hch Hs IH]; simpl; [constructor|].
  destruct (is_space ch); [exact IH | constructor; assumption].
Qed.

Lemma Forall_trim (P : cu -> Prop) (s : str) :
  Forall P s -> Forall P (trim s).
Proof.
  intros H. unfold trim, trimEnd.
  apply Forall_rev, Forall_trimStart, Forall_rev, Forall_trimStart. exact H.
Qed.

(** When braces open point tokens only, and, once the point tokens are
    gone, brackets open badge tokens only, the display text is the text
    without its tokens, trimmed; it holds no brace and no bracket, hence
    no token. *)
Theorem cleanResponse_token_free (text text1 text2 : str) :
  stripped is_points_token is_open_brace text text1 ->
  stripped is_badge_token is_open_bracket text1 text2 ->
  cleanResponse text = trim text2 /\
  all (fun ch => negb (is_open_brace ch)) (trim text2) /\
  all (fun ch => negb (is_open_bracket ch)) (trim text2) /\
  ~ has_points_token (trim text2) /\
  ~ has_token badge_token (trim text2).
Proof.
  intros H1 H2.
  assert (E1 : replace_all_empty pointsSyntaxRegex text = text1).
  { apply (replace_all_stripped pointsSyntaxRegex is_points_token is_open_brace
             eq_refl pointsSyntax_match_is_token pointsSyntax_token_matches
             points_one_token points_token_opens). exact H1. }
  assert (E2 : replace_all_empty badgeSyntaxRegex text1 = text2).
  { apply (replace_all_stripped badgeSyntaxRegex is_badge_token is_open_bracket
             eq_refl badgeSyntax_match_is_token badgeSyntax_token_matches
             badge_one_token badge_token_opens). exact H2. }
  assert (Hbrace : all (fun ch => negb (is_open_brace ch)) (trim text2)).
  { apply Forall_trim.
    apply (stripped_out_subset _ _ _ _ _ H2).
    exact (stripped_out_plain _ _ _ _ H1). }
  assert (Hbracket : all (fun ch => negb (is_open_bracket ch)) (trim text2)).
  { apply Forall_trim. exact (stripped_out_plain _ _ _ _ H2). }
  split; [unfold cleanResponse; rewrite E1, E2; reflexivity|].
  split; [exact Hbrace|]. split; [exact Hbracket|]. split.
  - intros [pre [ds [label [tok [post [Ht HT]]]]]].
    destruct (points_token_opens tok (ex_intro _ ds (ex_intro _ label HT)))
      as [ch [w [-> Ho]]].
    unfold all in Hbrace. rewrite Ht in Hbrace.
    apply Forall_app in Hbrace. destruct Hbrace as [_ Hb].
    inversion Hb as [|? ? Hch _]. rewrite Ho in Hch. discriminate.
  - intros [pre [name [tok [post [Ht HT]]]]].
    destruct (badge_token_opens tok (ex_intro _ name HT)) as [ch [w [-> Ho]]].
    unfold all in Hbracket. rewrite Ht in Hbracket.
    apply Forall_app in Hbracket. destruct Hbracket as [_ Hb].
    inversion Hb as [|? ? Hch _]. rewrite Ho in Hch. discriminate.
Qed.

Lemma cleanResponse_token_free_witness :
  cleanResponse
    (codesq "{award_points: 5, type: 'new_argument'} Great point! [badge: reason_giver] Why so?")
  = codes "Great point!  Why so?" /\
  ~ has_points_token (codes "Great point!  Why so?") /\
  ~ has_token badge_token (codes "Great point!  Why so?").
Proof.
  pose (tok1 := codesq "{award_points: 5, type: 'new_argument'}").
  pose (tok2 := codes "[badge: reason_giver]").
  assert (H1 : stripped is_points_token is_open_brace
                 (codesq "{award_points: 5, type: 'new_argument'} Great point! [badge: reason_giver] Why so?")
                 (codes " Great point! [badge: reason_giver] Why so?")).
  { apply (stripped_token is_points_token is_open_brace
             [] tok1 (codes " Great point! [badge: reason_giver] Why so?")
             (codes " Great point! [badge: reason_giver] Why so?")).
    - constructor.
    - exists (codes "5"), (codes "new_argument").
      exists (codes " "), (codes " "), (codes " ").
      repeat split; try discriminate; repeat constructor.
    - apply stripped_plain. repeat constructor. }
  assert (H2 : stripped is_badge_token is_open_bracket
                 (codes " Great point! [badge: reason_giver] Why so?")
                 (codes " Great point!  Why so?")).
  { apply (stripped_token is_badge_token is_open_bracket
             (codes " Great point! ") tok2 (codes " Why so?") (codes " Why so?")).
    - repeat constructor.
    - exists (codes "reason_giver"), (codes "[badge:"), (codes " ").
      repeat split; try discriminate; repeat constructor.
    - apply stripped_plain. repeat constructor. }
  destruct (cleanResponse_token_free _ _ _ H1 H2) as [E [_ [_ [N1 N2]]]].
  exact (conj E (conj N1 N2)).
Defined.

(** Without that condition a token can remain: the deletion is one pass
    from left to right, and what it leaves may join into a token. *)
Lemma cleanResponse_nested_token :
  cleanResponse (codes "[badge:[badge: a] b] x") = codes "[badge: b] x" /\
  extractBadgeType (codes "[badge: b] x") = Some (codes "b").
Proof. split; vm_compute; reflexivity. Qed.

(** The end-to-end example of the specification. *)
Lemma dialogue_example :
  let aiResponse :=
    codesq "{award_points: 5, type: 'new_argument'} Great point! [badge: reason_giver]" in
  extractPoints aiResponse
  = Some {| amount := Num 5; type := codes "new_argument" |} /\
  extractBadgeType aiResponse = Some (codes "reason_giver") /\
  cleanResponse aiResponse = codes "Great point!".
Proof. repeat split; vm_compute; reflexivity. Qed.

(** ** Point tokens in the two single-token dialogues *)

(** C3 at a reply that follows the prompt of the tabular dialogue.  The
    pattern of the training dialogue extracts the amount and the label of
    the point token; the pattern of the tabular dialogue, written with two
    double-quote characters before the label, does not match the token,
    and the reply carries no points. *)
Theorem healthNut_point_token_not_extracted :
  let aiResponse :=
    codesq "Plato: {award_points: 3, type: 'basic'} Well explained." in
  extractPoints aiResponse
  = Some {| amount := Num 3; type := codes "basic" |} /\
  healthNutPoints aiResponse = None /\
  forall (Json : Type) (JSON_parse : str -> option Json)
         (dialogueHistory : list Message),
  exists r,
    healthNutDialogue JSON_parse true dialogueHistory (Some aiResponse)
    = HealthNutOk r /\
    hn_points r = None /\
    map msg_content (messages r) = [codes " Well explained."].
Proof.
  intros aiResponse.
  split; [vm_compute; reflexivity|].
  split; [vm_compute; reflexivity|].
  intros Json JSON_parse dialogueHistory.
  unfold healthNutDialogue. cbn [negb].
  eexists. split; [reflexivity|]. cbn [hn_points messages].
  split; [vm_compute; reflexivity|].
  rewrite map_map. vm_compute. reflexivity.
Qed.

(** ** The store under a sequence of requests *)

Lemma awardBadge_store (a : bool) (db : Db) (uid : Z) (badgeType gameType : str) :
  snd (awardBadge a db uid badgeType gameType) = db \/
  exists b stored,
    select_userBadges db uid (badge_id b) = [] /\
    snd (awardBadge a db uid badgeType gameType)
    = insert_userBadge db
        {| ub_userId := uid; ub_badgeId := badge_id b; ub_gameType := stored |}.
Proof.
  unfold awardBadge. destruct a; cbn [negb]; [|left; reflexivity].
  destruct badgeType as [|ch w]; [left; reflexivity|].
  destruct (text_param (ch :: w)) as [name|]; [|left; reflexivity].
  destruct (select_badge db name) as [b|] eqn:Eb; [|left; reflexivity].
  destruct (select_userBadges db uid (badge_id b)) as [|r l] eqn:Er;
    [|left; reflexivity].
  destruct (insert_into_userBadges db uid (badge_id b) gameType) as [db'|] eqn:Ei;
    [|left; reflexivity].
  apply insert_into_userBadges_row in Ei. destruct Ei as [u [stored [_ [_ ->]]]].
  right. exists b, stored. auto.
Qed.

Lemma dialogueBadgeFlow_store (db : Db) (uid : Z) (badgeType : str) :
  snd (dialogueBadgeFlow db uid badgeType) = db \/
  exists b stored,
    select_userBadges db uid (badge_id b) = [] /\
    snd (dialogueBadgeFlow db uid badgeType)
    = insert_userBadge db
        {| ub_userId := uid; ub_badgeId := badge_id b; ub_gameType := stored |}.
Proof.
  unfold dialogueBadgeFlow.
  destruct (text_param badgeType) as [name|]; [|left; reflexivity].
  destruct (select_badge db name) as [b|] eqn:Eb; [|left; reflexivity].
  destruct (select_userBadges db uid (badge_id b)) as [|r l] eqn:Er;
    [|left; reflexivity].
  destruct (insert_into_userBadges db uid (badge_id b) (codes "thought_zombies"))
    as [db'|] eqn:Ei; [|left; reflexivity].
  apply insert_into_userBadges_row in Ei. destruct Ei as [u [stored [_ [_ ->]]]].
  right. exists b, stored. auto.
Qed.

Lemma dialogue_store (a : bool) (db : Db) (uid : Z)
    (dialogueHistory : list Message) (aiResult : option str) :
  snd (dialogue a db uid dialogueHistory aiResult) = db \/
  exists badgeType,
    snd (dialogue a db uid dialogueHistory aiResult)
    = snd (dialogueBadgeFlow db uid badgeType).
Proof.
  unfold dialogue. destruct a; cbn [negb]; [|left; reflexivity].
  destruct aiResult as [aiResponse|]; [|left; reflexivity].
  destruct (extractBadgeType aiResponse) as [badgeType|]; [|left; reflexivity].
  right. exists badgeType.
  destruct (dialogueBadgeFlow db uid badgeType) as [[b o] db1]. reflexivity.
Qed.

(** What a request can do to the store: nothing, one new award row for a
    pair that had none, or an update of the rows of [users] that keeps
    their ids. *)
Inductive store_step (db : Db) : Db -> Prop :=
| step_none : store_step db db
| step_award uid bid gameType :
    select_userBadges db uid bid = [] ->
    store_step db
      (insert_userBadge db
         {| ub_userId := uid; ub_badgeId := bid; ub_gameType := gameType |})
| step_users uid f :
    (forall u, user_id (f u) = user_id u) ->
    store_step db (update_users db uid f).

Lemma handle_step (db : Db) (rq : Request) : store_step db (handle db rq).
Proof.
  destruct rq as [a uid badgeType gameType | a uid history aiResult
                 | a uid points | a uid latest questions]; cbn [handle].
  - destruct (awardBadge_store a db uid badgeType gameType)
      as [->|[b [stored [Hnone ->]]]]; [constructor|].
    apply step_award. exact Hnone.
  - destruct (dialogue_store a db uid history aiResult) as [->|[badgeType ->]];
      [constructor|].
    destruct (dialogueBadgeFlow_store db uid badgeType)
      as [->|[b [stored [Hnone ->]]]]; [constructor|].
    apply step_award. exact Hnone.
  - unfold updateScore. destruct a; cbn [negb]; [|constructor].
    destruct (select_user db uid) as [currentUser|]; [|constructor].
    destruct (int4 _ && int4 _); [|constructor].
    match goal with
    | |- context [update_users db uid ?f] =>
        assert (Hs : store_step db (update_users db uid f))
          by (apply step_users; reflexivity);
        destruct (select_user (update_users db uid f) uid); exact Hs
    end.
  - unfold completeQuestionnaire. destruct a; cbn [negb]; [|constructor].
    destruct (calculateAOTScore latest questions) as [score|]; [|constructor].
    match goal with
    | |- context [update_users db uid ?f] =>
        assert (Hs : store_step db (update_users db uid f))
          by (apply step_users; reflexivity);
        destruct (select_user (update_users db uid f) uid); exact Hs
    end.
Qed.

Lemma serve_snoc (db : Db) (rqs : list Request) (rq : Request) :
  serve db (rqs ++ [rq]) = handle (serve db rqs) rq.
Proof. unfold serve. rewrite fold_left_app. reflexivity. Qed.

Lemma store_step_ledger (db db' : Db) :
  store_step db db' -> ledger_unique db -> ledger_unique db'.
Proof.
  intros [|uid bid gameType Hnone|uid f Hf] H; [exact H| |exact H].
  intros v c. unfold award_rows. rewrite select_userBadges_insert.
  rewrite length_app. cbn [ub_userId ub_badgeId].
  destruct (Z.eqb_spec uid v) as [->|Hv]; cbn [andb].
  - destruct (Z.eqb_spec bid c) as [->|Hc].
    + rewrite Hnone. simpl. lia.
    + specialize (H v c). unfold award_rows in H. simpl. lia.
  - specialize (H v c). unfold award_rows in H. simpl. lia.
Qed.

(** Served one at a time, the handlers never give a (user, badge) pair a
    second award row, whatever the requests are. *)
Theorem serve_keeps_awards_unique (db : Db) (rqs : list Request) :
  ledger_unique db -> ledger_unique (serve db rqs).
Proof.
  intros H. induction rqs as [|rq rqs IH] using rev_ind; [exact H|].
  rewrite serve_snoc. exact (store_step_ledger _ _ (handle_step _ rq) IH).
Qed.

Lemma serve_keeps_awards_unique_witness :
  let evidence_expert :=
    {| badge_id := 5; badge_name := codes "evidence_expert";
       badge_description := codes "You backed up your point with proof or an example";
       badge_imageUrl := codes "/badges/evidence-expert-badge.png" |} in
  let db :=
    {| users := [ {| user_id := 1; totalScore := 0;
                     hasCompletedQuestionnaire := true; aotScore := Some 40 |} ];
       badges := [evidence_expert];
       userBadges := [] |} in
  (award_rows
     (serve db
        [ AwardBadgeRequest true 1 (codes "evidence_expert") (codes "thought_zombies");
          DialogueRequest true 1 [] (Some (codes "[badge: evidence_expert] Why?"));
          AwardBadgeRequest true 1 (codes "evidence_expert") (codes "health_nut") ])
     1 5 <= 1)%nat.
Proof.
  intros evidence_expert db.
  apply (serve_keeps_awards_unique db).
  intros uid bid. unfold award_rows, select_userBadges. simpl. lia.
Defined.

Lemma find_unique_id (l : list User) (uid : Z) (cu u : User) :
  NoDup (map user_id l) ->
  find (fun w => user_id w =? uid) l = Some cu ->
  In u l -> user_id u = uid -> u = cu.
Proof.
  induction l as [|w l IH]; intros ND Hf Hin Hid; [contradiction|].
  cbn [map] in ND. inversion ND as [|? ? Hnotin ND']; subst.
  cbn [find] in Hf. destruct Hin as [->|Hin].
  - rewrite Z.eqb_refl in Hf. injection Hf as <-. reflexivity.
  - destruct (Z.eqb_spec (user_id w) (user_id u)) as [E|E].
    + exfalso. apply Hnotin. rewrite E. apply in_map. exact Hin.
    + apply IH; auto.
Qed.

Lemma update_users_ids (db : Db) (uid : Z) (f : User -> User) :
  (forall u, user_id (f u) = user_id u) ->
  map user_id (users (update_users db uid f)) = map user_id (users db).
Proof.
  intros Hf. unfold update_users. cbn [users]. rewrite map_map.
  apply map_ext. intros u. destruct (user_id u =? uid); [apply Hf | reflexivity].
Qed.

Lemma update_users_totals (db : Db) (uid : Z) (f : User -> User) :
  (forall u, In u (users db) -> user_id u = uid -> 0 <= totalScore (f u)) ->
  Forall (fun u => 0 <= totalScore u) (users db) ->
  Forall (fun u => 0 <= totalScore u) (users (update_users db uid f)).
Proof.
  intros Hf H. unfold update_users. cbn [users].
  apply Forall_forall. intros u' Hin. apply in_map_iff in Hin.
  destruct Hin as [u [<- Hin]].
  rewrite Forall_forall in H.
  destruct (Z.eqb_spec (user_id u) uid) as [E|E]; [apply Hf; assumption|].
  apply H. exact Hin.
Qed.

Lemma handle_totals (db : Db) (rq : Request) :
  totals_sound db -> totals_sound (handle db rq).
Proof.
  intros [ND Hpos].
  destruct rq as [a uid badgeType gameType | a uid history aiResult
                 | a uid points | a uid latest questions]; cbn [handle].
  - destruct (awardBadge_store a db uid badgeType gameType)
      as [->|[b [stored [_ ->]]]]; split; assumption.
  - destruct (dialogue_store a db uid history aiResult) as [->|[badgeType ->]];
      [split; assumption|].
    destruct (dialogueBadgeFlow_store db uid badgeType)
      as [->|[b [stored [_ ->]]]]; split; assumption.
  - unfold updateScore. destruct a; cbn [negb]; [|split; assumption].
    destruct (select_user db uid) as [currentUser|] eqn:Ecu; [|split; assumption].
    destruct (int4 _ && int4 _); [|split; assumption].
    match goal with
    | |- context [update_users db uid ?f] =>
        assert (Hs : totals_sound (update_users db uid f));
        [|destruct (select_user (update_users db uid f) uid); exact Hs]
    end.
    split.
    + rewrite update_users_ids by reflexivity. exact ND.
    + apply update_users_totals; [|exact Hpos].
      intros u Hin Hid. cbn [totalScore].
      rewrite (find_unique_id (users db) uid currentUser u ND Ecu Hin Hid).
      unfold safePointsToAdd. lia.
  - unfold completeQuestionnaire. destruct a; cbn [negb]; [|split; assumption].
    destruct (calculateAOTScore latest questions) as [score|]; [|split; assumption].
    match goal with
    | |- context [update_users db uid ?f] =>
        assert (Hs : totals_sound (update_users db uid f));
        [|destruct (select_user (update_users db uid f) uid); exact Hs]
    end.
    split.
    + rewrite update_users_ids by reflexivity. exact ND.
    + apply update_users_totals; [|exact Hpos].
      intros u Hin _. cbn [totalScore].
      rewrite Forall_forall in Hpos. apply Hpos. exact Hin.
Qed.

(** Served one at a time, the handlers never leave a negative total in
    the store, whatever the requests and their deltas are. *)
Theorem serve_keeps_totals_nonnegative (db : Db) (rqs : list Request) :
  totals_sound db -> totals_sound (serve db rqs).
Proof.
  intros H. induction rqs as [|rq rqs IH] using rev_ind; [exact H|].
  rewrite serve_snoc. apply handle_totals. exact IH.
Qed.

Lemma serve_keeps_totals_nonnegative_witness :
  totals_sound
    (serve
       {| users := [ {| user_id := 1; totalScore := 12;
                        hasCompletedQuestionnaire := false; aotScore := None |};
                     {| user_id := 2; totalScore := 0;
                        hasCompletedQuestionnaire := false; aotScore := None |} ];
          badges := [];
          userBadges := [] |}
       [ UpdateScoreRequest true 1 (-50); UpdateScoreRequest true 2 7;
         UpdateScoreRequest false 2 (-3); UpdateScoreRequest true 2 (-8) ]).
Proof.
  apply serve_keeps_totals_nonnegative. split.
  - simpl. repeat constructor; simpl; intuition discriminate.
  - repeat constructor; simpl; lia.
Defined.

Lemma store_step_frame (db db' : Db) :
  store_step db db' ->
  badges db' = badges db /\
  map user_id (users db') = map user_id (users db) /\
  exists added, userBadges db' = userBadges db ++ added.
Proof.
  intros [|uid bid gameType _|uid f Hf].
  - repeat split. exists []. rewrite app_nil_r. reflexivity.
  - repeat split. eexists. reflexivity.
  - split; [reflexivity|]. split; [apply update_users_ids; exact Hf|].
    exists []. rewrite app_nil_r. reflexivity.
Qed.

(** The handlers never touch the badge catalogue, never create or remove
    a user, and never delete or change an award row: the award rows of
    the store are a prefix of those it holds after any requests. *)
Theorem serve_frame (db : Db) (rqs : list Request) :
  badges (serve db rqs) = badges db /\
  map user_id (users (serve db rqs)) = map user_id (users db) /\
  exists added, userBadges (serve db rqs) = userBadges db ++ added.
Proof.
  induction rqs as [|rq rqs IH] using rev_ind.
  - repeat split. exists []. rewrite app_nil_r. reflexivity.
  - rewrite serve_snoc.
    destruct (store_step_frame _ _ (handle_step (serve db rqs) rq))
      as [Hb [Hu [added Ha]]].
    destruct IH as [Hb0 [Hu0 [added0 Ha0]]].
    split; [congruence|]. split; [congruence|].
    exists (added0 ++ added). rewrite Ha, Ha0, app_assoc. reflexivity.
Qed.

(** ** The badge list of a user *)

Lemma find_some_in {A} (p : A -> bool) (l : list A) (x : A) :
  find p l = Some x -> In x l /\ p x = true.
Proof. apply find_some. Qed.

Lemma in_userBadgeRows (db : Db) (uid : Z) (b : Badge) :
  In b (userBadgeRows db uid) <->
  In b (badges db) /\
  exists r, In r (userBadges db) /\ ub_userId r = uid /\ ub_badgeId r = badge_id b.
Proof.
  unfold userBadgeRows. rewrite in_flat_map. split.
  - intros [r [Hr Hb]]. apply filter_In in Hr. destruct Hr as [Hr Hu].
    apply filter_In in Hb. destruct Hb as [Hb He].
    apply Z.eqb_eq in Hu, He. split; [exact Hb|]. exists r. auto.
  - intros [Hb [r [Hr [Hu He]]]]. exists r. split.
    + apply filter_In. split; [exact Hr | apply Z.eqb_eq; exact Hu].
    + apply filter_In. split; [exact Hb | apply Z.eqb_eq; exact He].
Qed.

(** The badge an award call replies with, newly awarded or already
    owned, is in the badge list of the user from then on; the list of
    any other user is as it was. *)
Theorem awarded_badge_is_listed
    (db db' : Db) (uid : Z) (badgeType gameType : str) (b : Badge) :
  awardBadge true db uid badgeType gameType = (BadgeAwardedSuccessfully b, db') \/
  awardBadge true db uid badgeType gameType = (BadgeAlreadyAwarded b, db') ->
  In b (userBadgeRows db' uid) /\
  forall v, v <> uid -> userBadgeRows db' v = userBadgeRows db v.
Proof.
  unfold awardBadge. cbn [negb].
  destruct badgeType as [|ch w]; [intros [H|H]; discriminate|].
  destruct (text_param (ch :: w)) as [name|]; [|intros [H|H]; discriminate].
  destruct (select_badge db name) as [b0|] eqn:Eb;
    [|intros [H|H]; discriminate].
  apply find_some_in in Eb. destruct Eb as [Hin _].
  destruct (select_userBadges db uid (badge_id b0)) as [|r l] eqn:Er;
    [destruct (insert_into_userBadges db uid (badge_id b0) gameType)
       as [db1|] eqn:Ei;
     [apply insert_into_userBadges_row in Ei;
      destruct Ei as [u [stored [_ [_ ->]]]]|]|];
    intros [H|H]; try discriminate; injection H as <- <-.
  - split.
    + apply in_userBadgeRows. split; [exact Hin|].
      eexists. split; [apply in_or_app; right; left; reflexivity|].
      split; reflexivity.
    + intros v Hv. unfold userBadgeRows, insert_userBadge.
      cbn [userBadges badges ub_userId]. rewrite filter_app. cbn [filter ub_userId].
      destruct (Z.eqb_spec uid v) as [E|_]; [congruence|].
      rewrite app_nil_r. reflexivity.
  - split; [|reflexivity].
    apply in_userBadgeRows. split; [exact Hin|].
    assert (Hr : In r (select_userBadges db uid (badge_id b0)))
      by (rewrite Er; left; reflexivity).
    apply filter_In in Hr. destruct Hr as [Hr Hc].
    apply andb_true_iff in Hc. destruct Hc as [Hu Hc].
    apply Z.eqb_eq in Hu, Hc. exists r. auto.
Qed.

Lemma awarded_badge_is_listed_witness :
  let link_cutter :=
    {| badge_id := 3; badge_name := codes "link_cutter";
       badge_description := codes "You showed that the conclusion does not follow";
       badge_imageUrl := codes "/badges/link-cutter-badge.png" |} in
  let db :=
    {| users := [ {| user_id := 1; totalScore := 0;
                     hasCompletedQuestionnaire := true; aotScore := Some 50 |};
                  {| user_id := 2; totalScore := 25;
                     hasCompletedQuestionnaire := true; aotScore := Some 44 |} ];
       badges := [link_cutter];
       userBadges := [ {| ub_userId := 2; ub_badgeId := 3;
                          ub_gameType := codes "thought_zombies" |} ] |} in
  let db' := snd (awardBadge true db 1 (codes "link_cutter") (codes "thought_zombies")) in
  In link_cutter (userBadgeRows db' 1) /\
  userBadgeRows db' 2 = userBadgeRows db 2.
Proof.
  intros link_cutter db db'.
  destruct (awarded_badge_is_listed db db' 1 (codes "link_cutter")
              (codes "thought_zombies") link_cutter) as [H1 H2].
  - left. reflexivity.
  - split; [exact H1 | apply H2; discriminate].
Defined.

Lemma NoDup_of_single_image {A} (f : A -> Z) (l : list A) :
  (forall x, (length (filter (fun r => (f r =? x)%Z) l) <= 1)%nat) ->
  NoDup (map f l).
Proof.
  induction l as [|r l IH]; intros H; cbn [map]; constructor.
  - intros Hin. apply in_map_iff in Hin. destruct Hin as [r' [Hf Hin]].
    specialize (H (f r)). cbn [filter] in H. rewrite Z.eqb_refl in H.
    assert (Hr' : In r' (filter (fun r0 => f r0 =? f r) l))
      by (apply filter_In; split; [exact Hin | apply Z.eqb_eq; exact Hf]).
    destruct (filter (fun r0 => f r0 =? f r) l); [contradiction|].
    simpl in H. lia.
  - apply IH. intros x. specialize (H x). cbn [filter] in H.
    destruct (f r =? x); simpl in H; lia.
Qed.

Lemma kept_badges_distinct (keep : Badge -> bool) (catalogue : list Badge) :
  NoDup (map badge_id catalogue) ->
  NoDup (map badge_id (filter keep catalogue)).
Proof.
  induction catalogue as [|b catalogue IH]; intros H; [constructor|].
  cbn [map] in H. inversion H as [|? ? Hnotin ND]; subst.
  cbn [filter]. destruct (keep b); [|apply IH; exact ND].
  cbn [map]. constructor; [|apply IH; exact ND].
  intros Hin. apply Hnotin. apply in_map_iff in Hin.
  destruct Hin as [x [E Hx]]. apply filter_In in Hx.
  rewrite <- E. apply in_map. tauto.
Qed.

Lemma joined_rows_distinct (catalogue : list Badge) (rows : list UserBadge) :
  NoDup (map badge_id catalogue) ->
  NoDup (map ub_badgeId rows) ->
  NoDup (map badge_id
           (flat_map
              (fun r => filter (fun b => ub_badgeId r =? badge_id b) catalogue)
              rows)).
Proof.
  intros Hc. induction rows as [|r rows IH]; intros Hr; [constructor|].
  cbn [map] in Hr. inversion Hr as [|? ? Hnotin ND]; subst.
  cbn [flat_map]. rewrite map_app.
  apply NoDup_app; [apply kept_badges_distinct; exact Hc | apply IH; exact ND |].
  intros i Hi Hi'. apply in_map_iff in Hi. destruct Hi as [b [<- Hb]].
  apply filter_In in Hb. destruct Hb as [_ Hb]. apply Z.eqb_eq in Hb.
  apply in_map_iff in Hi'. destruct Hi' as [b' [E Hb']].
  apply in_flat_map in Hb'. destruct Hb' as [r' [Hr' Hb']].
  apply filter_In in Hb'. destruct Hb' as [_ Hb']. apply Z.eqb_eq in Hb'.
  apply Hnotin. rewrite Hb, <- E, <- Hb'. apply in_map. exact Hr'.
Qed.

Lemma filter_twice {A} (p q : A -> bool) (l : list A) :
  filter p (filter q l) = filter (fun x => q x && p x) l.
Proof.
  induction l as [|a l IH]; [reflexivity|]. cbn [filter].
  destruct (q a); cbn [andb filter]; [|exact IH].
  destruct (p a); [f_equal|]; exact IH.
Qed.

(** With distinct badge ids in the catalogue and no pair holding two
    award rows, the badge list of a user shows no badge twice. *)
Theorem userBadgeRows_distinct (db : Db) (uid : Z) :
  NoDup (map badge_id (badges db)) ->
  ledger_unique db ->
  NoDup (map badge_id (userBadgeRows db uid)).
Proof.
  intros Hc Hl. unfold userBadgeRows. apply joined_rows_distinct; [exact Hc|].
  apply NoDup_of_single_image. intros bid.
  specialize (Hl uid bid). unfold award_rows, select_userBadges in Hl.
  rewrite filter_twice. exact Hl.
Qed.

Lemma userBadgeRows_distinct_witness :
  NoDup
    (map badge_id
       (userBadgeRows
          {| users := [];
             badges := [ {| badge_id := 1; badge_name := codes "reason_giver";
                            badge_description := []; badge_imageUrl := [] |};
                         {| badge_id := 2; badge_name := codes "fact_checker";
                            badge_description := []; badge_imageUrl := [] |} ];
             userBadges := [ {| ub_userId := 7; ub_badgeId := 2;
                                ub_gameType := codes "thought_zombies" |};
                             {| ub_userId := 8; ub_badgeId := 2;
                                ub_gameType := codes "thought_zombies" |};
                             {| ub_userId := 7; ub_badgeId := 1;
                                ub_gameType := codes "thought_zombies" |} ] |}
          7)).
Proof.
  apply userBadgeRows_distinct.
  - simpl. repeat constructor; simpl; intuition discriminate.
  - intros uid bid. unfold award_rows, select_userBadges. cbn [userBadges filter ub_userId ub_badgeId].
    destruct (Z.eqb_spec 7 uid), (Z.eqb_spec 8 uid), (Z.eqb_spec 2 bid),
      (Z.eqb_spec 1 bid); simpl; lia.
Defined.

(** ** The score reader of the client *)

Lemma score_grammar (x y : str) (c : caps) :
  Matches false (source GeminiAi.scoreRegex) x [None] y c
  <-> exists tok ds, x = tok ++ y /\ score_token ds tok /\ c = [Some ds].
Proof.
  unfold GeminiAi.scoreRegex, score_token, plus, digit, lit. cbn [source]. split.
  - intros H.
    apply Matches_Seq in H. destruct H as [y1 [c1 [H1 H]]].
    apply Matches_Lit in H1. destruct H1 as [head [-> [Hhead ->]]].
    apply reads_exact in Hhead. subst head.
    apply Matches_Seq in H. destruct H as [y2 [c2 [H2 H3]]].
    apply Matches_Group in H2. destruct H2 as [w [c3 [-> [H2 ->]]]].
    apply Matches_plus_class in H2. destruct H2 as [ds [E [Hne [Hds ->]]]].
    apply app_inv_tail in E. subst w.
    apply Matches_Lit in H3. destruct H3 as [h3 [-> [Hb ->]]].
    apply reads_exact in Hb. subst h3.
    exists (codes "[Score: +" ++ ds ++ codes "]"), ds. split; [|split].
    + rewrite <- !app_assoc. reflexivity.
    + apply all_digit_class in Hds. auto.
    + reflexivity.
  - intros [tok [ds [-> [[Hne [Hds ->]] ->]]]].
    rewrite <- !app_assoc.
    apply Matches_Seq. exists (ds ++ codes "]" ++ y), [None]. split.
    { apply Matches_Lit. exists (codes "[Score: +").
      split; [reflexivity|]. split; [apply reads_exact; reflexivity | reflexivity]. }
    apply Matches_Seq. exists (codes "]" ++ y), [Some ds]. split.
    { apply Matches_Group. exists ds, [None]. split; [reflexivity|].
      split; [|reflexivity].
      apply Matches_plus_class. exists ds.
      split; [reflexivity|]. split; [exact Hne|].
      split; [apply all_digit_class; exact Hds | reflexivity]. }
    apply Matches_Lit. exists (codes "]").
    split; [reflexivity|]. split; [apply reads_exact; reflexivity | reflexivity].
Qed.

Lemma score_unambiguous (ds tok ds' tok' y y' : str) :
  score_token ds tok -> score_token ds' tok' ->
  tok ++ y = tok' ++ y' -> tok = tok' /\ ds = ds'.
Proof.
  intros [_ [Hds ->]] [_ [Hds' ->]] E.
  rewrite <- !app_assoc in E. apply app_inv_head in E.
  destruct (run_delimited is_digit ds ds' (codes "]" ++ y) (codes "]" ++ y')
              Hds Hds' eq_refl eq_refl E) as [-> _].
  auto.
Qed.

Lemma scoreRegex_tokens : token_pattern GeminiAi.scoreRegex score_token.
Proof.
  split; [reflexivity|]. split.
  - intros x y c. apply score_grammar.
  - intros ds tok ds' tok' y y'. apply score_unambiguous.
Qed.

Lemma score_payload (ds tok : str) :
  score_token ds tok -> ds <> [] /\ all is_digit ds.
Proof. intros [Hne [Hds _]]. auto. Qed.

(** The client reads the amount of the leftmost [[Score: +N]] token
    spelled in exactly this letter case, and 0 from a text without one.
    The amount is read as a number of the language, the double nearest
    to what its digits write: the amount itself whenever that is at most
    2^53, and never [NaN] nor a negative number.  A token the server
    would read (any letter case) is a token for the client only in this
    spelling. *)
Theorem client_extractScore_first_token (text : str) :
  (exists n,
     token_amount score_token text n /\ 0 <= n /\
     GeminiAi.extractScore text = to_double n /\
     (n <= 2 ^ 53 -> GeminiAi.extractScore text = Num n) /\
     not_negative (GeminiAi.extractScore text)) /\
  (has_token score_token text -> has_token legacy_token text).
Proof.
  split.
  - destruct (token_amount_exists GeminiAi.scoreRegex score_token
                scoreRegex_tokens text) as [n [Hn Hpos]].
    assert (E : GeminiAi.extractScore text = to_double n)
      by exact (categoryAmount_token GeminiAi.scoreRegex score_token
                  scoreRegex_tokens score_payload text n Hn).
    exists n. split; [exact Hn|]. split; [exact Hpos|]. split; [exact E|].
    split.
    + intros Hle. rewrite E. apply to_double_exact.
      assert (0 < 2 ^ 53) by reflexivity. lia.
    + rewrite E. apply to_double_not_negative. exact Hpos.
  - intros [pre [ds [tok [post [Ht [Hne [Hds ->]]]]]]].
    exists pre, ds, (codes "[Score: +" ++ ds ++ codes "]"), post.
    split; [exact Ht|].
    exists (codes "[Score: +"). repeat split; try assumption.
    repeat constructor.
Qed.

(** ** The display text of the client *)

(** When brackets open badge tokens only, the client's cleaning gives the
    text without its tokens, trimmed; no bracket and no badge token is
    left in it, and the badge reader of the client finds nothing there. *)
Theorem removeBadgeAwardSyntax_token_free (text out : str) :
  stripped is_badge_token is_open_bracket text out ->
  removeBadgeAwardSyntax text = trim out /\
  all (fun ch => negb (is_open_bracket ch)) (trim out) /\
  ~ has_token badge_token (trim out) /\
  extractBadgeAward (removeBadgeAwardSyntax text) = None.
Proof.
  intros H.
  assert (E : replace_all_empty badgeSyntaxRegex text = out).
  { apply (replace_all_stripped badgeSyntaxRegex is_badge_token is_open_bracket
             eq_refl badgeSyntax_match_is_token badgeSyntax_token_matches
             badge_one_token badge_token_opens). exact H. }
  assert (Hbracket : all (fun ch => negb (is_open_bracket ch)) (trim out)).
  { apply Forall_trim. exact (stripped_out_plain _ _ _ _ H). }
  assert (Hno : ~ has_token badge_token (trim out)).
  { intros [pre [name [tok [post [Ht HT]]]]].
    destruct (badge_token_opens tok (ex_intro _ name HT)) as [ch [w [-> Ho]]].
    unfold all in Hbracket. rewrite Ht in Hbracket.
    apply Forall_app in Hbracket. destruct Hbracket as [_ Hb].
    inversion Hb as [|? ? Hch _]. rewrite Ho in Hch. discriminate. }
  assert (Er : removeBadgeAwardSyntax text = trim out)
    by (unfold removeBadgeAwardSyntax; rewrite E; reflexivity).
  split; [exact Er|]. split; [exact Hbracket|]. split; [exact Hno|].
  rewrite Er. unfold extractBadgeAward.
  apply (str_match_absent badgeRegex badge_token badgeRegex_tokens) in Hno.
  rewrite Hno. reflexivity.
Qed.

Lemma removeBadgeAwardSyntax_token_free_witness :
  removeBadgeAwardSyntax (codes " Good thinking! [Badge: fact_checker] But is it true? ")
  = codes "Good thinking!  But is it true?" /\
  extractBadgeAward
    (removeBadgeAwardSyntax (codes " Good thinking! [Badge: fact_checker] But is it true? "))
  = None.
Proof.
  assert (H : stripped is_badge_token is_open_bracket
                (codes " Good thinking! [Badge: fact_checker] But is it true? ")
                (codes " Good thinking!  But is it true? ")).
  { apply (stripped_token is_badge_token is_open_bracket
             (codes " Good thinking! ") (codes "[Badge: fact_checker]")
             (codes " But is it true? ") (codes " But is it true? ")).
    - repeat constructor.
    - exists (codes "fact_checker"), (codes "[Badge:"), (codes " ").
      repeat split; try discriminate; repeat constructor.
    - apply stripped_plain. repeat constructor. }
  destruct (removeBadgeAwardSyntax_token_free _ _ H) as [E [_ [_ N]]].
  exact (conj E N).
Defined.

(** ** Trimming *)

Lemma trimStart_stops (s : str) : stops is_space (trimStart s).
Proof.
  induction s as [|ch s IH]; simpl; [exact I|].
  destruct (is_space ch) eqn:E; [exact IH | simpl; exact E].
Qed.

Lemma trimStart_split (s : str) :
  exists ws, s = ws ++ trimStart s /\ all is_space ws.
Proof.
  induction s as [|ch s [ws [E Hws]]]; simpl.
  - exists []. split; [reflexivity | constructor].
  - destruct (is_space ch) eqn:Ech.
    + exists (ch :: ws). split; [simpl; f_equal; exact E|].
      constructor; assumption.
    + exists []. split; [reflexivity | constructor].
Qed.

Lemma trimEnd_split (s : str) :
  exists ws, s = trimEnd s ++ ws /\ all is_space ws.
Proof.
  unfold trimEnd. destruct (trimStart_split (rev s)) as [ws [E Hws]].
  exists (rev ws). split.
  - rewrite <- rev_app_distr, <- E, rev_involutive. reflexivity.
  - apply Forall_rev. exact Hws.
Qed.

Lemma trimEnd_stops (s : str) : stops is_space (rev (trimEnd s)).
Proof. unfold trimEnd. rewrite rev_involutive. apply trimStart_stops. Qed.

Lemma trimEnd_head (s : str) : stops is_space s -> stops is_space (trimEnd s).
Proof.
  intros H. destruct (trimEnd_split s) as [ws [E _]].
  destruct (trimEnd s) as [|ch t]; [exact I|].
  rewrite E in H. exact H.
Qed.

Lemma trim_head (s : str) : stops is_space (trim s).
Proof. unfold trim. apply trimEnd_head, trimStart_stops. Qed.

Lemma trim_last (s : str) : stops is_space (rev (trim s)).
Proof. unfold trim. apply trimEnd_stops. Qed.

Lemma trim_fixed (s : str) :
  stops is_space s -> stops is_space (rev s) -> trim s = s.
Proof.
  intros H1 H2. unfold trim, trimEnd.
  rewrite (trimStart_no_space s H1), (trimStart_no_space (rev s) H2).
  apply rev_involutive.
Qed.

Lemma trim_idempotent (s : str) : trim (trim s) = trim s.
Proof. apply trim_fixed; [apply trim_head | apply trim_last]. Qed.

(** ** Text sent to the database *)

Lemma toWellFormed_cons (h : cu) (t : str) :
  toWellFormed (h :: t)
  = if is_high_surrogate h then
      match t with
      | l :: t' =>
          if is_low_surrogate l then h :: l :: toWellFormed t'
          else 65533%N :: toWellFormed t
      | [] => [65533%N]
      end
    else if is_low_surrogate h then 65533%N :: toWellFormed t
    else h :: toWellFormed t.
Proof.
  unfold toWellFormed. cbn [characters].
  destruct (is_high_surrogate h).
  - destruct t as [|l t']; [reflexivity|].
    destruct (is_low_surrogate l); reflexivity.
  - destruct (is_low_surrogate h); reflexivity.
Qed.

(** A property of strings that holds of the empty string and passes from
    the tails of a string to the string holds of every string. *)
Lemma str_ind2 (P : str -> Prop) :
  P [] ->
  (forall h t, P t -> (forall l t', t = l :: t' -> P t') -> P (h :: t)) ->
  forall s, P s.
Proof.
  intros Hnil Hcons s.
  assert (H : P s /\ (forall l t', s = l :: t' -> P t')).
  { induction s as [|h t [IH1 IH2]].
    - split; [exact Hnil | discriminate].
    - split; [apply Hcons; assumption|].
      intros l t' E. injection E as <- <-. exact IH1. }
  exact (proj1 H).
Qed.

Lemma toWellFormed_units (s : str) : Forall2 sent_as s (toWellFormed s).
Proof.
  induction s as [|h t IH1 IH2] using str_ind2; [constructor|].
  rewrite toWellFormed_cons.
  destruct (is_high_surrogate h) eqn:Eh.
  - destruct t as [|l t'].
    + constructor; [right; rewrite Eh; auto | constructor].
    + destruct (is_low_surrogate l) eqn:El.
      * constructor; [left; reflexivity|].
        constructor; [left; reflexivity|]. exact (IH2 l t' eq_refl).
      * constructor; [right; rewrite Eh; auto | exact IH1].
  - destruct (is_low_surrogate h) eqn:El.
    + constructor; [right; rewrite Eh, El; auto | exact IH1].
    + constructor; [left; reflexivity | exact IH1].
Qed.

Lemma toWellFormed_idempotent (s : str) :
  toWellFormed (toWellFormed s) = toWellFormed s.
Proof.
  induction s as [|h t IH1 IH2] using str_ind2; [reflexivity|].
  rewrite toWellFormed_cons.
  destruct (is_high_surrogate h) eqn:Eh.
  - destruct t as [|l t'].
    + reflexivity.
    + destruct (is_low_surrogate l) eqn:El.
      * rewrite toWellFormed_cons, Eh, El. rewrite (IH2 l t' eq_refl). reflexivity.
      * rewrite toWellFormed_cons.
        change (is_high_surrogate 65533%N) with false.
        change (is_low_surrogate 65533%N) with false. cbv iota.
        rewrite IH1. reflexivity.
  - destruct (is_low_surrogate h) eqn:El.
    + rewrite toWellFormed_cons.
      change (is_high_surrogate 65533%N) with false.
      change (is_low_surrogate 65533%N) with false. cbv iota.
      rewrite IH1. reflexivity.
    + rewrite toWellFormed_cons, Eh, El, IH1. reflexivity.
Qed.

Lemma sent_as_space (a b : cu) : sent_as a b -> is_space b = is_space a.
Proof.
  intros [->|[-> H]]; [reflexivity|].
  assert (Hr : (55296 <= a <= 57343)%N).
  { unfold is_high_surrogate, is_low_surrogate in H.
    apply orb_true_iff in H. rewrite !andb_true_iff, !N.leb_le in H. lia. }
  clear H. change (is_space 65533%N) with false. symmetry.
  unfold is_space. cu_cases.
Qed.

Lemma sent_as_nul (a b : cu) : sent_as a b -> (0 =? b)%N = (0 =? a)%N.
Proof.
  intros [->|[-> H]]; [reflexivity|].
  unfold is_high_surrogate, is_low_surrogate in H.
  apply orb_true_iff in H. rewrite !andb_true_iff, !N.leb_le in H.
  change (0 =? 65533)%N with false. symmetry. apply N.eqb_neq. lia.
Qed.

Lemma Forall2_reversed {A B} (R : A -> B -> Prop) (l : list A) (l' : list B) :
  Forall2 R l l' -> Forall2 R (rev l) (rev l').
Proof.
  induction 1 as [|a b l l' Hab _ IH]; [constructor|].
  cbn [rev]. apply Forall2_app; [exact IH | repeat constructor; exact Hab].
Qed.

Lemma stops_sent (s s' : str) :
  Forall2 sent_as s s' -> stops is_space s -> stops is_space s'.
Proof.
  intros H. destruct H as [|a b l l' Hab _]; [auto|].
  cbn [stops]. rewrite (sent_as_space a b Hab). auto.
Qed.

Lemma has_nul_sent (s s' : str) :
  Forall2 sent_as s s' -> has_nul s' = has_nul s.
Proof.
  unfold has_nul. induction 1 as [|a b l l' Hab _ IH]; [reflexivity|].
  cbn [existsb]. rewrite (sent_as_nul a b Hab), IH. reflexivity.
Qed.

(** A pair of surrogates is one character and is kept; a surrogate
    without its partner is written as U+FFFD.  A [varchar(50)] column
    takes 50 characters, drops spaces past the 50th, and refuses a 51st
    character that is not a space and a text with U+0000. *)
Lemma text_examples :
  toWellFormed [104; 55357; 56832; 105]%N = [104; 55357; 56832; 105]%N /\
  toWellFormed [104; 55357; 105; 56832]%N = [104; 65533; 105; 65533]%N /\
  text_param [104; 0; 105]%N = None /\
  varchar 50 (repeat 97%N 50) = Some (repeat 97%N 50) /\
  varchar 50 (repeat 97%N 51) = None /\
  varchar 50 (repeat 97%N 50 ++ [32; 32]%N) = Some (repeat 97%N 50) /\
  varchar 50 (concat (repeat [55357; 56832]%N 50))
  = Some (concat (repeat [55357; 56832]%N 50)) /\
  varchar 50 [104; 0; 105]%N = None.
Proof. repeat split; vm_compute; reflexivity. Qed.

(** A text the database has accepted is accepted again, as it is. *)
Lemma text_param_written (s : str) :
  text_param s = Some s -> has_nul s = false /\ toWellFormed s = s.
Proof.
  unfold text_param. destruct (has_nul s); [discriminate|].
  intros H. injection H as H. split; [reflexivity | exact H].
Qed.

Lemma text_param_fixed (s stored : str) :
  text_param s = Some stored -> text_param stored = Some stored.
Proof.
  unfold text_param. destruct (has_nul s) eqn:E; [discriminate|].
  intros H. injection H as <-.
  rewrite (has_nul_sent s _ (toWellFormed_units s)), E.
  rewrite toWellFormed_idempotent. reflexivity.
Qed.

Lemma text_param_shape (s stored : str) :
  text_param s = Some stored ->
  (s <> [] -> stored <> []) /\
  (stops is_space s -> stops is_space stored) /\
  (stops is_space (rev s) -> stops is_space (rev stored)).
Proof.
  unfold text_param. destruct (has_nul s); [discriminate|].
  intros H. injection H as <-.
  pose proof (toWellFormed_units s) as Hu.
  split; [|split].
  - intros Hne E. rewrite E in Hu. inversion Hu. congruence.
  - apply stops_sent. exact Hu.
  - apply stops_sent. apply Forall2_reversed. exact Hu.
Qed.

(** ** Display name *)

Lemma find_map_update (accounts : list Account) (uid : Z)
    (f : Account -> Account) (a : Account) :
  (forall b, account_id (f b) = account_id b) ->
  find (fun b => account_id b =? uid) accounts = Some a ->
  find (fun b => account_id b =? uid)
       (map (fun b => if account_id b =? uid then f b else b) accounts)
  = Some (f a).
Proof.
  intros Hf. induction accounts as [|b l IH]; [discriminate|].
  cbn [find map]. destruct (account_id b =? uid) eqn:E.
  - intros H. injection H as <-. rewrite Hf, E. reflexivity.
  - rewrite E. exact IH.
Qed.

(** What the handler stores, as the database receives it.  A name the
    dialog of the client submits is stored for an existing account as
    its trimmed form, a surrogate without its partner written as U+FFFD:
    what is stored is not empty, has no white space at either end, and is
    a fixed point; the other accounts are as they were.  A name that
    holds U+0000 is refused by the database. *)
Lemma updateDisplayName_received
    (accounts : list Account) (uid : Z) (name : str) (a : Account) :
  find (fun b => account_id b =? uid) accounts = Some a ->
  dialogSubmits name = true ->
  (has_nul (trim name) = false ->
   exists accounts',
     updateDisplayName true accounts uid (Some name)
     = (DisplayNameUpdated (Some (toWellFormed (trim name))), accounts') /\
     find (fun b => account_id b =? uid) accounts'
     = Some (set_displayName (toWellFormed (trim name)) a) /\
     Forall2 sent_as (trim name) (toWellFormed (trim name)) /\
     toWellFormed (trim name) <> [] /\
     stops is_space (toWellFormed (trim name)) /\
     stops is_space (rev (toWellFormed (trim name))) /\
     trim (toWellFormed (trim name)) = toWellFormed (trim name) /\
     updateDisplayName true accounts' uid (Some (toWellFormed (trim name)))
     = (DisplayNameUpdated (Some (toWellFormed (trim name))), accounts') /\
     (forall b, In b accounts' -> account_id b <> uid -> In b accounts)) /\
  (has_nul (trim name) = true ->
   updateDisplayName true accounts uid (Some name)
   = (DisplayNameFailed, accounts)).
Proof.
  intros Hfind Hsub. unfold dialogSubmits in Hsub.
  destruct name as [|ch w]; [discriminate|].
  destruct (trim (ch :: w)) as [|t ts] eqn:Et; [discriminate|].
  split.
  - intros Hnul.
    assert (Hparam : text_param (t :: ts) = Some (toWellFormed (t :: ts)))
      by (unfold text_param; rewrite Hnul; reflexivity).
    set (stored := toWellFormed (t :: ts)) in *.
    destruct (text_param_shape _ _ Hparam) as [Hne [Hhead Hlast]].
    assert (Hne' : stored <> []) by (apply Hne; discriminate).
    assert (Hh : stops is_space stored)
      by (apply Hhead; rewrite <- Et; apply trim_head).
    assert (Hl : stops is_space (rev stored))
      by (apply Hlast; rewrite <- Et; apply trim_last).
    assert (Htrim : trim stored = stored) by (apply trim_fixed; assumption).
    set (accounts' := map (fun b => if account_id b =? uid
                                    then set_displayName stored b else b)
                          accounts).
    assert (Hfind' : find (fun b => account_id b =? uid) accounts'
                     = Some (set_displayName stored a))
      by exact (find_map_update accounts uid (set_displayName stored) a
                  (fun b => eq_refl) Hfind).
    exists accounts'.
    split.
    { unfold updateDisplayName. cbn [negb]. rewrite Et, Hparam.
      fold accounts'. rewrite Hfind'. reflexivity. }
    split; [exact Hfind'|].
    split; [apply toWellFormed_units|].
    split; [exact Hne'|]. split; [exact Hh|]. split; [exact Hl|].
    split; [exact Htrim|].
    split.
    { assert (Hsame : map (fun b => if account_id b =? uid
                                    then set_displayName stored b else b)
                          accounts' = accounts').
      { unfold accounts'. rewrite map_map. apply map_ext. intros b.
        destruct (account_id b =? uid) eqn:E; cbv beta iota;
          [|rewrite E; reflexivity].
        change (account_id (set_displayName stored b)) with (account_id b).
        rewrite E. reflexivity. }
      unfold updateDisplayName. cbn [negb]. rewrite Htrim.
      rewrite (text_param_fixed _ _ Hparam), Hsame, Hfind'.
      clearbody stored. destruct stored; [contradiction|].
      rewrite Htrim. reflexivity. }
    intros b Hin Hb. apply in_map_iff in Hin. destruct Hin as [b0 [E Hin]].
    destruct (Z.eqb_spec (account_id b0) uid) as [E0|E0].
    + subst b. exfalso. apply Hb. exact E0.
    + subst b. exact Hin.
  - intros Hnul. unfold updateDisplayName. cbn [negb]. rewrite Et.
    unfold text_param. rewrite Hnul. reflexivity.
Qed.

(** A name the dialog of the client submits, when it is text the
    database receives as written (no U+0000, no surrogate without its
    partner), is stored for an existing account in its trimmed form:
    what is stored is not empty, has no white space at either end, and
    sending the stored name again stores the same name; the reply
    carries it, and the other accounts are as they were.  A name that
    holds U+0000 is refused by the database: the reply is 500 and
    nothing is stored. *)
Theorem updateDisplayName_stores_trimmed
    (accounts : list Account) (uid : Z) (name : str) (a : Account) :
  find (fun b => account_id b =? uid) accounts = Some a ->
  dialogSubmits name = true ->
  (text_param (trim name) = Some (trim name) ->
   exists accounts',
     updateDisplayName true accounts uid (Some name)
     = (DisplayNameUpdated (Some (trim name)), accounts') /\
     find (fun b => account_id b =? uid) accounts'
     = Some (set_displayName (trim name) a) /\
     trim name <> [] /\
     stops is_space (trim name) /\
     stops is_space (rev (trim name)) /\
     updateDisplayName true accounts' uid (Some (trim name))
     = (DisplayNameUpdated (Some (trim name)), accounts') /\
     (forall b, In b accounts' -> account_id b <> uid -> In b accounts)) /\
  (has_nul (trim name) = true ->
   updateDisplayName true accounts uid (Some name)
   = (DisplayNameFailed, accounts)).
Proof.
  intros Hfind Hsub.
  destruct (updateDisplayName_received accounts uid name a Hfind Hsub)
    as [Hstored Hrefused].
  split; [|exact Hrefused].
  intros Hwritten.
  destruct (text_param_written _ Hwritten) as [Hnul Hsame].
  destruct (Hstored Hnul)
    as [accounts' [E [Hf [_ [Hne [Hh [Hl [_ [Hagain Hframe]]]]]]]]].
  rewrite Hsame in E, Hf, Hne, Hh, Hl, Hagain.
  exists accounts'. repeat (split; [assumption|]). exact Hframe.
Qed.

Lemma updateDisplayName_stores_trimmed_witness :
  let ada :=
    {| account := {| user_id := 4; totalScore := 0;
                     hasCompletedQuestionnaire := false; aotScore := None |};
       username := codes "ada"; password := codes "00.00";
       email := codes "ada@education.nsw.gov.au"; displayName := None;
       isAdmin := false; hasCompletedOnboarding := false |} in
  (exists accounts',
     updateDisplayName true [ada] 4 (Some (codes "  Ada L.  "))
     = (DisplayNameUpdated (Some (codes "Ada L.")), accounts')) /\
  updateDisplayName true [ada] 4 (Some [65%N; 0%N; 100%N; 97%N])
  = (DisplayNameFailed, [ada]).
Proof.
  intros ada. split.
  - destruct (updateDisplayName_stores_trimmed [ada] 4 (codes "  Ada L.  ") ada
                eq_refl eq_refl) as [H _].
    destruct (H eq_refl) as [accounts' [E _]].
    exists accounts'. exact E.
  - destruct (updateDisplayName_stores_trimmed [ada] 4 [65%N; 0%N; 100%N; 97%N]
                ada eq_refl eq_refl) as [_ H].
    exact (H eq_refl).
Defined.

(** The server asks for a name exactly when the dialog of the client
    would not have sent it. *)
Theorem displayName_checks_agree
    (accounts : list Account) (uid : Z) (name : str) :
  fst (updateDisplayName true accounts uid (Some name)) = DisplayNameRequired
  <-> dialogSubmits name = false.
Proof.
  unfold updateDisplayName, dialogSubmits. cbn [negb].
  destruct name as [|ch w]; [split; reflexivity|].
  destruct (trim (ch :: w)) as [|t ts]; [split; reflexivity|].
  destruct (text_param (t :: ts)) as [stored|]; [|split; discriminate].
  match goal with
  | |- context [find ?p ?l] => destruct (find p l)
  end; split; discriminate.
Qed.

(** ** Stored passwords *)

Lemma hex_value_digit (n : N) : (n < 16)%N -> hex_value (hex_digit n) = Some n.
Proof.
  intros H. unfold hex_value, hex_digit, is_digit.
  destruct (N.ltb_spec n 10).
  - replace ((48 <=? 48 + n)%N && (48 + n <=? 57)%N) with true
      by (symmetry; apply andb_true_iff; split; apply N.leb_le; lia).
    f_equal. lia.
  - replace ((48 <=? 87 + n)%N && (87 + n <=? 57)%N) with false
      by (symmetry; apply andb_false_iff; right; apply N.leb_gt; lia).
    replace ((97 <=? 87 + n)%N && (87 + n <=? 102)%N) with true
      by (symmetry; apply andb_true_iff; split; apply N.leb_le; lia).
    f_equal. lia.
Qed.

Lemma hex_digit_not_dot (n : N) : (n < 16)%N -> (hex_digit n =? 46)%N = false.
Proof.
  intros H. unfold hex_digit. apply N.eqb_neq.
  destruct (N.ltb_spec n 10); lia.
Qed.

Lemma byte_nibbles (b : Byte.byte) :
  (Byte.to_N b / 16 < 16)%N /\ (Byte.to_N b mod 16 < 16)%N /\
  (16 * (Byte.to_N b / 16) + Byte.to_N b mod 16 = Byte.to_N b)%N.
Proof.
  pose proof (Byte.to_N_bounded b) as Hb.
  split; [apply N.Div0.div_lt_upper_bound; lia|].
  split; [apply N.mod_lt; lia|].
  symmetry. apply N.div_mod. lia.
Qed.

(** Decoding undoes the encoding of a buffer. *)
Lemma fromHex_toHex (buf : bytes) : fromHex (toHex buf) = buf.
Proof.
  induction buf as [|b buf IH]; [reflexivity|].
  destruct (byte_nibbles b) as [Hh [Hl E]].
  cbn [toHex flat_map app]. cbn [fromHex].
  rewrite (hex_value_digit _ Hh), (hex_value_digit _ Hl), E, Byte.of_to_N.
  f_equal. exact IH.
Qed.

Lemma toHex_no_dot (buf : bytes) : existsb (N.eqb 46) (toHex buf) = false.
Proof.
  induction buf as [|b buf IH]; [reflexivity|].
  destruct (byte_nibbles b) as [Hh [Hl _]].
  cbn [toHex flat_map app existsb].
  rewrite (N.eqb_sym 46), (hex_digit_not_dot _ Hh).
  rewrite (N.eqb_sym 46), (hex_digit_not_dot _ Hl). exact IH.
Qed.

Lemma split_on_plain (sep : cu) (s : str) :
  existsb (N.eqb sep) s = false -> split_on sep s = [s].
Proof.
  induction s as [|ch s IH]; [reflexivity|].
  cbn [existsb split_on]. intros H. apply orb_false_iff in H.
  destruct H as [Hch Hs]. rewrite N.eqb_sym, Hch, (IH Hs). reflexivity.
Qed.

Lemma split_on_first (sep : cu) (h s : str) :
  existsb (N.eqb sep) h = false ->
  split_on sep (h ++ sep :: s) = h :: split_on sep s.
Proof.
  induction h as [|ch h IH]; intros H.
  - cbn [app split_on]. rewrite N.eqb_refl. reflexivity.
  - cbn [existsb] in H. apply orb_false_iff in H. destruct H as [Hch Hh].
    cbn [app split_on]. rewrite N.eqb_sym, Hch, (IH Hh). reflexivity.
Qed.

Lemma bytes_eqb_eq (a b : bytes) : bytes_eqb a b = true <-> a = b.
Proof.
  revert b. induction a as [|x a IH]; intros [|y b]; simpl;
    try (split; [discriminate | discriminate]); [split; reflexivity|].
  rewrite andb_true_iff, IH. split.
  - intros [H ->]. apply Byte.byte_dec_bl in H. subst. reflexivity.
  - intros H. injection H as -> ->. split; [apply Byte.byte_dec_lb|]; reflexivity.
Qed.

Lemma timingSafeEqual_true (a b : bytes) :
  timingSafeEqual a b = Some true <-> a = b.
Proof.
  unfold timingSafeEqual. split.
  - destruct (length a =? length b)%nat; [|discriminate].
    intros H. injection H as H. apply bytes_eqb_eq. exact H.
  - intros ->. rewrite Nat.eqb_refl. f_equal. apply bytes_eqb_eq. reflexivity.
Qed.

Lemma crypto_compare_stored (scrypt : str -> str -> nat -> bytes)
    (supplied : str) (buf saltBytes : bytes) :
  crypto_compare scrypt supplied (toHex buf ++ codes "." ++ toHex saltBytes) = true
  <-> scrypt supplied (toHex saltBytes) 64%nat = buf.
Proof.
  unfold crypto_compare.
  assert (Hdot : existsb (N.eqb 46)
                   (toHex buf ++ codes "." ++ toHex saltBytes) = true).
  { rewrite existsb_app. apply orb_true_iff. right. reflexivity. }
  rewrite Hdot. cbn [negb].
  change (toHex buf ++ codes "." ++ toHex saltBytes)
    with (toHex buf ++ 46%N :: toHex saltBytes).
  rewrite (split_on_first 46%N _ _ (toHex_no_dot buf)).
  rewrite (split_on_plain 46%N _ (toHex_no_dot saltBytes)).
  rewrite fromHex_toHex.
  destruct (toHex buf ++ 46%N :: toHex saltBytes) as [|ch w] eqn:E.
  { destruct (toHex buf); discriminate. }
  destruct (timingSafeEqual buf (scrypt supplied (toHex saltBytes) 64%nat))
    as [[|]|] eqn:Et.
  - apply timingSafeEqual_true in Et. split; auto.
  - split; [discriminate|]. intros H. symmetry in H.
    apply timingSafeEqual_true in H. congruence.
  - split; [discriminate|]. intros H. symmetry in H.
    apply timingSafeEqual_true in H. congruence.
Qed.

(** A password is accepted against its own stored hash, whatever the
    salt; another password is accepted exactly when the key derivation
    gives it the same key under that salt. *)
Theorem crypto_compare_hash (scrypt : str -> str -> nat -> bytes)
    (saltBytes : bytes) (pw supplied : str) :
  crypto_compare scrypt pw (crypto_hash scrypt saltBytes pw) = true /\
  (crypto_compare scrypt supplied (crypto_hash scrypt saltBytes pw) = true
   <-> scrypt supplied (toHex saltBytes) 64%nat
       = scrypt pw (toHex saltBytes) 64%nat).
Proof.
  unfold crypto_hash. cbv zeta. split.
  - apply crypto_compare_stored. reflexivity.
  - apply crypto_compare_stored.
Qed.

(** ** Registration and login *)

Lemma find_snoc {A} (p : A -> bool) (l : list A) (x : A) :
  find p (l ++ [x])
  = match find p l with
    | Some y => Some y
    | None => if p x then Some x else None
    end.
Proof.
  induction l as [|a l IH]; [reflexivity|].
  cbn [app find]. destruct (p a); [reflexivity | exact IH].
Qed.



Lemma find_none_not_in {A B} (f : A -> B) (eqb : B -> B -> bool)
    (l : list A) (x : B) :
  (forall a b, eqb a b = true <-> a = b) ->
  find (fun a => eqb (f a) x) l = None -> ~ In x (map f l).
Proof.
  intros Heq H Hin. apply in_map_iff in Hin. destruct Hin as [a [E Ha]].
  apply (find_none _ _ H) in Ha. apply Heq in E. congruence.
Qed.




(** Registration keeps the user names distinct, leaves every existing
    account as it is, and neither creates nor alters an administrator. *)
Theorem register_keeps_accounts (scrypt : str -> str -> nat -> bytes)
    (saltBytes : bytes) (newId : Z) (accounts : list Account)
    (uname pw mail : str) :
  NoDup (map username accounts) ->
  NoDup (map username
           (snd (register scrypt saltBytes newId accounts uname pw mail))) /\
  (exists added,
     snd (register scrypt saltBytes newId accounts uname pw mail)
     = accounts ++ added) /\
  filter isAdmin (snd (register scrypt saltBytes newId accounts uname pw mail))
  = filter isAdmin accounts.
Proof.
  intros ND. unfold register.
  destruct (find (fun a => str_eqb (username a) uname) accounts) eqn:Ef.
  { cbn [snd]. split; [exact ND|]. split; [|reflexivity].
    exists []. rewrite app_nil_r. reflexivity. }
  destruct (existsb (fun a => str_eqb (email a) mail) accounts) eqn:Ee.
  { cbn [snd]. split; [exact ND|]. split; [|reflexivity].
    exists []. rewrite app_nil_r. reflexivity. }
  cbn [snd]. split; [|split].
  - rewrite map_app. cbn [map username].
    apply NoDup_app; [exact ND | repeat constructor; intros [] |].
    intros u Hu [E|[]]. subst u.
    exact (find_none_not_in username str_eqb accounts uname str_eqb_eq Ef Hu).
  - eexists. reflexivity.
  - rewrite filter_app. cbn [filter isAdmin]. apply app_nil_r.
Qed.

Lemma register_keeps_accounts_witness :
  let kdf := fun (pw salt : str) (n : nat) => repeat Byte.x00 n in
  let ada :=
    {| account := {| user_id := 1; totalScore := 30;
                     hasCompletedQuestionnaire := true; aotScore := Some 50 |};
       username := codes "ada"; password := codes "00.00";
       email := codes "ada@education.nsw.gov.au";
       displayName := None; isAdmin := true;
       hasCompletedOnboarding := true |} in
  filter isAdmin
    (snd (register kdf [] 2 [ada] (codes "bob") (codes "hunter2")
            (codes "bob@education.nsw.gov.au")))
  = [ada].
Proof.
  intros kdf ada.
  destruct (register_keeps_accounts kdf [] 2 [ada] (codes "bob") (codes "hunter2")
              (codes "bob@education.nsw.gov.au")) as [_ [_ H]].
  - simpl. repeat constructor. intros [].
  - exact H.
Defined.

(** On a table with neither the name nor the email of the administrator,
    the start-up creates an administrator that logs in with the built-in
    password; run again, with whatever salt and id, it changes nothing. *)
Theorem initializeAdmin_creates_login (scrypt : str -> str -> nat -> bytes)
    (saltBytes saltBytes' : bytes) (newId newId' : Z) (accounts : list Account) :
  find (fun a => str_eqb (username a) (codes "admin")) accounts = None ->
  existsb (fun a => str_eqb (email a) (codes "admin@education.nsw.gov.au"))
          accounts = false ->
  (exists admin,
     verifyLogin scrypt (initializeAdmin scrypt saltBytes newId accounts)
                 (codes "admin") (codes "admin123")
     = VerifiedUser admin /\
     isAdmin admin = true /\ account_id admin = newId) /\
  initializeAdmin scrypt saltBytes' newId'
    (initializeAdmin scrypt saltBytes newId accounts)
  = initializeAdmin scrypt saltBytes newId accounts.
Proof.
  intros Hf He. unfold initializeAdmin at 1 3 4. rewrite Hf, He.
  match goal with
  | |- context [accounts ++ [?a]] => set (admin := a)
  end.
  assert (Hnew : find (fun a => str_eqb (username a) (codes "admin"))
                      (accounts ++ [admin]) = Some admin).
  { rewrite find_snoc, Hf. reflexivity. }
  split.
  - exists admin. unfold verifyLogin. rewrite Hnew.
    replace (crypto_compare scrypt (codes "admin123") (password admin))
      with true; [repeat split|].
    symmetry. apply crypto_compare_stored. reflexivity.
  - unfold initializeAdmin. rewrite Hnew. reflexivity.
Qed.

Lemma initializeAdmin_creates_login_witness :
  let kdf := fun (pw salt : str) (n : nat) =>
    firstn n (map (fun ch => match Byte.of_N (ch mod 256) with
                             | Some b => b
                             | None => Byte.x00
                             end) (salt ++ pw) ++ repeat Byte.x00 n) in
  exists admin,
    verifyLogin kdf (initializeAdmin kdf [Byte.x7f] 1 [])
                (codes "admin") (codes "admin123")
    = VerifiedUser admin /\
    isAdmin admin = true /\ account_id admin = 1.
Proof.
  intros kdf.
  destruct (initializeAdmin_creates_login kdf [Byte.x7f] [] 1 2 []
              eq_refl eq_refl) as [H _].
  exact H.
Defined.

(** ** Ordered query results *)

Section Ordering.

Context {A : Type}.
Variable leb : A -> A -> bool.

Let R (a b : A) : Prop := leb a b = true.

Hypothesis leb_total : forall a b, leb a b = false -> leb b a = true.
Hypothesis leb_trans : forall a b c, leb a b = true -> leb b c = true -> leb a c = true.

Lemma insert_by_perm (x : A) (l : list A) :
  Permutation (insert_by leb x l) (x :: l).
Proof.
  induction l as [|y l IH]; cbn [insert_by]; [reflexivity|].
  destruct (leb x y); [reflexivity|].
  rewrite IH. apply perm_swap.
Qed.

Lemma order_by_perm (l : list A) : Permutation (order_by leb l) l.
Proof.
  induction l as [|x l IH]; [reflexivity|].
  unfold order_by in *. cbn [fold_right].
  rewrite insert_by_perm. constructor. exact IH.
Qed.

Lemma insert_by_sorted (x : A) (l : list A) :
  StronglySorted R l -> StronglySorted R (insert_by leb x l).
Proof.
  induction 1 as [|y l Hs IH Hy]; cbn [insert_by].
  - repeat constructor.
  - destruct (leb x y) eqn:E.
    + constructor; [constructor; assumption|].
      constructor; [exact E|].
      rewrite Forall_forall in *. intros z Hz.
      exact (leb_trans _ _ _ E (Hy z Hz)).
    + constructor; [exact IH|].
      rewrite Forall_forall in *. intros z Hz.
      apply (Permutation_in _ (insert_by_perm x l)) in Hz.
      destruct Hz as [<-|Hz]; [apply leb_total; exact E | apply Hy; exact Hz].
Qed.

Lemma order_by_sorted (l : list A) : StronglySorted R (order_by leb l).
Proof.
  induction l as [|x l IH]; [constructor|].
  unfold order_by in *. cbn [fold_right]. apply insert_by_sorted. exact IH.
Qed.

End Ordering.

Lemma sorted_app {A} (R : A -> A -> Prop) (l1 l2 : list A) :
  StronglySorted R (l1 ++ l2) ->
  StronglySorted R l1 /\ StronglySorted R l2 /\
  forall x y, In x l1 -> In y l2 -> R x y.
Proof.
  induction l1 as [|a l1 IH]; cbn [app]; intros H.
  - split; [constructor|]. split; [exact H|]. intros x y [].
  - inversion H as [|? ? Hs Ha]; subst.
    destruct (IH Hs) as [H1 [H2 H12]].
    rewrite Forall_forall in Ha.
    split; [|split; [exact H2|]].
    + constructor; [exact H1|]. apply Forall_forall. intros z Hz.
      apply Ha, in_or_app. left. exact Hz.
    + intros x y [<-|Hx] Hy; [|apply H12; assumption].
      apply Ha, in_or_app. right. exact Hy.
Qed.

Lemma sorted_nth {A} (R : A -> A -> Prop) (l : list A) (i j : nat) (a b : A) :
  StronglySorted R l ->
  nth_error l i = Some a -> nth_error l j = Some b -> (i < j)%nat -> R a b.
Proof.
  intros H. revert i j. induction H as [|x l Hs IH Hx]; intros i j Hi Hj Hij.
  - destruct i; discriminate.
  - destruct j as [|j]; [lia|]. cbn [nth_error] in Hj.
    destruct i as [|i]; cbn [nth_error] in Hi.
    + injection Hi as <-. rewrite Forall_forall in Hx.
      apply Hx. exact (nth_error_In _ _ Hj).
    + apply (IH i j); [assumption | assumption | lia].
Qed.

Lemma nth_error_map_index_from {A B} (f : A -> Z -> B) (l : list A)
    (index : Z) (k : nat) :
  nth_error (map_index_from index f l) k
  = option_map (fun a => f a (index + Z.of_nat k)) (nth_error l k).
Proof.
  revert index k. induction l as [|x l IH]; intros index k.
  - destruct k; reflexivity.
  - destruct k as [|k]; cbn [map_index_from nth_error option_map].
    + do 2 f_equal. lia.
    + rewrite IH. destruct (nth_error l k); cbn [option_map]; [|reflexivity].
      do 2 f_equal. lia.
Qed.

Lemma length_map_index_from {A B} (f : A -> Z -> B) (l : list A) (index : Z) :
  length (map_index_from index f l) = length l.
Proof.
  revert index. induction l as [|x l IH]; intros index; [reflexivity|].
  cbn [map_index_from length]. rewrite IH. reflexivity.
Qed.

Lemma by_totalScore_desc_total (a b : Account) :
  by_totalScore_desc a b = false -> by_totalScore_desc b a = true.
Proof. unfold by_totalScore_desc. rewrite Z.leb_gt, Z.leb_le. lia. Qed.

Lemma by_totalScore_desc_trans (a b c : Account) :
  by_totalScore_desc a b = true -> by_totalScore_desc b c = true ->
  by_totalScore_desc a c = true.
Proof. unfold by_totalScore_desc. rewrite !Z.leb_le. lia. Qed.

(** ** Leaderboard *)

(** The leaderboard has at most ten entries, ranked 1, 2, ... in order;
    every entry is an account with a positive total, shown with its own
    name and total; totals do not increase down the board; and an
    account with a positive total is on the board unless the board is
    full of totals at least as large. *)
Theorem topScores_ranked (accounts : list Account) :
  (length (topScores accounts) <= 10)%nat /\
  (forall k e, nth_error (topScores accounts) k = Some e ->
     rank e = Z.of_nat k + 1 /\ 0 < lb_totalScore e /\
     (exists a, In a accounts /\ lb_id e = account_id a /\
                lb_username e = username a /\
                lb_totalScore e = account_total a) /\
     (forall k' e', nth_error (topScores accounts) k' = Some e' ->
        (k <= k')%nat -> lb_totalScore e' <= lb_totalScore e)) /\
  (forall a, In a accounts -> 0 < account_total a ->
     (exists e, In e (topScores accounts) /\ lb_id e = account_id a /\
                lb_username e = username a /\
                lb_totalScore e = account_total a) \/
     (length (topScores accounts) = 10%nat /\
      forall e, In e (topScores accounts) ->
                account_total a <= lb_totalScore e)).
Proof.
  unfold topScores, map_index.
  set (positive := filter (fun a => 0 <? account_total a) accounts).
  set (sorted := order_by by_totalScore_desc positive).
  set (rows := firstn 10 sorted).
  set (f := fun (user : Account) (index : Z) =>
              {| lb_id := account_id user; lb_username := username user;
                 lb_totalScore := account_total user; rank := index + 1 |}).
  assert (Hsorted : StronglySorted (fun a b => by_totalScore_desc a b = true)
                      (rows ++ skipn 10 sorted)).
  { unfold rows. rewrite firstn_skipn.
    apply order_by_sorted;
      [exact by_totalScore_desc_total | exact by_totalScore_desc_trans]. }
  destruct (sorted_app _ _ _ Hsorted) as [Hrows [_ Hcross]].
  assert (Hin : forall a, In a sorted <-> In a accounts /\ 0 < account_total a).
  { intros a. unfold sorted, positive. split.
    - intros H. apply (Permutation_in _ (order_by_perm _ _)) in H.
      apply filter_In in H. rewrite Z.ltb_lt in H. exact H.
    - intros H. apply (Permutation_in _ (Permutation_sym (order_by_perm _ _))).
      apply filter_In. rewrite Z.ltb_lt. exact H. }
  assert (Hrow : forall a, In a rows -> In a sorted).
  { intros a H. rewrite <- (firstn_skipn 10 sorted). apply in_or_app. left. exact H. }
  assert (Hnth : forall k e,
            nth_error (map_index_from 0 f rows) k = Some e ->
            exists a, nth_error rows k = Some a /\ e = f a (Z.of_nat k)).
  { intros k e H. rewrite nth_error_map_index_from in H.
    destruct (nth_error rows k) as [a|]; [|discriminate].
    injection H as <-. exists a. split; [reflexivity|]. reflexivity. }
  split; [|split].
  - rewrite length_map_index_from. unfold rows. apply firstn_le_length.
  - intros k e He. destruct (Hnth k e He) as [a [Ha ->]].
    pose proof (nth_error_In _ _ Ha) as Har.
    destruct (proj1 (Hin a) (Hrow a Har)) as [Hacc Hpos].
    cbn [rank lb_totalScore lb_id lb_username f].
    split; [reflexivity|]. split; [exact Hpos|]. split.
    + exists a. auto.
    + intros k' e' He' Hk. destruct (Hnth k' e' He') as [a' [Ha' ->]].
      cbn [lb_totalScore f].
      destruct (Nat.eq_dec k k') as [<-|Hne].
      * rewrite Ha in Ha'. injection Ha' as <-. lia.
      * assert (Hlt : (k < k')%nat) by lia.
        pose proof (sorted_nth _ rows k k' a a' Hrows Ha Ha' Hlt) as HR.
        unfold by_totalScore_desc in HR. apply Z.leb_le in HR. exact HR.
  - intros a Hacc Hpos.
    assert (Hs : In a sorted) by (apply Hin; auto).
    rewrite <- (firstn_skipn 10 sorted) in Hs. apply in_app_or in Hs.
    destruct Hs as [Hs|Hs].
    + left. apply In_nth_error in Hs. destruct Hs as [k Hk].
      change (nth_error rows k = Some a) in Hk.
      exists (f a (Z.of_nat k)). split; [|repeat split].
      apply (nth_error_In _ k). rewrite nth_error_map_index_from, Hk.
      reflexivity.
    + right. split.
      * rewrite length_map_index_from. unfold rows.
        apply firstn_length_le.
        destruct (Nat.le_gt_cases 10 (length sorted)) as [H|H]; [exact H|].
        rewrite skipn_all2 in Hs by lia. contradiction.
      * intros e He. apply In_nth_error in He. destruct He as [k He].
        destruct (Hnth k e He) as [a' [Ha' ->]]. cbn [lb_totalScore f].
        pose proof (Hcross a' a (nth_error_In _ _ Ha') Hs) as HR.
        unfold by_totalScore_desc in HR. apply Z.leb_le in HR. exact HR.
Qed.

(** ** Administrator dashboard *)

Lemma sumZ_perm (l l' : list Z) : Permutation l l' -> sumZ l = sumZ l'.
Proof.
  induction 1 as [|x l l' _ IH|x y l|l l' l'' _ IH1 _ IH2]; simpl; lia.
Qed.

Lemma positives_below_sum {A} (g : A -> Z) (l : list A) :
  Forall (fun x => 0 <= g x) l ->
  Z.of_nat (length (filter (fun x => 0 <? g x) l)) <= sumZ (map g l).
Proof.
  induction 1 as [|x l Hx _ IH]; [simpl; lia|].
  cbn [filter map sumZ fold_right]. fold (sumZ (map g l)).
  destruct (Z.ltb_spec 0 (g x)); cbn [length]; lia.
Qed.

Lemma filter_perm_length {A} (p : A -> bool) (l l' : list A) :
  Permutation l l' -> length (filter p l) = length (filter p l').
Proof.
  induction 1 as [|x l l' _ IH|x y l|l l' l'' _ IH1 _ IH2]; cbn [filter].
  - reflexivity.
  - destruct (p x); cbn [length]; congruence.
  - destruct (p x), (p y); reflexivity.
  - congruence.
Qed.

Lemma badgeCount_loop (c : Z -> Z) (keys : list Z) (mp : JsMap Z) (k : Z) :
  map_get k
    (fold_left
       (fun mp row => if fst row =? 0 then mp else map_set (fst row) (snd row) mp)
       (map (fun uid => (uid, c uid)) keys) mp)
  = if negb (k =? 0) && existsb (Z.eqb k) keys then Some (c k) else map_get k mp.
Proof.
  revert mp. induction keys as [|uid keys IH]; intros mp.
  - cbn [map fold_left existsb]. rewrite andb_false_r. reflexivity.
  - cbn [map fold_left existsb fst snd]. rewrite IH.
    destruct (Z.eqb_spec k 0) as [Hk|Hk]; cbn [negb andb].
    + destruct (Z.eqb_spec uid 0) as [Hu|Hu]; [reflexivity|].
      rewrite map_get_map_set.
      destruct (Z.eqb_spec k uid); [congruence | reflexivity].
    + destruct (existsb (Z.eqb k) keys); [rewrite orb_true_r; reflexivity|].
      rewrite orb_false_r.
      destruct (Z.eqb_spec uid 0) as [Hu|Hu].
      * subst uid. destruct (Z.eqb_spec k 0); [contradiction | reflexivity].
      * rewrite map_get_map_set.
        destruct (Z.eqb_spec k uid) as [->|]; reflexivity.
Qed.

(** The badge count the dashboard shows for a user id other than 0 is
    the number of award rows of that user. *)
Lemma dashboard_badgeCount (userBadges : list UserBadge) (uid : Z) :
  uid <> 0 ->
  or_zero (map_get uid (AdminDashboard.badgeCountMap userBadges))
  = Z.of_nat (length (filter (fun r => ub_userId r =? uid) userBadges)).
Proof.
  intros Hu. unfold AdminDashboard.badgeCountMap, AdminDashboard.badgeCountsResult.
  rewrite (badgeCount_loop
             (fun uid => Z.of_nat (length (filter (fun r => ub_userId r =? uid)
                                                  userBadges)))).
  destruct (Z.eqb_spec uid 0); [contradiction|]. cbn [negb andb].
  destruct (existsb (Z.eqb uid) (nodup Z.eq_dec (map ub_userId userBadges)))
    eqn:E; [reflexivity|].
  cbn [map_get or_zero].
  assert (Hnone : filter (fun r => ub_userId r =? uid) userBadges = []).
  { destruct (filter (fun r => ub_userId r =? uid) userBadges) as [|r l] eqn:Ef;
      [reflexivity|].
    assert (Hr : In r (filter (fun r => ub_userId r =? uid) userBadges))
      by (rewrite Ef; left; reflexivity).
    apply filter_In in Hr. destruct Hr as [Hr Hid]. apply Z.eqb_eq in Hid.
    assert (Ht : existsb (Z.eqb uid) (nodup Z.eq_dec (map ub_userId userBadges))
                 = true).
    { apply existsb_exists. exists uid. split; [|apply Z.eqb_refl].
      apply nodup_In. rewrite <- Hid. apply in_map. exact Hr. }
    congruence. }
  rewrite Hnone. reflexivity.
Qed.

(** For an administrator the dashboard lists every account once, counts
    them, counts the accounts with a positive total and adds the totals
    up; the badge count of a user is the number of its award rows; and
    when no stored total is negative, the points are at least the number
    of active users. *)
Theorem dashboard_totals (requester : Account) (accounts : list Account)
    (userBadges : list UserBadge) :
  isAdmin requester = true ->
  exists data,
    AdminDashboard.dashboard true requester accounts userBadges
    = AdminDashboard.Ok data /\
    Permutation (map AdminDashboard.id (AdminDashboard.users data))
                (map account_id accounts) /\
    AdminDashboard.totalUsers data = Z.of_nat (length accounts) /\
    AdminDashboard.totalActiveUsers data
    = Z.of_nat (length (filter (fun a => 0 <? account_total a) accounts)) /\
    0 <= AdminDashboard.totalActiveUsers data <= AdminDashboard.totalUsers data /\
    AdminDashboard.totalPoints data = sumZ (map account_total accounts) /\
    (forall u, In u (AdminDashboard.users data) -> AdminDashboard.id u <> 0 ->
       AdminDashboard.badgeCount u
       = Z.of_nat (length (filter (fun r => ub_userId r =? AdminDashboard.id u)
                                  userBadges))) /\
    (Forall (fun a => 0 <= account_total a) accounts ->
     AdminDashboard.totalActiveUsers data <= AdminDashboard.totalPoints data).
Proof.
  intros Hadmin. unfold AdminDashboard.dashboard. rewrite Hadmin. cbn [negb].
  pose proof (order_by_perm by_totalScore_desc accounts) as Hperm.
  set (userData := order_by by_totalScore_desc accounts) in *.
  eexists. split; [reflexivity|].
  cbn [AdminDashboard.users AdminDashboard.totalUsers
       AdminDashboard.totalActiveUsers AdminDashboard.totalPoints].
  assert (Hactive : length (filter (fun u => 0 <? account_total u) userData)
                    = length (filter (fun a => 0 <? account_total a) accounts))
    by (apply filter_perm_length; exact Hperm).
  assert (Hpoints : fold_left (fun sum user => sum + account_total user) userData 0
                    = sumZ (map account_total accounts)).
  { rewrite fold_left_sum.
    rewrite (sumZ_perm _ _ (Permutation_map account_total Hperm)). lia. }
  split; [|split; [|split; [|split; [|split; [|split]]]]].
  - rewrite map_map. cbn [AdminDashboard.id].
    apply (Permutation_map account_id). exact Hperm.
  - rewrite (Permutation_length Hperm). reflexivity.
  - rewrite Hactive. reflexivity.
  - rewrite Hactive, (Permutation_length Hperm).
    pose proof (filter_length_le (fun a => 0 <? account_total a) accounts). lia.
  - exact Hpoints.
  - intros u Hu Hid. apply in_map_iff in Hu. destruct Hu as [a [<- _]].
    cbn [AdminDashboard.badgeCount AdminDashboard.id] in *.
    apply dashboard_badgeCount. exact Hid.
  - intros Hpos. rewrite Hactive, Hpoints. apply positives_below_sum. exact Hpos.
Qed.

Lemma dashboard_totals_witness :
  let member (i t : Z) (admin : bool) :=
    {| account := {| user_id := i; totalScore := t;
                     hasCompletedQuestionnaire := true; aotScore := Some 40 |};
       username := []; password := []; email := []; displayName := None;
       isAdmin := admin; hasCompletedOnboarding := true |} in
  exists data,
    AdminDashboard.dashboard true (member 1 0 true)
      [member 1 0 true; member 2 15 false; member 3 40 false]
      [ {| ub_userId := 3; ub_badgeId := 1; ub_gameType := [] |};
        {| ub_userId := 3; ub_badgeId := 2; ub_gameType := [] |} ]
    = AdminDashboard.Ok data /\
    AdminDashboard.totalUsers data = 3 /\
    AdminDashboard.totalActiveUsers data = 2 /\
    AdminDashboard.totalPoints data = 55.
Proof.
  intros member.
  destruct (dashboard_totals (member 1 0 true)
              [member 1 0 true; member 2 15 false; member 3 40 false]
              [ {| ub_userId := 3; ub_badgeId := 1; ub_gameType := [] |};
                {| ub_userId := 3; ub_badgeId := 2; ub_gameType := [] |} ]
              eq_refl)
    as [data [E [_ [H1 [H2 [_ [H3 _]]]]]]].
  exists data. split; [exact E|]. split; [exact H1|]. split; [exact H2 | exact H3].
Defined.

Lemma user_rows_distinct_badges (db : Db) (uid : Z) :
  ledger_unique db ->
  NoDup (map ub_badgeId (filter (fun r => ub_userId r =? uid) (userBadges db))).
Proof.
  intros Hl. apply NoDup_of_single_image. intros bid.
  specialize (Hl uid bid). unfold award_rows, select_userBadges in Hl.
  rewrite filter_twice. exact Hl.
Qed.

(** When no pair holds two award rows and every award row names a badge
    of the catalogue, a user has at most as many award rows as the
    catalogue has badges, and the dashboard never shows a larger badge
    count. *)
Theorem badgeCount_bounded_by_catalogue (db : Db) (uid : Z) :
  ledger_unique db ->
  (forall r, In r (userBadges db) ->
     In (ub_badgeId r) (map badge_id (badges db))) ->
  (length (filter (fun r => (ub_userId r =? uid)%Z) (userBadges db))
   <= length (badges db))%nat /\
  0 <= or_zero (map_get uid (AdminDashboard.badgeCountMap (userBadges db)))
    <= Z.of_nat (length (badges db)).
Proof.
  intros Hl Href.
  assert (Hrows : (length (filter (fun r => (ub_userId r =? uid)%Z) (userBadges db))
                   <= length (badges db))%nat).
  { rewrite <- (length_map ub_badgeId), <- (length_map badge_id (badges db)).
    apply NoDup_incl_length; [apply user_rows_distinct_badges; exact Hl|].
    intros bid Hin. apply in_map_iff in Hin. destruct Hin as [r [<- Hr]].
    apply filter_In in Hr. apply Href. tauto. }
  split; [exact Hrows|].
  destruct (Z.eq_dec uid 0) as [->|Hu].
  - unfold AdminDashboard.badgeCountMap, AdminDashboard.badgeCountsResult.
    rewrite (badgeCount_loop
               (fun uid => Z.of_nat (length (filter (fun r => ub_userId r =? uid)
                                                    (userBadges db))))).
    cbn. lia.
  - rewrite (dashboard_badgeCount _ uid Hu). lia.
Qed.

Lemma badgeCount_bounded_by_catalogue_witness :
  0 <= or_zero
         (map_get 7
            (AdminDashboard.badgeCountMap
               [ {| ub_userId := 7; ub_badgeId := 2; ub_gameType := [] |};
                 {| ub_userId := 8; ub_badgeId := 2; ub_gameType := [] |};
                 {| ub_userId := 7; ub_badgeId := 1; ub_gameType := [] |} ]))
    <= 2.
Proof.
  apply (badgeCount_bounded_by_catalogue
           {| users := [];
              badges := [ {| badge_id := 1; badge_name := codes "reason_giver";
                             badge_description := []; badge_imageUrl := [] |};
                          {| badge_id := 2; badge_name := codes "fact_checker";
                             badge_description := []; badge_imageUrl := [] |} ];
              userBadges := [ {| ub_userId := 7; ub_badgeId := 2; ub_gameType := [] |};
                              {| ub_userId := 8; ub_badgeId := 2; ub_gameType := [] |};
                              {| ub_userId := 7; ub_badgeId := 1; ub_gameType := [] |} ] |}
           7).
  - intros uid bid. unfold award_rows, select_userBadges.
    cbn [userBadges filter ub_userId ub_badgeId].
    destruct (Z.eqb_spec 7 uid), (Z.eqb_spec 8 uid), (Z.eqb_spec 2 bid),
      (Z.eqb_spec 1 bid); simpl; lia.
  - intros r [<-|[<-|[<-|[]]]]; simpl; tauto.
Defined.

(** ** The latest answer to each question *)

Section Distinct.

Context {A : Type}.
Variable key : A -> Z.
Variable R : A -> A -> Prop.
Hypothesis R_key : forall a b, R a b -> key a <= key b.

Lemma distinct_from_first (s : list A) (prev : Z) (x : A) :
  StronglySorted R s ->
  (forall y, In y s -> prev <= key y) ->
  In x (distinct_from key prev s) ->
  In x s /\ prev < key x /\
  forall y, In y s -> key y = key x -> y = x \/ R x y.
Proof.
  intros Hs. revert prev. induction Hs as [|a s Hs IH Ha]; intros prev Hlow Hx.
  - contradiction.
  - rewrite Forall_forall in Ha. cbn [distinct_from] in Hx.
    assert (Hlow' : forall y, In y s -> prev <= key y)
      by (intros y Hy; apply Hlow; right; exact Hy).
    pose proof (Hlow a (or_introl eq_refl)) as Hpa.
    destruct (Z.eqb_spec (key a) prev) as [E|E].
    + destruct (IH prev Hlow' Hx) as [H1 [H2 H3]].
      split; [right; exact H1|]. split; [exact H2|].
      intros y [<-|Hy] Hk; [lia | apply H3; assumption].
    + destruct Hx as [<-|Hx].
      * split; [left; reflexivity|]. split; [lia|].
        intros y [<-|Hy] _; [left; reflexivity | right; apply Ha; exact Hy].
      * assert (Hlowa : forall y, In y s -> key a <= key y)
          by (intros y Hy; apply R_key, Ha; exact Hy).
        destruct (IH (key a) Hlowa Hx) as [H1 [H2 H3]].
        split; [right; exact H1|]. split; [lia|].
        intros y [<-|Hy] Hk; [lia | apply H3; assumption].
Qed.

Lemma distinct_on_first (s : list A) (x : A) :
  StronglySorted R s ->
  In x (distinct_on key s) ->
  In x s /\ forall y, In y s -> key y = key x -> y = x \/ R x y.
Proof.
  intros Hs Hx. destruct s as [|a s]; [contradiction|].
  inversion Hs as [|? ? Hs' Ha]; subst. rewrite Forall_forall in Ha.
  cbn [distinct_on] in Hx. destruct Hx as [<-|Hx].
  - split; [left; reflexivity|].
    intros y [<-|Hy] _; [left; reflexivity | right; apply Ha; exact Hy].
  - assert (Hlow : forall y, In y s -> key a <= key y)
      by (intros y Hy; apply R_key, Ha; exact Hy).
    destruct (distinct_from_first s (key a) x Hs' Hlow Hx) as [H1 [H2 H3]].
    split; [right; exact H1|].
    intros y [<-|Hy] Hk; [lia | apply H3; assumption].
Qed.

Lemma distinct_from_increasing (s : list A) (prev : Z) :
  StronglySorted R s ->
  (forall y, In y s -> prev <= key y) ->
  StronglySorted Z.lt (map key (distinct_from key prev s)) /\
  Forall (fun k => prev < k) (map key (distinct_from key prev s)).
Proof.
  intros Hs. revert prev. induction Hs as [|a s Hs IH Ha]; intros prev Hlow.
  - split; constructor.
  - rewrite Forall_forall in Ha. cbn [distinct_from].
    assert (Hlow' : forall y, In y s -> prev <= key y)
      by (intros y Hy; apply Hlow; right; exact Hy).
    pose proof (Hlow a (or_introl eq_refl)) as Hpa.
    destruct (Z.eqb_spec (key a) prev) as [E|E]; [apply IH; exact Hlow'|].
    assert (Hlowa : forall y, In y s -> key a <= key y)
      by (intros y Hy; apply R_key, Ha; exact Hy).
    destruct (IH (key a) Hlowa) as [H1 H2]. cbn [map]. split.
    + constructor; assumption.
    + constructor; [lia|]. eapply Forall_impl; [|exact H2].
      cbn. intros k Hk. lia.
Qed.

Lemma distinct_on_increasing (s : list A) :
  StronglySorted R s -> StronglySorted Z.lt (map key (distinct_on key s)).
Proof.
  intros Hs. destruct s as [|a s]; [constructor|].
  inversion Hs as [|? ? Hs' Ha]; subst. rewrite Forall_forall in Ha.
  assert (Hlow : forall y, In y s -> key a <= key y)
    by (intros y Hy; apply R_key, Ha; exact Hy).
  destruct (distinct_from_increasing s (key a) Hs' Hlow) as [H1 H2].
  cbn [distinct_on map]. constructor; assumption.
Qed.

Lemma distinct_from_cover (s : list A) (prev : Z) (y : A) :
  In y s ->
  key y = prev \/ exists x, In x (distinct_from key prev s) /\ key x = key y.
Proof.
  revert prev. induction s as [|a s IH]; intros prev Hy; [contradiction|].
  cbn [distinct_from]. destruct Hy as [<-|Hy].
  - destruct (Z.eqb_spec (key a) prev) as [E|E]; [left; exact E|].
    right. exists a. split; [left; reflexivity | reflexivity].
  - destruct (Z.eqb_spec (key a) prev) as [E|E]; [apply IH; exact Hy|].
    destruct (IH (key a) Hy) as [Hk|[x [Hx Hk]]].
    + right. exists a. split; [left; reflexivity | congruence].
    + right. exists x. split; [right; exact Hx | exact Hk].
Qed.

Lemma distinct_on_cover (s : list A) (y : A) :
  In y s -> exists x, In x (distinct_on key s) /\ key x = key y.
Proof.
  destruct s as [|a s]; [contradiction|]. cbn [distinct_on].
  intros [<-|Hy]; [exists a; split; [left; reflexivity | reflexivity]|].
  destruct (distinct_from_cover s (key a) y Hy) as [Hk|[x [Hx Hk]]].
  - exists a. split; [left; reflexivity | congruence].
  - exists x. split; [right; exact Hx | exact Hk].
Qed.

End Distinct.

Lemma increasing_NoDup (l : list Z) : StronglySorted Z.lt l -> NoDup l.
Proof.
  induction 1 as [|a l _ IH Ha]; constructor; [|exact IH].
  intros Hin. rewrite Forall_forall in Ha. specialize (Ha a Hin). lia.
Qed.

Lemma latest_first_spec (a b : UserResponse) :
  latest_first a b = true <->
  ur_questionId a < ur_questionId b \/
  (ur_questionId a = ur_questionId b /\ ur_createdAt b <= ur_createdAt a).
Proof.
  unfold latest_first.
  rewrite orb_true_iff, andb_true_iff, Z.ltb_lt, Z.eqb_eq, Z.leb_le. tauto.
Qed.

Lemma latest_first_total (a b : UserResponse) :
  latest_first a b = false -> latest_first b a = true.
Proof.
  intros H. apply latest_first_spec.
  destruct (latest_first a b) eqn:E; [discriminate|].
  assert (Hn : ~ (ur_questionId a < ur_questionId b \/
                  (ur_questionId a = ur_questionId b /\
                   ur_createdAt b <= ur_createdAt a)))
    by (intros Hc; apply latest_first_spec in Hc; congruence).
  lia.
Qed.

Lemma latest_first_trans (a b c : UserResponse) :
  latest_first a b = true -> latest_first b c = true -> latest_first a c = true.
Proof. rewrite !latest_first_spec. lia. Qed.

Lemma latest_first_key (a b : UserResponse) :
  latest_first a b = true -> ur_questionId a <= ur_questionId b.
Proof. rewrite latest_first_spec. lia. Qed.

(** The rows the query orders: those of the user in the questionnaire. *)
Lemma in_answered (table : list UserResponse) (uid : Z) (r : UserResponse) :
  In r (order_by latest_first
          (filter (fun r => (ur_userId r =? uid)
                            && str_eqb (ur_questionType r) (codes "aot")) table))
  <-> In r table /\ ur_userId r = uid /\ ur_questionType r = codes "aot".
Proof.
  split.
  - intros H. apply (Permutation_in _ (order_by_perm _ _)) in H.
    apply filter_In in H. rewrite andb_true_iff, Z.eqb_eq, str_eqb_eq in H.
    tauto.
  - intros H. apply (Permutation_in _ (Permutation_sym (order_by_perm _ _))).
    apply filter_In. rewrite andb_true_iff, Z.eqb_eq, str_eqb_eq. tauto.
Qed.

Lemma answered_sorted (table : list UserResponse) (uid : Z) :
  StronglySorted (fun a b => latest_first a b = true)
    (order_by latest_first
       (filter (fun r => (ur_userId r =? uid)
                         && str_eqb (ur_questionType r) (codes "aot")) table)).
Proof.
  apply order_by_sorted; [exact latest_first_total | exact latest_first_trans].
Qed.

Lemma latestResponses_NoDup (table : list UserResponse) (uid : Z) :
  NoDup (map questionId (latestResponses table uid)).
Proof.
  unfold latestResponses. rewrite map_map. cbn [questionId].
  apply increasing_NoDup.
  exact (distinct_on_increasing ur_questionId _ latest_first_key _
           (answered_sorted table uid)).
Qed.

Lemma latestResponses_questions (table : list UserResponse) (uid q : Z) :
  In q (map questionId (latestResponses table uid)) <->
  exists r, In r table /\ ur_userId r = uid /\
            ur_questionType r = codes "aot" /\ ur_questionId r = q.
Proof.
  unfold latestResponses. rewrite map_map. cbn [questionId]. split.
  - intros H. apply in_map_iff in H. destruct H as [r [<- Hr]].
    destruct (distinct_on_first ur_questionId _ latest_first_key _ r
                (answered_sorted table uid) Hr) as [Hin _].
    apply in_answered in Hin. exists r. tauto.
  - intros [r [Hr [Hu [Ht <-]]]].
    assert (Hin : In r (order_by latest_first
                          (filter (fun r => (ur_userId r =? uid)
                                            && str_eqb (ur_questionType r) (codes "aot"))
                                  table)))
      by (apply in_answered; auto).
    destruct (distinct_on_cover ur_questionId _ r Hin) as [x [Hx Hk]].
    rewrite <- Hk. apply in_map. exact Hx.
Qed.

Lemma latestResponses_row (table : list UserResponse) (uid : Z) (l : Response) :
  In l (latestResponses table uid) ->
  exists r, In r table /\ ur_userId r = uid /\
            ur_questionType r = codes "aot" /\
            ur_questionId r = questionId l /\ ur_response r = response l /\
            forall r', In r' table -> ur_userId r' = uid ->
                       ur_questionType r' = codes "aot" ->
                       ur_questionId r' = questionId l ->
                       ur_createdAt r' <= ur_createdAt r.
Proof.
  unfold latestResponses. intros Hl.
  apply in_map_iff in Hl. destruct Hl as [r [<- Hr]].
  destruct (distinct_on_first ur_questionId _ latest_first_key _ r
              (answered_sorted table uid) Hr) as [Hin Hfirst].
  apply in_answered in Hin. exists r. cbn [questionId response].
  repeat split; try tauto.
  intros r' Hr' Hu' Ht' Hq'.
  assert (Hin' : In r' (order_by latest_first
                          (filter (fun r => (ur_userId r =? uid)
                                            && str_eqb (ur_questionType r) (codes "aot"))
                                  table)))
    by (apply in_answered; auto).
  destruct (Hfirst r' Hin' Hq') as [->|HR]; [lia|].
  apply latest_first_spec in HR. lia.
Qed.

(** The query of the completion handler returns one answer for each
    question the user has answered in the questionnaire, and for no
    other; the answer is that of a row of the user which no row of the
    same question is later than. *)
Theorem latestResponses_latest (table : list UserResponse) (uid : Z) :
  NoDup (map questionId (latestResponses table uid)) /\
  (forall q,
     In q (map questionId (latestResponses table uid)) <->
     exists r, In r table /\ ur_userId r = uid /\
               ur_questionType r = codes "aot" /\ ur_questionId r = q) /\
  (forall l, In l (latestResponses table uid) ->
     exists r, In r table /\ ur_userId r = uid /\
               ur_questionType r = codes "aot" /\
               ur_questionId r = questionId l /\ ur_response r = response l /\
               forall r', In r' table -> ur_userId r' = uid ->
                          ur_questionType r' = codes "aot" ->
                          ur_questionId r' = questionId l ->
                          ur_createdAt r' <= ur_createdAt r).
Proof.
  split; [apply latestResponses_NoDup|].
  split; [apply latestResponses_questions | apply latestResponses_row].
Qed.



(** ** The questionnaire from the stored answers *)

Lemma calculateAOTScore_some (responses : list Response)
    (questions : list Question) (score : Z) :
  calculateAOTScore responses questions = Some score ->
  length (nodup Z.eq_dec (map questionId responses)) = length questions /\
  Z.of_nat (length responses) <= score <= 6 * Z.of_nat (length responses).
Proof.
  unfold calculateAOTScore, new_Set, set_size.
  destruct (Z.eqb_spec (Z.of_nat (length (nodup Z.eq_dec (map questionId responses))))
                       (Z.of_nat (length questions))) as [E|E];
    cbn [negb]; [|discriminate].
  intros H. injection H as <-. split; [apply Nat2Z.inj; exact E|].
  set (reversedMap := new_Map (map (fun q => (q_id q, isReversed q)) questions)).
  set (g := fun r : Response =>
              if match map_get (questionId r) reversedMap with
                 | Some b => b
                 | None => false
                 end
              then 7 - Z.min (Z.max (response r) 1) 6
              else Z.min (Z.max (response r) 1) 6).
  change (Z.of_nat (length responses)
          <= fold_left (fun acc r => acc + g r) responses 0
          <= 6 * Z.of_nat (length responses)).
  rewrite fold_left_sum.
  pose proof (sumZ_bounds g 1 6 responses) as Hb.
  assert (Hg : forall x, In x responses -> 1 <= g x <= 6).
  { intros x _. unfold g.
    destruct (match map_get (questionId x) reversedMap with
              | Some b => b
              | None => false
              end); lia. }
  specialize (Hb Hg). lia.
Qed.

Lemma calculateAOTScore_none (responses : list Response)
    (questions : list Question) :
  calculateAOTScore responses questions = None ->
  length (nodup Z.eq_dec (map questionId responses)) <> length questions.
Proof.
  unfold calculateAOTScore, new_Set, set_size.
  destruct (Z.eqb_spec (Z.of_nat (length (nodup Z.eq_dec (map questionId responses))))
                       (Z.of_nat (length questions))) as [E|E];
    cbn [negb]; [discriminate|].
  intros _ H. apply E. rewrite H. reflexivity.
Qed.

Lemma select_user_update_none (db : Db) (uid : Z) (f : User -> User) :
  (forall v, user_id (f v) = user_id v) ->
  select_user db uid = None ->
  select_user (update_users db uid f) uid = None.
Proof.
  intros Hf. unfold select_user, update_users. cbn [users].
  induction (users db) as [|v l IH]; [reflexivity|].
  cbn [find map]. destruct (user_id v =? uid) eqn:E; [discriminate|].
  rewrite E. exact IH.
Qed.

(** Fed with the answers read from the table, the completion handler
    either stores a score between [n] and [6n] for the [n] questions and
    flags the user, or reports a number of missing questions that is not
    0 and leaves the store as it is; it fails only for a user without a
    row. *)
Theorem questionnaire_from_table (db : Db) (table : list UserResponse)
    (uid : Z) (questions : list Question) :
  match completeQuestionnaire true db uid (latestResponses table uid) questions with
  | (QuestionnaireCompleted score, db') =>
      length (latestResponses table uid) = length questions /\
      Z.of_nat (length questions) <= score <= 6 * Z.of_nat (length questions) /\
      exists u, select_user db' uid = Some u /\
                hasCompletedQuestionnaire u = true /\ aotScore u = Some score
  | (QuestionnaireMissing missingCount, db') =>
      db' = db /\ missingCount <> 0 /\
      missingCount
      = Z.of_nat (length questions)
        - Z.of_nat (length (latestResponses table uid))
  | (QuestionnaireFailed, db') => select_user db uid = None
  | (QuestionnaireUnauthorized, _) => False
  end.
Proof.
  pose proof (latestResponses_NoDup table uid) as ND.
  unfold completeQuestionnaire. cbn [negb].
  destruct (calculateAOTScore (latestResponses table uid) questions)
    as [score|] eqn:Es.
  - destruct (calculateAOTScore_some _ _ _ Es) as [Hlen Hrange].
    rewrite (nodup_fixed_point Z.eq_dec ND), length_map in Hlen.
    set (f := fun u : User =>
                {| user_id := user_id u; totalScore := totalScore u;
                   hasCompletedQuestionnaire := true; aotScore := Some score |}).
    destruct (select_user db uid) as [u|] eqn:Eu.
    + rewrite (select_user_update db uid f u (fun v => eq_refl) Eu).
      split; [exact Hlen|]. split; [lia|].
      exists (f u). repeat split.
      apply (select_user_update db uid f u (fun v => eq_refl) Eu).
    + rewrite (select_user_update_none db uid f (fun v => eq_refl) Eu).
      reflexivity.
  - apply calculateAOTScore_none in Es.
    rewrite (nodup_fixed_point Z.eq_dec ND), length_map in Es.
    split; [reflexivity|]. split; [lia | reflexivity].
Qed.

(** ** The training session as a whole *)






(** ** Speakers of the tabular dialogue *)

Lemma all_matches_sound (re : RegExp) (fuel idx : nat) (x : str) (res : ExecResult) :
  In res (all_matches re fuel idx x) ->
  matches_at re (matched res ++ rest res) (rest res) (groups res).
Proof.
  revert idx x. induction fuel as [|fuel IH]; intros idx x Hin; [contradiction|].
  cbn [all_matches] in Hin.
  destruct (exec_from re idx x) as [res0|] eqn:E; [|contradiction].
  destruct Hin as [<-|Hin].
  - destruct (exec_from_sound re x idx res0 E) as [pre [_ [_ [Hm _]]]].
    apply match_at_sound. exact Hm.
  - destruct (matched res0) as [|ch w]; destruct (rest res0) as [|ch' y];
      try contradiction; eapply IH; exact Hin.
Qed.

Lemma messageRegex_speaker (x y : str) (c : caps) :
  matches_at messageRegex x y c ->
  exists content,
    (c = [Some (codes "Qaylee"); Some content] \/
     c = [Some (codes "Plato"); Some content]).
Proof.
  unfold matches_at, messageRegex, lit, star, lazy_star, space, any_char.
  cbn [source ignoreCase regexp group_count repeat Nat.max].
  intros H.
  apply Matches_Seq in H. destruct H as [y1 [c1 [H1 H]]].
  apply Matches_Group in H1. destruct H1 as [w [c0 [-> [H1 ->]]]].
  assert (Hw : (w = codes "Qaylee" \/ w = codes "Plato") /\ c0 = [None; None]).
  { inversion H1; subst;
      match goal with
      | Hl : Matches _ (Lit _) _ _ _ _ |- _ =>
          apply Matches_Lit in Hl; destruct Hl as [h [Hx [Hr ->]]];
          apply reads_exact in Hr; subst h; apply app_inv_tail in Hx; subst w
      end; auto. }
  destruct Hw as [Hw ->].
  apply Matches_Seq in H. destruct H as [y2 [c2 [H2 H]]].
  apply Matches_Lit in H2. destruct H2 as [h2 [-> [_ ->]]].
  apply Matches_Seq in H. destruct H as [y3 [c3 [H3 H]]].
  apply Matches_star_class in H3. destruct H3 as [ws [-> [_ ->]]].
  apply Matches_Seq in H. destruct H as [y4 [c4 [H4 H]]].
  apply Matches_Group in H4. destruct H4 as [content [c5 [-> [H4 ->]]]].
  apply Matches_star_class in H4. destruct H4 as [run [_ [_ ->]]].
  assert (Hc : c = set_cap 2 (Some content) (set_cap 1 (Some w) [None; None])).
  { inversion H as [| | | | | | | | | |r0 x0 c6 y0 c7 Hl|]; subst.
    inversion Hl as [| | |
                     |r1 r2 x1 c8 y5 c9 Hq
                     |r1 r2 x1 c8 y5 c9 Hp| | | | | |]; subst.
    - apply Matches_Lit in Hq. destruct Hq as [h [_ [_ ->]]]. reflexivity.
    - inversion Hp as [| | |
                       |r3 r4 x2 c10 y6 c11 Hq
                       |r3 r4 x2 c10 y6 c11 He| | | | | |]; subst.
      + apply Matches_Lit in Hq. destruct Hq as [h [_ [_ ->]]]. reflexivity.
      + inversion He; subst. reflexivity. }
  exists content. subst c. destruct Hw as [->| ->]; [left | right]; reflexivity.
Qed.

(** Every message of a reply of the tabular dialogue is spoken by
    [qaylee] or by [plato]; the messages of [qaylee] carry no table, those
    of [plato] carry the table of the reply. *)
Theorem healthNut_speakers (Json : Type) (JSON_parse : str -> option Json)
    (dialogueHistory : list Message) (aiResponse : str) :
  exists r,
    healthNutDialogue JSON_parse true dialogueHistory (Some aiResponse)
    = HealthNutOk r /\
    Forall (fun m =>
              (speaker m = codes "qaylee" /\ msg_table m = None) \/
              (speaker m = codes "plato" /\
               msg_table m = healthNutTable JSON_parse aiResponse))
           (messages r).
Proof.
  unfold healthNutDialogue. cbn [negb]. eexists. split; [reflexivity|].
  cbn [messages]. apply Forall_forall. intros m Hm.
  apply in_map_iff in Hm. destruct Hm as [mt [<- Hmt]].
  unfold matchAll in Hmt. apply all_matches_sound in Hmt.
  destruct (messageRegex_speaker _ _ _ Hmt) as [content [Hg|Hg]];
    unfold formatMessage, capture; rewrite Hg;
    cbn [get_cap nth speaker msg_table]; [left | right]; split; reflexivity.
Qed.

(** ** The catalogue and the badge types of the client *)

Lemma seeded_badge (nextId : Z -> Z) (db : Db) (t : str) :
  badges db = [] ->
  existsb (str_eqb t) BADGE_INFO_keys = true ->
  t <> [] /\ text_param t = Some t /\
  exists b, select_badge (initializeBadges nextId db) t = Some b /\
            badge_name b = t.
Proof.
  intros Hempty Hkey. unfold initializeBadges. rewrite Hempty.
  unfold select_badge. cbn [badges].
  apply existsb_exists in Hkey. destruct Hkey as [k [Hin Hk]].
  apply str_eqb_eq in Hk. subst k.
  unfold BADGE_INFO_keys in Hin. cbn [In] in Hin.
  destruct Hin as [<-|[<-|[<-|[<-|[<-|[]]]]]];
    (split; [discriminate|]); (split; [vm_compute; reflexivity|]);
    eexists; (split; [vm_compute; reflexivity|]); reflexivity.
Qed.

(** Once the start-up has filled an empty catalogue, a badge type the
    client reads from a reply is never unknown to the award endpoint: for
    a user of the store and a game type that fits its column (text the
    database receives as written), the call awards the badge of that
    name or reports it as owned.  Running the start-up again changes
    nothing. *)
Theorem seeded_catalogue_serves_client
    (nextId nextId' : Z -> Z) (db : Db) (uid : Z) (u : User)
    (text gameType stored badgeType : str) :
  badges db = [] ->
  select_user db uid = Some u ->
  text_param gameType = Some gameType ->
  varchar 50 gameType = Some stored ->
  extractBadgeAward text = Some badgeType ->
  (exists b,
     badge_name b = badgeType /\
     (fst (awardBadge true (initializeBadges nextId db) uid badgeType gameType)
      = BadgeAwardedSuccessfully b \/
      fst (awardBadge true (initializeBadges nextId db) uid badgeType gameType)
      = BadgeAlreadyAwarded b)) /\
  initializeBadges nextId' (initializeBadges nextId db)
  = initializeBadges nextId db.
Proof.
  intros Hempty Huser _ Hfits Hex. split.
  - assert (Hkey : existsb (str_eqb badgeType) BADGE_INFO_keys = true).
    { unfold extractBadgeAward in Hex.
      destruct (str_match badgeRegex text) as [mt|]; [|discriminate].
      destruct (truthy_capture 1 mt) as [name|]; [|discriminate].
      destruct (existsb (str_eqb (toLowerCase name)) BADGE_INFO_keys) eqn:E;
        [|discriminate].
      injection Hex as <-. exact E. }
    destruct (seeded_badge nextId db badgeType Hempty Hkey)
      as [Hne [Hparam [b [Hb Hn]]]].
    assert (Huser' : select_user (initializeBadges nextId db) uid = Some u).
    { unfold initializeBadges. rewrite Hempty. exact Huser. }
    exists b. split; [exact Hn|].
    unfold awardBadge. cbn [negb].
    destruct badgeType as [|ch w]; [contradiction|]. rewrite Hparam, Hb.
    destruct (select_userBadges (initializeBadges nextId db) uid (badge_id b));
      [|right; reflexivity].
    rewrite (insert_into_userBadges_accepted _ uid (ch :: w) gameType stored b u
               Huser' Hb Hfits).
    left. reflexivity.
  - unfold initializeBadges. rewrite Hempty. reflexivity.
Qed.

Lemma seeded_catalogue_serves_client_witness :
  let db :=
    {| users := [ {| user_id := 7; totalScore := 0;
                     hasCompletedQuestionnaire := true; aotScore := Some 50 |} ];
       badges := []; userBadges := [] |} in
  exists b,
    badge_name b = codes "fact_checker" /\
    (fst (awardBadge true (initializeBadges (fun k => k + 1) db) 7
            (codes "fact_checker") (codes "thought_zombies"))
     = BadgeAwardedSuccessfully b \/
     fst (awardBadge true (initializeBadges (fun k => k + 1) db) 7
            (codes "fact_checker") (codes "thought_zombies"))
     = BadgeAlreadyAwarded b).
Proof.
  intros db.
  destruct (seeded_catalogue_serves_client (fun k => k + 1) (fun k => k) db 7
              {| user_id := 7; totalScore := 0;
                 hasCompletedQuestionnaire := true; aotScore := Some 50 |}
              (codes "Sharp! [badge: Fact_Checker]") (codes "thought_zombies")
              (codes "thought_zombies") (codes "fact_checker") eq_refl)
    as [H _].
  - reflexivity.
  - vm_compute. reflexivity.
  - vm_compute. reflexivity.
  - vm_compute. reflexivity.
  - exact H.
Defined.

(** ** From the wizard to the score *)




(** ** A session of the game client *)

Lemma turn_badges (st : ThoughtZombiesGame.GameState) (t : GameTurn) :
  exists b,
    ThoughtZombiesGame.earnedBadges (turn st t)
    = ThoughtZombiesGame.add_badge (ThoughtZombiesGame.earnedBadges st) b.
Proof.
  unfold turn, ThoughtZombiesGame.submitResponse.
  cbn [ThoughtZombiesGame.earnedBadges].
  destruct (zombies_badge (geminiResponse t)) as [b|].
  - exists (Some b). reflexivity.
  - destruct (ThoughtZombiesGame.badgeType (geminiResponse t)).
    + eexists. reflexivity.
    + exists None. reflexivity.
Qed.

Lemma turn_stage (st : ThoughtZombiesGame.GameState) (t : GameTurn) :
  ThoughtZombiesGame.gameStage (turn st t)
  = if num_geb (ThoughtZombiesGame.totalScore (turn st t)) 100
       || (5 <=? ThoughtZombiesGame.badgeCount
                   (ThoughtZombiesGame.earnedBadges st)
                   (zombies_badge (geminiResponse t)))
    then ThoughtZombiesGame.results
    else ThoughtZombiesGame.gameStage st.
Proof. reflexivity. Qed.

Lemma turn_score (st : ThoughtZombiesGame.GameState) (t : GameTurn) :
  is_double (ThoughtZombiesGame.totalScore st) ->
  not_negative (ThoughtZombiesGame.totalScore st) ->
  not_negative (reasoningPoints t) /\ not_negative (engagementPoints t)
    /\ not_negative (bonusPoints t) ->
  is_double (ThoughtZombiesGame.totalScore (turn st t)) /\
  not_negative (ThoughtZombiesGame.totalScore (turn st t)) /\
  num_leb (ThoughtZombiesGame.totalScore st)
          (ThoughtZombiesGame.totalScore (turn st t)) = true.
Proof.
  intros Hd Hn [Hr [He Hb]].
  unfold turn, ThoughtZombiesGame.submitResponse.
  cbn [ThoughtZombiesGame.totalScore]. unfold ThoughtZombiesGame.newTotalScore.
  destruct (num_add_grows _ _ Hd Hn Hr) as [D1 [N1 L1]].
  destruct (num_add_grows _ _ D1 N1 He) as [D2 [N2 L2]].
  destruct (num_add_grows _ _ D2 N2 Hb) as [D3 [N3 L3]].
  split; [exact D3|]. split; [exact N3|].
  exact (num_leb_trans _ _ _ L1 (num_leb_trans _ _ _ L2 L3)).
Qed.

Lemma badgeCount_at_least (earned : list ThoughtZombiesGame.EarnedBadge)
    (b : option Badge) :
  Z.of_nat (length earned) <= ThoughtZombiesGame.badgeCount earned b.
Proof.
  unfold ThoughtZombiesGame.badgeCount. destruct b as [b|]; [|lia].
  destruct (ThoughtZombiesGame.has_badge earned b); lia.
Qed.

(** Over a session of the game client.  The elements of the collection
    keep distinct ids, and the collection only grows, by badge objects of
    replies; the results stage is never left.  A turn ends in the results
    stage exactly when the session was there, or the score with the
    amounts of the turn is at least 100, or the collection, with the
    badge of the reply when no element has its id, counts five; the
    collection takes the badge of the reply, or else the badge of the
    award answer when the message names a badge type, unless an element
    has its id.  So a session that starts a turn with five elements or
    more is in the results stage after it, whatever the elements are.
    When the score is a number of the language that is not negative and
    so are the amounts of the turns, the score never decreases, and a
    session that starts a turn with 100 points or more is in the results
    stage after it. *)
Theorem game_session_invariants (st : ThoughtZombiesGame.GameState)
    (turns : list GameTurn) :
  (NoDup (map ThoughtZombiesGame.id (ThoughtZombiesGame.earnedBadges st)) ->
   NoDup (map ThoughtZombiesGame.id
            (ThoughtZombiesGame.earnedBadges (gameSession st turns)))) /\
  (exists added,
     ThoughtZombiesGame.earnedBadges (gameSession st turns)
     = ThoughtZombiesGame.earnedBadges st
       ++ map ThoughtZombiesGame.replyBadge added) /\
  (ThoughtZombiesGame.gameStage st = ThoughtZombiesGame.results ->
   ThoughtZombiesGame.gameStage (gameSession st turns)
   = ThoughtZombiesGame.results) /\
  (forall t,
     let ids := map ThoughtZombiesGame.id (ThoughtZombiesGame.earnedBadges st) in
     let fresh (b : Badge) := if in_dec Z.eq_dec (badge_id b) ids then 0 else 1 in
     ThoughtZombiesGame.gameStage (turn st t) = ThoughtZombiesGame.results
     <-> ThoughtZombiesGame.gameStage st = ThoughtZombiesGame.results
         \/ num_geb (num_add (num_add (num_add (ThoughtZombiesGame.totalScore st)
                                                (reasoningPoints t))
                                       (engagementPoints t))
                              (bonusPoints t)) 100 = true
         \/ 5 <= Z.of_nat (length (ThoughtZombiesGame.earnedBadges st))
                  + match zombies_badge (geminiResponse t) with
                    | Some b => fresh b
                    | None => 0
                    end) /\
  (forall t,
     let ids := map ThoughtZombiesGame.id (ThoughtZombiesGame.earnedBadges st) in
     let brought :=
       match zombies_badge (geminiResponse t) with
       | Some b => Some b
       | None =>
           match extractBadgeAward (message (geminiResponse t)), awardReply t with
           | Some _, Some (BadgeAwardedSuccessfully b) => Some b
           | Some _, Some (BadgeAlreadyAwarded b) => Some b
           | _, _ => None
           end
       end in
     ThoughtZombiesGame.earnedBadges (turn st t)
     = match brought with
       | Some b =>
           if in_dec Z.eq_dec (badge_id b) ids
           then ThoughtZombiesGame.earnedBadges st
           else ThoughtZombiesGame.earnedBadges st
                ++ [ThoughtZombiesGame.replyBadge b]
       | None => ThoughtZombiesGame.earnedBadges st
       end) /\
  ((5 <= length (ThoughtZombiesGame.earnedBadges st))%nat -> turns <> [] ->
   ThoughtZombiesGame.gameStage (gameSession st turns)
   = ThoughtZombiesGame.results) /\
  (is_double (ThoughtZombiesGame.totalScore st) ->
   not_negative (ThoughtZombiesGame.totalScore st) ->
   Forall (fun t => not_negative (reasoningPoints t)
                    /\ not_negative (engagementPoints t)
                    /\ not_negative (bonusPoints t)) turns ->
   num_leb (ThoughtZombiesGame.totalScore st)
           (ThoughtZombiesGame.totalScore (gameSession st turns)) = true /\
   (num_geb (ThoughtZombiesGame.totalScore st) 100 = true -> turns <> [] ->
    ThoughtZombiesGame.gameStage (gameSession st turns)
    = ThoughtZombiesGame.results)).
Proof.
  assert (Hkeep : forall turns st,
            ThoughtZombiesGame.gameStage st = ThoughtZombiesGame.results ->
            ThoughtZombiesGame.gameStage (gameSession st turns)
            = ThoughtZombiesGame.results).
  { clear. induction turns as [|t turns IH]; intros st H; [exact H|].
    cbn [gameSession fold_left]. apply IH. rewrite turn_stage, H.
    destruct (_ || _); reflexivity. }
  assert (Hscore : forall turns st,
            is_double (ThoughtZombiesGame.totalScore st) ->
            not_negative (ThoughtZombiesGame.totalScore st) ->
            Forall (fun t => not_negative (reasoningPoints t)
                             /\ not_negative (engagementPoints t)
                             /\ not_negative (bonusPoints t)) turns ->
            num_leb (ThoughtZombiesGame.totalScore st)
                    (ThoughtZombiesGame.totalScore (gameSession st turns))
            = true).
  { clear. induction turns as [|t turns IH]; intros st Hd Hn Hall.
    - cbn [gameSession fold_left]. apply num_leb_refl.
      destruct Hn as [[n [-> _]]| ->]; discriminate.
    - inversion Hall as [|? ? Ht Hrest]; subst.
      destruct (turn_score st t Hd Hn Ht) as [D [N L]].
      cbn [gameSession fold_left].
      exact (num_leb_trans _ _ _ L (IH (turn st t) D N Hrest)). }
  assert (Hfresh : forall earned b,
            ThoughtZombiesGame.has_badge earned b
            = if in_dec Z.eq_dec (badge_id b) (map ThoughtZombiesGame.id earned)
              then true else false).
  { clear. intros earned b.
    destruct (in_dec Z.eq_dec (badge_id b) (map ThoughtZombiesGame.id earned))
      as [Hin|Hout].
    - apply has_badge_in. exact Hin.
    - destruct (ThoughtZombiesGame.has_badge earned b) eqn:E; [|reflexivity].
      apply has_badge_in in E. contradiction. }
  split; [|split; [|split; [|split; [|split; [|split]]]]].
  - revert st. induction turns as [|t turns IH]; intros st ND; [exact ND|].
    cbn [gameSession fold_left]. apply IH.
    destruct (turn_badges st t) as [b ->]. apply add_badge_NoDup. exact ND.
  - revert st. induction turns as [|t turns IH]; intros st.
    + exists []. cbn [gameSession fold_left map]. rewrite app_nil_r. reflexivity.
    + cbn [gameSession fold_left].
      destruct (IH (turn st t)) as [added E].
      destruct (turn_badges st t) as [b Eb].
      destruct (add_badge_grows (ThoughtZombiesGame.earnedBadges st) b)
        as [first Ef].
      exists (first ++ added).
      unfold gameSession in E. rewrite E, Eb, Ef, map_app, app_assoc.
      reflexivity.
  - apply Hkeep.
  - intros t ids fresh. rewrite turn_stage.
    change (ThoughtZombiesGame.totalScore (turn st t))
      with (num_add (num_add (num_add (ThoughtZombiesGame.totalScore st)
                                      (reasoningPoints t))
                             (engagementPoints t))
                    (bonusPoints t)).
    assert (Hcount : ThoughtZombiesGame.badgeCount
                       (ThoughtZombiesGame.earnedBadges st)
                       (zombies_badge (geminiResponse t))
                     = Z.of_nat (length (ThoughtZombiesGame.earnedBadges st))
                       + match zombies_badge (geminiResponse t) with
                         | Some b => fresh b
                         | None => 0
                         end).
    { unfold ThoughtZombiesGame.badgeCount, fresh, ids.
      destruct (zombies_badge (geminiResponse t)) as [b|]; [|lia].
      rewrite Hfresh. destruct (in_dec _ _ _); reflexivity. }
    rewrite Hcount.
    destruct (num_geb _ 100) eqn:Es; cbn [orb].
    + split; [auto | reflexivity].
    + match goal with
      | |- context [5 <=? ?c] => destruct (Z.leb_spec 5 c) as [H5|H5]
      end.
      * split; [auto | reflexivity].
      * split; [auto|]. intros [H|[H|H]]; [exact H | discriminate | lia].
  - intros t ids brought.
    unfold turn, ThoughtZombiesGame.submitResponse.
    cbn [ThoughtZombiesGame.earnedBadges].
    unfold brought, ids, ThoughtZombiesGame.badgeType,
      ThoughtZombiesGame.add_badge.
    destruct (zombies_badge (geminiResponse t)) as [b|].
    + rewrite Hfresh. destruct (in_dec _ _ _); reflexivity.
    + destruct (extractBadgeAward (message (geminiResponse t))) as [ty|];
        [|reflexivity].
      destruct (awardReply t) as [[| | | |b|b]|]; cbn [ThoughtZombiesGame.data_badge];
        try reflexivity;
        rewrite Hfresh; destruct (in_dec _ _ _); reflexivity.
  - intros H5 Hne. destruct turns as [|t turns]; [contradiction|].
    cbn [gameSession fold_left]. apply Hkeep. rewrite turn_stage.
    pose proof (badgeCount_at_least (ThoughtZombiesGame.earnedBadges st)
                  (zombies_badge (geminiResponse t))) as Hc.
    replace (5 <=? ThoughtZombiesGame.badgeCount
                     (ThoughtZombiesGame.earnedBadges st)
                     (zombies_badge (geminiResponse t))) with true
      by (symmetry; apply Z.leb_le; lia).
    rewrite orb_true_r. reflexivity.
  - intros Hd Hn Hall. split; [apply Hscore; assumption|].
    intros H100 Hne. destruct turns as [|t turns]; [contradiction|].
    inversion Hall as [|? ? Ht Hrest]; subst.
    cbn [gameSession fold_left]. apply Hkeep. rewrite turn_stage.
    destruct (turn_score st t Hd Hn Ht) as [_ [_ L]].
    rewrite (num_geb_leb _ _ 100 L H100). reflexivity.
Qed.

(** ** Request log *)

(** A logged line never has more than 80 code units; a line within the
    limit is logged as it is, a longer one keeps its first 79 code units
    and ends in an ellipsis. *)
Theorem truncateLogLine_bounded (logLine : str) :
  (length (truncateLogLine logLine) <= 80)%nat /\
  firstn 79 (truncateLogLine logLine) = firstn 79 logLine /\
  ((length logLine <= 80)%nat -> truncateLogLine logLine = logLine) /\
  ((80 < length logLine)%nat ->
   length (truncateLogLine logLine) = 80%nat /\
   truncateLogLine logLine = firstn 79 logLine ++ [8230%N]).
Proof.
  unfold truncateLogLine.
  destruct (Nat.ltb_spec 80 (length logLine)) as [H|H].
  - assert (Hlen : length (firstn 79 logLine) = 79%nat)
      by (apply firstn_length_le; lia).
    split; [rewrite length_app, Hlen; simpl; lia|].
    split.
    { rewrite firstn_app, Hlen, Nat.sub_diag, firstn_O, app_nil_r.
      rewrite firstn_firstn, Nat.min_id. reflexivity. }
    split; [lia|]. intros _.
    split; [rewrite length_app, Hlen; reflexivity | reflexivity].
  - split; [exact H|]. split; [reflexivity|].
    split; [reflexivity | lia].
Qed.

(** ** The wizard of the questionnaire *)

Lemma posted_more (calls more : list QuestionnaireWizard.Call)
    (q : QuestionnaireWizard.Question) :
  posted calls q -> posted (calls ++ more) q.
Proof. intros [v H]. exists v. apply in_or_app. left. exact H. Qed.

Lemma same_id_same_index (aots : list QuestionnaireWizard.Question)
    (i j : nat) (q q' : QuestionnaireWizard.Question) :
  NoDup (map QuestionnaireWizard.id aots) ->
  nth_error aots i = Some q -> nth_error aots j = Some q' ->
  QuestionnaireWizard.id q = QuestionnaireWizard.id q' -> i = j.
Proof.
  intros ND Hi Hj E.
  apply (proj1 (NoDup_nth_error (map QuestionnaireWizard.id aots)) ND).
  - rewrite length_map. apply nth_error_Some. congruence.
  - rewrite !nth_error_map, Hi, Hj. cbn. congruence.
Qed.

Lemma nth_error_prefix {A} (l l' : list A) (j : nat) (x : A) :
  (j < length l)%nat -> nth_error (l ++ l') j = Some x -> nth_error l j = Some x.
Proof. intros H E. rewrite nth_error_app1 in E by exact H. exact E. Qed.

(** A question of the questionnaire whose id is in the [Map] when it is
    the furthest question shown has been posted. *)
Lemma reached_posted (aots topics : list QuestionnaireWizard.Question)
    (reached : nat) (st : QuestionnaireWizard.State)
    (calls : list QuestionnaireWizard.Call)
    (q : QuestionnaireWizard.Question) (v : Z) :
  NoDup (map QuestionnaireWizard.id aots) ->
  wizard_inv aots topics reached st calls ->
  nth_error aots reached = Some q ->
  map_get (QuestionnaireWizard.id q) (QuestionnaireWizard.responses st) = Some v ->
  posted calls q.
Proof.
  intros ND [_ [_ [Hkeys _]]] Hq Hget.
  destruct (Hkeys _ _ Hget) as [j [q' [Hj [Hq' [Hid Hp]]]]].
  assert (Hlen : (reached < length aots)%nat)
    by (apply nth_error_Some; congruence).
  apply nth_error_prefix in Hq'; [|lia].
  assert (j = reached) by (apply (same_id_same_index aots j reached q' q); auto).
  subst j. congruence.
Qed.

Lemma wizard_inv_more (aots topics : list QuestionnaireWizard.Question)
    (reached : nat) (st : QuestionnaireWizard.State)
    (calls more : list QuestionnaireWizard.Call) :
  wizard_inv aots topics reached st calls ->
  wizard_inv aots topics reached st (calls ++ more).
Proof.
  intros [Hidx [Hreach [Hkeys Hbefore]]].
  split; [exact Hidx|]. split; [exact Hreach|]. split.
  - intros k v Hget. destruct (Hkeys k v Hget) as [j [q [Hj [Hq [Hid Hp]]]]].
    exists j, q. repeat split; try assumption. apply posted_more. exact Hp.
  - intros j q Hj Hq. apply posted_more. exact (Hbefore j q Hj Hq).
Qed.

Lemma handle_inv (aots topics : list QuestionnaireWizard.Question)
    (reached : nat) (st : QuestionnaireWizard.State)
    (calls : list QuestionnaireWizard.Call) (e : QuestionnaireWizard.Event) :
  NoDup (map QuestionnaireWizard.id aots) ->
  wizard_inv aots topics reached st calls ->
  (exists reached',
     wizard_inv aots topics reached'
       (fst (QuestionnaireWizard.handle (aots ++ topics) st e))
       (calls ++ snd (QuestionnaireWizard.handle (aots ++ topics) st e))) /\
  (In QuestionnaireWizard.PostComplete
      (snd (QuestionnaireWizard.handle (aots ++ topics) st e)) ->
   forall q, In q aots -> posted calls q).
Proof.
  intros ND Inv. pose proof Inv as [Hidx [Hreach [Hkeys Hbefore]]].
  unfold QuestionnaireWizard.handle, QuestionnaireWizard.currentQuestion.
  destruct (Z.ltb_spec (QuestionnaireWizard.currentIndex st) 0) as [Hneg|_];
    [lia|].
  set (i := Z.to_nat (QuestionnaireWizard.currentIndex st)).
  assert (Hi : QuestionnaireWizard.currentIndex st = Z.of_nat i)
    by (unfold i; lia).
  destruct (nth_error (aots ++ topics) i) as [q|] eqn:Eq.
  2:{ cbn [fst snd]. rewrite app_nil_r.
      split; [exists reached; exact Inv | intros []]. }
  destruct e as [value| |].
  - (* an option is chosen *)
    cbn [fst snd]. split; [|intros [H|[]]; discriminate].
    exists reached. split; [exact Hidx|]. split; [exact Hreach|]. split.
    + intros k v. cbn [QuestionnaireWizard.responses].
      rewrite map_get_map_set.
      destruct (Z.eqb_spec k (QuestionnaireWizard.id q)) as [->|Hk].
      * intros _. exists i, q. split; [lia|]. split; [exact Eq|].
        split; [reflexivity|]. exists value. apply in_or_app. right.
        left. reflexivity.
      * intros Hget. destruct (Hkeys k v Hget) as [j [q' [Hj [Hq' [Hid Hp]]]]].
        exists j, q'. repeat split; try assumption. apply posted_more. exact Hp.
    + intros j q' Hj Hq'. apply posted_more. exact (Hbefore j q' Hj Hq').
  - (* the button Next *)
    destruct (map_get (QuestionnaireWizard.id q) (QuestionnaireWizard.responses st))
      as [v|] eqn:Eget.
    2:{ cbn [fst snd]. rewrite app_nil_r.
        split; [exists reached; exact Inv | intros []]. }
    assert (Hfar : forall q', nth_error aots i = Some q' -> i = reached ->
                              posted calls q').
    { intros q' Hq' ->.
      assert (q' = q).
      { rewrite nth_error_app1 in Eq by (apply nth_error_Some; congruence).
        congruence. }
      subst q'. exact (reached_posted aots topics reached st calls q v ND Inv Hq' Eget). }
    destruct (Z.eqb_spec (QuestionnaireWizard.currentIndex st)
                (Z.of_nat (length (aots ++ topics)) - 1)) as [Hlast|Hnot];
      cbn [fst snd].
    + (* on the last question: the completion is requested *)
      split; [exists reached; apply wizard_inv_more; exact Inv|].
      intros _ q' Hq'. apply In_nth_error in Hq'. destruct Hq' as [j Hj].
      assert (Hjlen : (j < length aots)%nat) by (apply nth_error_Some; congruence).
      assert (Hall : (length aots <= length (aots ++ topics))%nat)
        by (rewrite length_app; lia).
      assert (Hir : i = reached) by lia.
      destruct (Nat.eq_dec j reached) as [->|Hne].
      * apply Hfar; [rewrite Hir; exact Hj | exact Hir].
      * apply (Hbefore j q'); [lia | exact Hj].
    + (* the next question is shown *)
      split; [|intros []]. rewrite app_nil_r.
      assert (Hin : (i < length (aots ++ topics))%nat)
        by (apply nth_error_Some; congruence).
      destruct (Nat.eq_dec i reached) as [Hir|Hir].
      * exists (S reached). split; [cbn [QuestionnaireWizard.currentIndex]; lia|].
        split; [lia|]. split.
        -- intros k v' Hget. cbn [QuestionnaireWizard.responses] in Hget.
           destruct (Hkeys k v' Hget) as [j [q' [Hj H]]].
           exists j, q'. split; [lia | exact H].
        -- intros j q' Hj Hq'. destruct (Nat.eq_dec j reached) as [->|Hne].
           ++ apply Hfar; [rewrite Hir; exact Hq' | exact Hir].
           ++ apply (Hbefore j q'); [lia | exact Hq'].
      * exists reached. split; [cbn [QuestionnaireWizard.currentIndex]; lia|].
        split; [exact Hreach|]. split; [exact Hkeys | exact Hbefore].
  - (* the button Previous *)
    destruct (Z.eqb_spec (QuestionnaireWizard.currentIndex st) 0) as [H0|H0];
      cbn [fst snd]; rewrite app_nil_r; (split; [|intros []]);
      exists reached; [exact Inv|].
    split; [cbn [QuestionnaireWizard.currentIndex]; lia|].
    split; [exact Hreach|]. split; [exact Hkeys | exact Hbefore].
Qed.

Lemma run_snoc (questions : list QuestionnaireWizard.Question)
    (events : list QuestionnaireWizard.Event) (e : QuestionnaireWizard.Event) :
  QuestionnaireWizard.run questions (events ++ [e])
  = (fst (QuestionnaireWizard.handle questions
            (fst (QuestionnaireWizard.run questions events)) e),
     snd (QuestionnaireWizard.run questions events)
     ++ snd (QuestionnaireWizard.handle questions
               (fst (QuestionnaireWizard.run questions events)) e)).
Proof.
  unfold QuestionnaireWizard.run. rewrite fold_left_app. cbn [fold_left].
  destruct (QuestionnaireWizard.handle questions _ e). reflexivity.
Qed.

Lemma split_at_last {A} (l before after : list A) (x c : A) :
  l ++ [x] = before ++ c :: after ->
  (after = [] /\ before = l /\ x = c) \/
  exists after', l = before ++ c :: after'.
Proof.
  intros E. destruct after as [|a after] using rev_ind.
  - left. apply app_inj_tail in E. destruct E as [-> ->]. auto.
  - right. clear IHafter. rewrite app_comm_cons, app_assoc in E.
    apply app_inj_tail in E. destruct E as [E _]. exists after. exact E.
Qed.

(** Over the questions of the questionnaire followed by the topic
    questions, with distinct ids among the former, the wizard always
    shows a question of the list, and whenever it requests the
    completion it has before that posted an answer, with the type of the
    question, for every question of the questionnaire. *)
Theorem wizard_posts_before_complete
    (aots topics : list QuestionnaireWizard.Question)
    (events : list QuestionnaireWizard.Event) :
  aots ++ topics <> [] ->
  NoDup (map QuestionnaireWizard.id aots) ->
  (exists q,
     QuestionnaireWizard.currentQuestion (aots ++ topics)
       (fst (QuestionnaireWizard.run (aots ++ topics) events)) = Some q) /\
  forall before after,
    snd (QuestionnaireWizard.run (aots ++ topics) events)
    = before ++ QuestionnaireWizard.PostComplete :: after ->
    forall q, In q aots -> posted before q.
Proof.
  intros Hne ND.
  assert (Hmain :
    (exists reached,
       wizard_inv aots topics reached
         (fst (QuestionnaireWizard.run (aots ++ topics) events))
         (snd (QuestionnaireWizard.run (aots ++ topics) events))) /\
    forall before after,
      snd (QuestionnaireWizard.run (aots ++ topics) events)
      = before ++ QuestionnaireWizard.PostComplete :: after ->
      forall q, In q aots -> posted before q).
  { induction events as [|e events IH] using rev_ind.
    - split.
      + exists 0%nat. unfold wizard_inv, QuestionnaireWizard.run.
        cbn [fold_left fst snd QuestionnaireWizard.initial
             QuestionnaireWizard.currentIndex QuestionnaireWizard.responses].
        split; [lia|]. split.
        * destruct (aots ++ topics); [contradiction | cbn [length]; lia].
        * split; [intros k v H; discriminate | intros j q H; lia].
      + intros before after H. unfold QuestionnaireWizard.run in H.
        cbn [fold_left snd] in H. destruct before; discriminate.
    - destruct IH as [[reached Inv] IH]. rewrite run_snoc. cbn [fst snd].
      destruct (handle_inv aots topics reached _ _ e ND Inv) as [Hinv Hcomplete].
      split; [exact Hinv|].
      intros before after E.
      set (st := fst (QuestionnaireWizard.run (aots ++ topics) events)) in *.
      set (calls := snd (QuestionnaireWizard.run (aots ++ topics) events)) in *.
      assert (Hnew : snd (QuestionnaireWizard.handle (aots ++ topics) st e) = []
                     \/ exists c, snd (QuestionnaireWizard.handle (aots ++ topics) st e)
                                  = [c]).
      { unfold QuestionnaireWizard.handle.
        destruct (QuestionnaireWizard.currentQuestion (aots ++ topics) st);
          [|left; reflexivity].
        destruct e.
        - right. eexists. reflexivity.
        - destruct (map_get _ _); [|left; reflexivity].
          destruct (_ =? _); [right; eexists | left]; reflexivity.
        - destruct (_ =? _); left; reflexivity. }
      destruct Hnew as [Hnil|[c Hc]].
      + rewrite Hnil, app_nil_r in E. exact (IH before after E).
      + rewrite Hc in E, Hcomplete.
        destruct (split_at_last _ _ _ _ _ E) as [[_ [-> ->]]|[after' E']].
        * apply Hcomplete. left. reflexivity.
        * exact (IH before after' E'). }
  destruct Hmain as [[reached [Hidx [Hreach _]]] Hcalls].
  split; [|exact Hcalls].
  unfold QuestionnaireWizard.currentQuestion.
  destruct (Z.ltb_spec (QuestionnaireWizard.currentIndex
                          (fst (QuestionnaireWizard.run (aots ++ topics) events))) 0);
    [lia|].
  destruct (nth_error (aots ++ topics)
              (Z.to_nat (QuestionnaireWizard.currentIndex
                           (fst (QuestionnaireWizard.run (aots ++ topics) events)))))
    as [q|] eqn:E; [exists q; reflexivity|].
  apply nth_error_None in E. lia.
Qed.

Lemma wizard_posts_before_complete_witness :
  let aot := codes "aot" in
  let q1 := {| QuestionnaireWizard.id := 1; QuestionnaireWizard.type := aot |} in
  let q2 := {| QuestionnaireWizard.id := 2; QuestionnaireWizard.type := aot |} in
  let t1 := {| QuestionnaireWizard.id := 1;
               QuestionnaireWizard.type := codes "topic" |} in
  snd (QuestionnaireWizard.run [q1; q2; t1]
         [ QuestionnaireWizard.Select 4; QuestionnaireWizard.Next;
           QuestionnaireWizard.Select 2; QuestionnaireWizard.Next;
           QuestionnaireWizard.Next ])
  = [ QuestionnaireWizard.PostResponse 1 4 aot;
      QuestionnaireWizard.PostResponse 2 2 aot;
      QuestionnaireWizard.PostComplete ] /\
  posted [ QuestionnaireWizard.PostResponse 1 4 aot;
           QuestionnaireWizard.PostResponse 2 2 aot ] q2.
Proof.
  intros aot q1 q2 t1. split; [reflexivity|].
  destruct (wizard_posts_before_complete [q1; q2] [t1]
              [ QuestionnaireWizard.Select 4; QuestionnaireWizard.Next;
                QuestionnaireWizard.Select 2; QuestionnaireWizard.Next;
                QuestionnaireWizard.Next ]) as [_ H].
  - discriminate.
  - repeat constructor; simpl; intuition discriminate.
  - apply (H [ QuestionnaireWizard.PostResponse 1 4 aot;
               QuestionnaireWizard.PostResponse 2 2 aot ] []).
    + reflexivity.
    + right. left. reflexivity.
Defined.
